(** * Verification of the journal plugin's content-transformation pipeline

    A shallow embedding of the TypeScript sources
    ([src/utils/coordinateParser.ts], [src/utils/logger.ts] (DateUtils),
    [src/utils/fileUtils.ts], [src/services/noteProcessor.ts], the abstract
    [AIService] class and the [Scheduler] of [src/services/journalManager.ts])
    followed by the theorems that settle the specification's claims.

    Conventions of the embedding.
    - A JavaScript string is a sequence of UTF-16 code units.  The model covers
      the code units 0..255 (Latin-1), so a string is a [list ascii]; the
      degree sign is the single code unit 176.
    - A JavaScript number is an IEEE-754 binary64 value, modelled by the
      Standard Library's [spec_float] at precision 53.
    - Regular expressions are kept as syntax trees and run by a backtracking
      matcher that follows the ECMAScript rules the program relies on
      (leftmost match, greedy quantifiers, capture groups, the [g] and [i]
      flags).
    - Logging calls have no effect on any result and are left out. *)

From Stdlib Require Import String Ascii ZArith Lia Bool Arith PeanoNat List.
From Stdlib Require Import Floats.SpecFloat.
Import ListNotations.

Set Implicit Arguments.
Local Open Scope list_scope.

(* ================================================================== *)
(** * Part I: the embedding *)
(* ================================================================== *)

(** ** JavaScript strings *)

Module JsString.

Definition str := list ascii.

(** String literals of the source are written [lit "..."]. *)
Definition lit (s : string) : str := list_ascii_of_string s.

Definition code (c : ascii) : nat := nat_of_ascii c.

Definition eqb (a b : str) : bool :=
  if list_eq_dec ascii_dec a b then true else false.

(** [\d] *)
Definition isDigit (c : ascii) : bool :=
  (48 <=? code c) && (code c <=? 57).

(** [\s], which is also the set that [trim] removes: tab, line feed,
    vertical tab, form feed, carriage return, space and no-break space. *)
Definition isSpace (c : ascii) : bool :=
  let n := code c in
  (n =? 9) || (n =? 10) || (n =? 11) || (n =? 12) || (n =? 13)
  || (n =? 32) || (n =? 160).

Definition isAny (_ : ascii) : bool := true.

Definition oneOf (cs : string) (c : ascii) : bool :=
  existsb (Ascii.eqb c) (lit cs).

Definition isUpperAZ (c : ascii) : bool := (65 <=? code c) && (code c <=? 90).
Definition isLowerAZ (c : ascii) : bool := (97 <=? code c) && (code c <=? 122).
(** Latin-1 letters with a case partner inside Latin-1. *)
Definition isUpperLatin (c : ascii) : bool :=
  (192 <=? code c) && (code c <=? 222) && negb (code c =? 215).
Definition isLowerLatin (c : ascii) : bool :=
  (224 <=? code c) && (code c <=? 254) && negb (code c =? 247).

Definition lowerChar (c : ascii) : ascii :=
  if isUpperAZ c || isUpperLatin c then ascii_of_nat (code c + 32) else c.

Definition upperChar (c : ascii) : ascii :=
  if isLowerAZ c || isLowerLatin c then ascii_of_nat (code c - 32) else c.

(** [String.prototype.toLowerCase]. *)
Definition toLowerCase (s : str) : str := map lowerChar s.

(** [String.prototype.toUpperCase]; the sharp s (223) becomes [SS].  The
    upper-case forms of 181 and 255 lie outside Latin-1 and are left alone. *)
Definition toUpperCase (s : str) : str :=
  flat_map (fun c => if code c =? 223 then lit "SS" else [upperChar c]) s.

Fixpoint trimStart (s : str) : str :=
  match s with
  | c :: s' => if isSpace c then trimStart s' else s
  | [] => []
  end.

Definition trimEnd (s : str) : str := rev (trimStart (rev s)).

(** [String.prototype.trim]. *)
Definition trim (s : str) : str := trimEnd (trimStart s).

(** [s.split(sep)] for a one-character separator: always at least one field. *)
Fixpoint split (sep : ascii) (s : str) : list str :=
  match s with
  | [] => [[]]
  | c :: s' =>
      if Ascii.eqb c sep then [] :: split sep s'
      else match split sep s' with
           | f :: fs => (c :: f) :: fs
           | [] => [[c]]
           end
  end.

(** [fields.join(sep)]. *)
Fixpoint join (sep : str) (fields : list str) : str :=
  match fields with
  | [] => []
  | [f] => f
  | f :: fs => f ++ sep ++ join sep fs
  end.

Fixpoint startsWith (s p : str) {struct p} : bool :=
  match p, s with
  | [], _ => true
  | x :: p', y :: s' => Ascii.eqb x y && startsWith s' p'
  | _ :: _, [] => false
  end.

(** [s.includes(p)]. *)
Fixpoint includes (s p : str) : bool :=
  startsWith s p ||
  match s with
  | [] => false
  | _ :: s' => includes s' p
  end.

(** [s.slice(-k)] for [k > 0]: the last [k] code units. *)
Definition sliceLast (k : nat) (s : str) : str := skipn (length s - k) s.

(** [s.padStart(k, c)]. *)
Definition padStart (k : nat) (c : ascii) (s : str) : str :=
  repeat c (k - length s) ++ s.

Definition digitChar (d : nat) : ascii := ascii_of_nat (48 + d).

Fixpoint natDigits (fuel n : nat) (acc : str) : str :=
  match fuel with
  | 0 => acc
  | S f =>
      let acc' := digitChar (n mod 10) :: acc in
      if n / 10 =? 0 then acc' else natDigits f (n / 10) acc'
  end.

(** [n.toString()] for a non-negative integer. *)
Definition natToString (n : nat) : str := natDigits (S n) n [].

(** [z.toString()] for an integer. *)
Definition intToString (z : Z) : str :=
  match z with
  | Zneg p => "-"%char :: natToString (Pos.to_nat p)
  | _ => natToString (Z.to_nat z)
  end.

(** The first occurrence of [p] in [s]: the text before it and the text
    after it. *)
Fixpoint splitFirst (s p : str) : option (str * str) :=
  if startsWith s p then Some ([], skipn (length p) s)
  else
    match s with
    | [] => None
    | c :: s' =>
        match splitFirst s' p with
        | Some (before, rest) => Some (c :: before, rest)
        | None => None
        end
    end.

(** The replacement text of [replace] for a string pattern, which has no
    capture groups: [$$] stands for a dollar sign, [$&] for the matched
    text, the dollar sign with a backquote for the text before the match
    and with a quote for the text after it; any other dollar sign stands
    for itself. *)
Fixpoint getSubstitution (matched before rest replacement : str) : str :=
  match replacement with
  | [] => []
  | c :: r =>
      if Ascii.eqb c "$" then
        match r with
        | x :: r' =>
            if Ascii.eqb x "$" then "$"%char :: getSubstitution matched before rest r'
            else if Ascii.eqb x "&"
            then matched ++ getSubstitution matched before rest r'
            else if Ascii.eqb x "`"
            then before ++ getSubstitution matched before rest r'
            else if Ascii.eqb x "'"
            then rest ++ getSubstitution matched before rest r'
            else c :: getSubstitution matched before rest r
        | [] => [c]
        end
      else c :: getSubstitution matched before rest r
  end.

(** [s.replace(p, replacement)] for a string pattern [p]: the first
    occurrence only. *)
Definition replaceFirst (p replacement s : str) : str :=
  match splitFirst s p with
  | Some (before, rest) =>
      before ++ getSubstitution p before rest replacement ++ rest
  | None => s
  end.

End JsString.
Import JsString.

(** ** JavaScript numbers *)

Module JsNumber.

Definition prec : Z := 53.
Definition emax : Z := 1024.
Definition number := spec_float.

Definition ofZ (z : Z) : number := binary_normalize prec emax z 0 false.

Definition neg (x : number) : number := SFopp x.
Definition leb (x y : number) : bool := SFleb x y.
Definition geb (x y : number) : bool := SFleb y x.

Fixpoint takeDigits (s : str) : str * str :=
  match s with
  | c :: s' =>
      if isDigit c then let '(d, r) := takeDigits s' in (c :: d, r)
      else ([], s)
  | [] => ([], [])
  end.

Definition digitsToZ (ds : str) : Z :=
  fold_left (fun acc c => (10 * acc + (Z.of_nat (code c) - 48))%Z) ds 0%Z.

(** The binary64 value nearest to [m * 10 ^ e10] (ties to even), with the
    sign [sgn]. *)
Definition decimalToNumber (sgn : bool) (m e10 : Z) : number :=
  let mag :=
    if (m =? 0)%Z then S754_zero false
    else if (0 <=? e10)%Z then
      binary_normalize prec emax (m * 10 ^ e10) 0 false
    else
      SFdiv prec emax
        (S754_finite false (Z.to_pos m) 0)
        (S754_finite false (Z.to_pos (10 ^ (- e10))) 0) in
  if sgn then SFopp mag else mag.

(** An exponent part [e], [e+] or [e-] followed by at least one digit. *)
Definition takeExponent (s : str) : Z :=
  match s with
  | c :: s' =>
      if oneOf "eE" c then
        let '(esgn, s'') :=
          match s' with
          | x :: t =>
              if Ascii.eqb x "-" then (true, t)
              else if Ascii.eqb x "+" then (false, t)
              else (false, s')
          | [] => (false, s')
          end in
        let '(ed, _) := takeDigits s'' in
        match ed with
        | [] => 0%Z
        | _ => if esgn then (- digitsToZ ed)%Z else digitsToZ ed
        end
      else 0%Z
  | [] => 0%Z
  end.

(** [parseFloat]: leading white space is skipped, then the longest prefix
    that is a decimal literal is converted; [NaN] when there is none. *)
Definition parseFloat (s : str) : number :=
  let s0 := trimStart s in
  let '(sgn, s1) :=
    match s0 with
    | c :: t =>
        if Ascii.eqb c "-" then (true, t)
        else if Ascii.eqb c "+" then (false, t)
        else (false, s0)
    | [] => (false, s0)
    end in
  if startsWith s1 (lit "Infinity") then S754_infinity sgn
  else
    let '(ip, s2) := takeDigits s1 in
    let '(fp, s3) :=
      match s2 with
      | c :: t => if Ascii.eqb c "." then takeDigits t else ([], s2)
      | [] => ([], s2)
      end in
    match ip ++ fp with
    | [] => S754_nan
    | ds =>
        decimalToNumber sgn (digitsToZ ds)
          (takeExponent s3 - Z.of_nat (length fp))
    end.

End JsNumber.
Import JsNumber.

(** ** Regular expressions *)

Module RegExp.

(** Syntax of the regular expressions that occur in the sources.  Every
    quantified atom there is a single character or character class, so the
    quantifiers [*], [+] and [*?] take a class. *)
Inductive regex : Type :=
| Eps
| Chr (c : ascii)
| Cls (p : ascii -> bool)
| Seq (r1 r2 : regex)
| Alt (r1 r2 : regex)
| Opt (r : regex)
| Star (p : ascii -> bool)
| Plus (p : ascii -> bool)
| StarLazy (p : ascii -> bool)
| Grp (r : regex)
| Bol
| Eol.

Fixpoint seq (rs : list regex) : regex :=
  match rs with
  | [] => Eps
  | [r] => r
  | r :: rs' => Seq r (seq rs')
  end.

Fixpoint alt (rs : list regex) : regex :=
  match rs with
  | [] => Eps
  | [r] => r
  | r :: rs' => Alt r (alt rs')
  end.

(** A literal word, character by character. *)
Definition word (w : string) : regex := seq (map Chr (lit w)).

(** A regular expression object: its source and its [i] and [g] flags. *)
Record RegExp : Type := mkRegExp {
  source : regex;
  ignoreCase : bool;
  global : bool
}.

Section Matcher.

Variable icase : bool.
(** Length of the whole input, to recognise the start of input for [^]. *)
Variable inputLength : nat.
Variable M : Type.

(** Canonicalize of the ECMAScript pattern semantics, on Latin-1. *)
Definition canonicalize (c : ascii) : ascii :=
  if icase then upperChar c else c.

Definition chrMatch (c x : ascii) : bool :=
  Ascii.eqb (canonicalize c) (canonicalize x).

(** A class matches [x] when one of its members canonicalizes like [x]. *)
Definition clsMatch (p : ascii -> bool) (x : ascii) : bool :=
  if icase then p x || p (upperChar x) || p (lowerChar x) else p x.

Fixpoint starGreedy (p : ascii -> bool) (s : str)
    (k : str -> option M) : option M :=
  match s with
  | c :: s' =>
      if p c then
        match starGreedy p s' k with
        | Some m => Some m
        | None => k s
        end
      else k s
  | [] => k []
  end.

Fixpoint starLazy (p : ascii -> bool) (s : str)
    (k : str -> option M) : option M :=
  match k s with
  | Some m => Some m
  | None =>
      match s with
      | c :: s' => if p c then starLazy p s' k else None
      | [] => None
      end
  end.

(** The backtracking matcher in continuation-passing style: [exec r s caps k]
    matches [r] at the front of [s] and hands the rest of the input and the
    captures so far to [k]; when [k] fails the next alternative is tried. *)
Fixpoint exec (r : regex) (s : str) (caps : list str)
    (k : str -> list str -> option M) : option M :=
  match r with
  | Eps => k s caps
  | Chr c =>
      match s with
      | x :: s' => if chrMatch c x then k s' caps else None
      | [] => None
      end
  | Cls p =>
      match s with
      | x :: s' => if clsMatch p x then k s' caps else None
      | [] => None
      end
  | Seq r1 r2 => exec r1 s caps (fun s1 caps1 => exec r2 s1 caps1 k)
  | Alt r1 r2 =>
      match exec r1 s caps k with
      | Some m => Some m
      | None => exec r2 s caps k
      end
  | Opt r1 =>
      match exec r1 s caps k with
      | Some m => Some m
      | None => k s caps
      end
  | Star p => starGreedy (clsMatch p) s (fun s' => k s' caps)
  | Plus p =>
      match s with
      | x :: s' =>
          if clsMatch p x
          then starGreedy (clsMatch p) s' (fun s'' => k s'' caps)
          else None
      | [] => None
      end
  | StarLazy p => starLazy (clsMatch p) s (fun s' => k s' caps)
  | Grp r1 =>
      exec r1 s caps
        (fun s' caps' => k s' (caps' ++ [firstn (length s - length s') s]))
  | Bol => if length s =? inputLength then k s caps else None
  | Eol => match s with [] => k s caps | _ :: _ => None end
  end.

End Matcher.

(** A successful match: the matched text [match[0]], the capture groups
    [match[1..]] and the input that follows the match. *)
Record MatchResult : Type := mkMatch {
  matched : str;
  groups : list str;
  after : str
}.

(** Match [re] at the front of [s], a suffix of an input of length [n]. *)
Definition matchAt (re : RegExp) (n : nat) (s : str) : option MatchResult :=
  exec (ignoreCase re) n (source re) s []
    (fun s' caps => Some (mkMatch (firstn (length s - length s') s) caps s')).

(** The leftmost match in [s]: the text before it and the match. *)
Fixpoint search (re : RegExp) (n : nat) (s : str) : option (str * MatchResult) :=
  match matchAt re n s with
  | Some m => Some ([], m)
  | None =>
      match s with
      | [] => None
      | c :: s' =>
          match search re n s' with
          | Some (pre, m) => Some (c :: pre, m)
          | None => None
          end
      end
  end.

(** The input cut into the characters outside any match and the successive
    matches, scanning left to right; [skip] counts the characters still
    covered by the previous match.  After an empty match the scan moves on
    by one character. *)
Inductive piece : Type :=
| Keep (c : ascii)
| Found (m : MatchResult).

Fixpoint scan (re : RegExp) (n : nat) (s : str) (skip : nat) {struct s}
    : list piece :=
  match skip with
  | S j =>
      match s with
      | [] => []
      | _ :: s' => scan re n s' j
      end
  | 0 =>
      match matchAt re n s with
      | Some m =>
          Found m ::
          match s with
          | [] => []
          | c :: s' =>
              match matched m with
              | [] => Keep c :: scan re n s' 0
              | _ :: w => scan re n s' (length w)
              end
          end
      | None =>
          match s with
          | [] => []
          | c :: s' => Keep c :: scan re n s' 0
          end
      end
  end.

(** The successive results of [re.exec(s)] in a
    [while ((match = re.exec(s)) !== null)] loop over a global [re]. *)
Definition execAll (re : RegExp) (s : str) : list MatchResult :=
  flat_map (fun p => match p with Found m => [m] | Keep _ => [] end)
    (scan re (length s) s 0).

(** [s.replace(re, rep)] for a replacement text without [$] patterns: every
    match for a global [re], the first match otherwise. *)
Definition replace (re : RegExp) (rep : str) (s : str) : str :=
  if global re then
    flat_map (fun p => match p with Found _ => rep | Keep c => [c] end)
      (scan re (length s) s 0)
  else
    match search re (length s) s with
    | Some (pre, m) => pre ++ rep ++ after m
    | None => s
    end.

(** [s.match(re)] for a [re] without the [g] flag. *)
Definition matchFirst (re : RegExp) (s : str) : option MatchResult :=
  match search re (length s) s with
  | Some (_, m) => Some m
  | None => None
  end.

(** *** Notions used to reason about matches *)

(** The words a regular expression can consume, whatever the continuation
    does. *)
Fixpoint Lang (icase : bool) (r : regex) (w : str) : Prop :=
  match r with
  | Eps | Bol | Eol => w = []
  | Chr c => exists x, w = [x] /\ chrMatch icase c x = true
  | Cls p => exists x, w = [x] /\ clsMatch icase p x = true
  | Seq r1 r2 =>
      exists w1 w2, w = w1 ++ w2 /\ Lang icase r1 w1 /\ Lang icase r2 w2
  | Alt r1 r2 => Lang icase r1 w \/ Lang icase r2 w
  | Opt r1 => w = [] \/ Lang icase r1 w
  | Star p | StarLazy p => Forall (fun x => clsMatch icase p x = true) w
  | Plus p => w <> [] /\ Forall (fun x => clsMatch icase p x = true) w
  | Grp r1 => Lang icase r1 w
  end.

(** Some character in [P] is directly followed by one in [Q]. *)
Fixpoint adjacent (P Q : ascii -> bool) (s : str) : bool :=
  match s with
  | x :: (y :: _) as t => (P x && Q y) || adjacent P Q t
  | _ => false
  end.

(** The head of [rest], if any, is outside [p]: a greedy run of [p] stops
    there. *)
Definition stopsAt (p : ascii -> bool) (rest : str) : Prop :=
  match rest with
  | [] => True
  | c :: _ => p c = false
  end.

(** No character of [s] is in [Q]. *)
Definition without (Q : ascii -> bool) (s : str) : Prop :=
  Forall (fun c => Q c = false) s.

(** *** Notions used in the proofs about the matcher *)

(** The 256 code units of the model. *)
Definition allChars : list ascii := map ascii_of_nat (List.seq 0 256).

(** A syntactic test that every word of [r] holds a character of [P]. *)
Fixpoint demands (icase : bool) (P : ascii -> bool) (r : regex) : bool :=
  match r with
  | Chr c => forallb (fun x => implb (chrMatch icase c x) (P x)) allChars
  | Cls p | Plus p =>
      forallb (fun x => implb (clsMatch icase p x) (P x)) allChars
  | Seq r1 r2 => demands icase P r1 || demands icase P r2
  | Alt r1 r2 => demands icase P r1 && demands icase P r2
  | Grp r1 => demands icase P r1
  | Eps | Opt _ | Star _ | StarLazy _ | Bol | Eol => false
  end.

(** White space other than the space character. *)
Definition otherSpace (c : ascii) : bool := isSpace c && negb (Ascii.eqb c " ").

(** A text on one line with single spaces: its only white space is the
    space character, never twice in a row and never at either end. *)
Definition singleSpaced (s : str) : Prop :=
  without otherSpace s /\ adjacent isSpace isSpace s = false /\ trim s = s.

(** A pattern character that is not a letter matches only itself. *)
Definition caseless (x : ascii) : Prop :=
  forall c, chrMatch true x c = Ascii.eqb x c.

(** The last character of [s] is not white space. *)
Definition endsWell (s : str) : Prop :=
  exists u x, s = u ++ [x] /\ isSpace x = false.

End RegExp.
Import RegExp.

(** ** src/utils/coordinateParser.ts *)

Module CoordinateParser.

Record Coordinate : Type := mkCoordinate {
  lat : number;
  lng : number;
  raw : str
}.

(** [-?\d+\.?\d*], the number of the first three and the last two patterns. *)
Definition signedNumber : regex :=
  seq [Opt (Chr "-"); Plus isDigit; Opt (Chr "."); Star isDigit].

(** [\d+\.?\d*], the number of the pattern with directions. *)
Definition unsignedNumber : regex :=
  seq [Plus isDigit; Opt (Chr "."); Star isDigit].

Definition degreeSign : ascii := ascii_of_nat 176.

Definition bracketPattern : RegExp :=
  mkRegExp
    (seq [Chr "["; Grp signedNumber; Chr ","; Star isSpace;
          Grp signedNumber; Chr "]"])
    false true.

Definition parenPattern : RegExp :=
  mkRegExp
    (seq [Chr "("; Grp signedNumber; Chr ","; Star isSpace;
          Grp signedNumber; Chr ")"])
    false true.

Definition barePattern : RegExp :=
  mkRegExp
    (seq [Grp signedNumber; Chr ","; Star isSpace; Grp signedNumber])
    false true.

Definition directionPattern : RegExp :=
  mkRegExp
    (seq [Grp unsignedNumber; Opt (Cls (Ascii.eqb degreeSign)); Star isSpace;
          Grp (Cls (oneOf "NS")); Star isSpace; Opt (Chr ","); Star isSpace;
          Grp unsignedNumber; Opt (Cls (Ascii.eqb degreeSign)); Star isSpace;
          Grp (Cls (oneOf "EW"))])
    true true.

Definition gpsPattern : RegExp :=
  mkRegExp
    (seq [word "GPS:"; Star isSpace; Grp signedNumber; Chr ",";
          Star isSpace; Grp signedNumber])
    true true.

Definition locationPattern : RegExp :=
  mkRegExp
    (seq [word "Location:"; Star isSpace; Grp signedNumber; Chr ",";
          Star isSpace; Grp signedNumber])
    true true.

Definition COORDINATE_PATTERNS : list RegExp :=
  [bracketPattern; parenPattern; barePattern; directionPattern;
   gpsPattern; locationPattern].

Definition isValidCoordinate (lat lng : number) : bool :=
  geb lat (neg (ofZ 90)) && leb lat (ofZ 90)
  && geb lng (neg (ofZ 180)) && leb lng (ofZ 180).

(** The state of the extraction loops: the coordinates pushed so far and
    the set [processedRaws], kept as the list of its members. *)
Record ExtractState : Type := mkState {
  coordinates : list Coordinate;
  processedRaws : list str
}.

Definition has (set : list str) (x : str) : bool := existsb (JsString.eqb x) set.

(** The numbers read from the groups of a match: [match.length === 3] is
    the plain form, [match.length === 5] the form with directions; any other
    length takes the [continue] branch. *)
Definition parsePair (groups : list str) : option (number * number) :=
  match groups with
  | [g1; g2] => Some (parseFloat g1, parseFloat g2)
  | [g1; g2; g3; g4] =>
      let lat := parseFloat g1 in
      let lng := parseFloat g3 in
      let lat := if JsString.eqb (toUpperCase g2) (lit "S") then neg lat else lat in
      let lng := if JsString.eqb (toUpperCase g4) (lit "W") then neg lng else lng in
      Some (lat, lng)
  | _ => None
  end.

(** The body of the [while] loop for one match. *)
Definition processMatch (st : ExtractState) (m : MatchResult) : ExtractState :=
  let raw := matched m in
  if has (processedRaws st) raw then st
  else
    let seen := processedRaws st ++ [raw] in
    match parsePair (groups m) with
    | Some (lat, lng) =>
        if isValidCoordinate lat lng
        then mkState (coordinates st ++ [mkCoordinate lat lng raw]) seen
        else mkState (coordinates st) seen
    | None => mkState (coordinates st) seen
    end.

(** The [while] loop of one pattern. *)
Definition processPattern (content : str) (st : ExtractState) (pattern : RegExp)
    : ExtractState :=
  fold_left processMatch (execAll pattern content) st.

Definition extractCoordinates (content : str) : list Coordinate :=
  coordinates (fold_left (processPattern content) COORDINATE_PATTERNS
                 (mkState [] [])).

Definition spaceRuns : RegExp := mkRegExp (Plus isSpace) false true.

(** [/\n\s*\n/g] *)
Definition blankLines : RegExp :=
  mkRegExp (seq [Chr "010"; Star isSpace; Chr "010"]) false true.

Definition removeCoordinatesFromContent (content : str) : str :=
  let cleanContent :=
    fold_left (fun acc pattern => trim (replace pattern [] acc))
      COORDINATE_PATTERNS content in
  trim (replace blankLines (lit (String "010" EmptyString))
          (replace spaceRuns (lit " ") cleanContent)).

(** *** The six textual shapes of the specification *)

Inductive digit : Type := D0 | D1 | D2 | D3 | D4 | D5 | D6 | D7 | D8 | D9.

Definition digitAscii (d : digit) : ascii :=
  match d with
  | D0 => "0" | D1 => "1" | D2 => "2" | D3 => "3" | D4 => "4"
  | D5 => "5" | D6 => "6" | D7 => "7" | D8 => "8" | D9 => "9"
  end%char.

Definition digits (ds : list digit) : str := map digitAscii ds.

(** A number in plain decimal notation: an optional minus sign, one or more
    digits and optionally a point followed by digits. *)
Record decimal : Type := mkDecimal {
  negative : bool;
  leadingDigit : digit;
  moreDigits : list digit;
  fraction : option (list digit)
}.

Definition fractionText (f : option (list digit)) : str :=
  match f with
  | Some ds => "."%char :: digits ds
  | None => []
  end.

(** The number without its sign. *)
Definition magnitude (x : decimal) : str :=
  digitAscii (leadingDigit x) :: digits (moreDigits x) ++ fractionText (fraction x).

Definition text (x : decimal) : str :=
  if negative x then "-"%char :: magnitude x else magnitude x.

(** [lat, lng] *)
Definition bare (a b : decimal) : str := text a ++ lit ", " ++ text b.
Definition bracketed (a b : decimal) : str := "["%char :: bare a b ++ lit "]".
Definition parenthesized (a b : decimal) : str := "("%char :: bare a b ++ lit ")".
(** Degrees with a hemisphere letter: south and west stand for the minus
    sign. *)
Definition southOrNorth (a : decimal) : ascii :=
  (if negative a then "S" else "N")%char.
Definition westOrEast (b : decimal) : ascii :=
  (if negative b then "W" else "E")%char.
Definition withDirections (a b : decimal) : str :=
  magnitude a ++ degreeSign :: southOrNorth a
  :: lit ", " ++ magnitude b ++ [degreeSign; westOrEast b].
Definition gps (a b : decimal) : str := lit "GPS: " ++ bare a b.
Definition location (a b : decimal) : str := lit "Location: " ++ bare a b.

(** *** Character classes and notions used in the proofs *)

Definition allInRange (cs : list Coordinate) : Prop :=
  Forall (fun c => isValidCoordinate (lat c) (lng c) = true) cs.

Definition isNumberChar (c : ascii) : bool := isDigit c || Ascii.eqb c ".".

Definition isComma (c : ascii) : bool := Ascii.eqb c ",".

Definition isNorthSouth (c : ascii) : bool := clsMatch true (oneOf "NS") c.

Definition beforeLetter (c : ascii) : bool :=
  isNumberChar c || Ascii.eqb c degreeSign || isSpace c.

(** The characters of a number: digits, the point and the minus sign. *)
Definition numberAlphabet (c : ascii) : bool :=
  isDigit c || Ascii.eqb c "." || Ascii.eqb c "-".

(** A class [Q] that holds none of the number characters. *)
Definition foreign (Q : ascii -> bool) : Prop :=
  forall c, numberAlphabet c = true -> Q c = false.

(** The characters that the text around a coordinate must not hold for the
    coordinate to be matched on its own: the digits, the point, the minus
    sign and the opening brackets. *)
Definition marks (c : ascii) : bool := isDigit c || oneOf ".-[(" c.

(** [T] is [shape] between two texts without such characters. *)
Definition framed (shape T : str) : Prop :=
  exists pre post,
    without marks pre /\ without marks post /\ T = pre ++ shape ++ post.

(** The first character a pattern can start with. *)
Definition bareFirst (x : ascii) : bool := Ascii.eqb x "-" || isDigit x.

(** [re] matches at no position of [T]. *)
Definition nowhere (re : RegExp) (T : str) : Prop :=
  forall pre t, T = pre ++ t -> matchAt re (length T) t = None.

(** *** formatCoordinatesForYaml *)

(** The text [[lat, lng]] of a template literal; [show] stands for the
    conversion of a number to a string. *)
Definition bracketPair (show : number -> str) (coord : Coordinate) : str :=
  lit "[" ++ show (lat coord) ++ lit ", " ++ show (lng coord) ++ lit "]".

Definition formatCoordinatesForYaml (show : number -> str)
    (coordinates : list Coordinate) : str :=
  match coordinates with
  | [] => []
  | _ :: _ =>
      let locationStrings :=
        map (fun coord =>
               [ascii_of_nat 34] ++ bracketPair show coord ++ [ascii_of_nat 34])
            coordinates in
      match locationStrings with
      | [one] => lit "location: " ++ one
      | _ =>
          lit "locations:" ++ ["010"%char]
          ++ join ["010"%char] (map (fun loc => lit "  - " ++ loc) locationStrings)
      end
  end.

End CoordinateParser.

(** ** src/utils/fileUtils.ts *)

Module FileUtils.

(** The frontmatter pattern: start of input, [---\s*\n], a lazy group of any
    characters, [\n---\s*\n], a greedy group of any characters, end of
    input. *)
Definition frontmatterRegex : RegExp :=
  mkRegExp
    (seq [Bol; word "---"; Star isSpace; Chr "010"; Grp (StarLazy isAny);
          Chr "010"; word "---"; Star isSpace; Chr "010"; Grp (Star isAny);
          Eol])
    false false.

(** The [body] field of [parseFrontmatter(content)].  [parseYaml] only splits
    and trims text and raises no exception, so the [catch] branch is never
    taken; the [frontmatter] record is not used by the callers modelled
    here. *)
Definition parseFrontmatterBody (content : str) : str :=
  match matchFirst frontmatterRegex content with
  | None => content
  | Some m => nth 1 (groups m) []
  end.

(** *** Writing frontmatter *)

(** The values of a frontmatter record as [stringifyYaml] tells them apart:
    a string, an array, or anything else; what is not a string is written
    by its string conversion, held here as [shown]. *)
Inductive YamlItem : Type :=
| ItemString (s : str)
| ItemOther (shown : str).

Inductive YamlValue : Type :=
| ValString (s : str)
| ValArray (items : list YamlItem)
| ValOther (shown : str).

Definition lineFeed : str := ["010"%char].

Definition quoted (s : str) : str :=
  (ascii_of_nat 34 :: s) ++ [ascii_of_nat 34].

Definition yamlItemLine (item : YamlItem) : str :=
  lit "  - " ++ match item with
                | ItemString s => quoted s
                | ItemOther shown => shown
                end.

(** The lines pushed for one entry of [Object.entries(obj)]. *)
Definition yamlLines (entry : str * YamlValue) : list str :=
  let (key, value) := entry in
  match value with
  | ValString s => [key ++ lit ": " ++ quoted s]
  | ValArray items => (key ++ lit ":") :: map yamlItemLine items
  | ValOther shown => [key ++ lit ": " ++ shown]
  end.

(** [stringifyYaml(obj)], from the entries of [obj] in the order of
    [Object.entries]. *)
Definition stringifyYaml (obj : list (str * YamlValue)) : str :=
  join lineFeed (flat_map yamlLines obj).

(** [addFrontmatter(content, frontmatter)]. *)
Definition addFrontmatter (content : str)
    (frontmatter : list (str * YamlValue)) : str :=
  match frontmatter with
  | [] => content
  | _ :: _ =>
      lit "---" ++ lineFeed ++ stringifyYaml frontmatter ++ lineFeed
      ++ lit "---" ++ lineFeed ++ lineFeed ++ content
  end.

(** The class of the pattern of [sanitizeFilename]: less-than,
    greater-than, colon, double quote, slash, backslash, bar, question mark
    and star. *)
Definition invalidFilenameChar (c : ascii) : bool :=
  existsb (Ascii.eqb c)
    ["<"; ">"; ":"; ascii_of_nat 34; "/"; "\"; "|"; "?"; "*"]%char.

Definition invalidFilenameChars : RegExp :=
  mkRegExp (Cls invalidFilenameChar) false true.

Definition sanitizeFilename (filename : str) : str :=
  replace invalidFilenameChars (lit "_") filename.

(** *** Reading frontmatter *)

(** The values [parseYaml] stores. *)
Inductive ParsedValue : Type :=
| ParsedString (s : str)
| ParsedBoolean (b : bool)
| ParsedNumber (x : JsNumber.number).

(** The record [parseYaml] builds, by its own properties; only reading by
    key is modelled, not the order of the keys. *)
Definition YamlRecord : Type := list (str * ParsedValue).

Fixpoint getProperty (key : str) (record : YamlRecord) : option ParsedValue :=
  match record with
  | [] => None
  | (k, v) :: r => if eqb k key then Some v else getProperty key r
  end.

Fixpoint setProperty (key : str) (value : ParsedValue) (record : YamlRecord)
    : YamlRecord :=
  match record with
  | [] => [(key, value)]
  | (k, v) :: r =>
      if eqb k key then (k, value) :: r else (k, v) :: setProperty key value r
  end.

(** [result[key] = value] on an object made by an empty object literal: the
    key [__proto__] reaches the accessor of [Object.prototype], which
    ignores a value that is no object, so that no property is stored. *)
Definition assign (key : str) (value : ParsedValue) (record : YamlRecord)
    : YamlRecord :=
  if eqb key (lit "__proto__") then record else setProperty key value record.

(** [s.indexOf(c)], [None] for [-1]. *)
Fixpoint indexOf (c : ascii) (s : str) : option nat :=
  match s with
  | [] => None
  | x :: s' =>
      if Ascii.eqb x c then Some 0
      else match indexOf c s' with
           | Some i => Some (S i)
           | None => None
           end
  end.

Definition endsWith (s p : str) : bool := startsWith (rev s) (rev p).

(** [value.slice(1, -1)]. *)
Definition sliceInner (value : str) : str := removelast (tl value).

Definition quoteMark : str := [ascii_of_nat 34].

(** The value stored for the text after the colon.  [toNumber] stands for
    the built-in [Number]. *)
Definition parseValue (toNumber : str -> JsNumber.number) (value : str)
    : ParsedValue :=
  if startsWith value quoteMark && endsWith value quoteMark
  then ParsedString (sliceInner value)
  else if eqb value (lit "true") then ParsedBoolean true
  else if eqb value (lit "false") then ParsedBoolean false
  else match toNumber value with
       | S754_nan => ParsedString value
       | x => ParsedNumber x
       end.

(** The body of the loop of [parseYaml]. *)
Definition parseYamlLine (toNumber : str -> JsNumber.number)
    (result : YamlRecord) (line : str) : YamlRecord :=
  let trimmed := trim line in
  if match trimmed with [] => true | _ :: _ => false end
     || startsWith trimmed (lit "#")
  then result
  else
    match indexOf ":" trimmed with
    | None => result
    | Some colonIndex =>
        let key := trim (firstn colonIndex trimmed) in
        let value := trim (skipn (colonIndex + 1) trimmed) in
        assign key (parseValue toNumber value) result
    end.

Definition parseYaml (toNumber : str -> JsNumber.number) (yamlString : str)
    : YamlRecord :=
  fold_left (parseYamlLine toNumber) (split "010" yamlString) [].

(** [parseFrontmatter(content)]: the record and the body.  [parseYaml]
    raises no exception, so the [catch] branch is never taken. *)
Definition parseFrontmatter (toNumber : str -> JsNumber.number)
    (content : str) : YamlRecord * str :=
  match matchFirst frontmatterRegex content with
  | None => ([], content)
  | Some m =>
      (parseYaml toNumber (nth 0 (groups m) []), nth 1 (groups m) [])
  end.

(** *** Notions used to state properties of the frontmatter *)

Definition isLineFeed (c : ascii) : bool := Ascii.eqb c "010".
Definition isDash (c : ascii) : bool := Ascii.eqb c "-".

(** The texts written for a value. *)
Definition yamlTexts (value : YamlValue) : list str :=
  match value with
  | ValString s => [s]
  | ValArray items =>
      map (fun item => match item with
                       | ItemString s => s
                       | ItemOther shown => shown
                       end) items
  | ValOther shown => [shown]
  end.

(** An entry whose key and texts are each on one line and whose key does
    not start with a dash. *)
Definition oneLineEntry (entry : str * YamlValue) : Prop :=
  without isLineFeed (fst entry) /\ stopsAt isDash (fst entry)
  /\ Forall (without isLineFeed) (yamlTexts (snd entry)).

Definition onOneLine (frontmatter : list (str * YamlValue)) : Prop :=
  Forall oneLineEntry frontmatter.

Definition isColon (c : ascii) : bool := Ascii.eqb c ":".
Definition isHash (c : ascii) : bool := Ascii.eqb c "#".

(** An entry with a string for value that [parseYaml] reads back: the key
    is trimmed, on one line, without colon, not opened by [#] and not
    [__proto__]; the string is on one line. *)
Definition stringEntry (entry : str * YamlValue) : Prop :=
  let key := fst entry in
  trim key = key /\ without isLineFeed key /\ without isColon key
  /\ stopsAt isHash key /\ eqb key (lit "__proto__") = false
  /\ exists s, snd entry = ValString s /\ without isLineFeed s.

(** What [parseYaml] is to give back for a written value. *)
Definition readBack (value : YamlValue) : option ParsedValue :=
  match value with
  | ValString s => Some (ParsedString s)
  | _ => None
  end.

Fixpoint lookupEntry (key : str) (frontmatter : list (str * YamlValue))
    : option YamlValue :=
  match frontmatter with
  | [] => None
  | (k, v) :: r => if eqb k key then Some v else lookupEntry key r
  end.

(** A line of the YAML text: no line feed in it, no dash at its start,
    not empty. *)
Definition calmLine (l : str) : Prop :=
  without isLineFeed l /\ stopsAt isDash l /\ l <> [].

(** The template of [addFrontmatter]. *)
Definition fenced (yaml content : str) : str :=
  lit "---" ++ lineFeed ++ yaml ++ lineFeed ++ lit "---" ++ lineFeed
  ++ lineFeed ++ content.

(** The part of [frontmatterRegex] after its first group. *)
Definition closingFence : regex :=
  Seq (Chr "010")
    (Seq (Seq (Chr "-") (Seq (Chr "-") (Chr "-")))
       (Seq (Star isSpace) (Seq (Chr "010") (Seq (Grp (Star isAny)) Eol)))).

End FileUtils.

(** ** src/services/noteProcessor.ts *)

Module NoteProcessor.

Import CoordinateParser.

Record DailyNoteEntry : Type := mkEntry {
  content : str;
  entryCoordinates : option Coordinate
}.

Record DailyNote : Type := mkDailyNote {
  file : str;
  date : str;
  entries : list DailyNoteEntry;
  noteCoordinates : list Coordinate
}.

Definition anchored (r : list regex) : RegExp :=
  mkRegExp (seq (Bol :: r)) false false.

(** [/^[-*+]\s*/] *)
Definition bulletMarker : RegExp := anchored [Cls (oneOf "-*+"); Star isSpace].
(** [/^\d+\.\s*/] *)
Definition numberMarker : RegExp :=
  anchored [Plus isDigit; Chr "."; Star isSpace].
(** [/^- \[[x\s]\]\s*/] *)
Definition dashCheckbox : RegExp :=
  anchored [Chr "-"; Chr " "; Chr "[";
            Cls (fun c => Ascii.eqb c "x" || isSpace c); Chr "]"; Star isSpace].
(** [/^\[\s*\]\s*/] *)
Definition emptyCheckbox : RegExp :=
  anchored [Chr "["; Star isSpace; Chr "]"; Star isSpace].
(** [/^\[x\]\s*/] *)
Definition checkedCheckbox : RegExp :=
  anchored [Chr "["; Chr "x"; Chr "]"; Star isSpace].

(** The chain of [replace] calls and the final [trim] that clean a line. *)
Definition cleanLine (trimmedLine : str) : str :=
  trim (replace checkedCheckbox []
         (replace emptyCheckbox []
           (replace dashCheckbox []
             (replace numberMarker []
               (replace bulletMarker [] trimmedLine))))).

Definition skipLine (trimmedLine : str) : bool :=
  match trimmedLine with [] => true | _ :: _ => false end
  || startsWith trimmedLine (lit "#")
  || startsWith trimmedLine (lit "---")
  || startsWith trimmedLine (lit "<!--")
  || (length trimmedLine <? 5).

(** The body of the [for] loop of [parseLogEntries]: the entry pushed for
    one line, if any. *)
Definition parseLine (line : str) : option DailyNoteEntry :=
  let trimmedLine := trim line in
  if skipLine trimmedLine then None
  else
    let cleanLine := cleanLine trimmedLine in
    if length cleanLine <? 5 then None
    else
      let lineCoordinates := extractCoordinates cleanLine in
      let cleanContent := removeCoordinatesFromContent cleanLine in
      if 0 <? length (trim cleanContent)
      then Some (mkEntry (trim cleanContent) (hd_error lineCoordinates))
      else None.

Definition parseLogEntries (content : str) : list DailyNoteEntry :=
  let body := FileUtils.parseFrontmatterBody content in
  let lines := split "010" body in
  fold_left
    (fun entries line =>
       match parseLine line with
       | Some e => entries ++ [e]
       | None => entries
       end)
    lines [].

(** [parseDailyNote], from the file's path, its content as read from the
    vault, and the formatted date. *)
Definition parseDailyNote (path content formattedDate : str) : DailyNote :=
  let entries := parseLogEntries content in
  let coordinates := extractCoordinates content in
  mkDailyNote path formattedDate entries coordinates.

(** *** The marker removals as plain functions *)

(** A leading [-], [*] or [+] and the white space after it. *)
Definition dropBullet (s : str) : str :=
  match s with
  | c :: r => if oneOf "-*+" c then trimStart r else s
  | [] => []
  end.

(** Leading digits followed by a point, and the white space after it. *)
Definition dropNumber (s : str) : str :=
  match takeDigits s with
  | (_ :: _, c :: r) => if Ascii.eqb "." c then trimStart r else s
  | _ => s
  end.

(** A leading dash, space and bracketed [x] or white space character. *)
Definition dropDashCheckbox (s : str) : str :=
  match s with
  | a :: b :: c :: d :: e :: r =>
      if Ascii.eqb "-" a && Ascii.eqb " " b && Ascii.eqb "[" c
         && (Ascii.eqb d "x" || isSpace d) && Ascii.eqb "]" e
      then trimStart r
      else s
  | _ => s
  end.

(** A leading pair of brackets with only white space between them. *)
Definition dropEmptyCheckbox (s : str) : str :=
  match s with
  | c :: r =>
      if Ascii.eqb "[" c then
        match trimStart r with
        | d :: r' => if Ascii.eqb "]" d then trimStart r' else s
        | [] => s
        end
      else s
  | [] => []
  end.

(** A leading bracketed [x]. *)
Definition dropCheckedCheckbox (s : str) : str :=
  match s with
  | a :: b :: c :: r =>
      if Ascii.eqb "[" a && Ascii.eqb "x" b && Ascii.eqb "]" c
      then trimStart r
      else s
  | _ => s
  end.

(** The first character of a text that no marker removal touches and that
    is no heading, rule or comment. *)
Definition opensMarker (c : ascii) : bool :=
  isDigit c || oneOf "-*+[#<" c.

(** A text that is an entry as it stands: at least five characters,
    single-spaced, without digits and not opened by a marker. *)
Definition plainEntry (t : str) : Prop :=
  5 <= length t /\ singleSpaced t /\ without isDigit t
  /\ stopsAt opensMarker t.

End NoteProcessor.

(** ** DateUtils, in src/utils/logger.ts *)

Module DateUtils.

(** The local calendar fields read from the [Date] argument:
    [getFullYear()], [getMonth()] (0..11), [getDate()], [getHours()],
    [getMinutes()], [getSeconds()] and [getDay()] (0..6, Sunday first). *)
Record LocalDate : Type := mkDate {
  getFullYear : Z;
  getMonth : nat;
  getDate : nat;
  getHours : nat;
  getMinutes : nat;
  getSeconds : nat;
  getDay : nat
}.

Definition monthNames : list str :=
  map lit ["January"; "February"; "March"; "April"; "May"; "June";
           "July"; "August"; "September"; "October"; "November";
           "December"]%string.
Definition monthNamesShort : list str :=
  map lit ["Jan"; "Feb"; "Mar"; "Apr"; "May"; "Jun";
           "Jul"; "Aug"; "Sep"; "Oct"; "Nov"; "Dec"]%string.
Definition dayNames : list str :=
  map lit ["Sunday"; "Monday"; "Tuesday"; "Wednesday"; "Thursday";
           "Friday"; "Saturday"]%string.
Definition dayNamesShort : list str :=
  map lit ["Sun"; "Mon"; "Tue"; "Wed"; "Thu"; "Fri"; "Sat"]%string.

(** Reading past the end of an array gives [undefined], which [replace]
    inserts as the text [undefined]. *)
Definition at_ (names : list str) (i : nat) : str :=
  nth i names (lit "undefined").

(** [hours % 12 || 12] *)
Definition hours12 (hours : nat) : nat :=
  if hours mod 12 =? 0 then 12 else hours mod 12.

(** The [replacements] record, in the order its keys were inserted. *)
Definition replacements (date : LocalDate) : list (str * str) :=
  let year := getFullYear date in
  let month := getMonth date + 1 in
  let day := getDate date in
  let hours := getHours date in
  let minutes := getMinutes date in
  let seconds := getSeconds date in
  let pad2 n := padStart 2 "0" (natToString n) in
  [ (lit "YYYY", intToString year);
    (lit "YY", sliceLast 2 (intToString year));
    (lit "MMMM", at_ monthNames (month - 1));
    (lit "MMM", at_ monthNamesShort (month - 1));
    (lit "MM", pad2 month);
    (lit "DD", pad2 day);
    (lit "HH", pad2 hours);
    (lit "hh", pad2 (hours12 hours));
    (lit "mm", pad2 minutes);
    (lit "ss", pad2 seconds);
    (lit "dddd", at_ dayNames (getDay date));
    (lit "ddd", at_ dayNamesShort (getDay date));
    (lit "M", natToString month);
    (lit "D", natToString day);
    (lit "H", natToString hours);
    (lit "h", natToString (hours12 hours)) ].

(** [Array.prototype.sort] with the comparison [b.length - a.length]: a
    stable sort, longest key first. *)
Fixpoint insertByLength (x : str * str) (l : list (str * str))
    : list (str * str) :=
  match l with
  | [] => [x]
  | y :: l' =>
      if length (fst x) <? length (fst y) then y :: insertByLength x l'
      else x :: l
  end.

Definition sortedTokens (reps : list (str * str)) : list (str * str) :=
  fold_right insertByLength [] reps.

(** [new RegExp(token, 'g')] for a token made of letters. *)
Definition tokenRegExp (token : str) : RegExp :=
  mkRegExp (seq (map Chr token)) false true.

(** The [for] loop over the sorted tokens. *)
Definition substituteTokens (tokens : list (str * str)) (template : str) : str :=
  fold_left (fun result tv => replace (tokenRegExp (fst tv)) (snd tv) result)
    tokens template.

(** The global class of the characters [<], [>], [:], the double quote,
    [/], the backslash, [|], [?] and the star. *)
Definition invalidChar (c : ascii) : bool :=
  existsb (Ascii.eqb c)
    ["<"; ">"; ":"; ascii_of_nat 34; "/"; "\"; "|"; "?"; "*"]%char.
Definition invalidChars : RegExp := mkRegExp (Cls invalidChar) false true.
(** [/\s+/g] *)
Definition whitespaceRuns : RegExp := mkRegExp (Plus isSpace) false true.
Definition isDot (c : ascii) : bool := Ascii.eqb c ".".
(** [/^\.+/] *)
Definition leadingDots : RegExp := mkRegExp (seq [Bol; Plus isDot]) false false.
(** [/\.+$/] *)
Definition trailingDots : RegExp := mkRegExp (seq [Plus isDot; Eol]) false false.

Definition sanitizeFilename (filename : str) : str :=
  trim (replace trailingDots (lit ".md")
         (replace leadingDots []
           (replace whitespaceRuns (lit " ")
             (replace invalidChars (lit "-") filename)))).

Definition generateFilename (date : LocalDate) (template : str) : str :=
  sanitizeFilename
    (substituteTokens (sortedTokens (replacements date)) template).

(** *** The sanitizing steps as the specification words them *)

(** Each filesystem-illegal character becomes a dash. *)
Definition dashIllegal (s : str) : str :=
  map (fun c => if invalidChar c then "-"%char else c) s.

(** Each run of white space becomes one space; [inRun] tells that the
    previous character was white space. *)
Fixpoint collapseFrom (inRun : bool) (s : str) : str :=
  match s with
  | [] => []
  | c :: s' =>
      if isSpace c then
        if inRun then collapseFrom true s'
        else " "%char :: collapseFrom true s'
      else c :: collapseFrom false s'
  end.

Definition collapseWhitespace (s : str) : str := collapseFrom false s.

Fixpoint stripLeadingDots (s : str) : str :=
  match s with
  | c :: s' => if isDot c then stripLeadingDots s' else s
  | [] => []
  end.

Definition stripTrailingDots (s : str) : str :=
  rev (stripLeadingDots (rev s)).

Definition endsWithDot (s : str) : bool :=
  match rev s with
  | c :: _ => isDot c
  | [] => false
  end.

(** A trailing run of dots becomes [.md]; a name that does not end in a dot
    is left as it is. *)
Definition dotsToMd (s : str) : str :=
  if endsWithDot s then stripTrailingDots s ++ lit ".md" else s.

(** *** Notions and sample dates used in the proofs *)

(** The result of a non-global [replace], from the result of the search. *)
Definition spliced (rep s : str) (found : option (str * MatchResult)) : str :=
  match found with
  | Some (pre, m) => pre ++ rep ++ after m
  | None => s
  end.

Definition september2 : LocalDate := mkDate 2025 8 2 15 30 45 2.

(** A class that holds no digit. *)
Definition digitFree (Q : ascii -> bool) : Prop :=
  forall c, isDigit c = true -> Q c = false.

Definition isD (c : ascii) : bool := Ascii.eqb "D" c.

Definition isH (c : ascii) : bool := Ascii.eqb "H" c.

Definition ish (c : ascii) : bool := Ascii.eqb "h" c.

Definition isYorM (c : ascii) : bool := Ascii.eqb "Y" c || Ascii.eqb "M" c.

Definition christmas : LocalDate := mkDate 2025 11 25 10 0 0 4.

(** *** Templates made of text, year, text, month, text, day, text *)

(** A character of an integer as [toString] writes it. *)
Definition numeric (c : ascii) : bool := isDigit c || Ascii.eqb "-" c.

(** Literal text in which, and across the ends of which, none of the
    sixteen tokens can match: it has no [Y], [M], [D], [H] or [h], and no
    [m], [s] or [d] twice in a row. *)
Definition quiet (p : str) : Prop :=
  without (oneOf "YMDHh") p
  /\ adjacent (Ascii.eqb "m") (Ascii.eqb "m") p = false
  /\ adjacent (Ascii.eqb "s") (Ascii.eqb "s") p = false
  /\ adjacent (Ascii.eqb "d") (Ascii.eqb "d") p = false.

(** Literal text that the sanitizing leaves alone wherever it stands. *)
Definition tidy (p : str) : Prop :=
  without invalidChar p /\ without isSpace p.

Definition pad2 (n : nat) : str := padStart 2 "0" (natToString n).

(** The year, the month and the day of [date] between the texts. *)
Definition dated (date : LocalDate) (a b c e : str) : str :=
  a ++ intToString (getFullYear date) ++ b ++ pad2 (getMonth date + 1)
  ++ c ++ pad2 (getDate date) ++ e.

End DateUtils.

(** ** The abstract [AIService] class *)

Module AIService.

(** The type [Sentiment] is the union of five string literals. *)
Inductive Sentiment : Type :=
| VeryHappy | Happy | Neutral | Sad | VerySad.

Definition label (s : Sentiment) : str :=
  match s with
  | VeryHappy => lit "Very Happy"
  | Happy => lit "Happy"
  | Neutral => lit "Neutral"
  | Sad => lit "Sad"
  | VerySad => lit "Very Sad"
  end.

Record AIServiceResponse : Type := mkResponse {
  content : str;
  sentiment : option Sentiment
}.

(** *** parseSentimentFromResponse *)

(** [/^SENTIMENT:\s*(Very Happy|Happy|Neutral|Sad|Very Sad)$/i] *)
Definition sentimentRegex : RegExp :=
  mkRegExp
    (seq [Bol; word "SENTIMENT:"; Star isSpace;
          Grp (alt [word "Very Happy"; word "Happy"; word "Neutral";
                    word "Sad"; word "Very Sad"]);
          Eol])
    true false.

Definition validSentiments : list Sentiment :=
  [VeryHappy; Happy; Neutral; Sad; VerySad].

(** The sentiment that line [lines[i]] yields in the loop body, if any:
    the pattern must match the trimmed line and the captured label must be
    one of [validSentiments] up to case. *)
Definition sentimentOfLine (rawLine : str) : option Sentiment :=
  let line := trim rawLine in
  match matchFirst sentimentRegex line with
  | Some m =>
      let parsedSentiment := trim (nth 0 (groups m) []) in
      find (fun s =>
              JsString.eqb (toLowerCase (label s)) (toLowerCase parsedSentiment))
        validSentiments
  | None => None
  end.

(** The loop [for (let i = lines.length - 1; i >= 0; i--)]; [upper] is
    [i + 1].  The result is the final value of [content] and [sentiment]. *)
Fixpoint sentimentLoop (lines : list str) (upper : nat) (content : str)
    : str * option Sentiment :=
  match upper with
  | 0 => (content, None)
  | S i =>
      match sentimentOfLine (nth i lines []) with
      | Some normalizedSentiment =>
          (trim (join (lit (String "010" EmptyString)) (firstn i lines)),
           Some normalizedSentiment)
      | None => sentimentLoop lines i content
      end
  end.

Definition parseSentimentFromResponse (response : str) : AIServiceResponse :=
  let lines := split "010" (trim response) in
  let '(content, sentiment) :=
    sentimentLoop lines (length lines) (trim response) in
  match sentiment with
  | Some s => mkResponse content (Some s)
  | None => mkResponse content (Some Neutral)
  end.

(** The line test as the specification words it: the trimmed line is the
    tag [SENTIMENT:], a run of white space and one of the five labels, all
    of it up to the case of the letters. *)
Definition isSentimentLine (rawLine : str) (s : Sentiment) : Prop :=
  exists tag ws lbl,
    trim rawLine = tag ++ ws ++ lbl
    /\ toLowerCase tag = lit "sentiment:"
    /\ Forall (fun c => isSpace c = true) ws
    /\ toLowerCase lbl = toLowerCase (label s).

(** *** makeHttpRequest *)

Record Response : Type := mkHttpResponse {
  ok : bool;
  status : nat;
  statusText : str;
  payload : str
}.

(** A thrown [Error] object. *)
Record JsError : Type := mkError {
  name : str;
  message : str
}.

Definition newError (message : str) : JsError := mkError (lit "Error") message.

(** What one call of [fetch] does: it resolves with a response or rejects,
    with a network failure or with the [AbortError] of the time-out
    signal. *)
Inductive FetchOutcome : Type :=
| Resolves (r : Response)
| Rejects (e : JsError).

(** The visible effects of a request, in order. *)
Inductive Effect : Type :=
| Fetch (attempt : nat)
| Sleep (ms : Z).

(** [Math.min(1000 * Math.pow(2, attempt - 1), 10000)] *)
Definition retryDelay (attempt : nat) : Z :=
  Z.min (1000 * 2 ^ (Z.of_nat attempt - 1)) 10000.

Definition httpErrorMessage (r : Response) : str :=
  lit "HTTP " ++ natToString (status r) ++ lit ": " ++ statusText r.

(** The [for] loop with its inner [try]/[catch]; [remaining] is
    [retries - attempt + 1], the number of iterations left.  The backend is
    the function [fetch] from the number of the call to its outcome. *)
Fixpoint attempts (fetch : nat -> FetchOutcome) (retries attempt remaining : nat)
    (log : list Effect) : (JsError + Response) * list Effect :=
  match remaining with
  | 0 => (inl (newError (lit "All retry attempts failed")), log)
  | S remaining' =>
      let log := log ++ [Fetch attempt] in
      match fetch attempt with
      | Resolves response =>
          if ok response then (inr response, log)
          else if attempt =? retries
          then (inl (newError (httpErrorMessage response)), log)
          else attempts fetch retries (S attempt) remaining'
                 (log ++ [Sleep (retryDelay attempt)])
      | Rejects error =>
          if attempt =? retries then (inl error, log)
          else attempts fetch retries (S attempt) remaining'
                 (log ++ [Sleep (retryDelay attempt)])
      end
  end.

(** [makeHttpRequest], with the outer [catch] that turns an [AbortError]
    into the time-out error. *)
Definition makeHttpRequest (fetch : nat -> FetchOutcome)
    (retries : nat) (timeout : Z) : (JsError + Response) * list Effect :=
  let '(result, log) := attempts fetch retries 1 retries [] in
  match result with
  | inr response => (inr response, log)
  | inl error =>
      if JsString.eqb (name error) (lit "AbortError")
      then (inl (newError (lit "Request timeout after " ++ intToString timeout
                           ++ lit "ms")), log)
      else (inl error, log)
  end.

Definition defaultRetries : nat := 3.
Definition defaultTimeout : Z := 30000.

(** *** handleApiError *)

(** The message of the error that [handleApiError] throws, from the message
    of the error it is given and the provider's display name. *)
Definition handleApiError (displayName : str) (message : str) : str :=
  if includes message (lit "timeout") then
    displayName ++ lit " request timed out. Please try again."
  else if includes message (lit "401") || includes message (lit "403") then
    displayName ++ lit " authentication failed. Please check your API key."
  else if includes message (lit "429") then
    displayName ++ lit " rate limit exceeded. Please wait before trying again."
  else if includes message (lit "500") || includes message (lit "502")
          || includes message (lit "503") then
    displayName ++ lit " server error. Please try again later."
  else
    displayName ++ lit " error: "
    ++ match message with [] => lit "Unknown error" | _ => message end.

(** *** preparePrompt and validateResponse *)

Definition lineBreak : str := lit (String "010" EmptyString).

Definition explicitLanguage (language : str) : str :=
  lineBreak ++ lineBreak ++ lit "Please write the journal entry in " ++ language
  ++ lit ". Return only the journal content, no introductions or explanations.".

Definition sameLanguage : str :=
  lineBreak ++ lineBreak
  ++ lit "IMPORTANT: Write the journal entry in the same language as the original content. Do not translate or change the language. Return only the journal content, no introductions or explanations.".

(** The text that [preparePrompt] appends; [language] is [None] for
    [undefined], and the empty text is falsy like [undefined]. *)
Definition languageSuffix (language : option str) : str :=
  match language with
  | None | Some [] => sameLanguage
  | Some l => if JsString.eqb l (lit "auto") then [] else explicitLanguage l
  end.

Definition preparePrompt (template content : str) (language : option str)
    : str :=
  replaceFirst (lit "{content}") (trim content) template
  ++ languageSuffix language.

(** [validateResponse]: the trimmed response, or the error thrown for a
    response that is empty or white space only. *)
Definition validateResponse (response : str) : JsError + str :=
  match trim response with
  | [] => inl (newError (lit "Received empty response from AI service"))
  | trimmed => inr trimmed
  end.

(** *** Notions used to state the retry policy *)

(** An attempt fails when [fetch] rejects or resolves with a response that
    is not [ok]. *)
Definition failed (o : FetchOutcome) : Prop :=
  match o with
  | Resolves r => ok r = false
  | Rejects _ => True
  end.

(** The error that a failed attempt leaves when it is the last one. *)
Definition terminalError (o : FetchOutcome) (timeout : Z) : JsError :=
  match o with
  | Resolves r => newError (httpErrorMessage r)
  | Rejects e =>
      if JsString.eqb (name e) (lit "AbortError")
      then newError (lit "Request timeout after " ++ intToString timeout
                     ++ lit "ms")
      else e
  end.

(** Attempts [first .. first + n - 1], each followed by its wait, as the
    specification words the wait. *)
Fixpoint waits (first n : nat) : list Effect :=
  match n with
  | 0 => []
  | S n' =>
      Fetch first
      :: Sleep (Z.min (1000 * 2 ^ (Z.of_nat first - 1)) 10000)
      :: waits (S first) n'
  end.

Definition isDollar (c : ascii) : bool := Ascii.eqb c "$".

(** The last attempt was cut by the time-out signal. *)
Definition aborted (o : FetchOutcome) : Prop :=
  match o with
  | Rejects e => name e = lit "AbortError"
  | Resolves _ => False
  end.

(** The last attempt was answered with the HTTP status [code] and a status
    text that holds none of the [keywords]. *)
Definition answeredWith (o : FetchOutcome) (code : nat)
    (keywords : list string) : Prop :=
  match o with
  | Resolves r =>
      ok r = false /\ status r = code
      /\ forallb (fun k => negb (includes (statusText r) (lit k))) keywords
         = true
  | Rejects _ => False
  end.

(** A backend whose every attempt is cut by the time-out signal. *)
Definition stalled (attempt : nat) : FetchOutcome :=
  Rejects (mkError (lit "AbortError") (lit "The operation was aborted")).

(** A backend that fails twice and then answers. *)
Definition failing : FetchOutcome :=
  Resolves (mkHttpResponse false 503 (lit "Service Unavailable") []).
Definition answering : FetchOutcome :=
  Resolves (mkHttpResponse true 200 (lit "OK") (lit "{}")).
Definition flaky (attempt : nat) : FetchOutcome :=
  if attempt <? 3 then failing else answering.

(** *** Notions and a sample response used in the proofs *)

(** The text is one of the five labels up to case. *)
Definition isLabel (t : str) : bool :=
  existsb (fun s => JsString.eqb (toLowerCase t) (toLowerCase (label s)))
    validSentiments.

Definition labels : regex :=
  alt [word "Very Happy"; word "Happy"; word "Neutral"; word "Sad";
       word "Very Sad"].

Definition diary : str :=
  lit "Dear diary" ++ "010"%char :: lit "a fine day" ++ "010"%char
  :: "010"%char :: lit "sentiment:  very HAPPY".

End AIService.

(** ** The [Scheduler] of src/services/journalManager.ts *)

Module Scheduler.

Import NoteProcessor.
Export AIService.

Record ProcessingResult : Type := mkResult {
  success : bool;
  processed : nat;
  errors : list str;
  duration : Z
}.

Record Settings : Type := mkSettings {
  aiProvider : str;
  customPrompt : str;
  outputLanguage : str
}.

(** The mutable fields of a [Scheduler] object that the processing methods
    read or write. *)
Record State : Type := mkScheduler {
  isProcessing : bool;
  lastProcessingTime : option Z;
  settings : Settings
}.

Definition setProcessing (b : bool) (s : State) : State :=
  mkScheduler b (lastProcessingTime s) (settings s).

Definition setLastProcessingTime (t : Z) (s : State) : State :=
  mkScheduler (isProcessing s) (Some t) (settings s).

(** A value caught by [catch (error)]: an [Error] object or anything else. *)
Inductive Thrown : Type :=
| ErrorObject (message : str)
| OtherValue.

(** [error instanceof Error ? error.message : 'Unknown error'] *)
Definition errorText (e : Thrown) : str :=
  match e with
  | ErrorObject m => m
  | OtherValue => lit "Unknown error"
  end.

(** The calls that leave the scheduler: the clock, the note processor, the
    service factory, the AI service and the journal manager.  A call that
    can throw or reject answers with a sum. *)
Inductive Call : Type -> Type :=
| DateNow : Call Z
| FindUnprocessedDailyNotes : Call (Thrown + list DailyNote)
| FindMostRecentDailyNote : Call (Thrown + option DailyNote)
| CreateService (provider : str) : Call (Thrown + unit)
| ProcessContent (logContent prompt : str) (language : option str)
    : Call (Thrown + AIServiceResponse)
| CreateJournalEntry (note : DailyNote) (content : str)
    (sentiment : option Sentiment) : Call (Thrown + unit).

(** An [async] method run from a scheduler state: it either finishes with a
    result, or stops at a call with the state as it is then, to be resumed
    with the call's answer and the state as it is at that later time (other
    code may have run in between).  Every call is treated as such a
    suspension point, also the synchronous ones, which only allows more
    interleavings than the event loop does. *)
Inductive Run (R : Type) : Type :=
| Finished (r : R) (s : State)
| Suspended (A : Type) (c : Call A) (s : State) (k : A -> State -> Run R).

Arguments Finished {R} r s.
Arguments Suspended {R A} c s k.

Definition Task (R : Type) : Type := State -> Run R.

Definition ret {R} (r : R) : Task R := fun s => Finished r s.

Fixpoint bindRun {A B} (r : Run A) (f : A -> Task B) : Run B :=
  match r with
  | Finished a s => f a s
  | Suspended c s k => Suspended c s (fun x s' => bindRun (k x s') f)
  end.

Definition bind {A B} (t : Task A) (f : A -> Task B) : Task B :=
  fun s => bindRun (t s) f.

Definition call {A} (c : Call A) : Task A :=
  fun s => Suspended c s (fun a s' => Finished a s').

Definition get : Task State := fun s => Finished s s.
Definition modify (f : State -> State) : Task unit := fun s => Finished tt (f s).

Declare Scope task_scope.
Delimit Scope task_scope with task.
Notation "x <- t ;; k" := (bind t (fun x => k))
  (at level 61, t at next level, right associativity) : task_scope.
Notation "t ;;; k" := (bind t (fun _ => k))
  (at level 61, right associativity) : task_scope.
Local Open Scope task_scope.

Definition newline : str := lit (String "010" EmptyString).

Definition prepareContentForAI (dailyNote : DailyNote) : str :=
  match entries dailyNote with
  | [] => []
  | es => trim (join newline (map NoteProcessor.content es))
  end.

(** [!logContent.trim()] *)
Definition blank (logContent : str) : bool :=
  match trim logContent with [] => true | _ :: _ => false end.

(** [settings.outputLanguage === 'auto' ? undefined : settings.outputLanguage] *)
Definition languageOf (st : Settings) : option str :=
  if JsString.eqb (outputLanguage st) (lit "auto") then None
  else Some (outputLanguage st).

Definition busyResult : ProcessingResult :=
  mkResult false 0 [lit "Processing already in progress"] 0.

Definition failedToProcess (dailyNote : DailyNote) (error : Thrown) : str :=
  lit "Failed to process " ++ file dailyNote ++ lit ": " ++ errorText error.

(** The [for (const dailyNote of unprocessedNotes)] loop with its
    [try]/[catch]; the result is the final [processedCount] and [errors]. *)
Fixpoint processEach (notes : list DailyNote) (processedCount : nat)
    (errors : list str) : Task (nat * list str) :=
  match notes with
  | [] => ret (processedCount, errors)
  | dailyNote :: rest =>
      let logContent := prepareContentForAI dailyNote in
      if blank logContent then processEach rest processedCount errors
      else
        s <- get ;;
        ai <- call (ProcessContent logContent (customPrompt (settings s))
                      (languageOf (settings s))) ;;
        match ai with
        | inl error =>
            processEach rest processedCount
              (errors ++ [failedToProcess dailyNote error])
        | inr aiResponse =>
            written <- call (CreateJournalEntry dailyNote
                               (AIService.content aiResponse)
                               (sentiment aiResponse)) ;;
            match written with
            | inl error =>
                processEach rest processedCount
                  (errors ++ [failedToProcess dailyNote error])
            | inr _ => processEach rest (S processedCount) errors
            end
        end
  end.

(** What leaves the [try] block of [processNotes]: a return value, or a
    thrown value together with the [processedCount] and [errors] of that
    moment, which the [catch] block reads. *)
Definition processNotesTry (startTime : Z)
    : Task ((Thrown * nat * list str) + ProcessingResult) :=
  found <- call FindUnprocessedDailyNotes ;;
  match found with
  | inl error => ret (inl (error, 0, []))
  | inr [] =>
      now <- call DateNow ;;
      ret (inr (mkResult true 0 [] (now - startTime)))
  | inr unprocessedNotes =>
      s <- get ;;
      service <- call (CreateService (aiProvider (settings s))) ;;
      match service with
      | inl error => ret (inl (error, 0, []))
      | inr _ =>
          done <- processEach unprocessedNotes 0 [] ;;
          let '(processedCount, errors) := done in
          today <- call DateNow ;;
          modify (setLastProcessingTime today) ;;;
          now <- call DateNow ;;
          ret (inr (mkResult (match errors with [] => true | _ => false end)
                      processedCount errors (now - startTime)))
      end
  end.

(** The [catch] and [finally] blocks of [processNotes], from what left the
    [try] block. *)
Definition processNotesFinally (startTime : Z)
    (outcome : (Thrown * nat * list str) + ProcessingResult)
    : Task ProcessingResult :=
  match outcome with
  | inr result =>
      modify (setProcessing false) ;;;
      ret result
  | inl (error, processedCount, errors) =>
      let errorMessage := lit "Processing cycle failed: " ++ errorText error in
      now <- call DateNow ;;
      modify (setProcessing false) ;;;
      ret (mkResult false processedCount (errorMessage :: errors)
             (now - startTime))
  end.

Definition processNotes : Task ProcessingResult :=
  s <- get ;;
  if isProcessing s then ret busyResult
  else
    modify (setProcessing true) ;;;
    startTime <- call DateNow ;;
    outcome <- processNotesTry startTime ;;
    processNotesFinally startTime outcome.

Definition processLatestNoteTry (startTime : Z)
    : Task (Thrown + ProcessingResult) :=
  found <- call FindMostRecentDailyNote ;;
  match found with
  | inl error => ret (inl error)
  | inr None =>
      now <- call DateNow ;;
      ret (inr (mkResult true 0 [lit "No recent daily note found"]
                  (now - startTime)))
  | inr (Some mostRecentNote) =>
      s <- get ;;
      service <- call (CreateService (aiProvider (settings s))) ;;
      match service with
      | inl error => ret (inl error)
      | inr _ =>
          let logContent := prepareContentForAI mostRecentNote in
          if blank logContent then
            now <- call DateNow ;;
            ret (inr (mkResult false 0
                        [lit "No processable content found in the note"]
                        (now - startTime)))
          else
            s <- get ;;
            ai <- call (ProcessContent logContent (customPrompt (settings s))
                          (languageOf (settings s))) ;;
            match ai with
            | inl error => ret (inl error)
            | inr aiResponse =>
                written <- call (CreateJournalEntry mostRecentNote
                                   (AIService.content aiResponse)
                                   (sentiment aiResponse)) ;;
                match written with
                | inl error => ret (inl error)
                | inr _ =>
                    today <- call DateNow ;;
                    modify (setLastProcessingTime today) ;;;
                    now <- call DateNow ;;
                    ret (inr (mkResult true 1 [] (now - startTime)))
                end
            end
      end
  end.

Definition processLatestNoteFinally (startTime : Z)
    (outcome : Thrown + ProcessingResult) : Task ProcessingResult :=
  match outcome with
  | inr result =>
      modify (setProcessing false) ;;;
      ret result
  | inl error =>
      let errorMessage :=
        lit "Latest note processing failed: " ++ errorText error in
      now <- call DateNow ;;
      modify (setProcessing false) ;;;
      ret (mkResult false 0 [errorMessage] (now - startTime))
  end.

Definition processLatestNote : Task ProcessingResult :=
  s <- get ;;
  if isProcessing s then ret busyResult
  else
    modify (setProcessing true) ;;;
    startTime <- call DateNow ;;
    outcome <- processLatestNoteTry startTime ;;
    processLatestNoteFinally startTime outcome.

(** *** One invocation run to its end *)

(** The collaborators, as a handler that answers each call from a world
    state of its own. *)
Definition Handler (W : Type) : Type := forall A, Call A -> W -> A * W.

(** A call together with the answer it got. *)
Inductive Answered : Type :=
| answered (A : Type) (c : Call A) (a : A).

Arguments answered {A} c a.

(** Run an invocation to its end with nothing else interleaved: the result,
    the final scheduler state, the final world and the calls made. *)
Fixpoint complete {W R} (h : Handler W) (r : Run R) (w : W)
    : R * State * W * list Answered :=
  match r with
  | Finished x s => (x, s, w, [])
  | Suspended c s k =>
      let '(a, w') := h _ c w in
      let '(x, s', w'', calls) := complete h (k a s) w' in
      (x, s', w'', answered c a :: calls)
  end.

(** *** Several invocations on one scheduler *)

(** An invocation stopped at a call. *)
Inductive Pending : Type :=
| pending (A : Type) (c : Call A) (k : A -> State -> Run ProcessingResult).

Arguments pending {A} c k.

(** The scheduler object and the invocations in flight. *)
Record System : Type := mkSystem {
  scheduler : State;
  inFlight : list Pending
}.

(** The system after a piece of an invocation has run. *)
Definition settle (before after : list Pending) (r : Run ProcessingResult)
    : System * option ProcessingResult :=
  match r with
  | Finished x s => (mkSystem s (before ++ after), Some x)
  | Suspended c s k => (mkSystem s (before ++ pending c k :: after), None)
  end.

(** What the event loop can do next: start [processNotes] or
    [processLatestNote], deliver the answer of a call to the invocation that
    waits for it, or replace the settings ([updateSettings]).  The step is
    labelled with the result an invocation returns in it, if any. *)
Inductive step : System -> option ProcessingResult -> System -> Prop :=
| step_processNotes sys :
    step sys
      (snd (settle (inFlight sys) [] (processNotes (scheduler sys))))
      (fst (settle (inFlight sys) [] (processNotes (scheduler sys))))
| step_processLatestNote sys :
    step sys
      (snd (settle (inFlight sys) [] (processLatestNote (scheduler sys))))
      (fst (settle (inFlight sys) [] (processLatestNote (scheduler sys))))
| step_resume s before A (c : Call A) k after (a : A) :
    step (mkSystem s (before ++ pending c k :: after))
      (snd (settle before after (k a s)))
      (fst (settle before after (k a s)))
| step_updateSettings s jobs newSettings :
    step (mkSystem s jobs) None
      (mkSystem (mkScheduler (isProcessing s) (lastProcessingTime s) newSettings)
         jobs).

(** The systems that arise from a fresh scheduler. *)
Inductive reachable : System -> Prop :=
| reachable_init st : reachable (mkSystem (mkScheduler false None st) [])
| reachable_step sys out sys' :
    reachable sys -> step sys out sys' -> reachable sys'.

(** *** Notions used to state the claims on the scheduler *)

(** A piece of an invocation that leaves the flag set: the flag is set at
    each of its suspension points and when it finishes, provided it is set
    whenever the piece is resumed. *)
Inductive Keeps {A : Type} : Run A -> Prop :=
| keeps_finished a s : isProcessing s = true -> Keeps (Finished a s)
| keeps_suspended B (c : Call B) s k :
    isProcessing s = true ->
    (forall b s', isProcessing s' = true -> Keeps (k b s')) ->
    Keeps (Suspended c s k).

(** An invocation that holds the flag until it finishes and clears it
    then. *)
Inductive Releases {A : Type} : Run A -> Prop :=
| releases_finished a s : isProcessing s = false -> Releases (Finished a s)
| releases_suspended B (c : Call B) s k :
    isProcessing s = true ->
    (forall b s', isProcessing s' = true -> Releases (k b s')) ->
    Releases (Suspended c s k).

(** At most one invocation is in flight, the flag is set exactly while one
    is, and that one clears the flag when it finishes. *)
Definition singleFlight (sys : System) : Prop :=
  match inFlight sys with
  | [] => isProcessing (scheduler sys) = false
  | [pending c k] =>
      isProcessing (scheduler sys) = true
      /\ forall a s', isProcessing s' = true -> Releases (k a s')
  | _ :: _ :: _ => False
  end.

(** The contents sent to the AI service, in the order of the calls. *)
Definition contentSent (a : Answered) : list str :=
  match a with
  | answered c _ =>
      match c with
      | ProcessContent logContent _ _ => [logContent]
      | _ => []
      end
  end.

(** The call is one of the two calls of the loop body and it failed. *)
Definition rejected (a : Answered) : bool :=
  match a with
  | answered c x =>
      match c in Call A return A -> bool with
      | ProcessContent _ _ _ =>
          fun x => match x with inl _ => true | inr _ => false end
      | CreateJournalEntry _ _ _ =>
          fun x => match x with inl _ => true | inr _ => false end
      | _ => fun _ => false
      end x
  end.

(** The call wrote a journal entry. *)
Definition wrote (a : Answered) : bool :=
  match a with
  | answered c x =>
      match c in Call A return A -> bool with
      | CreateJournalEntry _ _ _ =>
          fun x => match x with inl _ => false | inr _ => true end
      | _ => fun _ => false
      end x
  end.

(** What a call threw or rejected with, if it did. *)
Definition thrownBy (a : Answered) : option Thrown :=
  let failure {X} (x : Thrown + X) : option Thrown :=
    match x with inl e => Some e | inr _ => None end in
  match a with
  | answered c x =>
      match c in Call A return A -> option Thrown with
      | DateNow => fun _ => None
      | FindUnprocessedDailyNotes => fun x => failure x
      | FindMostRecentDailyNote => fun x => failure x
      | CreateService _ => fun x => failure x
      | ProcessContent _ _ _ => fun x => failure x
      | CreateJournalEntry _ _ _ => fun x => failure x
      end x
  end.

(** The call belongs to the body of the loop over the notes. *)
Definition inLoop (a : Answered) : bool :=
  match a with
  | answered c _ =>
      match c with
      | ProcessContent _ _ _ | CreateJournalEntry _ _ _ => true
      | _ => false
      end
  end.

(** [findUnprocessedDailyNotes] answered with no note. *)
Definition foundNothing (a : Answered) : bool :=
  match a with
  | answered c x =>
      match c in Call A return A -> bool with
      | FindUnprocessedDailyNotes =>
          fun x => match x with inr [] => true | _ => false end
      | _ => fun _ => false
      end x
  end.

(** [createService] returned a service. *)
Definition serviceCreated (a : Answered) : bool :=
  match a with
  | answered c x =>
      match c in Call A return A -> bool with
      | CreateService _ =>
          fun x => match x with inr _ => true | inl _ => false end
      | _ => fun _ => false
      end x
  end.

(** The messages of the two outer [catch] blocks. *)
Definition cycleFailure (e : Thrown) : str :=
  lit "Processing cycle failed: " ++ errorText e.

Definition latestFailure (e : Thrown) : str :=
  lit "Latest note processing failed: " ++ errorText e.

(** The notes that reach the AI service. *)
Definition hasContent (dailyNote : DailyNote) : bool :=
  negb (blank (prepareContentForAI dailyNote)).

(** *** Notions and sample collaborators used in the proofs *)

Definition keeps {A} (t : Task A) : Prop :=
  forall s, isProcessing s = true -> Keeps (t s).

Definition releases {A} (t : Task A) : Prop :=
  forall s, isProcessing s = true -> Releases (t s).

Definition plainSettings : Settings :=
  mkSettings (lit "openai") (lit "{content}") (lit "auto").

Definition fresh : System := mkSystem (mkScheduler false None plainSettings) [].

(** The system after one call of [processNotes] on a fresh scheduler. *)
Definition started : System :=
  fst (settle (inFlight fresh) [] (processNotes (scheduler fresh))).

(** What one run of the loop does, whatever the collaborators answer. *)
Record LoopReport (notes : list DailyNote) (processedCount : nat)
    (errors : list str) (processedCount' : nat) (errors' : list str)
    (calls : list Answered) : Prop := mkReport {
  all_sent :
    flat_map contentSent calls
    = map prepareContentForAI (filter hasContent notes);
  errors_grow :
    exists added,
      errors' = errors ++ added
      /\ length added = length (filter rejected calls)
      /\ Forall
           (fun message =>
              exists dailyNote error,
                In dailyNote notes
                /\ message = failedToProcess dailyNote error
                /\ includes message (file dailyNote) = true)
           added;
  count_grows :
    processedCount' = processedCount + length (filter wrote calls)
}.

(** What the body of the loop does with one note, case by case: the calls
    it makes with the answers they got, what it adds to [processedCount]
    and what it adds to [errors].  A note without content makes no call;
    a note with content is sent to the AI service, and the journal entry
    is created from the answer when there is one; a call that fails
    leaves the message about this note and nothing else. *)
Inductive NoteRun (st : Settings) (dailyNote : DailyNote)
    : list Answered -> nat -> list str -> Prop :=
| noteSkipped :
    hasContent dailyNote = false ->
    NoteRun st dailyNote [] 0 []
| noteRejected (error : Thrown) :
    hasContent dailyNote = true ->
    NoteRun st dailyNote
      [answered (ProcessContent (prepareContentForAI dailyNote)
                   (customPrompt st) (languageOf st)) (inl error)]
      0 [failedToProcess dailyNote error]
| noteUnwritten (aiResponse : AIServiceResponse) (error : Thrown) :
    hasContent dailyNote = true ->
    NoteRun st dailyNote
      [answered (ProcessContent (prepareContentForAI dailyNote)
                   (customPrompt st) (languageOf st)) (inr aiResponse);
       answered (CreateJournalEntry dailyNote (AIService.content aiResponse)
                   (sentiment aiResponse)) (inl error)]
      0 [failedToProcess dailyNote error]
| noteWritten (aiResponse : AIServiceResponse) (u : unit) :
    hasContent dailyNote = true ->
    NoteRun st dailyNote
      [answered (ProcessContent (prepareContentForAI dailyNote)
                   (customPrompt st) (languageOf st)) (inr aiResponse);
       answered (CreateJournalEntry dailyNote (AIService.content aiResponse)
                   (sentiment aiResponse)) (inr u)]
      1 [].

(** A run of the loop over [notes]: one [NoteRun] for each note, in the
    order of the notes, whatever the runs before it were. *)
Inductive BatchRun (st : Settings)
    : list DailyNote -> list Answered -> nat -> list str -> Prop :=
| batchDone : BatchRun st [] [] 0 []
| batchNext dailyNote rest calls written messages
    restCalls restWritten restMessages :
    NoteRun st dailyNote calls written messages ->
    BatchRun st rest restCalls restWritten restMessages ->
    BatchRun st (dailyNote :: rest) (calls ++ restCalls)
      (written + restWritten) (messages ++ restMessages).

Definition consistent (r : ProcessingResult) : Prop :=
  success r = true <-> errors r = [].

Definition monday : DailyNote :=
  mkDailyNote (lit "2024-01-01.md") (lit "2024-01-01")
    [mkEntry (lit "walked the dog") None] [].

Definition tuesday : DailyNote :=
  mkDailyNote (lit "2024-01-02.md") (lit "2024-01-02")
    [mkEntry (lit "baked bread") None] [].

(** Collaborators whose AI service rejects the first content it is sent
    and answers every later one; the world counts the contents sent. *)
Definition rejectsFirst : Handler nat :=
  fun A (c : Call A) =>
    match c in Call A return nat -> A * nat with
    | DateNow => fun n => (0%Z, n)
    | FindUnprocessedDailyNotes => fun n => (inr [monday; tuesday], n)
    | FindMostRecentDailyNote => fun n => (inr None, n)
    | CreateService _ => fun n => (inr tt, n)
    | ProcessContent logContent _ _ => fun n =>
        (match n with
         | O => inl (ErrorObject (lit "HTTP 500"))
         | S _ => inr (mkResponse logContent (Some Happy))
         end, S n)
    | CreateJournalEntry _ _ _ => fun n => (inr tt, n)
    end.

Definition idle : State := mkScheduler false None plainSettings.

(** Collaborators that never fail, with a clock that advances by one at
    each reading; the world is the next reading of the clock. *)
Definition ticking : Handler Z :=
  fun A (c : Call A) =>
    match c in Call A return Z -> A * Z with
    | DateNow => fun t => (t, (t + 1)%Z)
    | FindUnprocessedDailyNotes => fun t => (inr [monday; tuesday], t)
    | FindMostRecentDailyNote => fun t => (inr (Some tuesday), t)
    | CreateService _ => fun t => (inr tt, t)
    | ProcessContent logContent _ _ => fun t =>
        (inr (mkResponse logContent (Some Happy)), t)
    | CreateJournalEntry _ _ _ => fun t => (inr tt, t)
    end.


End Scheduler.

(** ** The search for notes of [NoteProcessor], in src/services/noteProcessor.ts *)

Module NoteSearch.

Import CoordinateParser NoteProcessor DateUtils AIService.

(** A [Date]: its time value, which [>] compares, and its local calendar
    fields. *)
Record JsDate : Type := mkJsDate {
  getTime : Z;
  localFields : LocalDate
}.

(** A file of the vault, by the two properties that are read. *)
Record TFile : Type := mkTFile {
  fileName : str;
  filePath : str
}.

(** What the search takes from the vault, from the date library and from
    the settings: the markdown files that [getFilesInFolder] lists for the
    source folder, in its order; [parseDateFromFilename] for the date
    format of the settings ([None] for [null]); [isBeforeToday];
    [fileExists] on a path; the outcome of reading a file, an [Error] when
    the vault rejects; [formatDate] with the format [YYYY-MM-DD]; the
    destination folder and the format of journal file names. *)
Record Vault : Type := mkVault {
  files : list TFile;
  parseDateFromFilename : str -> option JsDate;
  isBeforeToday : JsDate -> bool;
  fileExists : str -> bool;
  readFile : TFile -> JsError + str;
  formatDate : JsDate -> str;
  destinationFolder : str;
  journalFileNameFormat : str
}.

Definition journalEntryExists (v : Vault) (date : JsDate) : bool :=
  let journalFileName :=
    generateFilename (localFields date) (journalFileNameFormat v) in
  let journalPath := destinationFolder v ++ lit "/" ++ journalFileName in
  fileExists v journalPath.

(** [parseDailyNote(file, date)], which throws when the file cannot be
    read. *)
Definition parseDailyNoteFile (v : Vault) (file : TFile) (date : JsDate)
    : JsError + DailyNote :=
  match readFile v file with
  | inl e => inl e
  | inr content =>
      inr (parseDailyNote (filePath file) content (formatDate v date))
  end.

(** The body of the loop of [findUnprocessedDailyNotes]; what is thrown
    inside it is caught and the file skipped. *)
Definition scanFile (v : Vault) (unprocessedNotes : list DailyNote)
    (file : TFile) : list DailyNote :=
  match parseDateFromFilename v (fileName file) with
  | None => unprocessedNotes
  | Some date =>
      if negb (isBeforeToday v date) then unprocessedNotes
      else if journalEntryExists v date then unprocessedNotes
      else
        match parseDailyNoteFile v file date with
        | inl _ => unprocessedNotes
        | inr dailyNote =>
            match entries dailyNote with
            | [] => unprocessedNotes
            | _ :: _ => unprocessedNotes ++ [dailyNote]
            end
        end
  end.

Definition findUnprocessedDailyNotes (v : Vault) : list DailyNote :=
  fold_left (scanFile v) (files v) [].

(** The body of the loop of [findMostRecentDailyNote]. *)
Definition keepMostRecent (v : Vault) (mostRecentNote : option (TFile * JsDate))
    (file : TFile) : option (TFile * JsDate) :=
  match parseDateFromFilename v (fileName file) with
  | None => mostRecentNote
  | Some date =>
      if negb (isBeforeToday v date) then mostRecentNote
      else
        match mostRecentNote with
        | None => Some (file, date)
        | Some (_, recent) =>
            if (getTime recent <? getTime date)%Z then Some (file, date)
            else mostRecentNote
        end
  end.

Definition findMostRecentDailyNote (v : Vault) : JsError + option DailyNote :=
  match fold_left (keepMostRecent v) (files v) None with
  | None => inr None
  | Some (file, date) =>
      if journalEntryExists v date then inr None
      else
        match parseDailyNoteFile v file date with
        | inl error =>
            inl (newError (lit "Failed to find recent daily note: "
                           ++ message error))
        | inr dailyNote =>
            match entries dailyNote with
            | [] => inr None
            | _ :: _ => inr (Some dailyNote)
            end
        end
  end.

(** *** Notions used to state what the search returns *)

(** [file] is, among [fs], a note of a day before today, dated [date]. *)
Definition pastIn (v : Vault) (fs : list TFile) (file : TFile)
    (date : JsDate) : Prop :=
  In file fs
  /\ parseDateFromFilename v (fileName file) = Some date
  /\ isBeforeToday v date = true.

Definition pastNote (v : Vault) (file : TFile) (date : JsDate) : Prop :=
  pastIn v (files v) file date.

(** [dailyNote] is what [file], dated [date], parses to. *)
Definition parsedFrom (v : Vault) (file : TFile) (date : JsDate)
    (dailyNote : DailyNote) : Prop :=
  exists content,
    readFile v file = inr content
    /\ dailyNote
       = parseDailyNote (filePath file) content (formatDate v date).

(** [dailyNote] comes from a past note among [fs] that has no journal
    entry yet, and it has entries and content for the AI service. *)
Definition unprocessed (v : Vault) (fs : list TFile) (dailyNote : DailyNote)
    : Prop :=
  entries dailyNote <> [] /\ Scheduler.hasContent dailyNote = true
  /\ exists file date,
       pastIn v fs file date
       /\ journalEntryExists v date = false
       /\ parsedFrom v file date dailyNote.

(** [found] is the latest past note among [fs], if there is one. *)
Definition latestIn (v : Vault) (fs : list TFile)
    (found : option (TFile * JsDate)) : Prop :=
  match found with
  | None => forall file date, ~ pastIn v fs file date
  | Some (file, date) =>
      pastIn v fs file date
      /\ forall file' date',
           pastIn v fs file' date' -> (getTime date' <= getTime date)%Z
  end.

(** A vault with three notes, used as an example. *)
Definition day (n : Z) : JsDate :=
  mkJsDate (n * 86400000) (mkDate 2025 8 (Z.to_nat n) 0 0 0 0).

Definition sampleVault : Vault :=
  mkVault
    [ mkTFile (lit "2025-09-01.md") (lit "Daily/2025-09-01.md");
      mkTFile (lit "2025-09-02.md") (lit "Daily/2025-09-02.md");
      mkTFile (lit "readme.md") (lit "Daily/readme.md") ]
    (fun name =>
       if eqb name (lit "2025-09-01.md") then Some (day 1)
       else if eqb name (lit "2025-09-02.md") then Some (day 2)
       else None)
    (fun _ => true)
    (fun _ => false)
    (fun file =>
       if eqb (fileName file) (lit "2025-09-02.md")
       then inr (lit "- Walked the dog")
       else inr [])
    (fun date => lit "2025-09-0" ++ natToString (getDate (localFields date)))
    (lit "Journal")
    (lit "Journal-YYYY-MM-DD.md").

End NoteSearch.

(** ** The class [JournalManager], in src/services/journalManager.ts *)

Module JournalManager.

Import CoordinateParser FileUtils AIService.

Record JournalEntry : Type := mkJournalEntry {
  title : str;
  content : str;
  date : str;
  coordinates : list Coordinate;
  sourceFile : str;
  sentiment : option Sentiment
}.

(** The pattern of three or more line feeds, written as two line feeds
    followed by one or more: the same texts, matched greedily alike. *)
Definition paragraphBreaks : RegExp :=
  mkRegExp (seq [Chr "010"; Chr "010"; Plus isLineFeed]) false true.

(** The step of [formatJournalContent] that ensures the paragraph
    spacing. *)
Definition paragraphSpacing (content : str) : str :=
  replace paragraphBreaks (lineFeed ++ lineFeed) content.

(** The record [frontmatter] of [formatJournalContent]; [created] is the
    text of [new Date().toISOString()]. *)
Definition frontmatterOf (show : JsNumber.number -> str) (created : str)
    (journalEntry : JournalEntry) : list (str * YamlValue) :=
  [ (lit "date", ValString (date journalEntry));
    (lit "source", ValString (sourceFile journalEntry));
    (lit "created", ValString created) ]
  ++ match sentiment journalEntry with
     | Some s => [(lit "sentiment", ValString (label s))]
     | None => []
     end
  ++ match coordinates journalEntry with
     | [] => []
     | _ :: _ =>
         match formatCoordinatesForYaml show (coordinates journalEntry) with
         | [] => []
         | _ :: _ =>
             match coordinates journalEntry with
             | [coord] =>
                 [(lit "location", ValString (bracketPair show coord))]
             | coords =>
                 [(lit "locations",
                   ValArray
                     (map (fun coord => ItemString (bracketPair show coord))
                        coords))]
             end
         end
     end.

(** The variable [finalContent] of [formatJournalContent]. *)
Definition finalContent (journalEntry : JournalEntry) : str :=
  let content := paragraphSpacing (content journalEntry) in
  match title journalEntry with
  | [] => content
  | _ :: _ =>
      lit "# " ++ title journalEntry ++ lineFeed ++ lineFeed ++ content
  end.

Definition formatJournalContent (show : JsNumber.number -> str)
    (created : str) (journalEntry : JournalEntry) : str :=
  addFrontmatter (finalContent journalEntry)
    (frontmatterOf show created journalEntry).

(** *** The paragraph spacing as a plain function *)

(** At most two line feeds in a row are kept; [run] counts the line feeds
    just before. *)
Fixpoint squeezeFrom (run : nat) (s : str) : str :=
  match s with
  | [] => []
  | c :: s' =>
      if isLineFeed c then
        if run <? 2 then c :: squeezeFrom (S run) s'
        else squeezeFrom (S run) s'
      else c :: squeezeFrom 0 s'
  end.

Definition threeLineFeeds : str := lineFeed ++ lineFeed ++ lineFeed.

Definition notLineFeed (c : ascii) : bool := negb (isLineFeed c).

(** The line feeds kept from a run of [k]. *)
Definition feeds (k : nat) : str := repeat "010"%char (Nat.min k 2).

(** A journal entry used as an example. *)
Definition walk : JournalEntry :=
  mkJournalEntry (lit "September 2nd, 2025")
    (lit "Walked the dog." ++ lineFeed ++ lineFeed ++ lineFeed ++ lineFeed
     ++ lit "Slept well.")
    (lit "2025-09-02") [] (lit "Daily/2025-09-02.md") (Some Happy).

End JournalManager.
(* ================================================================== *)
(** * Part II: the claims *)
(* ================================================================== *)

(** ** Facts about characters and the matcher *)

Module RegExpFacts.

(** Case analysis over all 256 characters. *)
Ltac all_chars c := destruct c as [[] [] [] [] [] [] [] []]; vm_compute; try reflexivity; try congruence.

Lemma clsMatch_isDigit ic c : clsMatch ic isDigit c = isDigit c.
Proof. destruct ic; [|reflexivity]. all_chars c. Qed.

Lemma clsMatch_isSpace ic c : clsMatch ic isSpace c = isSpace c.
Proof. destruct ic; [|reflexivity]. all_chars c. Qed.

Lemma clsMatch_isAny ic c : clsMatch ic isAny c = true.
Proof. destruct ic; reflexivity. Qed.

Lemma clsMatch_isDot ic c : clsMatch ic DateUtils.isDot c = DateUtils.isDot c.
Proof. destruct ic; [|reflexivity]. all_chars c. Qed.

Lemma chrMatch_caseless ic x c : caseless x -> chrMatch ic x c = Ascii.eqb x c.
Proof. intros H. destruct ic; [apply H | reflexivity]. Qed.

Lemma caseless_minus : caseless "-".
Proof. intro c. all_chars c. Qed.
Lemma caseless_point : caseless ".".
Proof. intro c. all_chars c. Qed.
Lemma caseless_comma : caseless ",".
Proof. intro c. all_chars c. Qed.
Lemma caseless_colon : caseless ":".
Proof. intro c. all_chars c. Qed.
Lemma caseless_bracket : caseless "[".
Proof. intro c. all_chars c. Qed.
Lemma caseless_paren : caseless "(".
Proof. intro c. all_chars c. Qed.

Lemma isDigit_not_space c : isDigit c = true -> isSpace c = false.
Proof. all_chars c. Qed.

Lemma firstn_prefix (w t : str) :
  firstn (length (w ++ t) - length t) (w ++ t) = w.
Proof.
  rewrite length_app, Nat.add_sub.
  rewrite firstn_app, Nat.sub_diag, firstn_all. cbn. apply app_nil_r.
Qed.

Lemma firstn_one (x : ascii) (r : str) :
  firstn (length (x :: r) - length r) (x :: r) = [x].
Proof. exact (firstn_prefix [x] r). Qed.

Lemma firstn_more (x : ascii) (w r : str) :
  firstn (length (x :: w ++ r) - length r) (x :: w ++ r) = x :: w.
Proof. exact (firstn_prefix (x :: w) r). Qed.

Section Matcher.

Variable ic : bool.
Variable n : nat.
Variable M : Type.

Implicit Types (p : ascii -> bool) (k : str -> option M).

Lemma starGreedy_stop p rest k : stopsAt p rest -> starGreedy p rest k = k rest.
Proof. destruct rest as [|c rest]; cbn; [reflexivity|]. intros ->. reflexivity. Qed.

(** The greedy run succeeds at its full length when the continuation does. *)
Lemma starGreedy_run p ds rest k res :
  Forall (fun c => p c = true) ds -> stopsAt p rest ->
  k rest = Some res ->
  starGreedy p (ds ++ rest) k = Some res.
Proof.
  intros Hds Hstop Hk. induction Hds as [|d ds Hd _ IH]; cbn.
  - rewrite starGreedy_stop; assumption.
  - rewrite Hd, IH. reflexivity.
Qed.

(** When the continuation fails at the full length and after every shorter
    run, the star fails. *)
Lemma starGreedy_none p s k :
  (forall t, k t = None) -> starGreedy p s k = None.
Proof.
  intros Hk. induction s as [|c s IH]; cbn; [apply Hk|].
  destruct (p c); [rewrite IH|]; apply Hk.
Qed.

Lemma starGreedy_ext p s k1 k2 :
  (forall t, k1 t = k2 t) -> starGreedy p s k1 = starGreedy p s k2.
Proof.
  intros H. induction s as [|c s IH]; cbn; [apply H|].
  rewrite IH, H. reflexivity.
Qed.

Lemma starGreedy_ext_class p1 p2 s k :
  (forall c, p1 c = p2 c) -> starGreedy p1 s k = starGreedy p2 s k.
Proof.
  intros H. induction s as [|c s IH]; cbn; [reflexivity|].
  rewrite IH, H. reflexivity.
Qed.

Lemma starGreedy_sound p s k res :
  starGreedy p s k = Some res ->
  exists w t, s = w ++ t /\ Forall (fun c => p c = true) w /\ k t = Some res.
Proof.
  induction s as [|c s IH]; cbn; intros H.
  - exists [], []. auto.
  - destruct (p c) eqn:Hc.
    + destruct (starGreedy p s k) as [m|] eqn:Hs.
      * destruct (IH H) as (w & t & -> & Hw & Hk).
        exists (c :: w), t. cbn. auto.
      * exists [], (c :: s). auto.
    + exists [], (c :: s). auto.
Qed.

Lemma starLazy_sound p s k res :
  starLazy p s k = Some res ->
  exists w t, s = w ++ t /\ Forall (fun c => p c = true) w /\ k t = Some res.
Proof.
  induction s as [|c s IH]; cbn; intros H.
  - destruct (k []) eqn:Hk; [|discriminate]. exists [], []. rewrite Hk. auto.
  - destruct (k (c :: s)) eqn:Hk.
    + exists [], (c :: s). rewrite Hk. auto.
    + destruct (p c) eqn:Hc; [|discriminate].
      destruct (IH H) as (w & t & -> & Hw & Hk').
      exists (c :: w), t. auto.
Qed.

(** Soundness of the matcher: a successful run consumed a word of the
    expression's language and then the continuation succeeded. *)
Lemma exec_sound r : forall s caps (k : str -> list str -> option M) res,
  exec ic n r s caps k = Some res ->
  exists w t caps', s = w ++ t /\ Lang ic r w /\ k t caps' = Some res.
Proof.
  induction r as [ |c|p|r1 IH1 r2 IH2|r1 IH1 r2 IH2|r1 IH1|p|p|p|r1 IH1| | ];
    intros s caps k res H; cbn in H.
  - exists [], s, caps. cbn. auto.
  - destruct s as [|x s]; [discriminate|].
    destruct (chrMatch ic c x) eqn:Hx; [|discriminate].
    exists [x], s, caps. cbn. eauto.
  - destruct s as [|x s]; [discriminate|].
    destruct (clsMatch ic p x) eqn:Hx; [|discriminate].
    exists [x], s, caps. cbn. eauto.
  - destruct (IH1 _ _ _ _ H) as (w1 & t1 & caps1 & -> & L1 & H1).
    destruct (IH2 _ _ _ _ H1) as (w2 & t2 & caps2 & -> & L2 & H2).
    exists (w1 ++ w2), t2, caps2. rewrite app_assoc. cbn. eauto 8.
  - destruct (exec ic n r1 s caps k) as [m|] eqn:H1.
    + injection H as ->.
      destruct (IH1 _ _ _ _ H1) as (w & t & caps' & -> & L & Hk).
      exists w, t, caps'. cbn. auto.
    + destruct (IH2 _ _ _ _ H) as (w & t & caps' & -> & L & Hk).
      exists w, t, caps'. cbn. auto.
  - destruct (exec ic n r1 s caps k) as [m|] eqn:H1.
    + injection H as ->.
      destruct (IH1 _ _ _ _ H1) as (w & t & caps' & -> & L & Hk).
      exists w, t, caps'. cbn. auto.
    + exists [], s, caps. cbn. auto.
  - destruct (starGreedy_sound _ _ _ H) as (w & t & -> & Hw & Hk).
    exists w, t, caps. cbn. auto.
  - destruct s as [|x s]; [discriminate|].
    destruct (clsMatch ic p x) eqn:Hx; [|discriminate].
    destruct (starGreedy_sound _ _ _ H) as (w & t & -> & Hw & Hk).
    exists (x :: w), t, caps. cbn. repeat split; auto. discriminate.
  - destruct (starLazy_sound _ _ _ H) as (w & t & -> & Hw & Hk).
    exists w, t, caps. cbn. auto.
  - destruct (IH1 _ _ _ _ H) as (w & t & caps' & -> & L & Hk).
    exists w, t, (caps' ++ [firstn (length (w ++ t) - length t) (w ++ t)]).
    cbn. auto.
  - destruct (length s =? n); [|discriminate]. exists [], s, caps. cbn. auto.
  - destruct s; [|discriminate]. exists [], [], caps. cbn. auto.
Qed.

(** The defining equations of the matcher, for rewriting step by step. *)
Lemma exec_Seq r1 r2 s caps (k : str -> list str -> option M) :
  exec ic n (Seq r1 r2) s caps k
  = exec ic n r1 s caps (fun s1 caps1 => exec ic n r2 s1 caps1 k).
Proof. reflexivity. Qed.

Lemma exec_Chr c x s caps (k : str -> list str -> option M) :
  exec ic n (Chr c) (x :: s) caps k
  = if chrMatch ic c x then k s caps else None.
Proof. reflexivity. Qed.

Lemma exec_Cls p x s caps (k : str -> list str -> option M) :
  exec ic n (Cls p) (x :: s) caps k
  = if clsMatch ic p x then k s caps else None.
Proof. reflexivity. Qed.

Lemma exec_Opt r s caps (k : str -> list str -> option M) :
  exec ic n (Opt r) s caps k
  = match exec ic n r s caps k with
    | Some m => Some m
    | None => k s caps
    end.
Proof. reflexivity. Qed.

Lemma exec_Star p s caps (k : str -> list str -> option M) :
  exec ic n (Star p) s caps k
  = starGreedy (clsMatch ic p) s (fun s' => k s' caps).
Proof. reflexivity. Qed.

Lemma exec_Plus p x s caps (k : str -> list str -> option M) :
  exec ic n (Plus p) (x :: s) caps k
  = if clsMatch ic p x
    then starGreedy (clsMatch ic p) s (fun s' => k s' caps)
    else None.
Proof. reflexivity. Qed.

Lemma exec_Grp r s caps (k : str -> list str -> option M) :
  exec ic n (Grp r) s caps k
  = exec ic n r s caps
      (fun s' caps' => k s' (caps' ++ [firstn (length s - length s') s])).
Proof. reflexivity. Qed.

Lemma exec_nil_Chr c caps (k : str -> list str -> option M) :
  exec ic n (Chr c) [] caps k = None.
Proof. reflexivity. Qed.

Lemma chrMatch_refl c : chrMatch ic c c = true.
Proof. unfold chrMatch. apply Ascii.eqb_refl. Qed.

(** An optional part that succeeds together with what follows. *)
Lemma exec_Opt_take r s caps (k : str -> list str -> option M) res :
  exec ic n r s caps k = Some res -> exec ic n (Opt r) s caps k = Some res.
Proof. intros H. rewrite exec_Opt, H. reflexivity. Qed.

(** An optional part that cannot start here. *)
Lemma exec_Opt_skip r s caps (k : str -> list str -> option M) :
  exec ic n r s caps k = None -> exec ic n (Opt r) s caps k = k s caps.
Proof. intros H. rewrite exec_Opt, H. reflexivity. Qed.

End Matcher.

(** A match found at the front of [s] is a word of the language. *)
Lemma matchAt_sound re n s m :
  matchAt re n s = Some m ->
  s = matched m ++ after m /\ Lang (ignoreCase re) (source re) (matched m).
Proof.
  unfold matchAt. intros H.
  destruct (exec_sound _ _ _ _ _ _ H) as (w & t & caps & -> & L & Hk).
  injection Hk as <-. cbn. rewrite firstn_prefix. auto.
Qed.

(** *** Substrings *)

Lemma startsWith_sound : forall (p s : str),
  startsWith s p = true -> exists post, s = p ++ post.
Proof.
  induction p as [|x p IH]; intros s H; [exists s; reflexivity|].
  destruct s as [|y s]; [discriminate|]. cbn in H.
  apply andb_true_iff in H as [E H]. apply Ascii.eqb_eq in E as ->.
  destruct (IH s H) as [post ->]. exists post. reflexivity.
Qed.

Lemma includes_sound (p : str) : forall (s : str),
  includes s p = true -> exists pre post, s = pre ++ p ++ post.
Proof.
  induction s as [|y s IH]; cbn [includes]; intros H.
  - rewrite orb_false_r in H. apply startsWith_sound in H as [post E].
    exists [], post. exact E.
  - apply orb_true_iff in H as [H|H].
    + apply startsWith_sound in H as [post E]. exists [], post. exact E.
    + destruct (IH H) as (pre & post & ->). exists (y :: pre), post. reflexivity.
Qed.

(** A text with a character that [s] lacks does not occur in [s]. *)
Lemma includes_lacking c (s p : str) :
  In c p -> ~ In c s -> includes s p = false.
Proof.
  intros Hp Hs. destruct (includes s p) eqn:E; [|reflexivity].
  apply includes_sound in E as (pre & post & ->). exfalso. apply Hs.
  apply in_or_app. right. apply in_or_app. left. exact Hp.
Qed.

(** *** Scanning *)

Lemma scan_skip re n : forall (w t : str) ,
  scan re n (w ++ t) (length w) = scan re n t 0.
Proof.
  induction w as [|c w IH]; intros t; [reflexivity|]. cbn. apply IH.
Qed.

(** When no suffix of [s] matches, the scan keeps every character. *)
Lemma scan_no_match re n : forall s,
  (forall pre t, s = pre ++ t -> matchAt re n t = None) ->
  scan re n s 0 = map Keep s.
Proof.
  induction s as [|c s IH]; intros H; cbn.
  - rewrite (H [] []); reflexivity.
  - rewrite (H [] (c :: s)) by reflexivity. f_equal. apply IH.
    intros pre t ->. apply (H (c :: pre)). reflexivity.
Qed.

Lemma search_no_match re n : forall s,
  (forall pre t, s = pre ++ t -> matchAt re n t = None) ->
  search re n s = None.
Proof.
  induction s as [|c s IH]; intros H; cbn.
  - rewrite (H [] []); reflexivity.
  - rewrite (H [] (c :: s)) by reflexivity. rewrite IH; [reflexivity|].
    intros pre t ->. apply (H (c :: pre)). reflexivity.
Qed.

Lemma flat_map_Keep (rep : str) (s : str) :
  flat_map (fun p => match p with Found _ => rep | Keep c => [c] end)
    (map Keep s) = s.
Proof. induction s as [|c s IH]; cbn; [|rewrite IH]; reflexivity. Qed.

Lemma flat_map_Found (s : str) :
  flat_map (fun p => match p with Found m => [m] | Keep _ => [] end)
    (map Keep s) = [].
Proof. induction s as [|c s IH]; cbn; auto. Qed.

(** A regular expression without a match in [s] leaves [s] as it is and
    yields no result. *)
Lemma replace_no_match re rep s :
  (forall pre t, s = pre ++ t -> matchAt re (length s) t = None) ->
  replace re rep s = s.
Proof.
  intros H. unfold replace. destruct (global re).
  - rewrite scan_no_match by assumption. apply flat_map_Keep.
  - rewrite search_no_match by assumption. reflexivity.
Qed.

Lemma execAll_no_match re s :
  (forall pre t, s = pre ++ t -> matchAt re (length s) t = None) ->
  execAll re s = [].
Proof.
  intros H. unfold execAll. rewrite scan_no_match by assumption.
  apply flat_map_Found.
Qed.

(** The scan of a text that starts with a non-empty match. *)
Lemma scan_found re n (w t : str) m :
  matchAt re n (w ++ t) = Some m -> matched m = w -> w <> [] ->
  scan re n (w ++ t) 0 = Found m :: scan re n t 0.
Proof.
  intros Hm Hw Hne. destruct w as [|c w]; [congruence|].
  cbn [app scan]. change (c :: w ++ t) with ((c :: w) ++ t). rewrite Hm, Hw.
  f_equal. apply scan_skip.
Qed.

(** The scan of a text whose first character starts no match. *)
Lemma scan_keep re n c (s : str) :
  matchAt re n (c :: s) = None ->
  scan re n (c :: s) 0 = Keep c :: scan re n s 0.
Proof. intros H. cbn [scan]. rewrite H. reflexivity. Qed.

(** How [matchAt] is shown to return a given match. *)
Lemma matchAt_intro re n (whole rest : str) caps :
  (forall K : str -> list str -> option MatchResult,
     K rest caps = Some (mkMatch whole caps rest) ->
     exec (ignoreCase re) n (source re) (whole ++ rest) [] K
     = Some (mkMatch whole caps rest)) ->
  matchAt re n (whole ++ rest) = Some (mkMatch whole caps rest).
Proof.
  intros H. unfold matchAt. apply H. rewrite firstn_prefix. reflexivity.
Qed.

(** A prefix none of whose characters can start a match is kept. *)
Lemma scan_keep_prefix re n Q (pre rest : str) :
  (forall n x t, Q x = false -> matchAt re n (x :: t) = None) ->
  without Q pre ->
  scan re n (pre ++ rest) 0 = map Keep pre ++ scan re n rest 0.
Proof.
  intros Hcons Hpre. induction Hpre as [|x pre Hx _ IH]; [reflexivity|].
  cbn [app map]. rewrite scan_keep by (apply Hcons, Hx). rewrite IH.
  reflexivity.
Qed.

(** A pattern anchored at the start of input matches at no later place. *)
Lemma matchAt_bol_later r ic g n (t : str) :
  length t < n -> matchAt (mkRegExp (Seq Bol r) ic g) n t = None.
Proof.
  intros H. unfold matchAt. cbn [source ignoreCase exec].
  replace (length t =? n) with false by (symmetry; apply Nat.eqb_neq; lia).
  reflexivity.
Qed.

Lemma search_bol_later r ic g n : forall (t : str),
  length t < n -> search (mkRegExp (Seq Bol r) ic g) n t = None.
Proof.
  induction t as [|c t IH]; intros H; cbn [search].
  - rewrite matchAt_bol_later by exact H. reflexivity.
  - rewrite matchAt_bol_later by exact H. rewrite IH by (cbn in H; lia).
    reflexivity.
Qed.

(** *** Trimming *)

Lemma trimStart_id s : stopsAt isSpace s -> trimStart s = s.
Proof. destruct s as [|c s]; cbn; [reflexivity|]. intros ->. reflexivity. Qed.

Lemma trim_id s : stopsAt isSpace s -> endsWell s -> trim s = s.
Proof.
  intros Hs (u & x & E & Hx). unfold trim, trimEnd.
  rewrite (@trimStart_id s Hs). subst s.
  rewrite rev_app_distr. cbn [rev app].
  rewrite (@trimStart_id (x :: rev u) Hx).
  change (x :: rev u) with ([x] ++ rev u).
  rewrite rev_app_distr, rev_involutive. reflexivity.
Qed.

Lemma endsWell_app u v : endsWell v -> endsWell (u ++ v).
Proof.
  intros (w & x & -> & Hx). exists (u ++ w), x. rewrite app_assoc. auto.
Qed.

Lemma endsWell_cons c v : endsWell v -> endsWell (c :: v).
Proof. apply (endsWell_app [c]). Qed.

(** *** Adjacent characters *)

Lemma adjacent_cons P Q x (s : str) :
  adjacent P Q (x :: s)
  = (P x && match s with y :: _ => Q y | [] => false end) || adjacent P Q s.
Proof. destruct s; cbn; [rewrite andb_false_r|]; reflexivity. Qed.

Lemma adjacent_without P Q s : without Q s -> adjacent P Q s = false.
Proof.
  induction 1 as [|x s Hx Hs IH]; [reflexivity|].
  rewrite adjacent_cons, IH, orb_false_r.
  destruct s as [|y s]; [apply andb_false_r|].
  inversion Hs; subst. replace (Q y) with false by congruence.
  apply andb_false_r.
Qed.

Lemma adjacent_app_r P Q (pre s : str) :
  adjacent P Q s = true -> adjacent P Q (pre ++ s) = true.
Proof.
  intros H. induction pre as [|x pre IH]; [exact H|].
  cbn [app]. rewrite adjacent_cons, IH. apply orb_true_r.
Qed.

Lemma adjacent_app_l P Q (s post : str) :
  adjacent P Q s = true -> adjacent P Q (s ++ post) = true.
Proof.
  induction s as [|x s IH]; [discriminate|].
  cbn [app]. rewrite !adjacent_cons. intros H.
  apply orb_true_iff in H as [H|H].
  - destruct s as [|y s]; [rewrite andb_false_r in H; discriminate|].
    cbn [app]. rewrite H. reflexivity.
  - rewrite (IH H). apply orb_true_r.
Qed.

(** The junction of a word that ends in [P] with one that starts in [Q]. *)
Lemma adjacent_junction P Q (u v : str) x y :
  P x = true -> Q y = true ->
  adjacent P Q ((u ++ [x]) ++ y :: v) = true.
Proof.
  intros Hx Hy. rewrite <- app_assoc. apply adjacent_app_r.
  cbn. rewrite Hx, Hy. reflexivity.
Qed.

(** A prefix without [Q] in front of a word that does not start in [Q]
    adds no adjacency. *)
Lemma adjacent_app_skip P Q (u v : str) :
  without Q u -> stopsAt Q v ->
  adjacent P Q (u ++ v) = adjacent P Q v.
Proof.
  intros Hu Hv. induction Hu as [|x u Hx Hu IH]; [reflexivity|].
  cbn [app]. rewrite adjacent_cons, IH.
  replace (match u ++ v with y :: _ => Q y | [] => false end) with false.
  - rewrite andb_false_r. reflexivity.
  - destruct u as [|x' u]; cbn [app].
    + destruct v; [reflexivity|]. symmetry. exact Hv.
    + inversion Hu; subst. congruence.
Qed.

(** *** What trimming and replacing keep out *)

Lemma without_weaken (Q Q' : ascii -> bool) (s : str) :
  (forall c, Q c = false -> Q' c = false) -> without Q s -> without Q' s.
Proof. intros H. apply Forall_impl. exact H. Qed.

Lemma trimStart_without Q s : without Q s -> without Q (trimStart s).
Proof.
  induction 1 as [|x s Hx Hs IH]; cbn [trimStart]; [constructor|].
  destruct (isSpace x); [exact IH | constructor; assumption].
Qed.

Lemma rev_without Q (s : str) : without Q s -> without Q (rev s).
Proof.
  intros H. unfold without in *. rewrite Forall_forall in *.
  intros x Hx. apply H. apply in_rev. exact Hx.
Qed.

Lemma trimEnd_without Q s : without Q s -> without Q (trimEnd s).
Proof. intros H. apply rev_without, trimStart_without, rev_without, H. Qed.

Lemma trim_without Q s : without Q s -> without Q (trim s).
Proof. intros H. apply trimEnd_without, trimStart_without, H. Qed.

(** A replacement only drops characters and puts [rep] in. *)
Lemma scan_without Q re n (rep : str) : forall (s : str) skip,
  without Q rep -> without Q s ->
  without Q
    (flat_map (fun p => match p with Found _ => rep | Keep c => [c] end)
       (scan re n s skip)).
Proof.
  induction s as [|c s IH]; intros skip Hrep Hs.
  - destruct skip; cbn; [|constructor].
    destruct (matchAt re n []); cbn; [|constructor].
    rewrite app_nil_r. exact Hrep.
  - inversion Hs as [|? ? Hc Hs']; subst.
    destruct skip as [|j]; cbn [scan]; [|apply IH; assumption].
    destruct (matchAt re n (c :: s)) as [m|]; cbn [flat_map].
    + apply Forall_app. split; [exact Hrep|].
      destruct (matched m) as [|x w].
      * cbn [flat_map app]. constructor; [exact Hc | apply IH; assumption].
      * apply IH; assumption.
    + cbn [app]. constructor; [exact Hc | apply IH; assumption].
Qed.

Lemma replace_without Q re (rep s : str) :
  global re = true -> without Q rep -> without Q s ->
  without Q (replace re rep s).
Proof.
  intros G Hrep Hs. unfold replace. rewrite G. apply scan_without; assumption.
Qed.

(** Every match that a scan finds is a match at some position. *)
Lemma scan_sound re n m : forall (s : str) skip,
  In (Found m) (scan re n s skip) -> exists t, matchAt re n t = Some m.
Proof.
  induction s as [|c s IH]; intros skip H.
  - destruct skip; cbn in H; [|contradiction].
    destruct (matchAt re n []) as [m'|] eqn:E; [|contradiction].
    destruct H as [H|[]]. injection H as ->. exists []. exact E.
  - destruct skip as [|j]; cbn [scan] in H; [|apply (IH _ H)].
    destruct (matchAt re n (c :: s)) as [m'|] eqn:E.
    + destruct H as [H|H]; [injection H as ->; exists (c :: s); exact E|].
      destruct (matched m') as [|x w]; [|apply (IH _ H)].
      destruct H as [H|H]; [discriminate | apply (IH _ H)].
    + destruct H as [H|H]; [discriminate | apply (IH _ H)].
Qed.

Lemma execAll_sound re (s : str) m :
  In m (execAll re s) -> Lang (ignoreCase re) (source re) (matched m).
Proof.
  unfold execAll. intros H. apply in_flat_map in H as (p & Hp & Hm).
  destruct p as [c|m']; [contradiction|]. destruct Hm as [->|[]].
  apply scan_sound in Hp as [t Ht]. apply (matchAt_sound _ _ _ Ht).
Qed.

(** *** Patterns that need a character of some class *)

Lemma in_allChars x : In x allChars.
Proof.
  unfold allChars. rewrite <- (ascii_nat_embedding x).
  apply in_map, in_seq. pose proof (nat_ascii_bounded x). lia.
Qed.

Lemma demands_sound ic P r : demands ic P r = true ->
  forall w, Lang ic r w -> exists x, In x w /\ P x = true.
Proof.
  induction r as [|c|p|r1 IH1 r2 IH2|r1 IH1 r2 IH2|r IH|p|p|p|r IH| |];
    cbn [demands Lang]; intros D w L; try discriminate.
  - destruct L as (x & -> & Hx). rewrite forallb_forall in D.
    specialize (D x (in_allChars x)). rewrite Hx in D.
    exists x. split; [left; reflexivity | exact D].
  - destruct L as (x & -> & Hx). rewrite forallb_forall in D.
    specialize (D x (in_allChars x)). rewrite Hx in D.
    exists x. split; [left; reflexivity | exact D].
  - destruct L as (w1 & w2 & -> & L1 & L2).
    apply orb_true_iff in D as [D|D].
    + destruct (IH1 D _ L1) as (x & Hin & Hx).
      exists x. split; [apply in_or_app; left; exact Hin | exact Hx].
    + destruct (IH2 D _ L2) as (x & Hin & Hx).
      exists x. split; [apply in_or_app; right; exact Hin | exact Hx].
  - apply andb_true_iff in D as [D1 D2].
    destruct L as [L|L]; [apply (IH1 D1 _ L) | apply (IH2 D2 _ L)].
  - destruct L as [N F]. destruct w as [|x w]; [congruence|].
    inversion F as [|? ? Hx _]; subst. rewrite forallb_forall in D.
    specialize (D x (in_allChars x)). rewrite Hx in D.
    exists x. split; [left; reflexivity | exact D].
  - apply (IH D _ L).
Qed.

(** *** Trimming around a text that has no white space at its ends *)

Lemma trimStart_app (pre s : str) :
  stopsAt isSpace s -> trimStart (pre ++ s) = trimStart pre ++ s.
Proof.
  intros Hs. induction pre as [|c pre IH]; cbn [app trimStart].
  - apply trimStart_id, Hs.
  - destruct (isSpace c); [exact IH | reflexivity].
Qed.

Lemma endsWell_stops (s : str) : endsWell s -> stopsAt isSpace (rev s).
Proof.
  intros (u & x & -> & Hx). rewrite rev_app_distr. exact Hx.
Qed.

Lemma trimEnd_app (s post : str) :
  endsWell s -> trimEnd (s ++ post) = s ++ trimEnd post.
Proof.
  intros Hs. unfold trimEnd. rewrite rev_app_distr.
  rewrite trimStart_app by apply endsWell_stops, Hs.
  rewrite rev_app_distr, rev_involutive. reflexivity.
Qed.

Lemma stopsAt_app p (s t : str) : s <> [] -> stopsAt p s -> stopsAt p (s ++ t).
Proof. destruct s; [congruence | intros _ H; exact H]. Qed.

Lemma endsWell_nonempty (s : str) : endsWell s -> s <> [].
Proof. intros (u & x & -> & _). destruct u; discriminate. Qed.

Lemma trim_between (pre s post : str) :
  stopsAt isSpace s -> endsWell s ->
  trim (pre ++ s ++ post) = trimStart pre ++ s ++ trimEnd post.
Proof.
  intros Hs He. unfold trim.
  rewrite trimStart_app
    by (apply stopsAt_app; [apply endsWell_nonempty, He | exact Hs]).
  rewrite app_assoc, trimEnd_app by apply endsWell_app, He.
  rewrite <- app_assoc. reflexivity.
Qed.

End RegExpFacts.

(** ** C6: the retry policy of [makeHttpRequest] *)

Import AIService.

Lemma attempts_log fetch retries : forall remaining attempt log,
  attempt + remaining = S retries -> 0 < remaining ->
  exists n, n < remaining /\
    snd (attempts fetch retries attempt remaining log)
    = log ++ waits attempt n ++ [Fetch (attempt + n)].
Proof.
  induction remaining as [|rem IH]; intros attempt log Hsum Hpos; [lia|].
  assert (Hlast : rem = 0 -> (attempt =? retries) = true)
    by (intro; apply Nat.eqb_eq; lia).
  assert (Hmore : rem <> 0 -> (attempt =? retries) = false)
    by (intro; apply Nat.eqb_neq; lia).
  assert (Hnext : rem <> 0 ->
          exists n, n < S rem /\
            snd (attempts fetch retries (S attempt) rem
                   ((log ++ [Fetch attempt]) ++ [Sleep (retryDelay attempt)]))
            = log ++ waits attempt n ++ [Fetch (attempt + n)]).
  { intro Hne. destruct (IH (S attempt)
      ((log ++ [Fetch attempt]) ++ [Sleep (retryDelay attempt)]))
      as [n [Hn Hlog]]; [lia | lia |].
    exists (S n). split; [lia|]. rewrite Hlog. cbn [waits].
    unfold retryDelay. rewrite <- !app_assoc. cbn [app].
    replace (attempt + S n) with (S attempt + n) by lia. reflexivity. }
  assert (Hstop : snd (@pair (JsError + Response) _ (inl (newError [])) (log ++ [Fetch attempt]))
                  = log ++ waits attempt 0 ++ [Fetch (attempt + 0)])
    by (cbn; rewrite Nat.add_0_r; reflexivity).
  cbn [attempts].
  destruct (fetch attempt) as [r|e].
  - destruct (ok r).
    + exists 0. split; [lia|]. cbn. rewrite Nat.add_0_r. reflexivity.
    + destruct (Nat.eq_dec rem 0) as [H0|H0].
      * rewrite (Hlast H0). exists 0. split; [lia|]. exact Hstop.
      * rewrite (Hmore H0). exact (Hnext H0).
  - destruct (Nat.eq_dec rem 0) as [H0|H0].
    + rewrite (Hlast H0). exists 0. split; [lia|]. exact Hstop.
    + rewrite (Hmore H0). exact (Hnext H0).
Qed.

Lemma makeHttpRequest_log fetch retries timeout :
  snd (makeHttpRequest fetch retries timeout)
  = snd (attempts fetch retries 1 retries []).
Proof.
  unfold makeHttpRequest.
  destruct (attempts fetch retries 1 retries []) as [[e|r] log]; cbn;
    [destruct (JsString.eqb _ _)|]; reflexivity.
Qed.

(** C6.  With the default budget of three attempts, a backend that fails
    twice and then answers with an [ok] response yields that response; one
    that fails three times yields the error of the third failure (its HTTP
    status line, the rejection itself, or the time-out error for an abort);
    in both cases the request waited 1000 ms after the first attempt and
    2000 ms after the second.  For any budget, the wait after attempt
    number [attempt] is [min(1000 * 2^(attempt-1), 10000)] ms. *)
Theorem makeHttpRequest_retries (fetch : nat -> FetchOutcome) (timeout : Z) :
  failed (fetch 1) -> failed (fetch 2) ->
  (forall r, fetch 3 = Resolves r -> ok r = true ->
     makeHttpRequest fetch defaultRetries timeout
     = (inr r, [Fetch 1; Sleep 1000; Fetch 2; Sleep 2000; Fetch 3]))
  /\ (failed (fetch 3) ->
      makeHttpRequest fetch defaultRetries timeout
      = (inl (terminalError (fetch 3) timeout),
         [Fetch 1; Sleep 1000; Fetch 2; Sleep 2000; Fetch 3]))
  /\ (forall retries, 0 < retries ->
      exists n, n < retries /\
        snd (makeHttpRequest fetch retries timeout)
        = waits 1 n ++ [Fetch (S n)]).
Proof.
  intros H1 H2. split; [|split].
  - intros r H3 Hok. unfold makeHttpRequest, defaultRetries. cbn.
    destruct (fetch 1) as [r1|e1]; cbn in H1; [rewrite H1|];
      (destruct (fetch 2) as [r2|e2]; cbn in H2; [rewrite H2|]);
      rewrite H3, Hok; reflexivity.
  - intros H3. unfold makeHttpRequest, defaultRetries. cbn.
    destruct (fetch 1) as [r1|e1]; cbn in H1; [rewrite H1|];
      (destruct (fetch 2) as [r2|e2]; cbn in H2; [rewrite H2|]);
      (destruct (fetch 3) as [r3|e3]; cbn in H3; [rewrite H3|]);
      cbn; try reflexivity;
      destruct (JsString.eqb (name e3) _); reflexivity.
  - intros retries Hpos. rewrite makeHttpRequest_log.
    destruct (@attempts_log fetch retries retries 1 [])
      as [n [Hn Hlog]]; [lia | lia |].
    exists n. split; [exact Hn|]. rewrite Hlog. reflexivity.
Qed.

Lemma makeHttpRequest_retries_witness :
  makeHttpRequest flaky defaultRetries defaultTimeout
  = (inr (mkHttpResponse true 200 (lit "OK") (lit "{}")),
     [Fetch 1; Sleep 1000; Fetch 2; Sleep 2000; Fetch 3]).
Proof.
  apply (proj1 (makeHttpRequest_retries flaky defaultTimeout
                  (eq_refl : failed (flaky 1)) (eq_refl : failed (flaky 2))));
    reflexivity.
Defined.

(** ** The coordinate parser *)

Module CoordinateFacts.

Import CoordinateParser RegExpFacts.

(** *** C9: the range check *)

Lemma processMatch_inRange st m :
  allInRange (coordinates st) -> allInRange (coordinates (processMatch st m)).
Proof.
  intros H. unfold processMatch.
  destruct (has _ _); [exact H|].
  destruct (parsePair (groups m)) as [[la ln]|]; [|exact H].
  destruct (isValidCoordinate la ln) eqn:V; [|exact H].
  cbn. apply Forall_app. split; [exact H|]. constructor; [exact V|constructor].
Qed.

Lemma processPattern_inRange content pattern st :
  allInRange (coordinates st) ->
  allInRange (coordinates (processPattern content st pattern)).
Proof.
  unfold processPattern. generalize (execAll pattern content).
  intros ms. revert st. induction ms as [|m ms IH]; intros st H; [exact H|].
  cbn. apply IH, processMatch_inRange, H.
Qed.

Lemma extractCoordinates_allInRange content :
  allInRange (extractCoordinates content).
Proof.
  unfold extractCoordinates.
  assert (G : forall ps st, allInRange (coordinates st) ->
            allInRange (coordinates (fold_left (processPattern content) ps st))).
  { induction ps as [|p ps IH]; intros st H; [exact H|].
    cbn. apply IH, processPattern_inRange, H. }
  apply G. constructor.
Qed.

(** C9.  Every coordinate that [extractCoordinates] returns has
    [-90 <= lat <= 90] and [-180 <= lng <= 180]; a match whose parsed pair
    fails the range check adds no coordinate, and nothing is raised (the
    loop body is a total function of the state and the match). *)
Theorem extractCoordinates_in_range :
  (forall content c, In c (extractCoordinates content) ->
     geb (lat c) (neg (ofZ 90)) = true /\ leb (lat c) (ofZ 90) = true
     /\ geb (lng c) (neg (ofZ 180)) = true /\ leb (lng c) (ofZ 180) = true)
  /\ (forall st m la ln,
        parsePair (groups m) = Some (la, ln) ->
        isValidCoordinate la ln = false ->
        coordinates (processMatch st m) = coordinates st).
Proof.
  split.
  - intros content c Hc.
    pose proof (extractCoordinates_allInRange content) as H.
    unfold allInRange in H. rewrite Forall_forall in H. specialize (H c Hc).
    unfold isValidCoordinate in H.
    repeat (apply andb_true_iff in H as [H ?]). auto.
  - intros st m la ln Hp Hv. unfold processMatch.
    destruct (has _ _); [reflexivity|]. rewrite Hp, Hv. reflexivity.
Qed.

Lemma extractCoordinates_in_range_witness :
  coordinates
    (processMatch (mkState [] [])
       (mkMatch (lit "91.5, 20") [lit "91.5"; lit "20"] []))
  = [].
Proof.
  apply (proj2 extractCoordinates_in_range (mkState [] [])
           (mkMatch (lit "91.5, 20") [lit "91.5"; lit "20"] [])
           (parseFloat (lit "91.5")) (parseFloat (lit "20")));
    reflexivity.
Defined.

(** *** Numbers in decimal notation *)

Lemma digitAscii_isDigit d : isDigit (digitAscii d) = true.
Proof. destruct d; reflexivity. Qed.

Lemma digits_run ic ds :
  Forall (fun c => clsMatch ic isDigit c = true) (digits ds).
Proof.
  induction ds as [|d ds IH]; constructor; [|exact IH].
  rewrite clsMatch_isDigit. apply digitAscii_isDigit.
Qed.

Lemma stops_digit ic rest :
  stopsAt isNumberChar rest -> stopsAt (clsMatch ic isDigit) rest.
Proof.
  destruct rest as [|c rest]; cbn; [auto|]. rewrite clsMatch_isDigit.
  unfold isNumberChar. intros H. apply orb_false_iff in H. tauto.
Qed.

Lemma stops_point ic (M : Type) n rest caps (k : str -> list str -> option M) :
  stopsAt isNumberChar rest -> exec ic n (Chr ".") rest caps k = None.
Proof.
  destruct rest as [|c rest]; cbn; [reflexivity|].
  rewrite (chrMatch_caseless ic c caseless_point).
  unfold isNumberChar. intros H. apply orb_false_iff in H as [_ H].
  rewrite Ascii.eqb_sym, H. reflexivity.
Qed.

Section Numbers.

Variable ic : bool.
Variable n : nat.
Variable M : Type.
Implicit Types (k : str -> list str -> option M).

Lemma exec_unsignedNumber d more f rest caps k res :
  stopsAt isNumberChar rest ->
  k rest caps = Some res ->
  exec ic n unsignedNumber
    (digitAscii d :: digits more ++ fractionText f ++ rest) caps k = Some res.
Proof.
  intros Hstop Hk.
  change unsignedNumber
    with (Seq (Plus isDigit) (Seq (Opt (Chr ".")) (Star isDigit))).
  rewrite exec_Seq, exec_Plus, clsMatch_isDigit, digitAscii_isDigit.
  assert (Hfrac : forall ds,
            starGreedy (clsMatch ic isDigit) (digits ds ++ rest)
              (fun s' => k s' caps) = Some res).
  { intros ds. apply starGreedy_run;
      [apply digits_run | apply stops_digit, Hstop | exact Hk]. }
  apply starGreedy_run; [apply digits_run | |].
  - destruct f as [ds|]; cbn [fractionText app].
    + cbn. rewrite clsMatch_isDigit. reflexivity.
    + apply stops_digit, Hstop.
  - rewrite exec_Seq. destruct f as [ds|]; cbn [fractionText app].
    + apply exec_Opt_take. rewrite exec_Chr, chrMatch_refl, exec_Star.
      apply Hfrac.
    + rewrite exec_Opt_skip by (apply stops_point, Hstop).
      rewrite exec_Star. apply (Hfrac []).
Qed.

Lemma magnitude_app a rest :
  magnitude a ++ rest
  = digitAscii (leadingDigit a)
    :: digits (moreDigits a) ++ fractionText (fraction a) ++ rest.
Proof. unfold magnitude. cbn [app]. rewrite <- app_assoc. reflexivity. Qed.

(** The group [(\d+\.?\d* )] consumes a whole magnitude that is followed by
    neither a digit nor a point. *)
Lemma exec_magnitude a rest caps k res :
  stopsAt isNumberChar rest ->
  k rest (caps ++ [magnitude a]) = Some res ->
  exec ic n (Grp unsignedNumber) (magnitude a ++ rest) caps k = Some res.
Proof.
  intros Hstop Hk. rewrite exec_Grp.
  match goal with |- exec _ _ _ _ _ ?K0 = _ => set (K := K0) end.
  assert (HK : K rest caps = Some res).
  { subst K. cbn beta. rewrite firstn_prefix. exact Hk. }
  clearbody K. rewrite magnitude_app. apply exec_unsignedNumber; assumption.
Qed.

Lemma chrMatch_minus_digit d : chrMatch ic "-" (digitAscii d) = false.
Proof.
  rewrite (chrMatch_caseless ic _ caseless_minus). destruct d; reflexivity.
Qed.

(** The group [(-?\d+\.?\d* )] consumes a whole signed number. *)
Lemma exec_text a rest caps k res :
  stopsAt isNumberChar rest ->
  k rest (caps ++ [text a]) = Some res ->
  exec ic n (Grp signedNumber) (text a ++ rest) caps k = Some res.
Proof.
  intros Hstop Hk. rewrite exec_Grp.
  match goal with |- exec _ _ _ _ _ ?K0 = _ => set (K := K0) end.
  assert (HK : K rest caps = Some res).
  { subst K. cbn beta. rewrite firstn_prefix. exact Hk. }
  clearbody K. change signedNumber with (Seq (Opt (Chr "-")) unsignedNumber).
  rewrite exec_Seq. unfold text. destruct (negative a).
  - cbn [app]. apply exec_Opt_take. rewrite exec_Chr, chrMatch_refl.
    rewrite magnitude_app. apply exec_unsignedNumber; assumption.
  - rewrite magnitude_app.
    rewrite exec_Opt_skip by (rewrite exec_Chr, chrMatch_minus_digit; reflexivity).
    apply exec_unsignedNumber; assumption.
Qed.

End Numbers.

(** *** The patterns on the shapes they are written for *)

Lemma text_head a :
  exists c s, text a = c :: s /\ isSpace c = false
    /\ (c = "-"%char \/ isDigit c = true).
Proof.
  unfold text, magnitude. destruct (negative a).
  - eexists _, _. split; [reflexivity|]. split; [reflexivity|]. left. reflexivity.
  - eexists _, _. split; [reflexivity|]. split.
    + apply isDigit_not_space, digitAscii_isDigit.
    + right. apply digitAscii_isDigit.
Qed.

Lemma text_stops_space ic a rest : stopsAt (clsMatch ic isSpace) (text a ++ rest).
Proof.
  destruct (text_head a) as (c & s & -> & H & _). cbn.
  rewrite clsMatch_isSpace. exact H.
Qed.

Lemma magnitude_stops_space ic a rest :
  stopsAt (clsMatch ic isSpace) (magnitude a ++ rest).
Proof.
  unfold magnitude. cbn. rewrite clsMatch_isSpace.
  apply isDigit_not_space, digitAscii_isDigit.
Qed.

Lemma bare_app a b rest :
  bare a b ++ rest = text a ++ ","%char :: " "%char :: text b ++ rest.
Proof. unfold bare. rewrite <- !app_assoc. reflexivity. Qed.

Section Pairs.

Variable ic : bool.
Variable n : nat.
Variable M : Type.
Implicit Types (k : str -> list str -> option M).

(** One space, then something that is not white space. *)
Lemma exec_one_space r (s : str) caps k res :
  stopsAt (clsMatch ic isSpace) s ->
  exec ic n r s caps k = Some res ->
  exec ic n (Seq (Star isSpace) r) (" "%char :: s) caps k = Some res.
Proof.
  intros Hs H. rewrite exec_Seq, exec_Star.
  apply (starGreedy_run _ (ds := [" "%char])); [|exact Hs|exact H].
  constructor; [|constructor]. rewrite clsMatch_isSpace. reflexivity.
Qed.

(** No space where one could be. *)
Lemma exec_no_space r (s : str) caps k :
  stopsAt (clsMatch ic isSpace) s ->
  exec ic n (Seq (Star isSpace) r) s caps k = exec ic n r s caps k.
Proof.
  intros Hs. rewrite exec_Seq, exec_Star, starGreedy_stop by exact Hs.
  reflexivity.
Qed.

(** The core [(-?\d+\.?\d* ),\s*(-?\d+\.?\d* )] of five of the patterns,
    followed by [r], on [lat, lng]. *)
Lemma exec_bare_then r a b rest caps k res :
  stopsAt isNumberChar rest ->
  exec ic n r rest (caps ++ [text a; text b]) k = Some res ->
  exec ic n
    (Seq (Grp signedNumber)
       (Seq (Chr ",") (Seq (Star isSpace) (Seq (Grp signedNumber) r))))
    (bare a b ++ rest) caps k = Some res.
Proof.
  intros Hstop H. rewrite bare_app, exec_Seq.
  apply exec_text; [reflexivity|].
  rewrite exec_Seq, exec_Chr, chrMatch_refl.
  apply exec_one_space; [apply text_stops_space|].
  rewrite exec_Seq. apply exec_text; [exact Hstop|].
  rewrite <- app_assoc. exact H.
Qed.

Lemma exec_bare a b rest caps k res :
  stopsAt isNumberChar rest ->
  k rest (caps ++ [text a; text b]) = Some res ->
  exec ic n
    (Seq (Grp signedNumber)
       (Seq (Chr ",") (Seq (Star isSpace) (Grp signedNumber))))
    (bare a b ++ rest) caps k = Some res.
Proof.
  intros Hstop H. rewrite bare_app, exec_Seq.
  apply exec_text; [reflexivity|].
  rewrite exec_Seq, exec_Chr, chrMatch_refl.
  apply exec_one_space; [apply text_stops_space|].
  apply exec_text; [exact Hstop|].
  rewrite <- app_assoc. exact H.
Qed.

End Pairs.

Lemma matchAt_bare n a b rest :
  stopsAt isNumberChar rest ->
  matchAt barePattern n (bare a b ++ rest)
  = Some (mkMatch (bare a b) [text a; text b] rest).
Proof.
  intros Hstop. apply matchAt_intro. intros K HK.
  apply exec_bare; assumption.
Qed.

Lemma matchAt_bracketed n a b rest :
  matchAt bracketPattern n (bracketed a b ++ rest)
  = Some (mkMatch (bracketed a b) [text a; text b] rest).
Proof.
  apply matchAt_intro. intros K HK. unfold bracketed.
  cbn [bracketPattern source seq ignoreCase app].
  rewrite exec_Seq, exec_Chr, chrMatch_refl, <- app_assoc.
  apply exec_bare_then; [reflexivity|].
  cbn [lit list_ascii_of_string app]. rewrite exec_Chr, chrMatch_refl.
  exact HK.
Qed.

Lemma matchAt_parenthesized n a b rest :
  matchAt parenPattern n (parenthesized a b ++ rest)
  = Some (mkMatch (parenthesized a b) [text a; text b] rest).
Proof.
  apply matchAt_intro. intros K HK. unfold parenthesized.
  cbn [parenPattern source seq ignoreCase app].
  rewrite exec_Seq, exec_Chr, chrMatch_refl, <- app_assoc.
  apply exec_bare_then; [reflexivity|].
  cbn [lit list_ascii_of_string app]. rewrite exec_Chr, chrMatch_refl.
  exact HK.
Qed.

Lemma matchAt_gps n a b rest :
  stopsAt isNumberChar rest ->
  matchAt gpsPattern n (gps a b ++ rest)
  = Some (mkMatch (gps a b) [text a; text b] rest).
Proof.
  intros Hstop. apply matchAt_intro. intros K HK. unfold gps.
  cbn [gpsPattern source seq word map lit list_ascii_of_string ignoreCase app].
  rewrite !exec_Seq, !exec_Chr, !chrMatch_refl.
  rewrite <- exec_Seq.
  apply exec_one_space; [rewrite bare_app; apply text_stops_space|].
  apply exec_bare; assumption.
Qed.

Lemma matchAt_location n a b rest :
  stopsAt isNumberChar rest ->
  matchAt locationPattern n (location a b ++ rest)
  = Some (mkMatch (location a b) [text a; text b] rest).
Proof.
  intros Hstop. apply matchAt_intro. intros K HK. unfold location.
  cbn [locationPattern source seq word map lit list_ascii_of_string
       ignoreCase app].
  rewrite !exec_Seq, !exec_Chr, !chrMatch_refl.
  rewrite <- exec_Seq.
  apply exec_one_space; [rewrite bare_app; apply text_stops_space|].
  apply exec_bare; assumption.
Qed.

Lemma withDirections_app a b rest :
  withDirections a b ++ rest
  = magnitude a ++ degreeSign :: southOrNorth a :: ","%char :: " "%char
    :: magnitude b ++ degreeSign :: westOrEast b :: rest.
Proof.
  unfold withDirections. rewrite <- !app_assoc. cbn [app lit list_ascii_of_string].
  rewrite <- !app_assoc. reflexivity.
Qed.

Lemma matchAt_withDirections n a b rest :
  matchAt directionPattern n (withDirections a b ++ rest)
  = Some (mkMatch (withDirections a b)
            [magnitude a; [southOrNorth a]; magnitude b; [westOrEast b]] rest).
Proof.
  apply matchAt_intro. intros K HK. rewrite withDirections_app.
  cbn [directionPattern source seq ignoreCase].
  rewrite exec_Seq. apply exec_magnitude; [reflexivity|].
  rewrite exec_Seq. apply exec_Opt_take. rewrite exec_Cls.
  change (clsMatch true (Ascii.eqb degreeSign) degreeSign) with true. cbv iota.
  rewrite exec_no_space by (unfold southOrNorth; destruct (negative a); reflexivity).
  rewrite exec_Seq, exec_Grp, exec_Cls.
  replace (clsMatch true (oneOf "NS") (southOrNorth a)) with true
    by (unfold southOrNorth; destruct (negative a); reflexivity).
  rewrite firstn_one.
  rewrite exec_no_space by reflexivity.
  rewrite exec_Seq. apply exec_Opt_take. rewrite exec_Chr, chrMatch_refl.
  apply exec_one_space; [apply magnitude_stops_space|].
  rewrite exec_Seq. apply exec_magnitude; [reflexivity|].
  rewrite exec_Seq. apply exec_Opt_take. rewrite exec_Cls.
  change (clsMatch true (Ascii.eqb degreeSign) degreeSign) with true. cbv iota.
  rewrite exec_no_space by (unfold westOrEast; destruct (negative b); reflexivity).
  rewrite exec_Grp, exec_Cls.
  replace (clsMatch true (oneOf "EW") (westOrEast b)) with true
    by (unfold westOrEast; destruct (negative b); reflexivity).
  rewrite firstn_one. cbn [app]. exact HK.
Qed.

(** *** Where the patterns cannot match *)

(** A pattern that rejects every first character of [T] matches nowhere in
    [T]. *)
Lemma no_match_without re n (Q : ascii -> bool) (T : str) :
  (forall x t, Q x = false -> matchAt re n (x :: t) = None) ->
  matchAt re n [] = None ->
  without Q T ->
  forall pre t, T = pre ++ t -> matchAt re n t = None.
Proof.
  intros Hcons Hnil HT pre t ->. apply Forall_app in HT as [_ Ht].
  destruct Ht as [|x t Hx _]; [exact Hnil | apply Hcons, Hx].
Qed.

(** A pattern whose matches all show an adjacency that [T] lacks matches
    nowhere in [T]. *)
Lemma no_match_adjacent re n P Q (T : str) :
  (forall t m, matchAt re n t = Some m -> adjacent P Q t = true) ->
  adjacent P Q T = false ->
  forall pre t, T = pre ++ t -> matchAt re n t = None.
Proof.
  intros Hadj HT pre t ->. destruct (matchAt re n t) as [m|] eqn:E; [|reflexivity].
  apply Hadj in E. apply (adjacent_app_r P Q pre) in E. congruence.
Qed.

Lemma adjacent_app_tail P Q (u v : str) :
  without Q v -> adjacent P Q (u ++ v) = adjacent P Q u.
Proof.
  intros Hv. induction u as [|x u IH]; [apply adjacent_without, Hv|].
  cbn [app]. rewrite !adjacent_cons, IH. f_equal. f_equal.
  destruct u as [|y u]; [|reflexivity].
  destruct Hv as [|y v Hy _]; [reflexivity|exact Hy].
Qed.

(** A non-empty word over [B] has a last character in [B]. *)
Lemma last_in (B : ascii -> bool) (v z : str) :
  z <> [] -> Forall (fun c => B c = true) z ->
  exists u x, v ++ z = u ++ [x] /\ B x = true.
Proof.
  intros Hne Hz. destruct (exists_last Hne) as (z' & x & ->).
  apply Forall_app in Hz as [_ Hx]. inversion Hx; subst.
  exists (v ++ z'), x. rewrite app_assoc. auto.
Qed.

Lemma unsignedNumber_word ic w :
  Lang ic unsignedNumber w ->
  w <> [] /\ Forall (fun c => isNumberChar c = true) w.
Proof.
  cbn. intros (w1 & w2 & -> & [Hne H1] & w3 & w4 & -> & H3 & H4).
  split; [destruct w1; [congruence|discriminate]|].
  assert (D : forall l, Forall (fun x => clsMatch ic isDigit x = true) l ->
                        Forall (fun c => isNumberChar c = true) l).
  { intros l. apply Forall_impl. intros c. rewrite clsMatch_isDigit.
    unfold isNumberChar. intros ->. reflexivity. }
  repeat (apply Forall_app; split); auto.
  destruct H3 as [->|(x & -> & Hx)]; constructor; [|constructor].
  rewrite (chrMatch_caseless ic x caseless_point) in Hx.
  apply Ascii.eqb_eq in Hx as <-. reflexivity.
Qed.

Lemma signedNumber_last ic w :
  Lang ic signedNumber w -> exists u x, w = u ++ [x] /\ isNumberChar x = true.
Proof.
  change signedNumber with (Seq (Opt (Chr "-")) unsignedNumber).
  cbn [Lang]. intros (w1 & w2 & -> & _ & H2).
  apply unsignedNumber_word in H2 as [Hne H2]. apply last_in; assumption.
Qed.

(** Every match of the bare pattern has a digit or a point directly before
    a comma. *)
Lemma bare_match_adjacent n t m :
  matchAt barePattern n t = Some m -> adjacent isNumberChar isComma t = true.
Proof.
  intros H. apply matchAt_sound in H as [-> L]. apply adjacent_app_l.
  cbn [barePattern source seq ignoreCase] in L.
  destruct L as (w1 & w2 & -> & L1 & w3 & w4 & -> & (x & -> & Hx) & _).
  apply signedNumber_last in L1 as (u & y & -> & Hy).
  assert (Hc : isComma x = true)
    by (unfold isComma; rewrite Ascii.eqb_sym; exact Hx).
  pose proof (adjacent_junction isNumberChar isComma u w4 y x Hy Hc) as G.
  cbn [app]. exact G.
Qed.

Lemma degree_before c :
  clsMatch true (Ascii.eqb degreeSign) c = true -> beforeLetter c = true.
Proof. destruct c as [[] [] [] [] [] [] [] []]; vm_compute; congruence. Qed.

(** Every match of the pattern with directions has an [N] or [S], in either
    case, directly after a digit, a point, a degree sign or white space. *)
Lemma direction_match_adjacent n t m :
  matchAt directionPattern n t = Some m ->
  adjacent beforeLetter isNorthSouth t = true.
Proof.
  intros H. apply matchAt_sound in H as [-> L]. apply adjacent_app_l.
  cbn [directionPattern source seq ignoreCase] in L.
  destruct L as (w1 & w2 & -> & L1 & w3 & w4 & -> & L3 & w5 & w6 & -> & L5
                 & w7 & w8 & -> & (h & -> & Hh) & _).
  cbn [Lang] in L1. apply unsignedNumber_word in L1 as [Hne L1].
  assert (B : Forall (fun c => beforeLetter c = true) (w1 ++ w3 ++ w5)).
  { repeat (apply Forall_app; split).
    - revert L1. apply Forall_impl. unfold beforeLetter. intros c ->. reflexivity.
    - destruct L3 as [->|(x & -> & Hx)]; constructor; [|constructor].
      apply degree_before, Hx.
    - revert L5. cbn [Lang]. apply Forall_impl. intros c.
      rewrite clsMatch_isSpace. unfold beforeLetter. intros ->.
      apply orb_true_r. }
  destruct (@last_in beforeLetter [] (w1 ++ w3 ++ w5)) as (u & x & E & Hx);
    [destruct w1; [congruence|discriminate] | exact B |].
  cbn [app] in E.
  replace (w1 ++ (w3 ++ w5 ++ [h] ++ w8)) with ((w1 ++ w3 ++ w5) ++ h :: w8)
    by (rewrite <- !app_assoc; reflexivity).
  rewrite E. apply adjacent_junction; assumption.
Qed.

Lemma digits_alphabet ds : Forall (fun c => numberAlphabet c = true) (digits ds).
Proof.
  induction ds as [|d ds IH]; constructor; [|exact IH]. destruct d; reflexivity.
Qed.

Lemma magnitude_alphabet a : Forall (fun c => numberAlphabet c = true) (magnitude a).
Proof.
  unfold magnitude. constructor; [destruct (leadingDigit a); reflexivity|].
  apply Forall_app. split; [apply digits_alphabet|].
  destruct (fraction a); cbn; [constructor; [reflexivity|apply digits_alphabet]|constructor].
Qed.

Lemma text_alphabet a : Forall (fun c => numberAlphabet c = true) (text a).
Proof.
  unfold text. destruct (negative a); [constructor; [reflexivity|]|];
    apply magnitude_alphabet.
Qed.

Lemma text_without Q a : foreign Q -> without Q (text a).
Proof. intros HQ. eapply Forall_impl; [|apply text_alphabet]. exact HQ. Qed.

Lemma magnitude_without Q a : foreign Q -> without Q (magnitude a).
Proof. intros HQ. eapply Forall_impl; [|apply magnitude_alphabet]. exact HQ. Qed.

Lemma bare_without Q a b :
  foreign Q -> Q ","%char = false -> Q " "%char = false -> without Q (bare a b).
Proof.
  intros HQ Hc Hs. unfold bare. apply Forall_app. split; [apply text_without, HQ|].
  cbn. repeat constructor; try assumption. apply text_without, HQ.
Qed.

Ltac foreign_chars :=
  let c := fresh "c" in
  intros c; destruct c as [[] [] [] [] [] [] [] []]; vm_compute; congruence.

(** *** The matches of each pattern in a text *)

Lemma bracket_first n x t :
  chrMatch false "[" x = false -> matchAt bracketPattern n (x :: t) = None.
Proof.
  intros H. unfold matchAt. cbn [bracketPattern source seq ignoreCase].
  rewrite exec_Seq, exec_Chr, H. reflexivity.
Qed.

Lemma paren_first n x t :
  chrMatch false "(" x = false -> matchAt parenPattern n (x :: t) = None.
Proof.
  intros H. unfold matchAt. cbn [parenPattern source seq ignoreCase].
  rewrite exec_Seq, exec_Chr, H. reflexivity.
Qed.

Lemma gps_first n x t :
  chrMatch true "G" x = false -> matchAt gpsPattern n (x :: t) = None.
Proof.
  intros H. unfold matchAt.
  cbn [gpsPattern source seq word map lit list_ascii_of_string ignoreCase].
  rewrite !exec_Seq, exec_Chr, H. reflexivity.
Qed.

Lemma location_first n x t :
  chrMatch true "L" x = false -> matchAt locationPattern n (x :: t) = None.
Proof.
  intros H. unfold matchAt.
  cbn [locationPattern source seq word map lit list_ascii_of_string ignoreCase].
  rewrite !exec_Seq, exec_Chr, H. reflexivity.
Qed.

Lemma unsignedNumber_first ic n M x t caps (k : str -> list str -> option M) :
  isDigit x = false -> exec ic n unsignedNumber (x :: t) caps k = None.
Proof.
  intros H. change unsignedNumber
    with (Seq (Plus isDigit) (Seq (Opt (Chr ".")) (Star isDigit))).
  rewrite exec_Seq, exec_Plus, clsMatch_isDigit, H. reflexivity.
Qed.

Lemma bare_first n x t :
  bareFirst x = false -> matchAt barePattern n (x :: t) = None.
Proof.
  unfold bareFirst. intros H. apply orb_false_iff in H as [Hm Hd].
  unfold matchAt. cbn [barePattern source seq ignoreCase].
  rewrite exec_Seq, exec_Grp.
  change signedNumber with (Seq (Opt (Chr "-")) unsignedNumber).
  rewrite exec_Seq, exec_Opt_skip.
  - apply unsignedNumber_first, Hd.
  - rewrite exec_Chr. unfold chrMatch. cbn [canonicalize].
    rewrite Ascii.eqb_sym, Hm. reflexivity.
Qed.

Lemma direction_first n x t :
  isDigit x = false -> matchAt directionPattern n (x :: t) = None.
Proof.
  intros H. unfold matchAt. cbn [directionPattern source seq ignoreCase].
  rewrite exec_Seq, exec_Grp. apply unsignedNumber_first, H.
Qed.

(** A text with a single match: nothing before it or after it can start
    one. *)
Lemma scan_one re Q (pre whole rest : str) m n :
  (forall n x t, Q x = false -> matchAt re n (x :: t) = None) ->
  (forall n, matchAt re n [] = None) ->
  without Q pre -> without Q rest ->
  (forall n, matchAt re n (whole ++ rest) = Some m) ->
  matched m = whole -> whole <> [] ->
  scan re n (pre ++ whole ++ rest) 0
  = map Keep pre ++ Found m :: map Keep rest.
Proof.
  intros Hcons Hnil Hpre Hrest Hm Hw Hne.
  induction Hpre as [|x pre Hx _ IH].
  - cbn [app map]. rewrite (@scan_found re n whole rest m (Hm n) Hw Hne).
    rewrite scan_no_match; [reflexivity|].
    apply (@no_match_without re n Q rest); auto.
  - cbn [app map]. rewrite scan_keep by (apply Hcons, Hx). rewrite IH.
    reflexivity.
Qed.

Lemma execAll_one re Q (pre whole rest : str) m :
  (forall n x t, Q x = false -> matchAt re n (x :: t) = None) ->
  (forall n, matchAt re n [] = None) ->
  without Q pre -> without Q rest ->
  (forall n, matchAt re n (whole ++ rest) = Some m) ->
  matched m = whole -> whole <> [] ->
  execAll re (pre ++ whole ++ rest) = [m].
Proof.
  intros Hcons Hnil Hpre Hrest Hm Hw Hne. unfold execAll.
  rewrite (@scan_one re Q pre whole rest m) by assumption.
  rewrite flat_map_app. cbn [flat_map]. rewrite !flat_map_Found. reflexivity.
Qed.

(** Replacing the single match of a global pattern. *)
Lemma replace_one re Q (pre whole rest rep : str) m :
  global re = true ->
  (forall n x t, Q x = false -> matchAt re n (x :: t) = None) ->
  (forall n, matchAt re n [] = None) ->
  without Q pre -> without Q rest ->
  (forall n, matchAt re n (whole ++ rest) = Some m) ->
  matched m = whole -> whole <> [] ->
  replace re rep (pre ++ whole ++ rest) = pre ++ rep ++ rest.
Proof.
  intros Hg Hcons Hnil Hpre Hrest Hm Hw Hne. unfold replace. rewrite Hg.
  rewrite (@scan_one re Q pre whole rest m) by assumption.
  rewrite flat_map_app. cbn [flat_map]. rewrite !flat_map_Keep. reflexivity.
Qed.

Lemma replace_whole re (whole rep : str) m :
  global re = true ->
  (forall n, matchAt re n [] = None) ->
  (forall n, matchAt re n (whole ++ []) = Some m) ->
  matched m = whole -> whole <> [] ->
  replace re rep whole = rep.
Proof.
  intros Hg Hnil Hm Hw Hne.
  rewrite <- (app_nil_r whole) at 1.
  rewrite <- (app_nil_r rep) at 2.
  apply (@replace_one re (fun _ => true) [] whole [] rep m);
    [exact Hg | discriminate | exact Hnil | constructor | constructor
    | exact Hm | exact Hw | exact Hne].
Qed.

Lemma execAll_whole re (whole : str) m :
  (forall n, matchAt re n [] = None) ->
  (forall n, matchAt re n (whole ++ []) = Some m) ->
  matched m = whole -> whole <> [] ->
  execAll re whole = [m].
Proof.
  intros Hnil Hm Hw Hne.
  rewrite <- (app_nil_r whole) at 1.
  apply (@execAll_one re (fun _ => true) [] whole [] m);
    [discriminate | exact Hnil | constructor | constructor
    | exact Hm | exact Hw | exact Hne].
Qed.

(** *** From the matches to the coordinates *)

Lemma fold_left_processPattern content ps : forall st,
  fold_left (processPattern content) ps st
  = fold_left processMatch (flat_map (fun p => execAll p content) ps) st.
Proof.
  induction ps as [|p ps IH]; intros st; [reflexivity|].
  cbn [fold_left flat_map]. rewrite fold_left_app. apply IH.
Qed.

Lemma extractCoordinates_matches content :
  extractCoordinates content
  = coordinates
      (fold_left processMatch
         (execAll bracketPattern content ++ execAll parenPattern content
          ++ execAll barePattern content ++ execAll directionPattern content
          ++ execAll gpsPattern content ++ execAll locationPattern content)
         (mkState [] [])).
Proof.
  unfold extractCoordinates. rewrite fold_left_processPattern.
  cbn [COORDINATE_PATTERNS flat_map]. rewrite app_nil_r. reflexivity.
Qed.

Lemma eqb_neq (x y : str) : x <> y -> JsString.eqb x y = false.
Proof. intros H. unfold JsString.eqb. destruct (list_eq_dec _ x y); congruence. Qed.

Lemma eqb_refl (x : str) : JsString.eqb x x = true.
Proof. unfold JsString.eqb. destruct (list_eq_dec _ x x); congruence. Qed.

Lemma processMatch_fresh st m la ln :
  has (processedRaws st) (matched m) = false ->
  parsePair (groups m) = Some (la, ln) ->
  processMatch st m
  = mkState
      (if isValidCoordinate la ln
       then coordinates st ++ [mkCoordinate la ln (matched m)]
       else coordinates st)
      (processedRaws st ++ [matched m]).
Proof.
  intros Hh Hp. unfold processMatch. rewrite Hh, Hp.
  destruct (isValidCoordinate la ln); reflexivity.
Qed.

Lemma process_single m la ln :
  parsePair (groups m) = Some (la, ln) ->
  coordinates (fold_left processMatch [m] (mkState [] []))
  = if isValidCoordinate la ln then [mkCoordinate la ln (matched m)] else [].
Proof.
  intros Hp. cbn [fold_left].
  rewrite (@processMatch_fresh _ m la ln) by (reflexivity || exact Hp).
  destruct (isValidCoordinate la ln); reflexivity.
Qed.

Lemma process_double m1 m2 la ln :
  parsePair (groups m1) = Some (la, ln) ->
  parsePair (groups m2) = Some (la, ln) ->
  matched m1 <> matched m2 ->
  coordinates (fold_left processMatch [m1; m2] (mkState [] []))
  = if isValidCoordinate la ln
    then [mkCoordinate la ln (matched m1); mkCoordinate la ln (matched m2)]
    else [].
Proof.
  intros Hp1 Hp2 Hne. cbn [fold_left].
  rewrite (@processMatch_fresh _ m1 la ln) by (reflexivity || exact Hp1).
  rewrite (@processMatch_fresh _ m2 la ln).
  - destruct (isValidCoordinate la ln); reflexivity.
  - cbn. rewrite (eqb_neq (fun E => Hne (eq_sym E))). reflexivity.
  - exact Hp2.
Qed.

(** *** The sign of a parsed number *)

Lemma parseFloat_minus d t :
  parseFloat ("-"%char :: digitAscii d :: t)
  = neg (parseFloat (digitAscii d :: t)).
Proof.
  unfold parseFloat.
  replace (trimStart ("-"%char :: digitAscii d :: t))
    with ("-"%char :: digitAscii d :: t) by reflexivity.
  replace (trimStart (digitAscii d :: t)) with (digitAscii d :: t)
    by (destruct d; reflexivity).
  cbv iota. rewrite Ascii.eqb_refl.
  replace (Ascii.eqb (digitAscii d) "-") with false by (destruct d; reflexivity).
  replace (Ascii.eqb (digitAscii d) "+") with false by (destruct d; reflexivity).
  generalize (digitAscii d :: t). intros u.
  destruct (startsWith u (lit "Infinity")); [reflexivity|].
  destruct (takeDigits u) as [ip s2].
  destruct (match s2 with
            | [] => ([], s2)
            | c :: t0 => if Ascii.eqb c "." then takeDigits t0 else ([], s2)
            end) as [fp s3].
  destruct (ip ++ fp); reflexivity.
Qed.

Lemma parseFloat_text a :
  parseFloat (text a)
  = if negative a then neg (parseFloat (magnitude a))
    else parseFloat (magnitude a).
Proof.
  unfold text. destruct (negative a); [|reflexivity].
  unfold magnitude. apply parseFloat_minus.
Qed.

Lemma parsePair_directions a b :
  parsePair [magnitude a; [southOrNorth a]; magnitude b; [westOrEast b]]
  = Some (parseFloat (text a), parseFloat (text b)).
Proof.
  rewrite !parseFloat_text. unfold parsePair, southOrNorth, westOrEast.
  destruct (negative a), (negative b); reflexivity.
Qed.

(** *** The six shapes *)

Lemma text_nonempty a : text a <> [].
Proof. destruct (text_head a) as (c & s & -> & _). discriminate. Qed.

Lemma bare_nonempty a b : bare a b <> [].
Proof.
  unfold bare. destruct (text_head a) as (c & s & -> & _). discriminate.
Qed.

Lemma foreign_bracket : foreign (chrMatch false "[").
Proof. foreign_chars. Qed.
Lemma foreign_paren : foreign (chrMatch false "(").
Proof. foreign_chars. Qed.
Lemma foreign_G : foreign (chrMatch true "G").
Proof. foreign_chars. Qed.
Lemma foreign_L : foreign (chrMatch true "L").
Proof. foreign_chars. Qed.
Lemma foreign_NS : foreign isNorthSouth.
Proof. foreign_chars. Qed.
Lemma foreign_comma : foreign isComma.
Proof. foreign_chars. Qed.

(** Splits a [without] goal on a shape into its literal characters and its
    numbers. *)
Ltac shape_without :=
  unfold without, bracketed, parenthesized, gps, location, withDirections,
    bare, southOrNorth, westOrEast;
  cbn [lit list_ascii_of_string app];
  repeat first
    [ apply Forall_nil
    | apply Forall_cons;
      [ first [ reflexivity | destruct (negative _); reflexivity ] | ]
    | apply Forall_app; split
    | apply text_without; assumption
    | apply magnitude_without; assumption ].

Section Shapes.

Variables a b : decimal.

Let la := parseFloat (text a).
Let ln := parseFloat (text b).

Lemma no_direction_in (T : str) :
  adjacent beforeLetter isNorthSouth T = false ->
  execAll directionPattern T = [].
Proof.
  intros H. apply execAll_no_match.
  apply (@no_match_adjacent directionPattern (length T)
           beforeLetter isNorthSouth T); [|exact H].
  intros t m. apply direction_match_adjacent.
Qed.

Lemma no_first_in re Q (T : str) :
  (forall n x t, Q x = false -> matchAt re n (x :: t) = None) ->
  (forall n, matchAt re n [] = None) ->
  without Q T -> execAll re T = [].
Proof.
  intros Hc Hn HT. apply execAll_no_match.
  apply (@no_match_without re (length T) Q T); auto.
Qed.

Lemma extract_bare :
  extractCoordinates (bare a b)
  = if isValidCoordinate la ln then [mkCoordinate la ln (bare a b)] else [].
Proof.
  rewrite extractCoordinates_matches.
  rewrite (@no_first_in bracketPattern (chrMatch false "[") (bare a b)
             bracket_first (fun _ => eq_refl))
    by (pose proof foreign_bracket; shape_without).
  rewrite (@no_first_in parenPattern (chrMatch false "(") (bare a b)
             paren_first (fun _ => eq_refl))
    by (pose proof foreign_paren; shape_without).
  rewrite (@execAll_whole barePattern (bare a b)
             (mkMatch (bare a b) [text a; text b] []))
    by first [ reflexivity | apply bare_nonempty
             | intros n; apply matchAt_bare; exact I ].
  rewrite no_direction_in
    by (apply adjacent_without; pose proof foreign_NS; shape_without).
  rewrite (@no_first_in gpsPattern (chrMatch true "G") (bare a b)
             gps_first (fun _ => eq_refl))
    by (pose proof foreign_G; shape_without).
  rewrite (@no_first_in locationPattern (chrMatch true "L") (bare a b)
             location_first (fun _ => eq_refl))
    by (pose proof foreign_L; shape_without).
  cbn [app]. apply process_single. reflexivity.
Qed.

Lemma bracketed_neq_bare : bracketed a b <> bare a b.
Proof.
  intros E. apply (f_equal (@length ascii)) in E. unfold bracketed in E.
  cbn [length] in E. rewrite length_app in E. cbn in E. lia.
Qed.

Lemma parenthesized_neq_bare : parenthesized a b <> bare a b.
Proof.
  intros E. apply (f_equal (@length ascii)) in E. unfold parenthesized in E.
  cbn [length] in E. rewrite length_app in E. cbn in E. lia.
Qed.

Lemma bare_neq_gps : bare a b <> gps a b.
Proof.
  intros E. apply (f_equal (@length ascii)) in E. unfold gps in E.
  rewrite length_app in E. cbn in E. lia.
Qed.

Lemma bare_neq_location : bare a b <> location a b.
Proof.
  intros E. apply (f_equal (@length ascii)) in E. unfold location in E.
  rewrite length_app in E. cbn in E. lia.
Qed.

(** The bare pattern inside a text that wraps [lat, lng]. *)
Lemma bare_inside (pre rest : str) :
  without bareFirst pre -> without bareFirst rest ->
  stopsAt isNumberChar rest ->
  execAll barePattern (pre ++ bare a b ++ rest)
  = [mkMatch (bare a b) [text a; text b] rest].
Proof.
  intros Hpre Hrest Hstop.
  apply (@execAll_one barePattern bareFirst);
    [ intros n x t; apply bare_first | reflexivity | exact Hpre | exact Hrest
    | intros n; apply matchAt_bare, Hstop | reflexivity | apply bare_nonempty ].
Qed.

Lemma extract_bracketed :
  extractCoordinates (bracketed a b)
  = if isValidCoordinate la ln
    then [mkCoordinate la ln (bracketed a b); mkCoordinate la ln (bare a b)]
    else [].
Proof.
  rewrite extractCoordinates_matches.
  rewrite (@execAll_whole bracketPattern (bracketed a b)
             (mkMatch (bracketed a b) [text a; text b] []))
    by first [ reflexivity | discriminate
             | intros n; apply matchAt_bracketed ].
  rewrite (@no_first_in parenPattern (chrMatch false "(") (bracketed a b)
             paren_first (fun _ => eq_refl))
    by (pose proof foreign_paren; shape_without).
  change (execAll barePattern (bracketed a b))
    with (execAll barePattern (["["%char] ++ bare a b ++ lit "]")).
  rewrite bare_inside by (repeat constructor).
  rewrite no_direction_in
    by (apply adjacent_without; pose proof foreign_NS; shape_without).
  rewrite (@no_first_in gpsPattern (chrMatch true "G") (bracketed a b)
             gps_first (fun _ => eq_refl))
    by (pose proof foreign_G; shape_without).
  rewrite (@no_first_in locationPattern (chrMatch true "L") (bracketed a b)
             location_first (fun _ => eq_refl))
    by (pose proof foreign_L; shape_without).
  cbn [app]. apply process_double; [reflexivity | reflexivity |].
  apply bracketed_neq_bare.
Qed.

Lemma extract_parenthesized :
  extractCoordinates (parenthesized a b)
  = if isValidCoordinate la ln
    then [mkCoordinate la ln (parenthesized a b); mkCoordinate la ln (bare a b)]
    else [].
Proof.
  rewrite extractCoordinates_matches.
  rewrite (@no_first_in bracketPattern (chrMatch false "[") (parenthesized a b)
             bracket_first (fun _ => eq_refl))
    by (pose proof foreign_bracket; shape_without).
  rewrite (@execAll_whole parenPattern (parenthesized a b)
             (mkMatch (parenthesized a b) [text a; text b] []))
    by first [ reflexivity | discriminate
             | intros n; apply matchAt_parenthesized ].
  change (execAll barePattern (parenthesized a b))
    with (execAll barePattern (["("%char] ++ bare a b ++ lit ")")).
  rewrite bare_inside by (repeat constructor).
  rewrite no_direction_in
    by (apply adjacent_without; pose proof foreign_NS; shape_without).
  rewrite (@no_first_in gpsPattern (chrMatch true "G") (parenthesized a b)
             gps_first (fun _ => eq_refl))
    by (pose proof foreign_G; shape_without).
  rewrite (@no_first_in locationPattern (chrMatch true "L") (parenthesized a b)
             location_first (fun _ => eq_refl))
    by (pose proof foreign_L; shape_without).
  cbn [app]. apply process_double; [reflexivity | reflexivity |].
  apply parenthesized_neq_bare.
Qed.

Lemma bare_without_NS : without isNorthSouth (bare a b).
Proof. pose proof foreign_NS. shape_without. Qed.

Lemma extract_gps :
  extractCoordinates (gps a b)
  = if isValidCoordinate la ln
    then [mkCoordinate la ln (bare a b); mkCoordinate la ln (gps a b)]
    else [].
Proof.
  rewrite extractCoordinates_matches.
  rewrite (@no_first_in bracketPattern (chrMatch false "[") (gps a b)
             bracket_first (fun _ => eq_refl))
    by (pose proof foreign_bracket; shape_without).
  rewrite (@no_first_in parenPattern (chrMatch false "(") (gps a b)
             paren_first (fun _ => eq_refl))
    by (pose proof foreign_paren; shape_without).
  replace (execAll barePattern (gps a b))
    with (execAll barePattern (lit "GPS: " ++ bare a b ++ []))
    by (rewrite app_nil_r; reflexivity).
  rewrite bare_inside by first [ exact I | repeat constructor ].
  rewrite no_direction_in
    by (unfold gps; rewrite adjacent_app_tail by apply bare_without_NS;
        reflexivity).
  rewrite (@execAll_whole gpsPattern (gps a b)
             (mkMatch (gps a b) [text a; text b] []))
    by first [ reflexivity | discriminate
             | intros n; apply matchAt_gps; exact I ].
  rewrite (@no_first_in locationPattern (chrMatch true "L") (gps a b)
             location_first (fun _ => eq_refl))
    by (pose proof foreign_L; shape_without).
  cbn [app]. apply process_double; [reflexivity | reflexivity |].
  apply bare_neq_gps.
Qed.

Lemma extract_location :
  extractCoordinates (location a b)
  = if isValidCoordinate la ln
    then [mkCoordinate la ln (bare a b); mkCoordinate la ln (location a b)]
    else [].
Proof.
  rewrite extractCoordinates_matches.
  rewrite (@no_first_in bracketPattern (chrMatch false "[") (location a b)
             bracket_first (fun _ => eq_refl))
    by (pose proof foreign_bracket; shape_without).
  rewrite (@no_first_in parenPattern (chrMatch false "(") (location a b)
             paren_first (fun _ => eq_refl))
    by (pose proof foreign_paren; shape_without).
  replace (execAll barePattern (location a b))
    with (execAll barePattern (lit "Location: " ++ bare a b ++ []))
    by (rewrite app_nil_r; reflexivity).
  rewrite bare_inside by first [ exact I | repeat constructor ].
  rewrite no_direction_in
    by (unfold location; rewrite adjacent_app_tail by apply bare_without_NS;
        reflexivity).
  rewrite (@no_first_in gpsPattern (chrMatch true "G") (location a b)
             gps_first (fun _ => eq_refl))
    by (pose proof foreign_G; shape_without).
  rewrite (@execAll_whole locationPattern (location a b)
             (mkMatch (location a b) [text a; text b] []))
    by first [ reflexivity | discriminate
             | intros n; apply matchAt_location; exact I ].
  cbn [app]. apply process_double; [reflexivity | reflexivity |].
  apply bare_neq_location.
Qed.

Lemma withDirections_no_comma_after_number :
  adjacent isNumberChar isComma (withDirections a b) = false.
Proof.
  unfold withDirections.
  rewrite adjacent_app_skip
    by first [ apply magnitude_without, foreign_comma | reflexivity ].
  change (degreeSign :: southOrNorth a :: lit ", " ++ magnitude b
          ++ [degreeSign; westOrEast b])
    with ([degreeSign; southOrNorth a; ","%char; " "%char]
          ++ magnitude b ++ [degreeSign; westOrEast b]).
  rewrite adjacent_app_tail.
  - unfold southOrNorth. destruct (negative a); reflexivity.
  - pose proof foreign_comma. shape_without.
Qed.

Lemma withDirections_nonempty : withDirections a b <> [].
Proof. unfold withDirections, magnitude. discriminate. Qed.

Lemma extract_withDirections :
  extractCoordinates (withDirections a b)
  = if isValidCoordinate la ln
    then [mkCoordinate la ln (withDirections a b)]
    else [].
Proof.
  rewrite extractCoordinates_matches.
  rewrite (@no_first_in bracketPattern (chrMatch false "[") (withDirections a b)
             bracket_first (fun _ => eq_refl))
    by (pose proof foreign_bracket; shape_without).
  rewrite (@no_first_in parenPattern (chrMatch false "(") (withDirections a b)
             paren_first (fun _ => eq_refl))
    by (pose proof foreign_paren; shape_without).
  rewrite (@execAll_no_match barePattern (withDirections a b))
    by (apply (@no_match_adjacent barePattern _ isNumberChar isComma);
        [ intros t m; apply bare_match_adjacent
        | apply withDirections_no_comma_after_number ]).
  rewrite (@execAll_whole directionPattern (withDirections a b)
             (mkMatch (withDirections a b)
                [magnitude a; [southOrNorth a]; magnitude b; [westOrEast b]] []))
    by first [ reflexivity | apply withDirections_nonempty
             | intros n; apply matchAt_withDirections ].
  rewrite (@no_first_in gpsPattern (chrMatch true "G") (withDirections a b)
             gps_first (fun _ => eq_refl))
    by (pose proof foreign_G; shape_without).
  rewrite (@no_first_in locationPattern (chrMatch true "L") (withDirections a b)
             location_first (fun _ => eq_refl))
    by (pose proof foreign_L; shape_without).
  cbn [app]. apply process_single. apply parsePair_directions.
Qed.

End Shapes.

(** *** C1: one coordinate text as the whole input *)

(** C1, as the claim states it, fails: the bracketed text is found by the
    bracket pattern and its inside again by the bare pattern, so two
    coordinates are returned, not one. *)
Lemma extractCoordinates_bracketed_counterexample :
  map raw (extractCoordinates (lit "[40.7128, -74.0060]"))
  = [lit "[40.7128, -74.0060]"; lit "40.7128, -74.0060"]
  /\ length (extractCoordinates (lit "[40.7128, -74.0060]")) <> 1.
Proof. split; [vm_compute; reflexivity | vm_compute; discriminate]. Qed.

(** C1, amended.  For every pair written in plain decimal notation whose
    parsed values pass the range check, and given as the whole input:
    the bare shape and the shape with degrees and hemisphere letters yield
    exactly one coordinate, with the parsed values and the whole text as
    [raw]; the bracketed, parenthesized, [GPS:] and [Location:] shapes yield
    exactly two coordinates with the parsed values, one whose [raw] is the
    whole text and one whose [raw] is the bare [lat, lng] inside it, in the
    order of the patterns. *)
Theorem extractCoordinates_shapes (a b : decimal) :
  isValidCoordinate (parseFloat (text a)) (parseFloat (text b)) = true ->
  let found := mkCoordinate (parseFloat (text a)) (parseFloat (text b)) in
  extractCoordinates (bare a b) = [found (bare a b)]
  /\ extractCoordinates (withDirections a b) = [found (withDirections a b)]
  /\ extractCoordinates (bracketed a b)
     = [found (bracketed a b); found (bare a b)]
  /\ extractCoordinates (parenthesized a b)
     = [found (parenthesized a b); found (bare a b)]
  /\ extractCoordinates (gps a b) = [found (bare a b); found (gps a b)]
  /\ extractCoordinates (location a b)
     = [found (bare a b); found (location a b)].
Proof.
  intros V found.
  rewrite extract_bare, extract_withDirections, extract_bracketed,
    extract_parenthesized, extract_gps, extract_location, V.
  repeat split; reflexivity.
Qed.

Lemma extractCoordinates_shapes_witness :
  extractCoordinates (lit "GPS: 40.7128, -74.0060")
  = [mkCoordinate (parseFloat (lit "40.7128")) (parseFloat (lit "-74.0060"))
       (lit "40.7128, -74.0060");
     mkCoordinate (parseFloat (lit "40.7128")) (parseFloat (lit "-74.0060"))
       (lit "GPS: 40.7128, -74.0060")].
Proof.
  exact (proj1 (proj2 (proj2 (proj2 (proj2
    (extractCoordinates_shapes
       (mkDecimal false D4 [D0] (Some [D7; D1; D2; D8]))
       (mkDecimal true D7 [D4] (Some [D0; D0; D6; D0]))
       eq_refl)))))).
Defined.

(** *** C4: extraction followed by removal *)

(** C4, as the claim states it, fails: removing the bare match [-1, 1]
    joins the text on both sides of it into [-1, 1] again, which no later
    pattern removes. *)
Lemma removeCoordinates_counterexample :
  map raw (extractCoordinates (lit "-1-1, 1, 1")) = [lit "-1, 1"]
  /\ removeCoordinatesFromContent (lit "-1-1, 1, 1") = lit "-1, 1"
  /\ includes (removeCoordinatesFromContent (lit "-1-1, 1, 1")) (lit "-1, 1")
     = true.
Proof. repeat split; vm_compute; reflexivity. Qed.

Lemma foreign_space : foreign isSpace.
Proof. foreign_chars. Qed.

Lemma text_endsWell a : endsWell (text a).
Proof.
  destruct (@last_in numberAlphabet [] (text a)) as (u & x & E & Hx);
    [apply text_nonempty | apply text_alphabet |].
  exists u, x. split; [exact E | apply foreign_space, Hx].
Qed.

Lemma bare_endsWell a b : endsWell (bare a b).
Proof. unfold bare. do 2 apply endsWell_app. apply text_endsWell. Qed.

Lemma bare_trimmed a b : trim (bare a b) = bare a b.
Proof.
  apply trim_id; [|apply bare_endsWell].
  unfold bare. apply (text_stops_space false).
Qed.

Lemma bracketed_trimmed a b : trim (bracketed a b) = bracketed a b.
Proof.
  apply trim_id; [reflexivity|]. unfold bracketed.
  apply endsWell_cons, endsWell_app. exists [], "]"%char. auto.
Qed.

Lemma parenthesized_trimmed a b : trim (parenthesized a b) = parenthesized a b.
Proof.
  apply trim_id; [reflexivity|]. unfold parenthesized.
  apply endsWell_cons, endsWell_app. exists [], ")"%char. auto.
Qed.

Lemma gps_trimmed a b : trim (gps a b) = gps a b.
Proof.
  apply trim_id; [reflexivity|]. unfold gps.
  apply endsWell_app, bare_endsWell.
Qed.

Lemma location_trimmed a b : trim (location a b) = location a b.
Proof.
  apply trim_id; [reflexivity|]. unfold location.
  apply endsWell_app, bare_endsWell.
Qed.

Lemma withDirections_trimmed a b : trim (withDirections a b) = withDirections a b.
Proof.
  apply trim_id.
  - unfold withDirections. apply (magnitude_stops_space false).
  - unfold withDirections. apply endsWell_app.
    do 2 apply endsWell_cons. apply endsWell_app, endsWell_app.
    exists [degreeSign], (westOrEast b). split; [reflexivity|].
    unfold westOrEast. destruct (negative b); reflexivity.
Qed.

Lemma nowhere_first re Q (T : str) :
  (forall n x t, Q x = false -> matchAt re n (x :: t) = None) ->
  (forall n, matchAt re n [] = None) ->
  without Q T -> nowhere re T.
Proof.
  intros Hc Hn HT. unfold nowhere.
  apply (@no_match_without re (length T) Q T); auto.
Qed.

Lemma nowhere_direction (T : str) :
  adjacent beforeLetter isNorthSouth T = false -> nowhere directionPattern T.
Proof.
  intros H. unfold nowhere.
  apply (@no_match_adjacent directionPattern (length T)
           beforeLetter isNorthSouth T); [|exact H].
  intros t m. apply direction_match_adjacent.
Qed.

Lemma nowhere_bare (T : str) :
  adjacent isNumberChar isComma T = false -> nowhere barePattern T.
Proof.
  intros H. unfold nowhere.
  apply (@no_match_adjacent barePattern (length T) isNumberChar isComma T);
    [|exact H].
  intros t m. apply bare_match_adjacent.
Qed.

Ltac unfold_remove :=
  unfold removeCoordinatesFromContent; cbn [COORDINATE_PATTERNS fold_left].

Ltac skip_pattern re Q first foreignQ :=
  rewrite (@replace_no_match re) by
    (apply (@nowhere_first re Q); [exact first | reflexivity |];
     pose proof foreignQ; shape_without).

Lemma remove_bare a b : removeCoordinatesFromContent (bare a b) = [].
Proof.
  unfold_remove.
  skip_pattern bracketPattern (chrMatch false "[") bracket_first foreign_bracket.
  rewrite bare_trimmed.
  skip_pattern parenPattern (chrMatch false "(") paren_first foreign_paren.
  rewrite bare_trimmed.
  rewrite (@replace_whole barePattern (bare a b) []
             (mkMatch (bare a b) [text a; text b] []))
    by first [ reflexivity | apply bare_nonempty
             | intros n; apply matchAt_bare; exact I ].
  reflexivity.
Qed.

Lemma remove_bracketed a b : removeCoordinatesFromContent (bracketed a b) = [].
Proof.
  unfold_remove.
  rewrite (@replace_whole bracketPattern (bracketed a b) []
             (mkMatch (bracketed a b) [text a; text b] []))
    by first [ reflexivity | discriminate | intros n; apply matchAt_bracketed ].
  reflexivity.
Qed.

Lemma remove_parenthesized a b :
  removeCoordinatesFromContent (parenthesized a b) = [].
Proof.
  unfold_remove.
  skip_pattern bracketPattern (chrMatch false "[") bracket_first foreign_bracket.
  rewrite parenthesized_trimmed.
  rewrite (@replace_whole parenPattern (parenthesized a b) []
             (mkMatch (parenthesized a b) [text a; text b] []))
    by first [ reflexivity | discriminate
             | intros n; apply matchAt_parenthesized ].
  reflexivity.
Qed.

Lemma remove_withDirections a b :
  removeCoordinatesFromContent (withDirections a b) = [].
Proof.
  unfold_remove.
  skip_pattern bracketPattern (chrMatch false "[") bracket_first foreign_bracket.
  rewrite withDirections_trimmed.
  skip_pattern parenPattern (chrMatch false "(") paren_first foreign_paren.
  rewrite withDirections_trimmed.
  rewrite (@replace_no_match barePattern)
    by apply nowhere_bare, withDirections_no_comma_after_number.
  rewrite withDirections_trimmed.
  rewrite (@replace_whole directionPattern (withDirections a b) []
             (mkMatch (withDirections a b)
                [magnitude a; [southOrNorth a]; magnitude b; [westOrEast b]] []))
    by first [ reflexivity | apply withDirections_nonempty
             | intros n; apply matchAt_withDirections ].
  reflexivity.
Qed.

Lemma replace_bare_inside a b (pre : str) :
  without bareFirst pre ->
  replace barePattern [] (pre ++ bare a b) = pre.
Proof.
  intros Hpre. rewrite <- (app_nil_r (bare a b)).
  rewrite (@replace_one barePattern bareFirst pre (bare a b) [] []
             (mkMatch (bare a b) [text a; text b] []));
    [ apply app_nil_r | reflexivity | intros n x t; apply bare_first
    | reflexivity | exact Hpre | constructor
    | intros n; apply matchAt_bare; exact I | reflexivity
    | apply bare_nonempty ].
Qed.

Lemma remove_gps a b : removeCoordinatesFromContent (gps a b) = lit "GPS:".
Proof.
  unfold_remove.
  skip_pattern bracketPattern (chrMatch false "[") bracket_first foreign_bracket.
  rewrite gps_trimmed.
  skip_pattern parenPattern (chrMatch false "(") paren_first foreign_paren.
  rewrite gps_trimmed.
  unfold gps at 1. rewrite replace_bare_inside by (repeat constructor).
  reflexivity.
Qed.

Lemma remove_location a b :
  removeCoordinatesFromContent (location a b) = lit "Location:".
Proof.
  unfold_remove.
  skip_pattern bracketPattern (chrMatch false "[") bracket_first foreign_bracket.
  rewrite location_trimmed.
  skip_pattern parenPattern (chrMatch false "(") paren_first foreign_paren.
  rewrite location_trimmed.
  unfold location at 1. rewrite replace_bare_inside by (repeat constructor).
  reflexivity.
Qed.

(** *** Removal of a coordinate inside a text *)

Lemma marks_digit c : marks c = false -> isDigit c = false.
Proof. all_chars c. Qed.
Lemma marks_number c : marks c = false -> isNumberChar c = false.
Proof. all_chars c. Qed.
Lemma marks_bareFirst c : marks c = false -> bareFirst c = false.
Proof. all_chars c. Qed.
Lemma marks_bracket c : marks c = false -> chrMatch false "[" c = false.
Proof. all_chars c. Qed.
Lemma marks_paren c : marks c = false -> chrMatch false "(" c = false.
Proof. all_chars c. Qed.

Lemma without_stops Q (s : str) : without Q s -> stopsAt Q s.
Proof. destruct 1; [exact I | assumption]. Qed.

Lemma framed_without Q shape T :
  (forall c, marks c = false -> Q c = false) -> without Q shape ->
  framed shape T -> without Q T.
Proof.
  intros H Hs (pre & post & Hpre & Hpost & ->).
  apply Forall_app. split; [apply (@without_weaken _ _ _ H Hpre)|].
  apply Forall_app. split; [exact Hs | apply (@without_weaken _ _ _ H Hpost)].
Qed.

Lemma framed_trim shape T :
  stopsAt isSpace shape -> endsWell shape ->
  framed shape T -> framed shape (trim T).
Proof.
  intros Hs He (pre & post & Hpre & Hpost & ->).
  exists (trimStart pre), (trimEnd post).
  split; [apply trimStart_without, Hpre|].
  split; [apply trimEnd_without, Hpost|].
  apply trim_between; assumption.
Qed.

(** A pass whose pattern cannot start at any character of the text. *)
Lemma skip_first re Q shape T :
  (forall n x t, Q x = false -> matchAt re n (x :: t) = None) ->
  (forall n, matchAt re n [] = None) ->
  (forall c, marks c = false -> Q c = false) ->
  without Q shape -> stopsAt isSpace shape -> endsWell shape ->
  framed shape T -> framed shape (trim (replace re [] T)).
Proof.
  intros Hfirst Hnil Hmarks Hshape Hs He F.
  rewrite replace_no_match.
  - apply framed_trim; assumption.
  - apply (@nowhere_first re Q T Hfirst Hnil).
    apply (@framed_without Q shape T Hmarks Hshape F).
Qed.

(** The passes after the one that removed the digits, and the final
    clean-up, bring no digit back. *)
Lemma clean_pass re (X : str) :
  global re = true -> without isDigit X ->
  without isDigit (trim (replace re [] X)).
Proof.
  intros G H. apply trim_without, replace_without; [exact G | constructor | exact H].
Qed.

Lemma clean_up (X : str) :
  without isDigit X ->
  without isDigit
    (trim (replace blankLines (lit (String "010" EmptyString))
             (replace spaceRuns (lit " ") X))).
Proof.
  intros H. apply trim_without.
  apply replace_without; [reflexivity | repeat constructor |].
  apply replace_without; [reflexivity | repeat constructor | exact H].
Qed.

Lemma clean_around (pre post : str) :
  without marks pre -> without marks post -> without isDigit (pre ++ post).
Proof.
  intros Hpre Hpost. apply Forall_app.
  split; [apply (@without_weaken _ _ _ marks_digit Hpre)
         | apply (@without_weaken _ _ _ marks_digit Hpost)].
Qed.

Lemma adjacent_free_l P Q (u v : str) :
  without P u -> adjacent P Q (u ++ v) = adjacent P Q v.
Proof.
  induction 1 as [|x u Hx _ IH]; cbn [app]; [reflexivity|].
  rewrite adjacent_cons, Hx. exact IH.
Qed.

Lemma adjacent_free_r P Q (u v : str) x :
  P x = false -> without P v ->
  adjacent P Q ((u ++ [x]) ++ v) = adjacent P Q (u ++ [x]).
Proof.
  intros Hx Hv. induction u as [|c u IH].
  - cbn [app]. rewrite adjacent_cons, Hx. cbn [andb orb].
    rewrite <- (app_nil_r v), adjacent_free_l by exact Hv. reflexivity.
  - cbn [app]. rewrite !adjacent_cons, IH.
    destruct u; reflexivity.
Qed.

Lemma replace_bare_between a b (pre post : str) :
  without bareFirst pre -> without marks post ->
  replace barePattern [] (pre ++ bare a b ++ post) = pre ++ post.
Proof.
  intros Hpre Hpost.
  apply (@replace_one barePattern bareFirst pre (bare a b) post []
           (mkMatch (bare a b) [text a; text b] post));
    [ reflexivity | intros n x t; apply bare_first | reflexivity | exact Hpre
    | apply (@without_weaken _ _ _ marks_bareFirst Hpost)
    | intros n; apply matchAt_bare, without_stops,
        (@without_weaken _ _ _ marks_number Hpost)
    | reflexivity | apply bare_nonempty ].
Qed.

Lemma bracketed_endsWell a b : endsWell (bracketed a b).
Proof.
  unfold bracketed. apply endsWell_cons, endsWell_app.
  exists [], "]"%char. auto.
Qed.

Lemma parenthesized_endsWell a b : endsWell (parenthesized a b).
Proof.
  unfold parenthesized. apply endsWell_cons, endsWell_app.
  exists [], ")"%char. auto.
Qed.

Lemma withDirections_last a b :
  withDirections a b
  = (magnitude a ++ degreeSign :: southOrNorth a :: lit ", " ++ magnitude b
     ++ [degreeSign]) ++ [westOrEast b].
Proof.
  unfold withDirections. rewrite <- !app_assoc. cbn [app].
  rewrite <- !app_assoc. reflexivity.
Qed.

Lemma westOrEast_letter b :
  isSpace (westOrEast b) = false /\ isNumberChar (westOrEast b) = false.
Proof. unfold westOrEast. destruct (negative b); split; reflexivity. Qed.

Lemma withDirections_endsWell a b : endsWell (withDirections a b).
Proof.
  rewrite withDirections_last. eexists _, _.
  split; [reflexivity | apply westOrEast_letter].
Qed.

Ltac clean_passes :=
  repeat (apply clean_pass; [reflexivity|]).

Section Framed.

Variables a b : decimal.
Variable T : str.

Lemma clean_bare :
  framed (bare a b) T -> without isDigit (removeCoordinatesFromContent T).
Proof.
  intros F. unfold removeCoordinatesFromContent. apply clean_up.
  cbn [COORDINATE_PATTERNS fold_left].
  apply (@skip_first bracketPattern (chrMatch false "[") (bare a b) T
           bracket_first (fun _ => eq_refl) marks_bracket) in F;
    [ | pose proof foreign_bracket; shape_without
      | apply (text_stops_space false) | apply bare_endsWell ].
  apply (@skip_first parenPattern (chrMatch false "(") (bare a b) _
           paren_first (fun _ => eq_refl) marks_paren) in F;
    [ | pose proof foreign_paren; shape_without
      | apply (text_stops_space false) | apply bare_endsWell ].
  destruct F as (pre & post & Hpre & Hpost & ->).
  rewrite replace_bare_between
    by first [ exact Hpost | apply (@without_weaken _ _ _ marks_bareFirst Hpre) ].
  clean_passes. apply trim_without, clean_around; assumption.
Qed.

Lemma clean_bracketed :
  framed (bracketed a b) T -> without isDigit (removeCoordinatesFromContent T).
Proof.
  intros (pre & post & Hpre & Hpost & ->).
  unfold removeCoordinatesFromContent. apply clean_up.
  cbn [COORDINATE_PATTERNS fold_left].
  rewrite (@replace_one bracketPattern (chrMatch false "[") pre
             (bracketed a b) post []
             (mkMatch (bracketed a b) [text a; text b] post));
    [ | reflexivity | intros n x t; apply bracket_first | reflexivity
      | apply (@without_weaken _ _ _ marks_bracket Hpre)
      | apply (@without_weaken _ _ _ marks_bracket Hpost)
      | intros n; apply matchAt_bracketed | reflexivity | discriminate ].
  clean_passes. apply trim_without, clean_around; assumption.
Qed.

Lemma clean_parenthesized :
  framed (parenthesized a b) T ->
  without isDigit (removeCoordinatesFromContent T).
Proof.
  intros F. unfold removeCoordinatesFromContent. apply clean_up.
  cbn [COORDINATE_PATTERNS fold_left].
  apply (@skip_first bracketPattern (chrMatch false "[") (parenthesized a b) T
           bracket_first (fun _ => eq_refl) marks_bracket) in F;
    [ | pose proof foreign_bracket; shape_without
      | reflexivity | apply parenthesized_endsWell ].
  destruct F as (pre & post & Hpre & Hpost & ->).
  rewrite (@replace_one parenPattern (chrMatch false "(") pre
             (parenthesized a b) post []
             (mkMatch (parenthesized a b) [text a; text b] post));
    [ | reflexivity | intros n x t; apply paren_first | reflexivity
      | apply (@without_weaken _ _ _ marks_paren Hpre)
      | apply (@without_weaken _ _ _ marks_paren Hpost)
      | intros n; apply matchAt_parenthesized | reflexivity | discriminate ].
  clean_passes. apply trim_without, clean_around; assumption.
Qed.

Lemma framed_no_comma_after_number X :
  framed (withDirections a b) X -> nowhere barePattern X.
Proof.
  intros (pre & post & Hpre & Hpost & ->). apply nowhere_bare.
  rewrite adjacent_free_l by apply (@without_weaken _ _ _ marks_number Hpre).
  rewrite withDirections_last.
  rewrite adjacent_free_r
    by first [ apply westOrEast_letter
             | apply (@without_weaken _ _ _ marks_number Hpost) ].
  rewrite <- withDirections_last.
  apply withDirections_no_comma_after_number.
Qed.

Lemma clean_withDirections :
  framed (withDirections a b) T ->
  without isDigit (removeCoordinatesFromContent T).
Proof.
  intros F. unfold removeCoordinatesFromContent. apply clean_up.
  cbn [COORDINATE_PATTERNS fold_left].
  apply (@skip_first bracketPattern (chrMatch false "[") (withDirections a b) T
           bracket_first (fun _ => eq_refl) marks_bracket) in F;
    [ | pose proof foreign_bracket; shape_without
      | apply (magnitude_stops_space false) | apply withDirections_endsWell ].
  apply (@skip_first parenPattern (chrMatch false "(") (withDirections a b) _
           paren_first (fun _ => eq_refl) marks_paren) in F;
    [ | pose proof foreign_paren; shape_without
      | apply (magnitude_stops_space false) | apply withDirections_endsWell ].
  rewrite (@replace_no_match barePattern)
    by apply framed_no_comma_after_number, F.
  apply framed_trim in F;
    [ | apply (magnitude_stops_space false) | apply withDirections_endsWell ].
  destruct F as (pre & post & Hpre & Hpost & ->).
  rewrite (@replace_one directionPattern isDigit pre
             (withDirections a b) post []
             (mkMatch (withDirections a b)
                [magnitude a; [southOrNorth a]; magnitude b; [westOrEast b]]
                post));
    [ | reflexivity | intros n x t; apply direction_first | reflexivity
      | apply (@without_weaken _ _ _ marks_digit Hpre)
      | apply (@without_weaken _ _ _ marks_digit Hpost)
      | intros n; apply matchAt_withDirections | reflexivity
      | apply withDirections_nonempty ].
  clean_passes. apply trim_without, clean_around; assumption.
Qed.

(** A label followed by the bare shape: the bare pattern, which comes
    first, removes the numbers and leaves the label. *)
Lemma clean_labelled (label : str) :
  without marks label -> stopsAt isSpace label -> label <> [] ->
  framed (label ++ bare a b) T ->
  without isDigit (removeCoordinatesFromContent T).
Proof.
  intros Hlabel Hs Hne F. unfold removeCoordinatesFromContent. apply clean_up.
  cbn [COORDINATE_PATTERNS fold_left].
  assert (W : forall Q, (forall c, marks c = false -> Q c = false) ->
                        foreign Q -> Q ","%char = false -> Q " "%char = false ->
                        without Q (label ++ bare a b)).
  { intros Q HQ HF Hc Hsp. apply Forall_app.
    split; [apply (@without_weaken _ _ _ HQ Hlabel) | apply bare_without; assumption]. }
  apply (@skip_first bracketPattern (chrMatch false "[") (label ++ bare a b) T
           bracket_first (fun _ => eq_refl) marks_bracket) in F;
    [ | apply (W _ marks_bracket foreign_bracket); reflexivity
      | apply stopsAt_app; assumption | apply endsWell_app, bare_endsWell ].
  apply (@skip_first parenPattern (chrMatch false "(") (label ++ bare a b) _
           paren_first (fun _ => eq_refl) marks_paren) in F;
    [ | apply (W _ marks_paren foreign_paren); reflexivity
      | apply stopsAt_app; assumption | apply endsWell_app, bare_endsWell ].
  destruct F as (pre & post & Hpre & Hpost & ->).
  rewrite <- (app_assoc label), (app_assoc pre label).
  rewrite replace_bare_between;
    [ | apply Forall_app; split;
        [ apply (@without_weaken _ _ _ marks_bareFirst Hpre)
        | apply (@without_weaken _ _ _ marks_bareFirst Hlabel) ]
      | exact Hpost ].
  clean_passes. apply trim_without. rewrite <- app_assoc.
  apply Forall_app. split; [apply (@without_weaken _ _ _ marks_digit Hpre)|].
  apply clean_around; assumption.
Qed.

End Framed.

(** *** Every [raw] text holds a digit *)

Lemma patterns_demand_digit :
  Forall (fun p => demands (ignoreCase p) isDigit (source p) = true)
    COORDINATE_PATTERNS.
Proof. repeat constructor. Qed.

Lemma processMatch_raws c : forall ms st,
  In c (coordinates (fold_left processMatch ms st)) ->
  In c (coordinates st) \/ exists m, In m ms /\ raw c = matched m.
Proof.
  induction ms as [|m ms IH]; intros st H; [left; exact H|].
  cbn [fold_left] in H. apply IH in H as [H|(m' & Hin & E)].
  - unfold processMatch in H.
    destruct (has (processedRaws st) (matched m)); [left; exact H|].
    destruct (parsePair (groups m)) as [[la ln]|]; [|left; exact H].
    destruct (isValidCoordinate la ln); [|left; exact H].
    cbn [coordinates] in H. apply in_app_or in H as [H|[<-|[]]];
      [left; exact H|].
    right. exists m. split; [left; reflexivity | reflexivity].
  - right. exists m'. split; [right; exact Hin | exact E].
Qed.

Lemma raw_has_digit T c :
  In c (extractCoordinates T) -> exists x, In x (raw c) /\ isDigit x = true.
Proof.
  unfold extractCoordinates. rewrite fold_left_processPattern. intros H.
  apply processMatch_raws in H as [[]|(m & Hin & ->)].
  apply in_flat_map in Hin as (p & Hp & Hm).
  apply execAll_sound in Hm.
  pose proof patterns_demand_digit as D. rewrite Forall_forall in D.
  apply (demands_sound _ _ _ (D p Hp) _ Hm).
Qed.

(** When the removal leaves no digit, it leaves no [raw] text. *)
Lemma no_raw_left (T kept : str) :
  without isDigit kept ->
  forallb (fun c => negb (includes kept (raw c))) (extractCoordinates T) = true.
Proof.
  intros H. apply forallb_forall. intros c Hc.
  destruct (raw_has_digit T c Hc) as (x & Hin & Hx).
  rewrite (includes_lacking x); [reflexivity | exact Hin |].
  intros Hk. unfold without in H. rewrite Forall_forall in H.
  rewrite (H x Hk) in Hx. discriminate.
Qed.

(** C4, amended.  When the text is one coordinate in one of the six shapes,
    in plain decimal notation, between two texts that hold no digit, point,
    minus sign or opening bracket, [removeCoordinatesFromContent] leaves no
    digit of it, so that none of the [raw] texts that [extractCoordinates]
    returns occurs in what is left.  When the coordinate is the whole text,
    what is left is the empty text, or the label [GPS:] or [Location:]
    alone. *)
Theorem removeCoordinates_shapes (a b : decimal) (pre post : str) :
  without marks pre -> without marks post ->
  let shapes :=
    [bare a b; withDirections a b; bracketed a b; parenthesized a b;
     gps a b; location a b] in
  Forall
    (fun shape =>
       let kept := removeCoordinatesFromContent (pre ++ shape ++ post) in
       without isDigit kept
       /\ forallb (fun c => negb (includes kept (raw c)))
            (extractCoordinates (pre ++ shape ++ post)) = true)
    shapes
  /\ map removeCoordinatesFromContent shapes
     = [[]; []; []; []; lit "GPS:"; lit "Location:"].
Proof.
  intros Hpre Hpost shapes. subst shapes. split.
  - assert (F : forall shape, framed shape (pre ++ shape ++ post))
      by (intros shape; exists pre, post; auto).
    assert (R : forall T,
              without isDigit (removeCoordinatesFromContent T) ->
              without isDigit (removeCoordinatesFromContent T)
              /\ forallb
                   (fun c => negb (includes (removeCoordinatesFromContent T)
                                     (raw c)))
                   (extractCoordinates T) = true)
      by (intros T H; split; [exact H | apply no_raw_left, H]).
    repeat apply Forall_cons; try apply Forall_nil; cbv zeta; apply R.
    + apply (@clean_bare a b _ (F _)).
    + apply (@clean_withDirections a b _ (F _)).
    + apply (@clean_bracketed a b _ (F _)).
    + apply (@clean_parenthesized a b _ (F _)).
    + apply (@clean_labelled a b _ (lit "GPS: ")); [| |discriminate|apply F];
        [repeat constructor | reflexivity].
    + apply (@clean_labelled a b _ (lit "Location: "));
        [| |discriminate|apply F]; [repeat constructor | reflexivity].
  - cbn [map]. rewrite remove_bare, remove_withDirections, remove_bracketed,
      remove_parenthesized, remove_gps, remove_location. reflexivity.
Qed.

Lemma removeCoordinates_shapes_witness :
  let T := lit "Lunch at GPS: 40.7128, -74.0060 downtown" in
  map raw (extractCoordinates T)
  = [lit "40.7128, -74.0060"; lit "GPS: 40.7128, -74.0060"]
  /\ removeCoordinatesFromContent T = lit "Lunch at GPS: downtown"
  /\ forallb (fun c => negb (includes (removeCoordinatesFromContent T) (raw c)))
       (extractCoordinates T) = true.
Proof.
  cbv zeta. split; [vm_compute; reflexivity|].
  split; [vm_compute; reflexivity|].
  pose proof (proj1 (@removeCoordinates_shapes
                       (mkDecimal false D4 [D0] (Some [D7; D1; D2; D8]))
                       (mkDecimal true D7 [D4] (Some [D0; D0; D6; D0]))
                       (lit "Lunch at ") (lit " downtown")
                       ltac:(repeat constructor) ltac:(repeat constructor)))
    as H.
  cbv zeta in H.
  exact (proj2 (Forall_inv (Forall_inv_tail (Forall_inv_tail (Forall_inv_tail
           (Forall_inv_tail H)))))).
Defined.

End CoordinateFacts.

(** ** The note processor *)

Module NoteFacts.

Import CoordinateParser NoteProcessor.

Lemma parseLine_coordinates line e :
  parseLine line = Some e ->
  entryCoordinates e = hd_error (extractCoordinates (cleanLine (trim line))).
Proof.
  unfold parseLine. destruct (skipLine (trim line)); [discriminate|].
  destruct (length (cleanLine (trim line)) <? 5); [discriminate|].
  destruct (0 <? length _); [|discriminate].
  intros H. injection H as <-. reflexivity.
Qed.

Lemma parseLogEntries_lines (lines : list str) : forall acc e,
  In e (fold_left
          (fun entries line =>
             match parseLine line with
             | Some e => entries ++ [e]
             | None => entries
             end) lines acc) ->
  In e acc \/ exists line, In line lines /\ parseLine line = Some e.
Proof.
  induction lines as [|l lines IH]; intros acc e H; [left; exact H|].
  cbn [fold_left] in H. apply IH in H as [H|(line & Hl & Hp)].
  - destruct (parseLine l) as [e'|] eqn:E; [|left; exact H].
    apply in_app_or in H as [H|[<-|[]]]; [left; exact H|].
    right. exists l. split; [left; reflexivity | exact E].
  - right. exists line. split; [right; exact Hl | exact Hp].
Qed.

(** C2, at the inputs where the code departs from it.  The claim holds
    that every coordinate of an entry has the latitude and longitude of
    some coordinate of the note-level list.  On the note body
    [12.5, 45.5 park visit] the replacement that removes the markers of
    numbered lists removes [12.], the start of the decimal latitude: the
    cleaned line is [5, 45.5 park visit], the coordinate of the entry is
    read from [5, 45.5] with latitude 5, and the note-level list, read
    from the raw body, holds only [12.5, 45.5] with latitude 12.5.  On
    the body [-33.86, 151.2 Sydney] the replacement that removes bullets
    removes the minus sign and the one for numbered lists then removes
    [33.]: the entry gets the coordinate [86, 151.2] and the note-level
    list holds only [-33.86, 151.2].  In both notes the last test finds
    an entry whose coordinate equals, in latitude and longitude, no
    coordinate of the note-level list. *)
Theorem parseDailyNote_decimal_line :
  let north :=
    parseDailyNote (lit "2025-09-01.md") (lit "12.5, 45.5 park visit")
      (lit "2025-09-01") in
  let south :=
    parseDailyNote (lit "2025-09-02.md") (lit "-33.86, 151.2 Sydney")
      (lit "2025-09-02") in
  let stray note :=
    existsb
      (fun e =>
         match entryCoordinates e with
         | Some c =>
             negb (existsb
                     (fun d => SFeqb (lat c) (lat d) && SFeqb (lng c) (lng d))
                     (noteCoordinates note))
         | None => false
         end)
      (entries note) in
  (cleanLine (lit "12.5, 45.5 park visit") = lit "5, 45.5 park visit"
   /\ map (fun e => option_map raw (entryCoordinates e)) (entries north)
      = [Some (lit "5, 45.5")]
   /\ map (fun e => option_map lat (entryCoordinates e)) (entries north)
      = [Some (parseFloat (lit "5"))]
   /\ map raw (noteCoordinates north) = [lit "12.5, 45.5"]
   /\ map lat (noteCoordinates north) = [parseFloat (lit "12.5")]
   /\ stray north = true)
  /\ (cleanLine (lit "-33.86, 151.2 Sydney") = lit "86, 151.2 Sydney"
      /\ map (fun e => option_map raw (entryCoordinates e)) (entries south)
         = [Some (lit "86, 151.2")]
      /\ map (fun e => option_map lat (entryCoordinates e)) (entries south)
         = [Some (parseFloat (lit "86"))]
      /\ map raw (noteCoordinates south) = [lit "-33.86, 151.2"]
      /\ map lat (noteCoordinates south) = [parseFloat (lit "-33.86")]
      /\ stray south = true).
Proof. repeat split; vm_compute; reflexivity. Qed.

End NoteFacts.

(** ** DateUtils *)

Module DateFacts.

Import DateUtils RegExpFacts.

(** *** Replacing single characters *)

(** A global pattern that matches exactly the single characters in [q]. *)
Lemma replace_single re (q : ascii -> bool) (rep s : str) :
  global re = true ->
  (forall n x t,
     matchAt re n (x :: t) = if q x then Some (mkMatch [x] [] t) else None) ->
  (forall n, matchAt re n [] = None) ->
  replace re rep s = flat_map (fun x => if q x then rep else [x]) s.
Proof.
  intros Hg Hcons Hnil. unfold replace. rewrite Hg.
  generalize (length s). intros n.
  induction s as [|x s IH]; cbn [scan flat_map].
  - rewrite Hnil. reflexivity.
  - rewrite Hcons. destruct (q x); cbn [matched flat_map length];
      rewrite IH; reflexivity.
Qed.

Lemma matchAt_class p n x t :
  matchAt (mkRegExp (Cls p) false true) n (x :: t)
  = if p x then Some (mkMatch [x] [] t) else None.
Proof.
  unfold matchAt. cbn [source ignoreCase]. rewrite exec_Cls.
  cbn [clsMatch]. destruct (p x); [|reflexivity].
  rewrite firstn_one. reflexivity.
Qed.

Lemma matchAt_char c n x t :
  matchAt (tokenRegExp [c]) n (x :: t)
  = if Ascii.eqb c x then Some (mkMatch [x] [] t) else None.
Proof.
  unfold matchAt. cbn [tokenRegExp source ignoreCase map seq].
  rewrite exec_Chr. unfold chrMatch. cbn [canonicalize].
  destruct (Ascii.eqb c x); [|reflexivity].
  rewrite firstn_one. reflexivity.
Qed.

Lemma replace_invalidChars s : replace invalidChars (lit "-") s = dashIllegal s.
Proof.
  rewrite (@replace_single invalidChars invalidChar);
    [ | reflexivity | intros; apply matchAt_class | reflexivity ].
  unfold dashIllegal. induction s as [|x s IH]; cbn [flat_map map]; [reflexivity|].
  rewrite IH. destruct (invalidChar x); reflexivity.
Qed.

Lemma replace_token_char c rep s :
  replace (tokenRegExp [c]) rep s
  = flat_map (fun x => if Ascii.eqb c x then rep else [x]) s.
Proof.
  apply replace_single; [reflexivity | intros; apply matchAt_char | reflexivity].
Qed.

(** *** Runs of a class *)

Lemma span p (s : str) :
  exists run rest,
    s = run ++ rest /\ Forall (fun c => p c = true) run /\ stopsAt p rest.
Proof.
  induction s as [|c s (run & rest & -> & Hrun & Hrest)].
  - exists [], []. repeat split. constructor.
  - destruct (p c) eqn:Hc.
    + exists (c :: run), rest. repeat split; [constructor; assumption | assumption].
    + exists [], (c :: run ++ rest). repeat split; [constructor | exact Hc].
Qed.

Lemma matchAt_spaces n c (run rest : str) :
  isSpace c = true -> Forall (fun x => isSpace x = true) run ->
  stopsAt isSpace rest ->
  matchAt whitespaceRuns n (c :: run ++ rest)
  = Some (mkMatch (c :: run) [] rest).
Proof.
  intros Hc Hrun Hrest. unfold matchAt.
  cbn [whitespaceRuns source ignoreCase]. rewrite exec_Plus.
  cbn [clsMatch]. rewrite Hc.
  apply starGreedy_run; [exact Hrun | exact Hrest |].
  rewrite firstn_more. reflexivity.
Qed.

Lemma matchAt_no_space n c t :
  isSpace c = false -> matchAt whitespaceRuns n (c :: t) = None.
Proof.
  intros Hc. unfold matchAt. cbn [whitespaceRuns source ignoreCase].
  rewrite exec_Plus. cbn [clsMatch]. rewrite Hc. reflexivity.
Qed.

Lemma collapseFrom_run (run rest : str) :
  Forall (fun x => isSpace x = true) run -> stopsAt isSpace rest ->
  collapseFrom true (run ++ rest) = collapseFrom false rest.
Proof.
  intros Hrun Hrest. induction Hrun as [|x run Hx _ IH]; cbn [app collapseFrom].
  - destruct rest as [|c rest]; [reflexivity|]. cbn in Hrest |- *.
    rewrite Hrest. reflexivity.
  - rewrite Hx. exact IH.
Qed.

Lemma replace_whitespaceRuns s :
  replace whitespaceRuns (lit " ") s = collapseWhitespace s.
Proof.
  unfold replace, collapseWhitespace. cbn [whitespaceRuns global].
  generalize (length s) at 1. intros n.
  remember (length s) as bound eqn:Hb.
  assert (Hle : length s <= bound) by lia. clear Hb. revert s Hle.
  induction bound as [|bound IH]; intros s Hle.
  - destruct s; [reflexivity | cbn in Hle; lia].
  - destruct s as [|c s]; [reflexivity|].
    destruct (isSpace c) eqn:Hc.
    + destruct (span isSpace s) as (run & rest & -> & Hrun & Hrest).
      change (c :: run ++ rest) with ((c :: run) ++ rest).
      rewrite (@scan_found whitespaceRuns n (c :: run) rest
                 (mkMatch (c :: run) [] rest))
        by first [ apply matchAt_spaces; assumption | reflexivity | discriminate ].
      cbn [flat_map app collapseFrom]. rewrite Hc.
      rewrite collapseFrom_run by assumption. rewrite IH; [reflexivity|].
      cbn in Hle. rewrite length_app in Hle. lia.
    + rewrite scan_keep by (apply matchAt_no_space, Hc).
      cbn [flat_map app collapseFrom]. rewrite Hc. rewrite IH; [reflexivity|].
      cbn in Hle. lia.
Qed.

(** *** Leading dots *)

Lemma stripLeadingDots_run (run rest : str) :
  Forall (fun x => isDot x = true) run -> stopsAt isDot rest ->
  stripLeadingDots (run ++ rest) = rest.
Proof.
  intros Hrun Hrest. induction Hrun as [|x run Hx _ IH]; cbn [app stripLeadingDots].
  - destruct rest as [|c rest]; [reflexivity|]. cbn [stopsAt] in Hrest.
    cbn [stripLeadingDots]. rewrite Hrest. reflexivity.
  - rewrite Hx. exact IH.
Qed.

Lemma replace_leadingDots s : replace leadingDots [] s = stripLeadingDots s.
Proof.
  unfold replace. cbn [leadingDots global seq].
  change (mkRegExp (Seq Bol (Plus isDot)) false false) with leadingDots.
  destruct s as [|c s]; [reflexivity|].
  cbn [search]. destruct (isDot c) eqn:Hc.
  - destruct (span isDot s) as (run & rest & -> & Hrun & Hrest).
    assert (Hm : matchAt leadingDots
                   (length (c :: run ++ rest)) (c :: run ++ rest)
                 = Some (mkMatch (c :: run) [] rest)).
    { unfold matchAt. cbn [leadingDots source ignoreCase seq].
      rewrite exec_Seq. cbn [exec]. rewrite Nat.eqb_refl.
      cbn [clsMatch]. rewrite Hc.
      apply starGreedy_run; [exact Hrun | exact Hrest |].
      rewrite firstn_more. reflexivity. }
    rewrite Hm. cbn [after app]. cbn [stripLeadingDots]. rewrite Hc.
    symmetry. apply stripLeadingDots_run; assumption.
  - assert (Hm : matchAt leadingDots (length (c :: s)) (c :: s) = None).
    { unfold matchAt. cbn [leadingDots source ignoreCase seq].
      rewrite exec_Seq. cbn [exec]. rewrite Nat.eqb_refl.
      cbn [clsMatch]. rewrite Hc. reflexivity. }
    rewrite Hm. unfold leadingDots. cbn [seq].
    rewrite search_bol_later by (cbn; lia).
    cbn [stripLeadingDots]. rewrite Hc. reflexivity.
Qed.

(** *** Trailing dots *)

Lemma starGreedy_to_end (M : Type) p (found : M) : forall (t : str),
  starGreedy p t (fun s => match s with [] => Some found | _ :: _ => None end)
  = if forallb p t then Some found else None.
Proof.
  induction t as [|c t IH]; cbn [starGreedy forallb]; [reflexivity|].
  destruct (p c); cbn [andb]; [|reflexivity].
  rewrite IH. destruct (forallb p t); reflexivity.
Qed.

Lemma matchAt_trailingDots n (t : str) :
  matchAt trailingDots n t
  = match t with
    | [] => None
    | _ :: _ => if forallb isDot t then Some (mkMatch t [] []) else None
    end.
Proof.
  unfold matchAt. cbn [trailingDots source ignoreCase seq].
  destruct t as [|c t]; [reflexivity|].
  rewrite exec_Seq, exec_Plus. cbn [clsMatch forallb].
  destruct (isDot c); cbn [andb]; [|reflexivity].
  rewrite <- (starGreedy_to_end isDot (mkMatch (c :: t) [] []) t).
  apply starGreedy_ext. intros [|x s]; [|reflexivity].
  cbn [exec length]. rewrite Nat.sub_0_r.
  change (S (length t)) with (length (c :: t)). rewrite firstn_all.
  reflexivity.
Qed.

Lemma stripLeadingDots_all (u : str) :
  forallb isDot u = true -> stripLeadingDots u = [].
Proof.
  induction u as [|x u IH]; cbn [forallb stripLeadingDots]; [reflexivity|].
  intros H. apply andb_true_iff in H as [-> H]. apply IH, H.
Qed.

Lemma stripLeadingDots_app (u v : str) :
  stripLeadingDots (u ++ v)
  = if forallb isDot u then stripLeadingDots v else stripLeadingDots u ++ v.
Proof.
  induction u as [|x u IH]; cbn [app forallb stripLeadingDots]; [reflexivity|].
  destruct (isDot x); cbn [andb]; [exact IH | reflexivity].
Qed.

Lemma forallb_rev (p : ascii -> bool) (s : str) :
  forallb p (rev s) = forallb p s.
Proof.
  induction s as [|x s IH]; [reflexivity|].
  cbn [rev forallb]. rewrite forallb_app, IH. cbn. rewrite andb_true_r.
  apply andb_comm.
Qed.

Lemma dotsToMd_all (s : str) :
  s <> [] -> forallb isDot s = true -> dotsToMd s = lit ".md".
Proof.
  intros Hne H. unfold dotsToMd, endsWithDot, stripTrailingDots.
  rewrite stripLeadingDots_all by (rewrite forallb_rev; exact H).
  destruct (rev s) as [|y ys] eqn:E.
  - apply (f_equal (@rev ascii)) in E. rewrite rev_involutive in E.
    contradiction.
  - assert (Hy : forallb isDot (y :: ys) = true)
      by (rewrite <- E, forallb_rev; exact H).
    cbn [forallb] in Hy. apply andb_true_iff in Hy as [-> _]. reflexivity.
Qed.

Lemma endsWithDot_cons c (s : str) :
  s <> [] -> endsWithDot (c :: s) = endsWithDot s.
Proof.
  intros Hne. unfold endsWithDot. cbn [rev].
  destruct (rev s) as [|y ys] eqn:E; [|reflexivity].
  apply (f_equal (@rev ascii)) in E. rewrite rev_involutive in E.
  contradiction.
Qed.

Lemma stripTrailingDots_cons c (s : str) :
  forallb isDot (c :: s) = false ->
  stripTrailingDots (c :: s) = c :: stripTrailingDots s.
Proof.
  intros H. unfold stripTrailingDots. cbn [rev].
  rewrite stripLeadingDots_app, forallb_rev.
  cbn [forallb] in H. destruct (forallb isDot s) eqn:Hs.
  - rewrite andb_true_r in H. cbn [stripLeadingDots]. rewrite H.
    rewrite stripLeadingDots_all by (rewrite forallb_rev; exact Hs).
    reflexivity.
  - rewrite rev_app_distr. reflexivity.
Qed.

Lemma dotsToMd_cons c (s : str) :
  forallb isDot (c :: s) = false -> dotsToMd (c :: s) = c :: dotsToMd s.
Proof.
  intros H. destruct s as [|y s].
  - cbn [forallb] in H. rewrite andb_true_r in H.
    unfold dotsToMd, endsWithDot. cbn [rev app]. rewrite H. reflexivity.
  - unfold dotsToMd. rewrite endsWithDot_cons by discriminate.
    rewrite stripTrailingDots_cons by exact H.
    destruct (endsWithDot (y :: s)); reflexivity.
Qed.

Lemma search_trailingDots n : forall (s : str),
  spliced (lit ".md") s (search trailingDots n s) = dotsToMd s.
Proof.
  induction s as [|c s IH]; [reflexivity|].
  cbn [search]. rewrite matchAt_trailingDots.
  destruct (forallb isDot (c :: s)) eqn:H.
  - cbn [spliced after app]. symmetry.
    rewrite dotsToMd_all by (discriminate || exact H). reflexivity.
  - rewrite dotsToMd_cons by exact H. rewrite <- IH.
    destruct (search trailingDots n s) as [[pre m]|]; reflexivity.
Qed.

Lemma replace_trailingDots s : replace trailingDots (lit ".md") s = dotsToMd s.
Proof. exact (search_trailingDots (length s) s). Qed.

(** *** C3: what [sanitizeFilename] does *)

(** C3, as the claim states it, fails: a rendered name without extension
    stays without extension; no [.md] is forced onto it. *)
Lemma generateFilename_counterexample :
  generateFilename september2 (lit "Journal-YYYY-MM-DD")
  = lit "Journal-2025-09-02"
  /\ includes (generateFilename september2 (lit "Journal-YYYY-MM-DD")) (lit ".")
     = false.
Proof. split; vm_compute; reflexivity. Qed.

(** C3, amended.  After the token substitution [generateFilename] sanitizes
    the result in this order: each of the nine filesystem-illegal
    characters becomes a dash; each run of white space becomes one space; leading dots are
    stripped; a trailing run of dots becomes [.md], and a name that does not
    end in a dot is left as it is, so a name without extension gets none;
    at last the name is trimmed. *)
Theorem generateFilename_sanitizes (date : LocalDate) (template : str) :
  generateFilename date template
  = trim (dotsToMd (stripLeadingDots (collapseWhitespace (dashIllegal
      (substituteTokens (sortedTokens (replacements date)) template)))))
  /\ (forall name : str, endsWithDot name = false -> dotsToMd name = name)
  /\ (forall name : str,
        endsWithDot name = true ->
        dotsToMd name = stripTrailingDots name ++ lit ".md").
Proof.
  split; [|split].
  - unfold generateFilename, sanitizeFilename.
    rewrite replace_invalidChars, replace_whitespaceRuns,
      replace_leadingDots, replace_trailingDots. reflexivity.
  - intros name H. unfold dotsToMd. rewrite H. reflexivity.
  - intros name H. unfold dotsToMd. rewrite H. reflexivity.
Qed.

Lemma generateFilename_sanitizes_witness :
  dotsToMd (lit "Journal-2025-09-02") = lit "Journal-2025-09-02".
Proof.
  apply (proj1 (proj2 (generateFilename_sanitizes september2 []))).
  reflexivity.
Defined.

(** *** C10: tokens are replaced one after another *)

Lemma sortedTokens_order date :
  map fst (sortedTokens (replacements date))
  = map lit ["YYYY"; "MMMM"; "dddd"; "MMM"; "ddd"; "YY"; "MM"; "DD"; "HH";
             "hh"; "mm"; "ss"; "M"; "D"; "H"; "h"]%string.
Proof. reflexivity. Qed.

Lemma digitChar_isDigit d : d < 10 -> isDigit (digitChar d) = true.
Proof. intros H. do 10 (destruct d as [|d]; [reflexivity|]). lia. Qed.

Lemma natDigits_digits fuel : forall n acc,
  Forall (fun c => isDigit c = true) acc ->
  Forall (fun c => isDigit c = true) (natDigits fuel n acc).
Proof.
  induction fuel as [|fuel IH]; intros n acc H; [exact H|].
  cbn [natDigits].
  assert (H' : Forall (fun c => isDigit c = true) (digitChar (n mod 10) :: acc)).
  { constructor; [|exact H]. apply digitChar_isDigit, Nat.mod_upper_bound. lia. }
  destruct (n / 10 =? 0); [exact H' | apply IH, H'].
Qed.

Lemma natDigits_nonempty fuel : forall n acc,
  acc <> [] -> natDigits fuel n acc <> [].
Proof.
  induction fuel as [|fuel IH]; intros n acc H; [exact H|].
  cbn [natDigits]. destruct (n / 10 =? 0); [discriminate | apply IH; discriminate].
Qed.

Lemma natToString_digits n : Forall (fun c => isDigit c = true) (natToString n).
Proof. apply natDigits_digits. constructor. Qed.

Lemma natToString_head n :
  exists d ds, natToString n = d :: ds /\ isDigit d = true.
Proof.
  pose proof (natToString_digits n) as H. unfold natToString in *.
  destruct (natDigits (S n) n []) as [|d ds] eqn:E.
  - exfalso. revert E. cbn [natDigits].
    destruct (n / 10 =? 0); [discriminate | apply natDigits_nonempty; discriminate].
  - exists d, ds. inversion H; subst. auto.
Qed.

Lemma digits_without Q (s : str) :
  digitFree Q -> Forall (fun c => isDigit c = true) s -> without Q s.
Proof. intros HQ. apply Forall_impl. exact HQ. Qed.

Ltac digit_free :=
  let c := fresh "c" in
  intros c; destruct c as [[] [] [] [] [] [] [] []]; vm_compute; congruence.

Lemma flat_map_unchanged (q : ascii -> bool) (rep s : str) :
  without q s -> flat_map (fun x => if q x then rep else [x]) s = s.
Proof.
  induction 1 as [|x s Hx _ IH]; cbn [flat_map]; [reflexivity|].
  rewrite Hx, IH. reflexivity.
Qed.

Lemma flat_map_without (Q q : ascii -> bool) (rep s : str) :
  without Q rep -> (forall x, q x = false -> In x s -> Q x = false) ->
  without Q (flat_map (fun x => if q x then rep else [x]) s).
Proof.
  intros Hrep. induction s as [|x s IH]; intros H; cbn [flat_map]; [constructor|].
  apply Forall_app. split.
  - destruct (q x) eqn:E; [exact Hrep|].
    constructor; [apply H; [exact E | left; reflexivity] | constructor].
  - apply IH. intros y Hy Hin. apply H; [exact Hy | right; exact Hin].
Qed.

(** *** What the sanitizing steps preserve *)

Section Preserved.

Variable Q : ascii -> bool.
Hypothesis Qdash : Q "-" = false.
Hypothesis Qspace : Q " " = false.
Hypothesis Qpoint : Q "." = false.
Hypothesis Qm : Q "m" = false.
Hypothesis Qd : Q "d" = false.

Lemma dashIllegal_without s : without Q s -> without Q (dashIllegal s).
Proof.
  induction 1 as [|x s Hx _ IH]; cbn [dashIllegal map]; constructor;
    [destruct (invalidChar x); assumption | exact IH].
Qed.

Lemma collapseFrom_without s : forall inRun,
  without Q s -> without Q (collapseFrom inRun s).
Proof.
  induction s as [|x s IH]; intros inRun H; [constructor|].
  inversion H as [|? ? Hx Hs]; subst. cbn [collapseFrom].
  destruct (isSpace x); [destruct inRun|].
  - apply IH, Hs.
  - constructor; [exact Qspace | apply IH, Hs].
  - constructor; [exact Hx | apply IH, Hs].
Qed.

Lemma stripLeadingDots_without s : without Q s -> without Q (stripLeadingDots s).
Proof.
  induction 1 as [|x s Hx Hs IH]; cbn [stripLeadingDots]; [constructor|].
  destruct (isDot x); [exact IH | constructor; assumption].
Qed.

Lemma dotsToMd_without s : without Q s -> without Q (dotsToMd s).
Proof.
  intros H. unfold dotsToMd. destruct (endsWithDot s); [|exact H].
  apply Forall_app. split.
  - unfold stripTrailingDots.
    apply rev_without, stripLeadingDots_without, rev_without, H.
  - repeat constructor; assumption.
Qed.

Lemma sanitizeFilename_without s : without Q s -> without Q (sanitizeFilename s).
Proof.
  intros H. unfold sanitizeFilename.
  rewrite replace_invalidChars, replace_whitespaceRuns,
    replace_leadingDots, replace_trailingDots.
  apply trim_without, dotsToMd_without, stripLeadingDots_without.
  apply collapseFrom_without, dashIllegal_without, H.
Qed.

End Preserved.

(** *** Texts that sanitizing leaves alone *)

Lemma dashIllegal_id s : without invalidChar s -> dashIllegal s = s.
Proof.
  induction 1 as [|x s Hx _ IH]; cbn [dashIllegal map]; [reflexivity|].
  rewrite Hx. f_equal. exact IH.
Qed.

Lemma collapseFrom_id s : without isSpace s -> collapseFrom false s = s.
Proof.
  induction 1 as [|x s Hx _ IH]; cbn [collapseFrom]; [reflexivity|].
  rewrite Hx. f_equal. exact IH.
Qed.

(** *** The order of the passes *)

Lemma sortedTokens_eq date :
  let pad2 n := padStart 2 "0" (natToString n) in
  sortedTokens (replacements date)
  = [ (lit "YYYY", intToString (getFullYear date));
      (lit "MMMM", at_ monthNames (getMonth date + 1 - 1));
      (lit "dddd", at_ dayNames (getDay date));
      (lit "MMM", at_ monthNamesShort (getMonth date + 1 - 1));
      (lit "ddd", at_ dayNamesShort (getDay date));
      (lit "YY", sliceLast 2 (intToString (getFullYear date)));
      (lit "MM", pad2 (getMonth date + 1));
      (lit "DD", pad2 (getDate date));
      (lit "HH", pad2 (getHours date));
      (lit "hh", pad2 (hours12 (getHours date)));
      (lit "mm", pad2 (getMinutes date));
      (lit "ss", pad2 (getSeconds date));
      (lit "M", natToString (getMonth date + 1));
      (lit "D", natToString (getDate date));
      (lit "H", natToString (getHours date));
      (lit "h", natToString (hours12 (getHours date))) ].
Proof. reflexivity. Qed.

(** The first fourteen passes on the template [MMMM] in December, whatever
    the other values are. *)
Lemma passes_on_MMMM (v1 v3 v4 v5 v6 v7 v8 v9 v10 v11 v12 v13 vD : str) :
  substituteTokens
    [ (lit "YYYY", v1); (lit "MMMM", lit "December"); (lit "dddd", v3);
      (lit "MMM", v4); (lit "ddd", v5); (lit "YY", v6); (lit "MM", v7);
      (lit "DD", v8); (lit "HH", v9); (lit "hh", v10); (lit "mm", v11);
      (lit "ss", v12); (lit "M", v13); (lit "D", vD) ]
    (lit "MMMM")
  = vD ++ lit "ecember".
Proof. vm_compute. reflexivity. Qed.

Lemma substituteTokens_app ts1 ts2 s :
  substituteTokens (ts1 ++ ts2) s = substituteTokens ts2 (substituteTokens ts1 s).
Proof. unfold substituteTokens. apply fold_left_app. Qed.

Lemma digitFree_D : digitFree isD. Proof. digit_free. Qed.
Lemma digitFree_H : digitFree isH. Proof. digit_free. Qed.
Lemma digitFree_h : digitFree ish. Proof. digit_free. Qed.
Lemma digitFree_invalid : digitFree invalidChar. Proof. digit_free. Qed.
Lemma digitFree_space : digitFree isSpace. Proof. digit_free. Qed.
Lemma digitFree_dot : digitFree isDot. Proof. digit_free. Qed.

(** The last three passes, for [D], [H] and [h], leave no capital [D]. *)
Lemma last_passes_without_D (vD vH vh s : str) :
  Forall (fun c => isDigit c = true) vD ->
  Forall (fun c => isDigit c = true) vH ->
  Forall (fun c => isDigit c = true) vh ->
  without isD
    (substituteTokens [(lit "D", vD); (lit "H", vH); (lit "h", vh)] s).
Proof.
  intros HD HH Hh. unfold substituteTokens. cbn [fold_left fst snd lit list_ascii_of_string].
  rewrite !replace_token_char.
  apply flat_map_without; [apply digits_without; [apply digitFree_D | exact Hh]|].
  intros x _ Hx. revert x Hx. apply Forall_forall.
  apply flat_map_without; [apply digits_without; [apply digitFree_D | exact HH]|].
  intros x _ Hx. revert x Hx. apply Forall_forall.
  apply flat_map_without; [apply digits_without; [apply digitFree_D | exact HD]|].
  intros x Hx _. exact Hx.
Qed.

Lemma generateFilename_without_D date template :
  without isD (generateFilename date template).
Proof.
  unfold generateFilename. rewrite sortedTokens_eq. cbv zeta.
  match goal with
  | |- context [substituteTokens (?a1 :: ?a2 :: ?a3 :: ?a4 :: ?a5 :: ?a6 :: ?a7
                  :: ?a8 :: ?a9 :: ?a10 :: ?a11 :: ?a12 :: ?a13 :: ?rest) ?t] =>
      change (substituteTokens (a1 :: a2 :: a3 :: a4 :: a5 :: a6 :: a7 :: a8
                :: a9 :: a10 :: a11 :: a12 :: a13 :: rest) t)
        with (substituteTokens
                ([a1; a2; a3; a4; a5; a6; a7; a8; a9; a10; a11; a12; a13] ++ rest)
                t)
  end.
  rewrite substituteTokens_app.
  apply sanitizeFilename_without; try reflexivity.
  apply last_passes_without_D; apply natToString_digits.
Qed.

Lemma token_first c w n x t :
  Ascii.eqb c x = false -> matchAt (tokenRegExp (c :: w)) n (x :: t) = None.
Proof.
  intros H. unfold matchAt. cbn [tokenRegExp source ignoreCase map seq].
  destruct (map Chr w); [|rewrite exec_Seq]; rewrite exec_Chr;
    unfold chrMatch; cbn [canonicalize]; rewrite H; reflexivity.
Qed.

Lemma matchAt_MMMM n (rest : str) :
  matchAt (tokenRegExp (lit "MMMM")) n (lit "MMMM" ++ rest)
  = Some (mkMatch (lit "MMMM") [] rest).
Proof.
  apply matchAt_intro. intros K HK.
  cbn [tokenRegExp source ignoreCase map seq lit list_ascii_of_string app].
  rewrite !exec_Seq, !exec_Chr, !chrMatch_refl. exact HK.
Qed.

(** The first two passes on a template whose first [M] starts [MMMM]. *)
Lemma first_passes_December vY (pre post : str) :
  without isYorM pre ->
  exists post',
    substituteTokens [(lit "YYYY", vY); (lit "MMMM", lit "December")]
      (pre ++ lit "MMMM" ++ post)
    = pre ++ lit "December" ++ post'.
Proof.
  intros Hpre. unfold substituteTokens. cbn [fold_left fst snd].
  assert (HY : without (Ascii.eqb "Y") (pre ++ lit "MMMM")).
  { apply Forall_app. split; [|repeat constructor].
    revert Hpre. apply Forall_impl. unfold isYorM. intros c H.
    apply orb_false_iff in H. tauto. }
  assert (HM : without (Ascii.eqb "M") pre).
  { revert Hpre. apply Forall_impl. unfold isYorM. intros c H.
    apply orb_false_iff in H. tauto. }
  assert (E1 : exists post1,
            replace (tokenRegExp (lit "YYYY")) vY (pre ++ lit "MMMM" ++ post)
            = pre ++ lit "MMMM" ++ post1).
  { unfold replace. cbn [tokenRegExp global]. rewrite app_assoc.
    rewrite (@scan_keep_prefix _ _ (Ascii.eqb "Y") (pre ++ lit "MMMM") post)
      by first [ exact HY | intros; apply token_first; assumption ].
    rewrite flat_map_app, flat_map_Keep, <- app_assoc. eauto. }
  destruct E1 as [post1 ->].
  unfold replace. cbn [tokenRegExp global].
  rewrite (@scan_keep_prefix _ _ (Ascii.eqb "M") pre (lit "MMMM" ++ post1))
    by first [ exact HM | intros; apply token_first; assumption ].
  rewrite (@scan_found _ _ (lit "MMMM") post1 (mkMatch (lit "MMMM") [] post1))
    by first [ apply matchAt_MMMM | reflexivity | discriminate ].
  rewrite flat_map_app, flat_map_Keep. cbn [flat_map]. eauto.
Qed.

Lemma generateFilename_MMMM date :
  getMonth date = 11 ->
  generateFilename date (lit "MMMM")
  = natToString (getDate date) ++ lit "ecember".
Proof.
  intros Hmonth. unfold generateFilename. rewrite sortedTokens_eq. cbv zeta.
  rewrite Hmonth.
  replace (at_ monthNames (11 + 1 - 1)) with (lit "December") by reflexivity.
  match goal with
  | |- context [substituteTokens (?a1 :: ?a2 :: ?a3 :: ?a4 :: ?a5 :: ?a6 :: ?a7
                  :: ?a8 :: ?a9 :: ?a10 :: ?a11 :: ?a12 :: ?a13 :: ?a14
                  :: ?rest) ?t] =>
      change (substituteTokens (a1 :: a2 :: a3 :: a4 :: a5 :: a6 :: a7 :: a8
                :: a9 :: a10 :: a11 :: a12 :: a13 :: a14 :: rest) t)
        with (substituteTokens
                ([a1; a2; a3; a4; a5; a6; a7; a8; a9; a10; a11; a12; a13; a14]
                 ++ rest) t)
  end.
  rewrite substituteTokens_app, passes_on_MMMM.
  pose proof (natToString_digits (getDate date)) as Hd.
  destruct (natToString_head (getDate date)) as (d & ds & E & Hd0).
  set (day := natToString (getDate date)) in *.
  assert (W : forall Q, digitFree Q -> without Q (lit "ecember") ->
                        without Q (day ++ lit "ecember")).
  { intros Q HQ Hw. apply Forall_app. split; [apply digits_without; assumption|exact Hw]. }
  unfold substituteTokens. cbn [fold_left fst snd].
  change (lit "H") with ["H"%char]. change (lit "h") with ["h"%char].
  rewrite !replace_token_char.
  rewrite (@flat_map_unchanged (Ascii.eqb "H"))
    by (apply (W _ digitFree_H); repeat constructor).
  rewrite (@flat_map_unchanged (Ascii.eqb "h"))
    by (apply (W _ digitFree_h); repeat constructor).
  unfold sanitizeFilename.
  rewrite replace_invalidChars, replace_whitespaceRuns,
    replace_leadingDots, replace_trailingDots.
  rewrite dashIllegal_id by (apply (W _ digitFree_invalid); repeat constructor).
  unfold collapseWhitespace.
  rewrite collapseFrom_id by (apply (W _ digitFree_space); repeat constructor).
  assert (Hdots : stripLeadingDots (day ++ lit "ecember") = day ++ lit "ecember").
  { rewrite E. cbn [app stripLeadingDots]. rewrite (digitFree_dot d Hd0).
    reflexivity. }
  rewrite Hdots.
  assert (Hmd : dotsToMd (day ++ lit "ecember") = day ++ lit "ecember").
  { unfold dotsToMd, endsWithDot. rewrite rev_app_distr. reflexivity. }
  rewrite Hmd. apply trim_id.
  - rewrite E. cbn [app stopsAt]. apply digitFree_space, Hd0.
  - apply endsWell_app. exists (lit "ecembe"), "r"%char. auto.
Qed.

(** C10.  The tokens are replaced one after another over the whole working
    text, so a later, shorter token also replaces inside what an earlier
    token put there.  For every date in December: a template whose first
    [M] starts [MMMM] (after text without [Y]) has that [MMMM] expanded to
    [December] by the second pass; the template [MMMM] is rendered as the
    day of the month followed by [ecember], the [D] token having replaced
    the [D]; and for every template the rendered name does not contain
    [December]. *)
Theorem generateFilename_December (date : LocalDate) :
  getMonth date = 11 ->
  (forall pre post : str, without isYorM pre ->
     exists post',
       substituteTokens (firstn 2 (sortedTokens (replacements date)))
         (pre ++ lit "MMMM" ++ post)
       = pre ++ lit "December" ++ post')
  /\ generateFilename date (lit "MMMM")
     = natToString (getDate date) ++ lit "ecember"
  /\ (forall template : str,
        includes (generateFilename date template) (lit "December") = false).
Proof.
  intros Hmonth. split; [|split].
  - intros pre post Hpre. rewrite sortedTokens_eq. cbv zeta. cbn [firstn].
    rewrite Hmonth.
    replace (at_ monthNames (11 + 1 - 1)) with (lit "December") by reflexivity.
    apply first_passes_December, Hpre.
  - apply generateFilename_MMMM, Hmonth.
  - intros template. apply (includes_lacking "D"%char).
    + left. reflexivity.
    + intros Hin.
      pose proof (generateFilename_without_D date template) as H.
      unfold without in H. rewrite Forall_forall in H.
      specialize (H _ Hin). discriminate.
Qed.

Lemma generateFilename_December_witness :
  generateFilename christmas (lit "MMMM") = lit "25ecember".
Proof.
  exact (proj1 (proj2 (generateFilename_December christmas eq_refl))).
Defined.

End DateFacts.

(** ** The sentiment line *)

Module SentimentFacts.

Import AIService RegExpFacts.

(** *** Matching up to case *)

Lemma upper_lower c : upperChar (lowerChar c) = upperChar c.
Proof. all_chars c. Qed.

Lemma lower_upper c : lowerChar (upperChar c) = lowerChar c.
Proof. all_chars c. Qed.

Lemma isSpace_lower c : isSpace (lowerChar c) = isSpace c.
Proof. all_chars c. Qed.

Lemma chrMatch_lower p x :
  chrMatch true p x = Ascii.eqb (lowerChar p) (lowerChar x).
Proof.
  unfold chrMatch. cbn [canonicalize].
  destruct (Ascii.eqb (upperChar p) (upperChar x)) eqn:E.
  - apply Ascii.eqb_eq in E. symmetry. apply Ascii.eqb_eq.
    rewrite <- (lower_upper p), <- (lower_upper x), E. reflexivity.
  - symmetry. apply Ascii.eqb_neq. intros H. apply Ascii.eqb_neq in E.
    apply E. rewrite <- (upper_lower p), <- (upper_lower x), H. reflexivity.
Qed.

(** A literal word under the [i] flag compares the lower-case forms. *)
Lemma exec_word (M : Type) n (w : str) :
  w <> [] ->
  forall (t : str) caps (k : str -> list str -> option M),
    exec true n (seq (map Chr w)) t caps k
    = if startsWith (toLowerCase t) (toLowerCase w)
      then k (skipn (length w) t) caps
      else None.
Proof.
  induction w as [|c w IH]; intros Hne t caps k; [congruence|].
  destruct w as [|c' w].
  - cbn [map seq]. destruct t as [|x t]; [reflexivity|].
    rewrite exec_Chr, chrMatch_lower. cbn [toLowerCase map startsWith].
    rewrite andb_true_r. reflexivity.
  - change (seq (map Chr (c :: c' :: w)))
      with (Seq (Chr c) (seq (map Chr (c' :: w)))).
    rewrite exec_Seq. destruct t as [|x t]; [reflexivity|].
    rewrite exec_Chr, chrMatch_lower.
    change (toLowerCase (x :: t)) with (lowerChar x :: toLowerCase t).
    change (toLowerCase (c :: c' :: w))
      with (lowerChar c :: toLowerCase (c' :: w)).
    cbn [startsWith].
    destruct (Ascii.eqb (lowerChar c) (lowerChar x)); [|reflexivity].
    rewrite IH by discriminate. reflexivity.
Qed.

Lemma startsWith_app (p rest : str) : startsWith (p ++ rest) p = true.
Proof.
  induction p as [|x p IH]; [reflexivity|]. cbn. rewrite Ascii.eqb_refl. exact IH.
Qed.

Lemma toLowerCase_app (u v : str) :
  toLowerCase (u ++ v) = toLowerCase u ++ toLowerCase v.
Proof. apply map_app. Qed.

Lemma toLowerCase_length (u : str) : length (toLowerCase u) = length u.
Proof. apply length_map. Qed.

Lemma skipn_exact (u v : str) (k : nat) : length u = k -> skipn k (u ++ v) = v.
Proof.
  intros <-. rewrite skipn_app, skipn_all, Nat.sub_diag. reflexivity.
Qed.

(** A text that starts, up to case, with [w] splits into its variant of [w]
    and the rest. *)
Lemma startsWith_lower_split (w t : str) :
  startsWith (toLowerCase t) w = true ->
  toLowerCase (firstn (length w) t) = w
  /\ t = firstn (length w) t ++ skipn (length w) t.
Proof.
  intros H. split; [|symmetry; apply firstn_skipn].
  apply startsWith_sound in H as [post E].
  unfold toLowerCase in *. rewrite <- firstn_map, E.
  rewrite firstn_app, Nat.sub_diag, firstn_all. cbn. apply app_nil_r.
Qed.

Lemma eqb_true_iff (x y : str) : JsString.eqb x y = true <-> x = y.
Proof.
  unfold JsString.eqb. destruct (list_eq_dec ascii_dec x y); split;
    congruence.
Qed.

(** A word that must reach the end of the text. *)
Lemma word_to_end (M : Type) (w t : str) (found : M) :
  (if startsWith (toLowerCase t) w
   then match skipn (length w) t with [] => Some found | _ :: _ => None end
   else None)
  = if JsString.eqb (toLowerCase t) w then Some found else None.
Proof.
  destruct (JsString.eqb (toLowerCase t) w) eqn:E.
  - apply eqb_true_iff in E.
    assert (L : length t = length w) by (rewrite <- E; symmetry; apply toLowerCase_length).
    rewrite E. rewrite <- (app_nil_r w) at 1. rewrite startsWith_app.
    rewrite <- L, skipn_all. reflexivity.
  - destruct (startsWith (toLowerCase t) w) eqn:S; [|reflexivity].
    destruct (skipn (length w) t) eqn:K; [|reflexivity].
    exfalso. apply startsWith_sound in S as [post S].
    assert (L : length t <= length w).
    { apply (f_equal (@length ascii)) in K. rewrite length_skipn in K.
      cbn in K. lia. }
    assert (P : post = []).
    { apply (f_equal (@length ascii)) in S.
      rewrite toLowerCase_length, length_app in S.
      destruct post; [reflexivity | cbn in S; lia]. }
    subst post. rewrite app_nil_r in S.
    assert (T : JsString.eqb (toLowerCase t) w = true)
      by (apply eqb_true_iff; exact S).
    congruence.
Qed.

(** The group of the five labels followed by the end of input. *)
Lemma exec_labels n (line rest : str) :
  exec true n (Seq (Grp labels) Eol) rest []
    (fun s' caps =>
       Some (mkMatch (firstn (length line - length s') line) caps s'))
  = if isLabel rest then Some (mkMatch line [rest] []) else None.
Proof.
  assert (W : forall w : string, lit w <> [] ->
            exec true n (word w) rest []
              (fun s' caps' =>
                 exec true n Eol s'
                   (caps' ++ [firstn (length rest - length s') rest])
                   (fun s'' caps =>
                      Some (mkMatch (firstn (length line - length s'') line)
                              caps s'')))
            = if JsString.eqb (toLowerCase rest) (toLowerCase (lit w))
              then Some (mkMatch line [rest] []) else None).
  { intros w Hw. unfold word. rewrite exec_word by exact Hw.
    rewrite <- (word_to_end (toLowerCase (lit w)) rest (mkMatch line [rest] [])).
    rewrite toLowerCase_length.
    destruct (startsWith _ _); [|reflexivity].
    destruct (skipn (length (lit w)) rest) eqn:K; [|reflexivity].
    cbn [exec app length]. rewrite !Nat.sub_0_r, !firstn_all. reflexivity. }
  rewrite exec_Seq, exec_Grp. unfold labels. cbn [alt exec].
  rewrite !W by discriminate. unfold isLabel.
  cbn [validSentiments existsb label].
  repeat (destruct (JsString.eqb (toLowerCase rest) _); [reflexivity|]).
  reflexivity.
Qed.

(** The whole pattern on a line. *)
Lemma matchAt_sentiment (line : str) :
  matchAt sentimentRegex (length line) line
  = if startsWith (toLowerCase line) (lit "sentiment:")
    then starGreedy isSpace (skipn 10 line)
           (fun rest => if isLabel rest
                        then Some (mkMatch line [rest] []) else None)
    else None.
Proof.
  unfold matchAt.
  change (source sentimentRegex)
    with (Seq Bol (Seq (word "SENTIMENT:")
                     (Seq (Star isSpace) (Seq (Grp labels) Eol)))).
  cbn [ignoreCase sentimentRegex]. rewrite exec_Seq.
  cbn [exec]. rewrite Nat.eqb_refl.
  change (exec true (length line) (Seq (word "SENTIMENT:")
            (Seq (Star isSpace) (Seq (Grp labels) Eol))) line [])
    with (fun k => exec true (length line) (word "SENTIMENT:") line []
            (fun s1 caps1 => exec true (length line)
               (Seq (Star isSpace) (Seq (Grp labels) Eol)) s1 caps1 k)).
  cbv beta. unfold word at 1. rewrite exec_word by discriminate.
  change (toLowerCase (lit "SENTIMENT:")) with (lit "sentiment:").
  destruct (startsWith _ _); [|reflexivity].
  change (length (lit "SENTIMENT:")) with 10. cbv beta.
  transitivity
    (starGreedy isSpace (skipn 10 line)
       (fun s' => exec true (length line) (Seq (Grp labels) Eol) s' []
          (fun s'' caps =>
             Some (mkMatch (firstn (length line - length s'') line) caps s'')))).
  - apply starGreedy_ext_class. intros c. apply clsMatch_isSpace.
  - apply starGreedy_ext. intros t. apply exec_labels.
Qed.

Lemma search_anchored r ic g (s : str) :
  search (mkRegExp (Seq Bol r) ic g) (length s) s
  = match matchAt (mkRegExp (Seq Bol r) ic g) (length s) s with
    | Some m => Some ([], m)
    | None => None
    end.
Proof.
  destruct s as [|c s]; cbn [search];
    destruct (matchAt _ _ _); try reflexivity.
  rewrite search_bol_later by (cbn; lia). reflexivity.
Qed.

Lemma matchFirst_sentiment (line : str) :
  matchFirst sentimentRegex line = matchAt sentimentRegex (length line) line.
Proof.
  unfold matchFirst.
  change sentimentRegex
    with (mkRegExp (Seq Bol (Seq (word "SENTIMENT:")
                      (Seq (Star isSpace) (Seq (Grp labels) Eol))))
            true false).
  rewrite search_anchored. destruct (matchAt _ _ _); reflexivity.
Qed.

(** *** Labels carry no white space at their ends *)

Lemma endsWell_rev (w : str) :
  match rev w with c :: _ => isSpace c = false | [] => False end ->
  endsWell w.
Proof.
  destruct (rev w) as [|c u] eqn:E; [contradiction|]. intros H.
  exists (rev u), c. split; [|exact H].
  rewrite <- (rev_involutive w), E. reflexivity.
Qed.

Lemma lower_stops (x w : str) :
  toLowerCase x = w -> stopsAt isSpace w -> stopsAt isSpace x.
Proof.
  intros <-. destruct x as [|c x]; cbn; [auto|]. rewrite isSpace_lower. auto.
Qed.

Lemma lower_endsWell (x w : str) :
  toLowerCase x = w -> endsWell w -> endsWell x.
Proof.
  intros E (u & y & -> & Hy). unfold toLowerCase in E.
  apply map_eq_app in E as (l1 & l2 & -> & _ & E2).
  destruct l2 as [|y' [|z l2]]; try discriminate.
  injection E2 as <-. exists l1, y'. split; [reflexivity|].
  rewrite <- isSpace_lower. exact Hy.
Qed.

Lemma label_trimmed (t : str) s :
  toLowerCase t = toLowerCase (label s) -> trim t = t.
Proof.
  intros E. apply trim_id.
  - apply (@lower_stops _ _ E). destruct s; reflexivity.
  - apply (@lower_endsWell _ _ E). apply endsWell_rev. destruct s; reflexivity.
Qed.

Lemma isLabel_iff (t : str) :
  isLabel t = true <-> exists s, toLowerCase t = toLowerCase (label s).
Proof.
  unfold isLabel. rewrite existsb_exists. split.
  - intros (s & _ & E). exists s. apply eqb_true_iff, E.
  - intros (s & E). exists s. split; [destruct s; cbn; tauto|].
    apply eqb_true_iff, E.
Qed.

Lemma find_label (t : str) s :
  toLowerCase t = toLowerCase (label s) ->
  find (fun s' => JsString.eqb (toLowerCase (label s')) (toLowerCase t))
    validSentiments = Some s.
Proof. intros ->. destruct s; reflexivity. Qed.

(** The test in the loop body is the test of the specification. *)
Lemma sentimentOfLine_iff (rawLine : str) s :
  sentimentOfLine rawLine = Some s <-> isSentimentLine rawLine s.
Proof.
  unfold sentimentOfLine, isSentimentLine.
  rewrite matchFirst_sentiment, matchAt_sentiment.
  set (line := trim rawLine). split.
  - destruct (startsWith (toLowerCase line) (lit "sentiment:")) eqn:S;
      [|discriminate].
    destruct (starGreedy _ _ _) as [m|] eqn:G; [|discriminate].
    apply starGreedy_sound in G as (ws & rest & E & Hws & Hk).
    destruct (isLabel rest) eqn:L; [|discriminate]. injection Hk as <-.
    cbn [groups nth]. intros F.
    apply isLabel_iff in L as (s0 & L).
    rewrite (@label_trimmed _ _ L) in F.
    rewrite (@find_label _ _ L) in F. injection F as ->.
    apply startsWith_lower_split in S as [T P].
    exists (firstn 10 line), ws, rest. repeat split; try assumption.
    rewrite <- E. exact P.
  - intros (tag & ws & lbl & E & T & Hws & L).
    assert (Ltag : length tag = 10)
      by (rewrite <- (toLowerCase_length tag), T; reflexivity).
    rewrite E, toLowerCase_app, T, startsWith_app.
    rewrite (skipn_exact tag (ws ++ lbl) Ltag).
    assert (G : starGreedy isSpace (ws ++ lbl)
                  (fun rest => if isLabel rest
                               then Some (mkMatch (tag ++ ws ++ lbl) [rest] [])
                               else None)
                = Some (mkMatch (tag ++ ws ++ lbl) [lbl] [])).
    { apply starGreedy_run; [exact Hws | |].
      - apply (@lower_stops _ _ L). destruct s; reflexivity.
      - replace (isLabel lbl) with true; [reflexivity|].
        symmetry. apply isLabel_iff. exists s. exact L. }
    rewrite G. cbn [groups nth]. rewrite (@label_trimmed _ _ L).
    apply find_label, L.
Qed.

(** *** The backward scan *)

Lemma sentimentLoop_none (lines : list str) content : forall upper,
  (forall j, j < upper -> sentimentOfLine (@nth str j lines []) = None) ->
  sentimentLoop lines upper content = (content, None).
Proof.
  induction upper as [|i IH]; intros H; [reflexivity|].
  cbn [sentimentLoop]. rewrite (H i) by lia. apply IH.
  intros j Hj. apply H. lia.
Qed.

Lemma sentimentLoop_found (lines : list str) content i s : forall upper,
  i < upper ->
  sentimentOfLine (@nth str i lines []) = Some s ->
  (forall j, i < j -> j < upper ->
     sentimentOfLine (@nth str j lines []) = None) ->
  sentimentLoop lines upper content
  = (trim (join (lit (String "010" EmptyString)) (firstn i lines)), Some s).
Proof.
  induction upper as [|u IH]; intros Hi Hs Hnone; [lia|].
  cbn [sentimentLoop]. destruct (Nat.eq_dec i u) as [->|Hne].
  - rewrite Hs. reflexivity.
  - rewrite (Hnone u) by lia. apply IH; [lia | exact Hs |].
    intros j H1 H2. apply Hnone; lia.
Qed.

(** C5.  [parseSentimentFromResponse] looks at the lines of the trimmed
    response from the last to the first and stops at the bottommost line
    that is, after trimming and up to case, [SENTIMENT:] followed by white
    space and one of the five labels: it returns that label in its canonical
    form, with the trimmed text of the lines above it as content.  When no
    line is of that form it returns [Neutral] and the trimmed response. *)
Theorem parseSentiment_bottommost (response : str) :
  let lines := split "010" (trim response) in
  (forall i s,
     i < length lines ->
     isSentimentLine (nth i lines []) s ->
     (forall j s', i < j -> j < length lines ->
        ~ isSentimentLine (nth j lines []) s') ->
     parseSentimentFromResponse response
     = mkResponse (trim (join (lit (String "010" EmptyString)) (firstn i lines)))
         (Some s))
  /\ ((forall j s', j < length lines -> ~ isSentimentLine (nth j lines []) s') ->
      parseSentimentFromResponse response
      = mkResponse (trim response) (Some Neutral)).
Proof.
  intros lines.
  assert (N : forall j, (forall s', ~ isSentimentLine (nth j lines []) s') ->
                        sentimentOfLine (@nth str j lines []) = None).
  { intros j H. destruct (sentimentOfLine (@nth str j lines [])) as [s'|] eqn:E;
      [|reflexivity].
    apply sentimentOfLine_iff in E. destruct (H s' E). }
  split.
  - intros i s Hi Hs Hnone. unfold parseSentimentFromResponse. fold lines.
    rewrite (@sentimentLoop_found lines (trim response) i s);
      [reflexivity | exact Hi | apply sentimentOfLine_iff, Hs |].
    intros j H1 H2. apply N. intros s'. apply Hnone; assumption.
  - intros Hnone. unfold parseSentimentFromResponse. fold lines.
    rewrite sentimentLoop_none; [reflexivity|].
    intros j Hj. apply N. intros s'. apply Hnone, Hj.
Qed.

Lemma parseSentiment_bottommost_witness :
  parseSentimentFromResponse diary
  = mkResponse (lit "Dear diary" ++ "010"%char :: lit "a fine day")
      (Some VeryHappy).
Proof.
  apply (proj1 (parseSentiment_bottommost diary) 3 VeryHappy).
  - vm_compute. lia.
  - exists (lit "sentiment:"), (lit "  "), (lit "very HAPPY").
    repeat split. repeat constructor.
  - intros j s' H1 H2. vm_compute in H2. lia.
Defined.

End SentimentFacts.

(** ** The scheduler *)

Module SchedulerFacts.

Import NoteProcessor Scheduler.
Local Open Scope task_scope.

(** *** Pieces that keep the flag and pieces that release it *)

Lemma Keeps_bind A B (r : Run A) (f : A -> Task B) :
  Keeps r -> (forall a, keeps (f a)) -> Keeps (bindRun r f).
Proof.
  intros Hr Hf. induction Hr as [a s Hs | C c s k Hs _ IH]; cbn [bindRun].
  - apply Hf, Hs.
  - constructor; [exact Hs|]. intros b s' Hs'. apply IH, Hs'.
Qed.

Lemma Releases_bind A B (r : Run A) (f : A -> Task B) :
  Keeps r -> (forall a, releases (f a)) -> Releases (bindRun r f).
Proof.
  intros Hr Hf. induction Hr as [a s Hs | C c s k Hs _ IH]; cbn [bindRun].
  - apply Hf, Hs.
  - constructor; [exact Hs|]. intros b s' Hs'. apply IH, Hs'.
Qed.

Lemma keeps_bind A B (t : Task A) (f : A -> Task B) :
  keeps t -> (forall a, keeps (f a)) -> keeps (bind t f).
Proof. intros Ht Hf s Hs. apply Keeps_bind; [apply Ht, Hs | exact Hf]. Qed.

Lemma releases_bind A B (t : Task A) (f : A -> Task B) :
  keeps t -> (forall a, releases (f a)) -> releases (bind t f).
Proof. intros Ht Hf s Hs. apply Releases_bind; [apply Ht, Hs | exact Hf]. Qed.

Lemma keeps_ret A (a : A) : keeps (ret a).
Proof. intros s Hs. constructor. exact Hs. Qed.

Lemma keeps_get : keeps get.
Proof. intros s Hs. constructor. exact Hs. Qed.

Lemma keeps_call A (c : Call A) : keeps (call c).
Proof.
  intros s Hs. constructor; [exact Hs|]. intros b s' Hs'. constructor. exact Hs'.
Qed.

Lemma keeps_setLastProcessingTime t : keeps (modify (setLastProcessingTime t)).
Proof. intros s Hs. constructor. exact Hs. Qed.

Lemma releases_clear A (a : A) :
  releases (modify (setProcessing false) ;;; ret a).
Proof. intros s Hs. constructor. reflexivity. Qed.

Ltac keeps_step :=
  first [ apply keeps_ret | apply keeps_get | apply keeps_call
        | apply keeps_setLastProcessingTime
        | apply keeps_bind; [|intros ?] ].

Lemma keeps_processEach notes : forall processedCount errors,
  keeps (processEach notes processedCount errors).
Proof.
  induction notes as [|dailyNote rest IH]; intros pc errs; cbn [processEach].
  - apply keeps_ret.
  - destruct (blank _); [apply IH|].
    apply keeps_bind; [apply keeps_get | intros s0].
    apply keeps_bind; [apply keeps_call | intros [e|aiResponse]]; [apply IH|].
    apply keeps_bind; [apply keeps_call | intros [e|u]]; apply IH.
Qed.

Lemma keeps_processNotesTry startTime : keeps (processNotesTry startTime).
Proof.
  unfold processNotesTry.
  apply keeps_bind; [apply keeps_call | intros [e|[|n notes]]].
  - apply keeps_ret.
  - repeat keeps_step.
  - apply keeps_bind; [apply keeps_get | intros s0].
    apply keeps_bind; [apply keeps_call | intros [e|u]]; [apply keeps_ret|].
    apply keeps_bind; [apply keeps_processEach | intros [pc errs]].
    repeat keeps_step.
Qed.

Lemma releases_processNotesFinally startTime outcome :
  releases (processNotesFinally startTime outcome).
Proof.
  destruct outcome as [[[e pc] errs]|result]; cbn [processNotesFinally].
  - apply releases_bind; [apply keeps_call | intros now].
    apply releases_clear.
  - apply releases_clear.
Qed.

Lemma keeps_processLatestNoteTry startTime :
  keeps (processLatestNoteTry startTime).
Proof.
  unfold processLatestNoteTry.
  apply keeps_bind; [apply keeps_call | intros [e|[note|]]].
  - apply keeps_ret.
  - apply keeps_bind; [apply keeps_get | intros s0].
    apply keeps_bind; [apply keeps_call | intros [e|u]]; [apply keeps_ret|].
    destruct (blank _); [repeat keeps_step|].
    apply keeps_bind; [apply keeps_get | intros s1].
    apply keeps_bind; [apply keeps_call | intros [e|aiResponse]];
      [apply keeps_ret|].
    apply keeps_bind; [apply keeps_call | intros [e|u']]; [apply keeps_ret|].
    repeat keeps_step.
  - repeat keeps_step.
Qed.

Lemma releases_processLatestNoteFinally startTime outcome :
  releases (processLatestNoteFinally startTime outcome).
Proof.
  destruct outcome as [e|result]; cbn [processLatestNoteFinally].
  - apply releases_bind; [apply keeps_call | intros now].
    apply releases_clear.
  - apply releases_clear.
Qed.

(** *** The two entry points *)

Lemma processNotes_busy s :
  isProcessing s = true -> processNotes s = Finished busyResult s.
Proof. intros H. unfold processNotes, bind, get. cbn. rewrite H. reflexivity. Qed.

Lemma processLatestNote_busy s :
  isProcessing s = true -> processLatestNote s = Finished busyResult s.
Proof.
  intros H. unfold processLatestNote, bind, get. cbn. rewrite H. reflexivity.
Qed.

Lemma processNotes_accepted s :
  isProcessing s = false ->
  processNotes s
  = Suspended DateNow (setProcessing true s)
      (fun startTime s1 =>
         bindRun (processNotesTry startTime s1)
           (processNotesFinally startTime)).
Proof.
  intros H. unfold processNotes, bind, get, modify, call. cbn. rewrite H.
  reflexivity.
Qed.

Lemma processLatestNote_accepted s :
  isProcessing s = false ->
  processLatestNote s
  = Suspended DateNow (setProcessing true s)
      (fun startTime s1 =>
         bindRun (processLatestNoteTry startTime s1)
           (processLatestNoteFinally startTime)).
Proof.
  intros H. unfold processLatestNote, bind, get, modify, call. cbn. rewrite H.
  reflexivity.
Qed.

Lemma processNotes_rest_releases startTime :
  releases (fun s1 => bindRun (processNotesTry startTime s1)
                        (processNotesFinally startTime)).
Proof.
  apply (@releases_bind _ _ (processNotesTry startTime)
           (processNotesFinally startTime)).
  - apply keeps_processNotesTry.
  - apply releases_processNotesFinally.
Qed.

Lemma processLatestNote_rest_releases startTime :
  releases (fun s1 => bindRun (processLatestNoteTry startTime s1)
                        (processLatestNoteFinally startTime)).
Proof.
  apply (@releases_bind _ _ (processLatestNoteTry startTime)
           (processLatestNoteFinally startTime)).
  - apply keeps_processLatestNoteTry.
  - apply releases_processLatestNoteFinally.
Qed.

(** *** C7: single flight *)

Lemma settle_releases (r : Run ProcessingResult) :
  Releases r -> singleFlight (fst (settle [] [] r)).
Proof. intros H. destruct H as [a s Hs | B c s k Hs Hk]; cbn; auto. Qed.

Lemma step_singleFlight sys out sys' :
  singleFlight sys -> step sys out sys' -> singleFlight sys'.
Proof.
  intros Inv Hstep.
  destruct Hstep as [sys | sys | s before A c k after a | s jobs newSettings].
  - destruct sys as [s jobs]. unfold singleFlight in Inv.
    cbn [inFlight scheduler] in Inv |- *.
    destruct jobs as [|[B c k] [|p jobs]]; [| |contradiction].
    + rewrite (@processNotes_accepted s Inv). cbn [settle fst app].
      unfold singleFlight. cbn [inFlight scheduler]. split; [reflexivity|].
      intros a s' Hs'. apply processNotes_rest_releases, Hs'.
    + destruct Inv as [Hs Hk]. rewrite (@processNotes_busy s Hs).
      cbn [settle fst app]. unfold singleFlight. cbn [inFlight scheduler].
      auto.
  - destruct sys as [s jobs]. unfold singleFlight in Inv.
    cbn [inFlight scheduler] in Inv |- *.
    destruct jobs as [|[B c k] [|p jobs]]; [| |contradiction].
    + rewrite (@processLatestNote_accepted s Inv). cbn [settle fst app].
      unfold singleFlight. cbn [inFlight scheduler]. split; [reflexivity|].
      intros a s' Hs'. apply processLatestNote_rest_releases, Hs'.
    + destruct Inv as [Hs Hk]. rewrite (@processLatestNote_busy s Hs).
      cbn [settle fst app]. unfold singleFlight. cbn [inFlight scheduler].
      auto.
  - unfold singleFlight in Inv. cbn [inFlight scheduler] in Inv.
    destruct before as [|p [|q before]]; cbn [app] in Inv;
      [| destruct p; contradiction ..].
    destruct after as [|q after]; [|contradiction].
    destruct Inv as [Hs Hk]. apply settle_releases, Hk, Hs.
  - unfold singleFlight in *. cbn [inFlight scheduler isProcessing] in *.
    destruct jobs as [|[B c k] [|p jobs]]; auto.
Qed.

Lemma reachable_singleFlight sys : reachable sys -> singleFlight sys.
Proof.
  induction 1 as [st | sys out sys' _ IH Hstep]; [reflexivity|].
  exact (step_singleFlight IH Hstep).
Qed.

Lemma complete_releases W (h : Handler W) (r : Run ProcessingResult) :
  Releases r -> forall w,
  isProcessing (snd (fst (fst (complete h r w)))) = false.
Proof.
  induction 1 as [a s Hs | B c s k Hs _ IH]; intros w; cbn [complete].
  - exact Hs.
  - destruct (h B c w) as [b w']. specialize (IH b s Hs w').
    destruct (complete h (k b s) w') as [[[x s'] w''] calls]. exact IH.
Qed.

(** C7.  In every system that arises from a fresh scheduler through calls
    of [processNotes] and [processLatestNote], answers delivered to the
    invocation that waits for them and changes of the settings: at most one
    invocation is in flight; while one is, a call of [processNotes]
    finishes at once with [success = false] and [processed = 0], without
    any call to a collaborator and with the scheduler unchanged; when none
    is, the flag is clear and a call of [processNotes] is accepted, and run
    to its end it leaves the flag clear whatever the collaborators answer
    or throw. *)
Theorem processNotes_single_flight (sys : System) :
  reachable sys ->
  length (inFlight sys) <= 1
  /\ (inFlight sys <> [] ->
      processNotes (scheduler sys) = Finished busyResult (scheduler sys)
      /\ success busyResult = false /\ processed busyResult = 0
      /\ fst (settle (inFlight sys) [] (processNotes (scheduler sys)))
         = mkSystem (scheduler sys) (inFlight sys ++ []))
  /\ (inFlight sys = [] ->
      isProcessing (scheduler sys) = false
      /\ (exists k,
            processNotes (scheduler sys)
            = Suspended DateNow (setProcessing true (scheduler sys)) k)
      /\ forall W (h : Handler W) w,
           isProcessing
             (snd (fst (fst (complete h (processNotes (scheduler sys)) w))))
           = false).
Proof.
  intros Hreach. apply reachable_singleFlight in Hreach.
  destruct sys as [s jobs]. unfold singleFlight in Hreach.
  cbn [inFlight scheduler] in Hreach |- *.
  destruct jobs as [|[B c k] [|p jobs]]; [| |contradiction].
  - split; [cbn; lia|]. split; [congruence|]. intros _.
    split; [exact Hreach|]. split.
    + eexists. apply processNotes_accepted, Hreach.
    + intros W h w. apply complete_releases.
      rewrite (@processNotes_accepted s Hreach). constructor; [reflexivity|].
      intros a s' Hs'. apply processNotes_rest_releases, Hs'.
  - destruct Hreach as [Hs Hk]. split; [cbn; lia|]. split; [|discriminate].
    intros _. rewrite (@processNotes_busy s Hs). cbn [settle fst].
    repeat split; reflexivity.
Qed.

Lemma started_reachable : reachable started.
Proof.
  exact (@reachable_step fresh _ started (reachable_init plainSettings)
           (step_processNotes fresh)).
Defined.

Lemma processNotes_single_flight_witness :
  processNotes (scheduler started) = Finished busyResult (scheduler started).
Proof.
  refine (proj1 (proj1 (proj2 (processNotes_single_flight started_reachable)) _)).
  discriminate.
Defined.

(** *** C8: the batch loop *)

Lemma complete_bind W A B (h : Handler W) (r : Run A) (f : A -> Task B) :
  forall w,
  complete h (bindRun r f) w
  = let '(a, s1, w1, calls1) := complete h r w in
    let '(b, s2, w2, calls2) := complete h (f a s1) w1 in
    (b, s2, w2, calls1 ++ calls2).
Proof.
  induction r as [a s | C c s k IH]; intros w; cbn [bindRun complete].
  - destruct (complete h (f a s) w) as [[[b s2] w2] calls2]. reflexivity.
  - destruct (h C c w) as [x w']. rewrite IH.
    destruct (complete h (k x s) w') as [[[a s1] w1] calls1].
    destruct (complete h (f a s1) w1) as [[[b s2] w2] calls2]. reflexivity.
Qed.

(** An error message names the note it is about. *)
Lemma includes_middle (pre x post : str) : includes (pre ++ x ++ post) x = true.
Proof.
  induction pre as [|c pre IH]; cbn [app].
  - destruct (x ++ post) as [|c s] eqn:E.
    + destruct x; [reflexivity | discriminate].
    + cbn [includes]. rewrite <- E.
      rewrite SentimentFacts.startsWith_app. reflexivity.
  - cbn [includes]. rewrite IH. apply orb_true_r.
Qed.

Lemma failedToProcess_names dailyNote error :
  includes (failedToProcess dailyNote error) (file dailyNote) = true.
Proof. unfold failedToProcess. apply includes_middle. Qed.

Lemma processEach_report W (h : Handler W) notes :
  forall processedCount errors s w processedCount' errors' s' w' calls,
  complete h (processEach notes processedCount errors s) w
  = (processedCount', errors', s', w', calls) ->
  LoopReport notes processedCount errors processedCount' errors' calls
  /\ s' = s.
Proof.
  induction notes as [|dailyNote rest IH];
    intros pc errs s w pc' errs' s' w' calls H.
  - cbn in H. injection H as <- <- <- <- <-. split; [|reflexivity].
    split; cbn; [reflexivity | | lia].
    exists []. rewrite app_nil_r. repeat split. constructor.
  - assert (Grow : forall added pc0 calls0 (extra : list Answered),
              LoopReport rest pc0 (errs ++ added) pc' errs' calls0 ->
              flat_map contentSent extra
              = (if hasContent dailyNote
                 then [prepareContentForAI dailyNote] else []) ->
              length added = length (filter rejected extra) ->
              pc0 = pc + length (filter wrote extra) ->
              Forall (fun message => exists error,
                        message = failedToProcess dailyNote error) added ->
              LoopReport (dailyNote :: rest) pc errs pc' errs'
                (extra ++ calls0)).
    { intros added pc0 calls0 extra [Hsent (more & E & Hlen & Hall) Hcount]
        Hextra Hadded Hpc Hmsg.
      split.
      - rewrite flat_map_app, Hsent, Hextra. cbn [filter].
        destruct (hasContent dailyNote); reflexivity.
      - exists (added ++ more). rewrite app_assoc. split; [exact E|]. split.
        + rewrite filter_app, !length_app. lia.
        + apply Forall_app. split.
          * revert Hmsg. apply Forall_impl. intros message [error ->].
            exists dailyNote, error. split; [left; reflexivity|].
            split; [reflexivity | apply failedToProcess_names].
          * revert Hall. apply Forall_impl.
            intros message (n & e & Hin & Hm & Hi).
            exists n, e. split; [right; exact Hin | auto].
      - rewrite filter_app, length_app. lia. }
    cbn [processEach] in H. unfold hasContent in Grow.
    destruct (blank (prepareContentForAI dailyNote)) eqn:Hblank.
    + destruct (IH _ _ _ _ _ _ _ _ _ H) as [R ->]. split; [|reflexivity].
      apply (Grow [] pc calls []);
        [rewrite app_nil_r; exact R | reflexivity | reflexivity
        | cbn; lia | constructor].
    + unfold bind, get, call in H. cbn [bindRun complete] in H.
      destruct (h _ (ProcessContent _ _ _) w) as [[error|aiResponse] w1].
      * destruct (complete h (processEach rest pc _ s) w1)
          as [[[[pc1 errs1] s1] w1'] calls1] eqn:E.
        injection H as <- <- <- <- <-.
        destruct (IH _ _ _ _ _ _ _ _ _ E) as [R ->]. split; [|reflexivity].
        apply (Grow [failedToProcess dailyNote error] pc calls1
                 [answered (ProcessContent _ _ _) (inl error)]);
          [exact R | reflexivity | reflexivity | cbn; lia |].
        constructor; [eexists; reflexivity | constructor].
      * cbn [bindRun complete] in H.
        destruct (h _ (CreateJournalEntry _ _ _) w1) as [[error|u] w2].
        -- destruct (complete h (processEach rest pc _ s) w2)
             as [[[[pc1 errs1] s1] w1'] calls1] eqn:E.
           injection H as <- <- <- <- <-.
           destruct (IH _ _ _ _ _ _ _ _ _ E) as [R ->]. split; [|reflexivity].
           apply (Grow [failedToProcess dailyNote error] pc calls1
                    [answered (ProcessContent _ _ _) (inr aiResponse);
                     answered (CreateJournalEntry _ _ _) (inl error)]);
             [exact R | reflexivity | reflexivity | cbn; lia |].
           constructor; [eexists; reflexivity | constructor].
        -- destruct (complete h (processEach rest (S pc) errs s) w2)
             as [[[[pc1 errs1] s1] w1'] calls1] eqn:E.
           injection H as <- <- <- <- <-.
           destruct (IH _ _ _ _ _ _ _ _ _ E) as [R ->]. split; [|reflexivity].
           apply (Grow [] (S pc) calls1
                    [answered (ProcessContent _ _ _) (inr aiResponse);
                     answered (CreateJournalEntry _ _ _) (inr u)]);
             [rewrite app_nil_r; exact R | reflexivity | reflexivity
             | cbn; lia | constructor].
Qed.

Lemma consistent_flag processedCount (errors : list str) d :
  consistent
    (mkResult (match errors with [] => true | _ :: _ => false end)
       processedCount errors d).
Proof. unfold consistent. destruct errors; cbn; split; congruence. Qed.

Lemma processNotesFinally_result W (h : Handler W) startTime outcome s w
    r s' w' calls :
  complete h (processNotesFinally startTime outcome s) w = (r, s', w', calls) ->
  match outcome with
  | inr result => r = result
  | inl _ => success r = false /\ errors r <> []
  end.
Proof.
  destruct outcome as [[[error pc] errs]|result]; cbn.
  - destruct (h Z DateNow w) as [now w1]. cbn.
    intros H. injection H as <- _ _ _. cbn. split; [reflexivity|discriminate].
  - intros H. injection H as <- _ _ _. reflexivity.
Qed.

(** What the [try] block of [processNotes] leaves. *)
Lemma processNotesTry_outcome W (h : Handler W) startTime s w
    outcome s' w' calls :
  complete h (processNotesTry startTime s) w = (outcome, s', w', calls) ->
  match outcome with
  | inr result => consistent result
  | inl _ => True
  end.
Proof.
  unfold processNotesTry, bind, call, get, ret, modify.
  cbn [bindRun complete].
  destruct (h _ FindUnprocessedDailyNotes w) as [[error|[|n notes]] w1].
  - cbn. intros H. injection H as <- _ _ _. exact I.
  - cbn. destruct (h Z DateNow w1) as [now w2]. cbn.
    intros H. injection H as <- _ _ _. apply (consistent_flag 0 [] _).
  - cbn [bindRun complete].
    destruct (h _ (CreateService _) w1) as [[error|u] w2].
    + cbn. intros H. injection H as <- _ _ _. exact I.
    + rewrite complete_bind.
      destruct (complete h (processEach (n :: notes) 0 [] s) w2)
        as [[[[pc errs] s1] w3] calls1].
      cbn [bindRun complete].
      destruct (h Z DateNow w3) as [today w4]. cbn [bindRun complete].
      destruct (h Z DateNow w4) as [now w5]. cbn.
      intros H. injection H as <- _ _ _. apply consistent_flag.
Qed.

(** The loop, note by note: each note gets the run of the loop body that
    its own answers decide, after whatever happened to the notes before
    it. *)
Lemma processEach_batch W (h : Handler W) notes :
  forall processedCount errors s w processedCount' errors' s' w' calls,
  complete h (processEach notes processedCount errors s) w
  = (processedCount', errors', s', w', calls) ->
  exists written messages,
    BatchRun (settings s) notes calls written messages
    /\ processedCount' = processedCount + written
    /\ errors' = errors ++ messages.
Proof.
  induction notes as [|dailyNote rest IH];
    intros pc errs s w pc' errs' s' w' calls H.
  - cbn in H. injection H as <- <- <- <- <-.
    exists 0, []. split; [constructor|]. split; [lia|].
    rewrite app_nil_r. reflexivity.
  - cbn [processEach] in H.
    destruct (blank (prepareContentForAI dailyNote)) eqn:Hblank.
    + destruct (IH _ _ _ _ _ _ _ _ _ H) as (n & ms & B & -> & ->).
      exists (0 + n), ([] ++ ms). split; [|split; reflexivity].
      apply (batchNext (calls := [])); [|exact B].
      apply noteSkipped. unfold hasContent. rewrite Hblank. reflexivity.
    + assert (Hc : hasContent dailyNote = true)
        by (unfold hasContent; rewrite Hblank; reflexivity).
      unfold bind, get, call in H. cbn [bindRun complete] in H.
      destruct (h _ (ProcessContent _ _ _) w) as [[error|aiResponse] w1].
      * destruct (complete h (processEach rest pc _ s) w1)
          as [[[[pc1 errs1] s1] w1'] calls1] eqn:E.
        injection H as <- <- <- <- <-.
        destruct (IH _ _ _ _ _ _ _ _ _ E) as (n & ms & B & -> & ->).
        exists (0 + n), ([failedToProcess dailyNote error] ++ ms).
        split; [|split; [reflexivity | rewrite app_assoc; reflexivity]].
        apply (batchNext (calls := [_]));
          [apply (noteRejected _ _ _ Hc) | exact B].
      * cbn [bindRun complete] in H.
        destruct (h _ (CreateJournalEntry _ _ _) w1) as [[error|u] w2].
        -- destruct (complete h (processEach rest pc _ s) w2)
             as [[[[pc1 errs1] s1] w1'] calls1] eqn:E.
           injection H as <- <- <- <- <-.
           destruct (IH _ _ _ _ _ _ _ _ _ E) as (n & ms & B & -> & ->).
           exists (0 + n), ([failedToProcess dailyNote error] ++ ms).
           split; [|split; [reflexivity | rewrite app_assoc; reflexivity]].
           apply (batchNext (calls := [_; _]));
             [apply (noteUnwritten _ _ _ _ Hc) | exact B].
        -- destruct (complete h (processEach rest (S pc) errs s) w2)
             as [[[[pc1 errs1] s1] w1'] calls1] eqn:E.
           injection H as <- <- <- <- <-.
           destruct (IH _ _ _ _ _ _ _ _ _ E) as (n & ms & B & -> & ->).
           exists (1 + n), ([] ++ ms).
           split; [|split; [lia | reflexivity]].
           apply (batchNext (calls := [_; _]));
             [apply (noteWritten _ _ _ _ Hc) | exact B].
Qed.

(** A run over a list of notes is a run over its first part followed by a
    run over the rest: what happened to the first notes does not change
    what the loop does with the later ones. *)
Lemma BatchRun_split st (pre post : list DailyNote) :
  forall calls written messages,
  BatchRun st (pre ++ post) calls written messages ->
  exists calls1 written1 messages1 calls2 written2 messages2,
    BatchRun st pre calls1 written1 messages1
    /\ BatchRun st post calls2 written2 messages2
    /\ calls = calls1 ++ calls2
    /\ written = written1 + written2
    /\ messages = messages1 ++ messages2.
Proof.
  induction pre as [|dailyNote pre IH]; intros calls written messages B.
  - exists [], 0, [], calls, written, messages.
    split; [constructor|]. split; [exact B|]. auto.
  - cbn [app] in B. inversion B as [|? ? c n m rc rn rm N R]; subst.
    destruct (IH _ _ _ R)
      as (c1 & n1 & m1 & c2 & n2 & m2 & B1 & B2 & -> & -> & ->).
    exists (c ++ c1), (n + n1), (m ++ m1), c2, n2, m2.
    split; [exact (batchNext N B1)|]. split; [exact B2|].
    rewrite <- !app_assoc. split; [reflexivity|]. split; [lia | reflexivity].
Qed.

(** The calls and the result of a batch whose search found notes and whose
    AI service was created. *)
Lemma processNotes_batch_result W (h : Handler W) s w t0 w1 notes w2 u w3 :
  isProcessing s = false ->
  h _ DateNow w = (t0, w1) ->
  h _ FindUnprocessedDailyNotes w1 = (inr notes, w2) ->
  notes <> [] ->
  h _ (CreateService (aiProvider (settings s))) w2 = (inr u, w3) ->
  forall r s' w' calls,
  complete h (processNotes s) w = (r, s', w', calls) ->
  exists loopCalls today now,
    calls
    = [answered DateNow t0;
       answered FindUnprocessedDailyNotes (inr notes);
       answered (CreateService (aiProvider (settings s))) (inr u)]
      ++ loopCalls ++ [answered DateNow today; answered DateNow now]
    /\ BatchRun (settings s) notes loopCalls (processed r) (errors r).
Proof.
  intros Hs H0 H1 Hne H2 r s' w' calls.
  rewrite (@processNotes_accepted s Hs). cbn [complete]. rewrite H0.
  unfold processNotesTry, bind, call, get, ret, modify.
  cbn [bindRun complete]. rewrite H1.
  destruct notes as [|n notes]; [congruence|].
  cbn [bindRun complete settings setProcessing]. rewrite H2.
  rewrite !complete_bind.
  destruct (complete h (processEach (n :: notes) 0 [] (setProcessing true s)) w3)
    as [[[[pc errs] s1] w4] calls1] eqn:E.
  apply processEach_batch in E as (written & messages & B & -> & ->).
  cbn [bindRun complete].
  destruct (h Z DateNow w4) as [today w5]. cbn [bindRun complete].
  destruct (h Z DateNow w5) as [now w6]. cbn.
  intros H. injection H as <- _ _ <-. cbn [processed errors].
  exists calls1, today, now. split; [|exact B].
  rewrite app_nil_r. reflexivity.
Qed.

(** C8.  In a batch run of [processNotes], for every behaviour of the
    collaborators.  Once the notes were found and the AI service was
    created, the calls of the run are the three calls before the loop, the
    calls of the loop and the two readings of the clock after it, and the
    calls of the loop are, note by note and in the order of the notes,
    those of the loop body for that note: a note without content makes no
    call; a note with content is sent to the AI service and, when the
    service answers, its journal entry is created; when either call fails
    the failure is caught, nothing is counted for that note and the one
    message [Failed to process ] followed by the file of that very note
    and the text of what was thrown is appended to the error list; when
    both succeed one more note is counted and no message is added.  The
    run of a note is followed by the runs of all the notes after it, so a
    failure does not stop the batch; the processed count and the error
    list of the result are exactly the sums of what the notes left.  Such
    a message contains the file of its note.  On every path the result
    has [success = true] exactly when its error list is empty. *)
Theorem processNotes_batch W (h : Handler W) (s : State) (w : W)
    (r : ProcessingResult) (s' : State) (w' : W) (calls : list Answered) :
  complete h (processNotes s) w = (r, s', w', calls) ->
  (success r = true <-> errors r = [])
  /\ (isProcessing s = false ->
      forall t0 wa notes wb u wc,
        h _ DateNow w = (t0, wa) ->
        h _ FindUnprocessedDailyNotes wa = (inr notes, wb) ->
        notes <> [] ->
        h _ (CreateService (aiProvider (settings s))) wb = (inr u, wc) ->
        exists loopCalls today now,
          calls
          = [answered DateNow t0;
             answered FindUnprocessedDailyNotes (inr notes);
             answered (CreateService (aiProvider (settings s))) (inr u)]
            ++ loopCalls ++ [answered DateNow today; answered DateNow now]
          /\ BatchRun (settings s) notes loopCalls (processed r) (errors r))
  /\ (forall dailyNote error,
        includes (failedToProcess dailyNote error) (file dailyNote) = true).
Proof.
  intros H. split; [|split].
  - destruct (isProcessing s) eqn:Hs.
    + rewrite (@processNotes_busy s Hs) in H. cbn in H.
      injection H as <- _ _ _. cbn. split; discriminate.
    + rewrite (@processNotes_accepted s Hs) in H. cbn [complete] in H.
      destruct (h Z DateNow w) as [t0 wa]. rewrite complete_bind in H.
      destruct (complete h (processNotesTry t0 (setProcessing true s)) wa)
        as [[[outcome s2] w2] calls1] eqn:E1.
      destruct (complete h (processNotesFinally t0 outcome s2) w2)
        as [[[r2 s3] w3] calls2] eqn:E2.
      injection H as <- _ _ _.
      apply processNotesTry_outcome in E1.
      apply processNotesFinally_result in E2.
      destruct outcome as [thrown|result].
      * destruct E2 as [F N]. split; congruence.
      * subst r2. exact E1.
  - intros Hs t0 wa notes wb u wc H0 H1 Hne H2.
    eapply processNotes_batch_result; eassumption.
  - apply failedToProcess_names.
Qed.

Lemma processNotes_batch_witness :
  let out := complete rejectsFirst (processNotes idle) 0 in
  let r := fst (fst (fst out)) in
  processed r = 1
  /\ errors r = [lit "Failed to process 2024-01-01.md: HTTP 500"]
  /\ (success r = true <-> errors r = [])
  /\ exists loopCalls today now,
       snd out
       = [answered DateNow 0%Z;
          answered FindUnprocessedDailyNotes (inr [monday; tuesday]);
          answered (CreateService (lit "openai")) (inr tt)]
         ++ loopCalls ++ [answered DateNow today; answered DateNow now]
       /\ BatchRun plainSettings [monday; tuesday] loopCalls
            (processed r) (errors r).
Proof.
  intros out r.
  assert (E : complete rejectsFirst (processNotes idle) 0
              = (r, snd (fst (fst out)), snd (fst out), snd out)).
  { vm_compute. reflexivity. }
  split; [vm_compute; reflexivity|].
  split; [vm_compute; reflexivity|].
  split; [exact (proj1 (@processNotes_batch _ _ _ _ _ _ _ _ E))|].
  refine (proj1 (proj2 (@processNotes_batch _ _ _ _ _ _ _ _ E)) eq_refl
            0%Z 0 [monday; tuesday] 0 tt 0 eq_refl eq_refl _ eq_refl).
  discriminate.
Defined.

End SchedulerFacts.

(* ================================================================== *)
(** * Part III: further properties of the code *)
(* ================================================================== *)

(** ** Trimming and white space *)

Module SpaceFacts.

Import DateUtils RegExpFacts.

Lemma trimStart_stops (s : str) : stopsAt isSpace (trimStart s).
Proof.
  induction s as [|c s IH]; cbn [trimStart]; [exact I|].
  destruct (isSpace c) eqn:E; [exact IH | exact E].
Qed.

Lemma trimStart_suffix (s : str) :
  exists u, s = u ++ trimStart s /\ Forall (fun c => isSpace c = true) u.
Proof.
  induction s as [|c s (u & E & Hu)]; cbn [trimStart].
  - exists []. split; [reflexivity | constructor].
  - destruct (isSpace c) eqn:Hc.
    + exists (c :: u). split; [cbn; f_equal; exact E | constructor; assumption].
    + exists []. split; [reflexivity | constructor].
Qed.

Lemma trimEnd_prefix (s : str) :
  exists v, s = trimEnd s ++ v /\ Forall (fun c => isSpace c = true) v.
Proof.
  unfold trimEnd. destruct (trimStart_suffix (rev s)) as (u & E & Hu).
  exists (rev u). split.
  - rewrite <- rev_app_distr, <- E, rev_involutive. reflexivity.
  - apply Forall_rev, Hu.
Qed.

(** What [trim] returns is empty or has no white space at its ends. *)
Lemma trim_shape (s : str) :
  trim s = [] \/ (stopsAt isSpace (trim s) /\ endsWell (trim s)).
Proof.
  unfold trim. pose proof (trimStart_stops s) as H.
  destruct (trimStart s) as [|c t]; [left; reflexivity|]. right.
  cbn in H. unfold trimEnd. cbn [rev].
  rewrite trimStart_app by exact H.
  rewrite rev_app_distr. cbn [rev app]. split; [exact H|].
  destruct (rev (trimStart (rev t))) as [|y r] eqn:E.
  - exists [], c. split; [reflexivity | exact H].
  - pose proof (trimStart_stops (rev t)) as Hs.
    destruct (trimStart (rev t)) as [|x q]; [discriminate|].
    cbn [rev] in E. cbn in Hs.
    exists (c :: rev q), x. split; [|exact Hs].
    rewrite <- E. reflexivity.
Qed.

Lemma trim_trim (s : str) : trim (trim s) = trim s.
Proof.
  destruct (trim_shape s) as [->|[Hs He]]; [reflexivity|].
  apply trim_id; assumption.
Qed.

Lemma adjacent_suffix P Q (u v : str) :
  adjacent P Q (u ++ v) = false -> adjacent P Q v = false.
Proof.
  intros H. destruct (adjacent P Q v) eqn:E; [|reflexivity].
  rewrite (adjacent_app_r P Q u v E) in H. discriminate.
Qed.

Lemma adjacent_prefix P Q (u v : str) :
  adjacent P Q (u ++ v) = false -> adjacent P Q u = false.
Proof.
  intros H. destruct (adjacent P Q u) eqn:E; [|reflexivity].
  rewrite (adjacent_app_l P Q u v E) in H. discriminate.
Qed.

Lemma trim_adjacent P Q (s : str) :
  adjacent P Q s = false -> adjacent P Q (trim s) = false.
Proof.
  intros H. unfold trim.
  destruct (trimStart_suffix s) as (u & E & _).
  destruct (trimEnd_prefix (trimStart s)) as (v & E' & _).
  rewrite E in H. apply adjacent_suffix in H.
  rewrite E' in H. apply adjacent_prefix in H. exact H.
Qed.

(** What collapsing the runs of white space leaves. *)
Lemma collapseFrom_spaced (s : str) : forall inRun,
  without otherSpace (collapseFrom inRun s)
  /\ adjacent isSpace isSpace (collapseFrom inRun s) = false
  /\ (inRun = true -> stopsAt isSpace (collapseFrom inRun s)).
Proof.
  induction s as [|c s IH]; intros inRun; cbn [collapseFrom].
  - repeat split. constructor.
  - destruct (isSpace c) eqn:Hc.
    + destruct (IH true) as (W & A & S). destruct inRun.
      * repeat split; auto.
      * split; [constructor; [reflexivity | exact W]|].
        split; [|discriminate].
        rewrite adjacent_cons, A. specialize (S eq_refl).
        destruct (collapseFrom true s) as [|y r]; [reflexivity|].
        cbn in S. rewrite S. reflexivity.
    + destruct (IH false) as (W & A & _).
      split; [constructor; [unfold otherSpace; rewrite Hc; reflexivity | exact W]|].
      split; [rewrite adjacent_cons, Hc, A; reflexivity | intros _; exact Hc].
Qed.

Lemma collapseFrom_last (u : str) x : forall inRun,
  isSpace x = false ->
  collapseFrom inRun (u ++ [x]) = collapseFrom inRun u ++ [x].
Proof.
  induction u as [|c u IH]; intros inRun Hx; cbn [app collapseFrom].
  - rewrite Hx. reflexivity.
  - destruct (isSpace c); [destruct inRun|]; rewrite IH by exact Hx; reflexivity.
Qed.

(** Collapsing keeps a trimmed text trimmed. *)
Lemma collapse_trimmed (s : str) :
  trim s = s -> trim (collapseWhitespace s) = collapseWhitespace s.
Proof.
  intros H. destruct (trim_shape s) as [E|[Hs He]]; rewrite H in *.
  - subst s. reflexivity.
  - destruct He as (u & x & -> & Hx). unfold collapseWhitespace.
    rewrite collapseFrom_last by exact Hx.
    apply trim_id; [|eexists _, _; split; [reflexivity | exact Hx]].
    destruct u as [|c u]; cbn [app collapseFrom] in *.
    + exact Hx.
    + rewrite Hs. exact Hs.
Qed.

Lemma singleSpaced_trim_collapse (s : str) :
  singleSpaced (trim (collapseWhitespace s)).
Proof.
  destruct (collapseFrom_spaced s false) as (W & A & _).
  split; [apply trim_without, W|].
  split; [apply trim_adjacent, A | apply trim_trim].
Qed.

End SpaceFacts.

(** ** More on the coordinate parser *)

Module ExtractionFacts.

Import CoordinateParser DateUtils RegExpFacts CoordinateFacts SpaceFacts.

Lemma has_iff (set : list str) (x : str) : has set x = true <-> In x set.
Proof.
  unfold has. rewrite existsb_exists. split.
  - intros (y & Hy & E). apply SentimentFacts.eqb_true_iff in E. subst y.
    exact Hy.
  - intros H. exists x. split; [exact H | apply SentimentFacts.eqb_true_iff].
    reflexivity.
Qed.

(** The loop keeps the [raw] texts of the coordinates distinct and among
    the members of [processedRaws]. *)
Lemma processMatch_keeps st m :
  NoDup (map raw (coordinates st)) ->
  (forall c, In c (coordinates st) -> In (raw c) (processedRaws st)) ->
  NoDup (map raw (coordinates (processMatch st m)))
  /\ (forall c, In c (coordinates (processMatch st m)) ->
        In (raw c) (processedRaws (processMatch st m))).
Proof.
  intros N S. unfold processMatch.
  destruct (has (processedRaws st) (matched m)) eqn:Hhas; [auto|].
  assert (Hnew : ~ In (matched m) (processedRaws st))
    by (intros Hin; apply has_iff in Hin; congruence).
  assert (Old : forall c, In c (coordinates st) ->
                  In (raw c) (processedRaws st ++ [matched m]))
    by (intros c Hc; apply in_or_app; left; apply S, Hc).
  destruct (parsePair (groups m)) as [[la ln]|]; [|auto].
  destruct (isValidCoordinate la ln); [|auto].
  cbn [coordinates processedRaws]. split.
  - rewrite map_app. apply NoDup_app; [exact N | repeat constructor; auto |].
    intros r Hr [<-|[]]. apply in_map_iff in Hr as (c & E & Hc).
    apply Hnew. cbn [raw] in E. rewrite <- E. apply S, Hc.
  - intros c Hc. apply in_app_or in Hc as [Hc|[<-|[]]]; [apply Old, Hc|].
    apply in_or_app. right. left. reflexivity.
Qed.

Lemma processMatch_distinct : forall ms st,
  NoDup (map raw (coordinates st)) ->
  (forall c, In c (coordinates st) -> In (raw c) (processedRaws st)) ->
  NoDup (map raw (coordinates (fold_left processMatch ms st))).
Proof.
  induction ms as [|m ms IH]; intros st N S; [exact N|].
  cbn [fold_left]. destruct (@processMatch_keeps st m N S) as [N' S'].
  apply IH; assumption.
Qed.

(** X1.  The coordinates that [extractCoordinates] returns have pairwise
    different [raw] texts: a text that several patterns match, or that
    occurs several times, is reported once. *)
Theorem extractCoordinates_distinct (content : str) :
  NoDup (map raw (extractCoordinates content)).
Proof.
  unfold extractCoordinates. rewrite fold_left_processPattern.
  apply processMatch_distinct; [constructor | intros c []].
Qed.

(** Every match of a scan is a match at some position of the text. *)
Lemma scan_located re n m : forall (s : str) skip,
  In (Found m) (scan re n s skip) ->
  exists pre t, s = pre ++ t /\ matchAt re n t = Some m.
Proof.
  induction s as [|c s IH]; intros skip H.
  - destruct skip; cbn in H; [|contradiction].
    destruct (matchAt re n []) as [m'|] eqn:E; [|contradiction].
    destruct H as [H|[]]. injection H as ->. exists [], []. auto.
  - assert (Later : forall j, In (Found m) (scan re n s j) ->
                      exists pre t, c :: s = pre ++ t /\ matchAt re n t = Some m).
    { intros j Hj. destruct (IH _ Hj) as (pre & t & -> & Ht).
      exists (c :: pre), t. auto. }
    destruct skip as [|j]; cbn [scan] in H; [|apply (Later _ H)].
    destruct (matchAt re n (c :: s)) as [m'|] eqn:E.
    + destruct H as [H|H]; [injection H as ->; exists [], (c :: s); auto|].
      destruct (matched m') as [|x w]; [|apply (Later _ H)].
      destruct H as [H|H]; [discriminate | apply (Later _ H)].
    + destruct H as [H|H]; [discriminate | apply (Later _ H)].
Qed.

Lemma execAll_located re (s : str) m :
  In m (execAll re s) -> exists pre, s = pre ++ matched m ++ after m.
Proof.
  unfold execAll. intros H. apply in_flat_map in H as (p & Hp & Hm).
  destruct p as [c|m']; [contradiction|]. destruct Hm as [->|[]].
  apply scan_located in Hp as (pre & t & -> & Ht).
  apply matchAt_sound in Ht as [-> _]. exists pre. reflexivity.
Qed.

(** X2.  The [raw] text of every coordinate that [extractCoordinates]
    returns is a piece of the content, and it holds a digit. *)
Theorem extractCoordinates_raw_in_content (content : str) (c : Coordinate) :
  In c (extractCoordinates content) ->
  (exists pre post, content = pre ++ raw c ++ post)
  /\ includes content (raw c) = true
  /\ exists x, In x (raw c) /\ isDigit x = true.
Proof.
  intros H.
  assert (E : exists pre post, content = pre ++ raw c ++ post).
  { unfold extractCoordinates in H. rewrite fold_left_processPattern in H.
    apply processMatch_raws in H as [[]|(m & Hin & ->)].
    apply in_flat_map in Hin as (p & _ & Hm).
    apply execAll_located in Hm as [pre Hm]. eauto. }
  split; [exact E|]. split; [|apply (raw_has_digit content c H)].
  destruct E as (pre & post & E). rewrite E at 1.
  apply SchedulerFacts.includes_middle.
Qed.

Lemma extractCoordinates_raw_in_content_witness :
  includes (lit "Lunch at 40.7128, -74.0060 downtown")
    (lit "40.7128, -74.0060") = true.
Proof.
  apply (proj1 (proj2
    (@extractCoordinates_raw_in_content
       (lit "Lunch at 40.7128, -74.0060 downtown")
       (mkCoordinate (parseFloat (lit "40.7128")) (parseFloat (lit "-74.0060"))
          (lit "40.7128, -74.0060"))
       ltac:(vm_compute; left; reflexivity)))).
Defined.

(** A pattern that needs a character of [P] matches nowhere in a text
    without one. *)
Lemma demands_nowhere re P (T : str) :
  demands (ignoreCase re) P (source re) = true ->
  without P T -> nowhere re T.
Proof.
  intros D W pre t -> .
  destruct (matchAt re (length (pre ++ t)) t) as [m|] eqn:E; [|reflexivity].
  apply matchAt_sound in E as [Et L].
  destruct (demands_sound _ _ _ D _ L) as (x & Hin & Hx).
  unfold without in W. rewrite Forall_forall in W.
  rewrite (W x) in Hx; [discriminate|].
  apply in_or_app. right. rewrite Et. apply in_or_app. left. exact Hin.
Qed.

Lemma pattern_nowhere p (T : str) :
  In p COORDINATE_PATTERNS -> without isDigit T -> nowhere p T.
Proof.
  intros Hp W. apply (@demands_nowhere p isDigit T); [|exact W].
  pose proof patterns_demand_digit as D. rewrite Forall_forall in D.
  apply D, Hp.
Qed.

Lemma blankLines_first n x t :
  chrMatch false "010" x = false -> matchAt blankLines n (x :: t) = None.
Proof.
  intros H. unfold matchAt. cbn [blankLines source ignoreCase seq].
  rewrite exec_Seq, exec_Chr, H. reflexivity.
Qed.

Lemma otherSpace_newline c :
  otherSpace c = false -> chrMatch false "010" c = false.
Proof. all_chars c. Qed.

Lemma replace_blankLines_collapsed (s : str) :
  replace blankLines (lit (String "010" EmptyString)) (collapseWhitespace s)
  = collapseWhitespace s.
Proof.
  apply replace_no_match.
  apply (@nowhere_first blankLines (chrMatch false "010") _
           blankLines_first (fun _ => eq_refl)).
  apply (@without_weaken otherSpace _ _ otherSpace_newline).
  apply (collapseFrom_spaced s false).
Qed.

(** The clean-up at the end of [removeCoordinatesFromContent]. *)
Lemma cleanUp_collapse (X : str) :
  trim (replace blankLines (lit (String "010" EmptyString))
          (replace spaceRuns (lit " ") X))
  = trim (collapseWhitespace X).
Proof.
  change spaceRuns with whitespaceRuns.
  rewrite DateFacts.replace_whitespaceRuns, replace_blankLines_collapsed.
  reflexivity.
Qed.

(** A text without digits goes through both functions unmatched. *)
Lemma digitless_content (content : str) :
  without isDigit content ->
  extractCoordinates content = []
  /\ removeCoordinatesFromContent content
     = collapseWhitespace (trim content).
Proof.
  intros W. split.
  - rewrite extractCoordinates_matches.
    rewrite !execAll_no_match
      by (apply pattern_nowhere; [cbn; tauto | exact W]).
    reflexivity.
  - unfold removeCoordinatesFromContent. rewrite cleanUp_collapse.
    cbn [COORDINATE_PATTERNS fold_left].
    rewrite (@replace_no_match bracketPattern [] content)
      by (apply pattern_nowhere; [cbn; tauto | exact W]).
    repeat (rewrite (@replace_no_match _ [] (trim content))
              by (apply pattern_nowhere;
                  [cbn; tauto | apply trim_without, W]);
            rewrite trim_trim).
    apply collapse_trimmed, trim_trim.
Qed.

(** X3.  A text without digits holds no coordinate: [extractCoordinates]
    returns the empty list (also for the empty text), and
    [removeCoordinatesFromContent] only trims the text and turns each run
    of white space into one space. *)
Theorem no_digit_no_coordinate (content : str) :
  without isDigit content ->
  extractCoordinates content = []
  /\ removeCoordinatesFromContent content
     = collapseWhitespace (trim content).
Proof. apply digitless_content. Qed.

Lemma no_digit_no_coordinate_witness :
  removeCoordinatesFromContent (lit "  walked   the dog ")
  = lit "walked the dog".
Proof.
  rewrite (proj2 (@no_digit_no_coordinate (lit "  walked   the dog ")
                    ltac:(repeat constructor))).
  reflexivity.
Defined.

Lemma removeCoordinates_spaced (content : str) :
  singleSpaced (removeCoordinatesFromContent content).
Proof.
  unfold removeCoordinatesFromContent. rewrite cleanUp_collapse.
  apply singleSpaced_trim_collapse.
Qed.

(** X4.  Whatever the content, what [removeCoordinatesFromContent] returns
    is on one line and single-spaced: its only white space is the space
    character, never twice in a row and never at either end.  (The
    replacement of blank lines that follows the collapsing of white space
    finds no line feed left.) *)
Theorem removeCoordinates_single_spaced (content : str) :
  singleSpaced (removeCoordinatesFromContent content)
  /\ forall X : str,
       replace blankLines (lit (String "010" EmptyString))
         (replace spaceRuns (lit " ") X)
       = replace spaceRuns (lit " ") X.
Proof.
  split.
  - apply removeCoordinates_spaced.
  - intros X. change spaceRuns with whitespaceRuns.
    rewrite DateFacts.replace_whitespaceRuns.
    apply replace_blankLines_collapsed.
Qed.

End ExtractionFacts.

(** ** More on file names *)

Module FilenameFacts.

Import DateUtils RegExpFacts SpaceFacts DateFacts.

Lemma dashIllegal_legal (s : str) : without invalidChar (dashIllegal s).
Proof.
  induction s as [|c s IH]; cbn [dashIllegal map]; constructor; [|exact IH].
  destruct (invalidChar c) eqn:E; [reflexivity | exact E].
Qed.

Lemma sanitizeFilename_steps (s : str) :
  sanitizeFilename s
  = trim (dotsToMd (stripLeadingDots (collapseWhitespace (dashIllegal s)))).
Proof.
  unfold sanitizeFilename.
  rewrite replace_invalidChars, replace_whitespaceRuns,
    replace_leadingDots, replace_trailingDots. reflexivity.
Qed.

(** X5.  A name that [sanitizeFilename] returns, and so every name that
    [generateFilename] returns, holds none of the nine characters that the
    file system refuses, whatever the date and the template. *)
Theorem generateFilename_legal (date : LocalDate) (template : str) :
  without invalidChar (generateFilename date template)
  /\ forall filename : str, without invalidChar (sanitizeFilename filename).
Proof.
  assert (H : forall filename : str,
            without invalidChar (sanitizeFilename filename)).
  { intros filename. rewrite sanitizeFilename_steps.
    apply trim_without.
    apply dotsToMd_without; [reflexivity | reflexivity | reflexivity |].
    apply stripLeadingDots_without.
    apply collapseFrom_without; [reflexivity|].
    apply dashIllegal_legal. }
  split; [apply H | exact H].
Qed.

Lemma stripLeadingDots_suffix (s : str) : exists u, s = u ++ stripLeadingDots s.
Proof.
  induction s as [|c s [u E]]; cbn [stripLeadingDots]; [exists []; reflexivity|].
  destruct (isDot c); [|exists []; reflexivity].
  exists (c :: u). cbn. f_equal. exact E.
Qed.

Lemma stripTrailingDots_prefix (s : str) :
  exists v, s = stripTrailingDots s ++ v.
Proof.
  unfold stripTrailingDots. destruct (stripLeadingDots_suffix (rev s)) as [u E].
  exists (rev u). rewrite <- rev_app_distr, <- E, rev_involutive. reflexivity.
Qed.

Lemma dotsToMd_adjacent (s : str) :
  adjacent isSpace isSpace s = false ->
  adjacent isSpace isSpace (dotsToMd s) = false.
Proof.
  intros H. unfold dotsToMd. destruct (endsWithDot s); [|exact H].
  rewrite CoordinateFacts.adjacent_app_tail by (repeat constructor).
  destruct (stripTrailingDots_prefix s) as [v E]. rewrite E in H.
  apply (adjacent_prefix _ _ _ _ H).
Qed.

(** X6.  A name that [sanitizeFilename] returns, and so every name that
    [generateFilename] returns, is on one line and single-spaced: its only
    white space is the space character, never twice in a row and never at
    either end. *)
Theorem generateFilename_single_spaced (date : LocalDate) (template : str) :
  singleSpaced (generateFilename date template)
  /\ forall filename : str, singleSpaced (sanitizeFilename filename).
Proof.
  assert (H : forall filename : str, singleSpaced (sanitizeFilename filename)).
  { intros filename. rewrite sanitizeFilename_steps.
    destruct (collapseFrom_spaced (dashIllegal filename) false) as (W & A & _).
    fold (collapseWhitespace (dashIllegal filename)) in W, A.
    split; [|split; [|apply trim_trim]].
    - apply trim_without.
      apply dotsToMd_without; [reflexivity | reflexivity | reflexivity |].
      apply stripLeadingDots_without, W.
    - apply trim_adjacent, dotsToMd_adjacent.
      destruct (stripLeadingDots_suffix
                  (collapseWhitespace (dashIllegal filename))) as [u E].
      rewrite E in A. apply (adjacent_suffix _ _ _ _ A). }
  split; [apply H | exact H].
Qed.

End FilenameFacts.

(** ** More on the AI service layer *)

Module ServiceFacts.

Import AIService RegExpFacts SpaceFacts.

(** *** The retry loop for any budget *)

Lemma failed_step fetch retries attempt remaining log :
  failed (fetch attempt) -> attempt <> retries ->
  attempts fetch retries attempt (S remaining) log
  = attempts fetch retries (S attempt) remaining
      ((log ++ [Fetch attempt]) ++ [Sleep (retryDelay attempt)]).
Proof.
  intros F Hne. cbn [attempts].
  apply Nat.eqb_neq in Hne. rewrite Hne.
  destruct (fetch attempt) as [r|e]; [|reflexivity].
  cbn in F. rewrite F. reflexivity.
Qed.

Lemma waits_step first n (log : list Effect) :
  ((log ++ [Fetch first]) ++ [Sleep (retryDelay first)]) ++ waits (S first) n
  = log ++ waits first (S n).
Proof. cbn [waits]. unfold retryDelay. rewrite <- !app_assoc. reflexivity. Qed.

Lemma attempts_answer fetch retries r : forall k attempt remaining log,
  attempt + k <= retries -> k < remaining ->
  (forall j, j < k -> failed (fetch (attempt + j))) ->
  fetch (attempt + k) = Resolves r -> ok r = true ->
  attempts fetch retries attempt remaining log
  = (inr r, log ++ waits attempt k ++ [Fetch (attempt + k)]).
Proof.
  induction k as [|k IH]; intros attempt remaining log Hle Hrem Hfail Hk Hok;
    (destruct remaining as [|remaining]; [lia|]).
  - rewrite Nat.add_0_r in *. cbn [attempts waits app]. rewrite Hk, Hok.
    reflexivity.
  - rewrite failed_step;
      [ | specialize (Hfail 0 ltac:(lia)); rewrite Nat.add_0_r in Hfail;
          exact Hfail | lia ].
    rewrite (IH (S attempt)); try lia.
    + rewrite app_assoc, waits_step, <- app_assoc.
      replace (S attempt + k) with (attempt + S k) by lia. reflexivity.
    + intros j Hj. replace (S attempt + j) with (attempt + S j) by lia.
      apply Hfail. lia.
    + replace (S attempt + k) with (attempt + S k) by lia. exact Hk.
    + exact Hok.
Qed.

(** The error that the loop throws for a failed last attempt, before the
    outer [catch] looks at it. *)
Lemma attempts_exhausted fetch retries : forall remaining attempt log,
  attempt + remaining = S retries -> 0 < remaining ->
  (forall j, j < remaining -> failed (fetch (attempt + j))) ->
  attempts fetch retries attempt remaining log
  = (inl match fetch retries with
         | Resolves r => newError (httpErrorMessage r)
         | Rejects e => e
         end,
     log ++ waits attempt (remaining - 1) ++ [Fetch retries]).
Proof.
  induction remaining as [|remaining IH]; intros attempt log Hsum Hpos Hfail;
    [lia|].
  destruct remaining as [|remaining].
  - assert (attempt = retries) by lia. subst attempt.
    specialize (Hfail 0 ltac:(lia)). rewrite Nat.add_0_r in Hfail.
    cbn [attempts waits app Nat.sub]. rewrite Nat.eqb_refl.
    destruct (fetch retries) as [r|e]; [|reflexivity].
    cbn in Hfail. rewrite Hfail. reflexivity.
  - rewrite failed_step;
      [ | specialize (Hfail 0 ltac:(lia)); rewrite Nat.add_0_r in Hfail;
          exact Hfail | lia ].
    rewrite (IH (S attempt)); try lia.
    + rewrite app_assoc, waits_step, <- app_assoc.
      replace (S (S remaining) - 1) with (S (S remaining - 1)) by lia.
      reflexivity.
    + intros j Hj. replace (S attempt + j) with (attempt + S j) by lia.
      apply Hfail. lia.
Qed.

Lemma makeHttpRequest_exhausted fetch retries timeout :
  0 < retries ->
  (forall k, 1 <= k <= retries -> failed (fetch k)) ->
  makeHttpRequest fetch retries timeout
  = (inl (terminalError (fetch retries) timeout),
     waits 1 (retries - 1) ++ [Fetch retries]).
Proof.
  intros Hpos Hfail. unfold makeHttpRequest.
  rewrite (@attempts_exhausted fetch retries retries 1 []); try lia.
  - cbn [app]. unfold terminalError.
    destruct (fetch retries) as [r|e]; [reflexivity|].
    destruct (JsString.eqb (name e) (lit "AbortError")); reflexivity.
  - intros j Hj. apply Hfail. lia.
Qed.

(** X7.  For every retry budget and every behaviour of the backend,
    [makeHttpRequest] returns the first [ok] response among the first
    [retries] attempts, having made exactly the attempts before it, each
    followed by its wait; when the budget is positive and all [retries]
    attempts fail, it throws the error of the last one after [retries]
    attempts and [retries - 1] waits; with a budget of zero it throws
    [All retry attempts failed] without any attempt. *)
Theorem makeHttpRequest_outcome (fetch : nat -> FetchOutcome)
    (retries : nat) (timeout : Z) :
  (forall n r, 1 <= n <= retries ->
     (forall k, 1 <= k < n -> failed (fetch k)) ->
     fetch n = Resolves r -> ok r = true ->
     makeHttpRequest fetch retries timeout
     = (inr r, waits 1 (n - 1) ++ [Fetch n]))
  /\ (0 < retries ->
      (forall k, 1 <= k <= retries -> failed (fetch k)) ->
      makeHttpRequest fetch retries timeout
      = (inl (terminalError (fetch retries) timeout),
         waits 1 (retries - 1) ++ [Fetch retries]))
  /\ makeHttpRequest fetch 0 timeout
     = (inl (newError (lit "All retry attempts failed")), []).
Proof.
  split; [|split].
  - intros n r Hn Hfail Hfetch Hok. unfold makeHttpRequest.
    rewrite (@attempts_answer fetch retries r (n - 1) 1 retries []);
      try lia.
    + replace (1 + (n - 1)) with n by lia. reflexivity.
    + intros j Hj. apply Hfail. lia.
    + replace (1 + (n - 1)) with n by lia. exact Hfetch.
    + exact Hok.
  - apply makeHttpRequest_exhausted.
  - reflexivity.
Qed.

Lemma makeHttpRequest_outcome_witness :
  makeHttpRequest flaky 5 defaultTimeout
  = (inr (mkHttpResponse true 200 (lit "OK") (lit "{}")),
     [Fetch 1; Sleep 1000; Fetch 2; Sleep 2000; Fetch 3]).
Proof.
  apply (proj1 (makeHttpRequest_outcome flaky 5 defaultTimeout) 3);
    [ lia | | reflexivity | reflexivity ].
  intros k Hk. assert (E : k = 1 \/ k = 2) by lia.
  destruct E as [->| ->]; reflexivity.
Defined.

(** *** The waits *)

Lemma retryDelay_bounds attempt :
  1 <= attempt -> (1000 <= retryDelay attempt <= 10000)%Z.
Proof.
  intros H. unfold retryDelay.
  assert (P : (1 <= 2 ^ (Z.of_nat attempt - 1))%Z).
  { replace 1%Z with (2 ^ 0)%Z at 1 by reflexivity.
    apply Z.pow_le_mono_r; lia. }
  lia.
Qed.

Lemma waits_sleeps first n ms :
  1 <= first -> In (Sleep ms) (waits first n) -> (1000 <= ms <= 10000)%Z.
Proof.
  revert first. induction n as [|n IH]; intros first Hf H; [contradiction|].
  cbn [waits] in H. destruct H as [H|[H|H]]; [discriminate | |].
  - injection H as <-. apply (retryDelay_bounds Hf).
  - apply (IH (S first)); [lia | exact H].
Qed.

Lemma waits_length first n : length (waits first n) = 2 * n.
Proof.
  revert first. induction n as [|n IH]; intros first; [reflexivity|].
  cbn [waits length]. rewrite IH. lia.
Qed.

(** X8.  Whatever the backend does and whatever the positive budget, a
    request makes at most [retries] attempts, waits only between two
    attempts, and each wait lasts at least one and at most ten seconds. *)
Theorem makeHttpRequest_waits (fetch : nat -> FetchOutcome)
    (retries : nat) (timeout : Z) :
  0 < retries ->
  let log := snd (makeHttpRequest fetch retries timeout) in
  (exists n, n < retries /\ log = waits 1 n ++ [Fetch (S n)]
             /\ length log = 2 * n + 1)
  /\ forall ms, In (Sleep ms) log -> (1000 <= ms <= 10000)%Z.
Proof.
  intros Hpos log.
  assert (E : exists n, n < retries /\ log = waits 1 n ++ [Fetch (S n)]).
  { subst log. rewrite makeHttpRequest_log.
    destruct (@attempts_log fetch retries retries 1 []) as (n & Hn & Hlog);
      [lia | lia |].
    exists n. split; [exact Hn | exact Hlog]. }
  destruct E as (n & Hn & E). split.
  - exists n. repeat split; [exact Hn | exact E |].
    rewrite E, length_app, waits_length. cbn. lia.
  - intros ms Hin. rewrite E in Hin. apply in_app_or in Hin as [Hin|[Hin|[]]];
      [|discriminate].
    apply (@waits_sleeps 1 n ms); [lia | exact Hin].
Qed.

Lemma makeHttpRequest_waits_witness :
  0 < 3
  /\ exists n, n < 3
       /\ snd (makeHttpRequest flaky 3 defaultTimeout)
          = waits 1 n ++ [Fetch (S n)]
       /\ length (snd (makeHttpRequest flaky 3 defaultTimeout)) = 2 * n + 1.
Proof.
  split; [lia|].
  exact (proj1 (@makeHttpRequest_waits flaky 3 defaultTimeout ltac:(lia))).
Defined.

(** *** How a failed request is reported *)

Lemma includes_app_l (s t p : str) :
  includes s p = true -> includes (s ++ t) p = true.
Proof.
  intros H. apply includes_sound in H as (pre & post & ->).
  rewrite <- !app_assoc. apply SchedulerFacts.includes_middle.
Qed.

Lemma startsWith_barrier (u t p : str) x :
  ~ In x p -> startsWith (u ++ x :: t) p = startsWith (u ++ [x]) p.
Proof.
  intros Hx. revert p Hx. induction u as [|c u IH]; intros p Hx.
  - destruct p as [|y p]; [reflexivity|]. cbn [app startsWith].
    destruct (Ascii.eqb y x) eqn:E.
    + apply Ascii.eqb_eq in E. exfalso. apply Hx. left. exact E.
    + reflexivity.
  - destruct p as [|y p]; [reflexivity|]. cbn [app startsWith].
    rewrite IH; [reflexivity|]. intros H. apply Hx. right. exact H.
Qed.

(** An occurrence of [p] cannot lie across a character that [p] lacks. *)
Lemma includes_barrier (u t p : str) x :
  ~ In x p -> p <> [] ->
  includes (u ++ x :: t) p = includes (u ++ [x]) p || includes t p.
Proof.
  intros Hx Hp. induction u as [|c u IH].
  - pose proof (@startsWith_barrier [] t p x Hx) as B. cbn [app] in B.
    cbn [app includes]. rewrite B.
    destruct p as [|y p]; [congruence|].
    destruct (startsWith [x] (y :: p)); [reflexivity|].
    cbn [orb startsWith]. reflexivity.
  - pose proof (@startsWith_barrier (c :: u) t p x Hx) as B. cbn [app] in B.
    cbn [app includes]. rewrite IH, B.
    rewrite orb_assoc. reflexivity.
Qed.

Lemma httpErrorMessage_includes r (k : string) :
  ~ In " "%char (lit k) -> lit k <> [] ->
  includes (httpErrorMessage r) (lit k)
  = includes (lit "HTTP " ++ natToString (status r) ++ lit ": ") (lit k)
    || includes (statusText r) (lit k).
Proof.
  intros Hsp Hne. unfold httpErrorMessage.
  replace (lit "HTTP " ++ natToString (status r) ++ lit ": " ++ statusText r)
    with ((lit "HTTP " ++ natToString (status r) ++ lit ":")
          ++ " "%char :: statusText r)
    by (rewrite <- !app_assoc; reflexivity).
  rewrite includes_barrier by assumption.
  rewrite <- !app_assoc. reflexivity.
Qed.

Ltac keyword k :=
  rewrite (@httpErrorMessage_includes _ k)
    by (first [ discriminate | cbn; intuition discriminate ]).

(** Evaluates the searches in the part of the message before the status
    text. *)
Ltac prefix_includes :=
  repeat match goal with
  | |- context [includes (lit "HTTP " ++ natToString ?n ++ lit ": ") (lit ?k)] =>
      let v := eval vm_compute in
                 (includes (lit "HTTP " ++ natToString n ++ lit ": ") (lit k)) in
      replace (includes (lit "HTTP " ++ natToString n ++ lit ": ") (lit k))
        with v by (vm_compute; reflexivity)
  end.

Lemma terminal_status fetchLast timeout code keywords :
  answeredWith fetchLast code keywords ->
  exists r, fetchLast = Resolves r /\ status r = code
    /\ message (terminalError fetchLast timeout) = httpErrorMessage r
    /\ forallb (fun k => negb (includes (statusText r) (lit k))) keywords
       = true.
Proof.
  destruct fetchLast as [r|e]; [|contradiction].
  intros (_ & Hs & Hk). exists r. auto.
Qed.

(** X9.  How [handleApiError] words the error that [makeHttpRequest]
    throws when all attempts fail.  When the last attempt was cut by the
    time-out signal, the message is that the request timed out, for every
    time-out value.  When the last answer has status 401 or 403, the
    message is that authentication failed; with status 429, that the rate
    limit was exceeded; with status 500, 502 or 503, that the server
    failed: each provided the status text holds none of the key words that
    are looked for earlier ([timeout], then [401] and [403], then
    [429]). *)
Theorem failed_request_report (displayName : str)
    (fetch : nat -> FetchOutcome) (retries : nat) (timeout : Z) :
  0 < retries ->
  (forall k, 1 <= k <= retries -> failed (fetch k)) ->
  exists e,
    fst (makeHttpRequest fetch retries timeout) = inl e
    /\ (aborted (fetch retries) ->
        handleApiError displayName (message e)
        = displayName ++ lit " request timed out. Please try again.")
    /\ (answeredWith (fetch retries) 401 ["timeout"]%string
        \/ answeredWith (fetch retries) 403 ["timeout"]%string ->
        handleApiError displayName (message e)
        = displayName
          ++ lit " authentication failed. Please check your API key.")
    /\ (answeredWith (fetch retries) 429 ["timeout"; "401"; "403"]%string ->
        handleApiError displayName (message e)
        = displayName
          ++ lit " rate limit exceeded. Please wait before trying again.")
    /\ (answeredWith (fetch retries) 500
          ["timeout"; "401"; "403"; "429"]%string
        \/ answeredWith (fetch retries) 502
             ["timeout"; "401"; "403"; "429"]%string
        \/ answeredWith (fetch retries) 503
             ["timeout"; "401"; "403"; "429"]%string ->
        handleApiError displayName (message e)
        = displayName ++ lit " server error. Please try again later.").
Proof.
  intros Hpos Hfail.
  exists (terminalError (fetch retries) timeout).
  split; [rewrite makeHttpRequest_exhausted by assumption; reflexivity|].
  split; [|split; [|split]].
  - destruct (fetch retries) as [r|e]; [contradiction|]. cbn [aborted].
    intros Hname. cbn [terminalError]. rewrite Hname. cbn [JsString.eqb].
    replace (JsString.eqb (lit "AbortError") (lit "AbortError")) with true
      by reflexivity.
    cbn [newError message]. unfold handleApiError.
    replace (lit "Request timeout after " ++ intToString timeout ++ lit "ms")
      with (lit "Request " ++ lit "timeout"
            ++ (lit " after " ++ intToString timeout ++ lit "ms"))
      by reflexivity.
    rewrite SchedulerFacts.includes_middle. reflexivity.
  - intros [H|H];
      apply (@terminal_status _ timeout) in H as (r & _ & Hs & -> & Hk);
      cbn [forallb] in Hk; rewrite andb_true_r in Hk;
      apply negb_true_iff in Hk;
      unfold handleApiError;
      keyword "timeout"%string; keyword "401"%string; keyword "403"%string;
      rewrite Hs, Hk; prefix_includes; cbn [orb]; rewrite ?orb_true_r;
      reflexivity.
  - intros H.
    apply (@terminal_status _ timeout) in H as (r & _ & Hs & -> & Hk).
    cbn [forallb] in Hk. rewrite andb_true_r in Hk.
    apply andb_true_iff in Hk as [K1 Hk]. apply andb_true_iff in Hk as [K2 K3].
    apply negb_true_iff in K1, K2, K3.
    unfold handleApiError.
    keyword "timeout"%string. keyword "401"%string. keyword "403"%string.
    keyword "429"%string.
    rewrite Hs, K1, K2, K3. prefix_includes. reflexivity.
  - intros H.
    assert (G : exists r code,
              In code [500; 502; 503] /\ status r = code
              /\ message (terminalError (fetch retries) timeout)
                 = httpErrorMessage r
              /\ forallb (fun k => negb (includes (statusText r) (lit k)))
                   ["timeout"; "401"; "403"; "429"]%string = true).
    { destruct H as [H|[H|H]];
        apply (@terminal_status _ timeout) in H as (r & _ & Hs & Hm & Hk);
        eexists r, _; (split; [|split; [exact Hs | split; [exact Hm | exact Hk]]]);
        cbn; tauto. }
    destruct G as (r & code & Hcode & Hs & -> & Hk).
    cbn [forallb] in Hk. rewrite andb_true_r in Hk.
    apply andb_true_iff in Hk as [K1 Hk]. apply andb_true_iff in Hk as [K2 Hk].
    apply andb_true_iff in Hk as [K3 K4].
    apply negb_true_iff in K1, K2, K3, K4.
    unfold handleApiError.
    keyword "timeout"%string. keyword "401"%string. keyword "403"%string.
    keyword "429"%string. keyword "500"%string. keyword "502"%string.
    keyword "503"%string.
    rewrite Hs, K1, K2, K3, K4.
    destruct Hcode as [<-|[<-|[<-|[]]]]; prefix_includes; cbn [orb];
      rewrite ?orb_true_r; reflexivity.
Qed.

Lemma failed_request_report_witness :
  handleApiError (lit "OpenAI (gpt-4)")
    (lit "Request timeout after 30000ms")
  = lit "OpenAI (gpt-4) request timed out. Please try again.".
Proof.
  destruct (@failed_request_report (lit "OpenAI (gpt-4)") stalled 3
              defaultTimeout ltac:(lia) ltac:(intros k _; exact I))
    as (e & He & Ht & _).
  vm_compute in He. injection He as <-.
  apply Ht. reflexivity.
Defined.

(** *** validateResponse *)

(** X10.  [validateResponse] throws for a response that is empty or white
    space only, and for every other response it returns the trimmed
    response, which is not empty and has no white space at its ends;
    reading the sentiment from the returned text gives what reading it
    from the response gives. *)
Theorem validateResponse_trimmed (response : str) :
  (trim response = [] ->
   validateResponse response
   = inl (newError (lit "Received empty response from AI service")))
  /\ (trim response <> [] ->
      validateResponse response = inr (trim response)
      /\ trim (trim response) = trim response
      /\ parseSentimentFromResponse (trim response)
         = parseSentimentFromResponse response)
  /\ (forall validated,
        validateResponse response = inr validated ->
        validated = trim response /\ validated <> []
        /\ trim validated = validated
        /\ parseSentimentFromResponse validated
           = parseSentimentFromResponse response).
Proof.
  unfold validateResponse. split; [|split].
  - intros ->. reflexivity.
  - intros N. split; [|split].
    + destruct (trim response) as [|c t]; [congruence | reflexivity].
    + apply trim_trim.
    + unfold parseSentimentFromResponse. rewrite trim_trim. reflexivity.
  - intros validated H.
    destruct (trim response) as [|c t] eqn:E; [discriminate|].
    injection H as <-. rewrite <- E.
    split; [reflexivity|]. split; [rewrite E; discriminate|].
    split; [apply trim_trim|].
    unfold parseSentimentFromResponse. rewrite trim_trim. reflexivity.
Qed.

Lemma validateResponse_trimmed_witness :
  validateResponse (lit "  A quiet day.  ") = inr (lit "A quiet day.").
Proof.
  apply (proj1 (proj1 (proj2 (validateResponse_trimmed
                                (lit "  A quiet day.  "))) ltac:(discriminate))).
Defined.

(** *** preparePrompt *)

Lemma splitFirst_none (p : str) : forall s : str,
  includes s p = false -> splitFirst s p = None.
Proof.
  induction s as [|c s IH]; cbn [includes splitFirst]; intros H;
    apply orb_false_iff in H as [H1 H2]; rewrite H1; [reflexivity|].
  rewrite (IH H2). reflexivity.
Qed.

Lemma startsWith_app_l (u t p : str) :
  startsWith u p = true -> startsWith (u ++ t) p = true.
Proof.
  intros H. apply startsWith_sound in H as [post ->].
  rewrite <- app_assoc. apply SentimentFacts.startsWith_app.
Qed.

(** A text without [x] that starts at a place before an [x] ends before
    that [x]. *)
Lemma startsWith_lacking (x : ascii) (t : str) : forall u q : str,
  without (Ascii.eqb x) q ->
  startsWith (u ++ x :: t) q = startsWith u q.
Proof.
  induction u as [|c u IH]; intros q Hq.
  - destruct Hq as [|y q Hy _]; [reflexivity|].
    cbn [app startsWith]. rewrite Ascii.eqb_sym, Hy. reflexivity.
  - destruct Hq as [|y q Hy Hq]; [reflexivity|].
    change ((c :: u) ++ x :: t) with (c :: u ++ x :: t).
    cbn [startsWith]. rewrite (IH q Hq). reflexivity.
Qed.

(** Where the first character of the pattern occurs nowhere else in it,
    the pattern cannot start before one of its occurrences and overlap
    it: the first occurrence is the one with no occurrence in the text
    before it. *)
Lemma splitFirst_first (x : ascii) (p rest : str) :
  without (Ascii.eqb x) p ->
  forall before : str,
  includes before (x :: p) = false ->
  splitFirst (before ++ (x :: p) ++ rest) (x :: p) = Some (before, rest).
Proof.
  intros Hp. induction before as [|c before IH]; intros H.
  - cbn [app]. change (x :: p ++ rest) with ((x :: p) ++ rest).
    destruct ((x :: p) ++ rest) as [|y s] eqn:E; [discriminate|].
    cbn [splitFirst]. rewrite <- E.
    rewrite SentimentFacts.startsWith_app.
    rewrite SentimentFacts.skipn_exact by reflexivity. reflexivity.
  - cbn [includes] in H. apply orb_false_iff in H as [H1 H2].
    change ((c :: before) ++ (x :: p) ++ rest)
      with (c :: before ++ x :: (p ++ rest)).
    cbn [splitFirst].
    assert (N : startsWith (c :: before ++ x :: p ++ rest) (x :: p) = false).
    { cbn [startsWith] in H1 |- *.
      rewrite (@startsWith_lacking x (p ++ rest) before p Hp). exact H1. }
    rewrite N.
    change (before ++ x :: p ++ rest) with (before ++ (x :: p) ++ rest).
    rewrite (IH H2). reflexivity.
Qed.

(** A text that holds the pattern splits at its first occurrence. *)
Lemma includes_first (p : str) :
  p <> [] ->
  forall s : str,
  includes s p = true ->
  exists before rest, s = before ++ p ++ rest /\ includes before p = false.
Proof.
  intros Hp.
  assert (E0 : includes [] p = false)
    by (destruct p; [congruence | reflexivity]).
  induction s as [|c s IH]; intros H; [congruence|].
  cbn [includes] in H.
  destruct (startsWith (c :: s) p) eqn:E.
  - apply startsWith_sound in E as [post E].
    exists [], post. split; [exact E | exact E0].
  - cbn [orb] in H. destruct (IH H) as (before & rest & -> & N).
    exists (c :: before), rest. split; [reflexivity|].
    cbn [includes]. rewrite N, orb_false_r.
    destruct (startsWith (c :: before) p) eqn:F; [|reflexivity].
    apply (@startsWith_app_l (c :: before) (p ++ rest) p) in F.
    cbn [app] in F. congruence.
Qed.

Lemma getSubstitution_plain (m b a : str) : forall replacement : str,
  without isDollar replacement ->
  getSubstitution m b a replacement = replacement.
Proof.
  induction 1 as [|c r Hc _ IH]; cbn [getSubstitution]; [reflexivity|].
  unfold isDollar in Hc. rewrite Hc, IH. reflexivity.
Qed.

Lemma getSubstitution_app (m b a u v : str) :
  without isDollar u ->
  getSubstitution m b a (u ++ v) = u ++ getSubstitution m b a v.
Proof.
  induction 1 as [|c r Hc _ IH]; cbn [app getSubstitution]; [reflexivity|].
  unfold isDollar in Hc. rewrite Hc, IH. reflexivity.
Qed.

Lemma languageOf_not_auto (st : Scheduler.Settings) :
  Scheduler.languageOf st <> Some (lit "auto").
Proof.
  unfold Scheduler.languageOf.
  destruct (JsString.eqb (Scheduler.outputLanguage st) (lit "auto")) eqn:E;
    [discriminate|].
  intros H. injection H as H. rewrite H in E. discriminate.
Qed.

(** X11.  What [preparePrompt] builds.  A template without the
    placeholder [{content}] is kept as it is, so the note's content does
    not reach the prompt.  Every other template splits at its first
    placeholder, the one with no placeholder in the text before it, and
    that placeholder, and only that one, is replaced: by the trimmed
    content when the content holds no dollar sign, while a doubled dollar
    sign in the content comes out as a single one; the text before and
    the text after the first placeholder are kept as they are, with any
    other brace or placeholder they hold.  The text that follows depends
    on the language only, and for the language that the scheduler passes
    it always ends with the request to return only the journal content. *)
Theorem preparePrompt_shape (template content : str) (language : option str) :
  (includes template (lit "{content}") = false ->
   preparePrompt template content language
   = template ++ languageSuffix language)
  /\ (includes template (lit "{content}") = true ->
      exists before rest : str,
        template = before ++ lit "{content}" ++ rest
        /\ includes before (lit "{content}") = false)
  /\ (forall before rest : str,
        template = before ++ lit "{content}" ++ rest ->
        includes before (lit "{content}") = false ->
        (without isDollar (trim content) ->
         preparePrompt template content language
         = before ++ trim content ++ rest ++ languageSuffix language)
        /\ (forall u v : str,
              trim content = u ++ lit "$$" ++ v ->
              without isDollar u -> without isDollar v ->
              preparePrompt template content language
              = before ++ (u ++ lit "$" ++ v) ++ rest
                ++ languageSuffix language))
  /\ (forall st : Scheduler.Settings,
        exists instruction,
          languageSuffix (Scheduler.languageOf st)
          = instruction
            ++ lit "Return only the journal content, no introductions or explanations.").
Proof.
  split; [|split; [|split]].
  - intros H. unfold preparePrompt, replaceFirst.
    rewrite splitFirst_none by exact H. reflexivity.
  - apply includes_first. discriminate.
  - intros before rest -> Hb.
    assert (S : splitFirst (before ++ lit "{content}" ++ rest) (lit "{content}")
                = Some (before, rest)).
    { apply (@splitFirst_first "{" (lit "content}") rest); [|exact Hb].
      repeat constructor. }
    unfold preparePrompt, replaceFirst. rewrite S. split.
    + intros Hd. rewrite getSubstitution_plain by exact Hd.
      rewrite <- !app_assoc. reflexivity.
    + intros u v E Hu Hv. rewrite E.
      rewrite getSubstitution_app by exact Hu.
      cbn [lit list_ascii_of_string app getSubstitution].
      replace (Ascii.eqb "$" "$") with true by reflexivity.
      rewrite getSubstitution_plain by exact Hv.
      rewrite <- !app_assoc. reflexivity.
  - intros st. pose proof (languageOf_not_auto st) as N.
    destruct (Scheduler.languageOf st) as [[|c l]|]; cbn [languageSuffix].
    + eexists. unfold sameLanguage. rewrite app_assoc.
      change (lit "IMPORTANT: Write the journal entry in the same language as the original content. Do not translate or change the language. Return only the journal content, no introductions or explanations.")
        with (lit "IMPORTANT: Write the journal entry in the same language as the original content. Do not translate or change the language. "
              ++ lit "Return only the journal content, no introductions or explanations.").
      rewrite app_assoc. reflexivity.
    + destruct (JsString.eqb (c :: l) (lit "auto")) eqn:E.
      * apply SentimentFacts.eqb_true_iff in E. rewrite E in N. congruence.
      * eexists. unfold explicitLanguage.
        change (lit ". Return only the journal content, no introductions or explanations.")
          with (lit ". "
                ++ lit "Return only the journal content, no introductions or explanations.").
        rewrite !app_assoc. reflexivity.
    + eexists. unfold sameLanguage. rewrite app_assoc.
      change (lit "IMPORTANT: Write the journal entry in the same language as the original content. Do not translate or change the language. Return only the journal content, no introductions or explanations.")
        with (lit "IMPORTANT: Write the journal entry in the same language as the original content. Do not translate or change the language. "
              ++ lit "Return only the journal content, no introductions or explanations.").
      rewrite app_assoc. reflexivity.
Qed.

Lemma preparePrompt_shape_witness :
  preparePrompt (lit "{date}: {content} ({content})") (lit " walked the dog ")
    None
  = lit "{date}: " ++ lit "walked the dog" ++ lit " ({content})"
    ++ sameLanguage.
Proof.
  refine (proj1 (proj1 (proj2 (proj2
            (preparePrompt_shape (lit "{date}: {content} ({content})")
               (lit " walked the dog ") None)))
            (lit "{date}: ") (lit " ({content})") eq_refl eq_refl) _).
  vm_compute. repeat constructor.
Defined.

End ServiceFacts.

(** ** More on the scheduler *)

Module RunFacts.

Import NoteProcessor Scheduler SchedulerFacts.
Local Open Scope task_scope.

Ltac answer h c w :=
  let e := fresh "error" in
  let x := fresh "x" in
  let w' := fresh "w" in
  destruct (h _ c w) as [[e|x] w'].

Ltac finish H :=
  cbn in H; injection H as <- <- <- <-.

(** Every call that the loop makes is one of the two calls of its body. *)
Lemma processEach_inLoop W (h : Handler W) notes :
  forall processedCount errors s w processedCount' errors' s' w' calls,
  complete h (processEach notes processedCount errors s) w
  = (processedCount', errors', s', w', calls) ->
  Forall (fun a => inLoop a = true) calls.
Proof.
  induction notes as [|dailyNote rest IH];
    intros pc errs s w pc' errs' s' w' calls H.
  - cbn in H. injection H as <- <- <- <- <-. constructor.
  - cbn [processEach] in H.
    destruct (blank (prepareContentForAI dailyNote)); [apply (IH _ _ _ _ _ _ _ _ _ H)|].
    unfold bind, get, call in H. cbn [bindRun complete] in H.
    destruct (h _ (ProcessContent _ _ _) w) as [[error|aiResponse] w1].
    + destruct (complete h (processEach rest pc _ s) w1)
        as [[[[pc1 errs1] s1] w1'] calls1] eqn:E.
      injection H as <- <- <- <- <-.
      constructor; [reflexivity | apply (IH _ _ _ _ _ _ _ _ _ E)].
    + cbn [bindRun complete] in H.
      destruct (h _ (CreateJournalEntry _ _ _) w1) as [[error|u] w2];
        destruct (complete h (processEach rest _ _ s) w2)
          as [[[[pc1 errs1] s1] w1'] calls1] eqn:E;
        injection H as <- <- <- <- <-;
        (constructor; [reflexivity|]);
        (constructor; [reflexivity | apply (IH _ _ _ _ _ _ _ _ _ E)]).
Qed.

(** X12.  What [processLatestNote] reports when it is accepted.  It counts
    as processed exactly the journal entries written; it writes at most
    one journal entry, so it counts at most one note, and it sends at most
    one content to the AI service.  A processed note comes
    with [success = true] and no error.  Otherwise there is exactly one
    error message and [lastProcessingTime] is left as it was; when a
    collaborator threw, the result is a failure whose message is
    [Latest note processing failed: ] followed by the text of what was
    thrown. *)
Theorem processLatestNote_report W (h : Handler W) (s : State) (w : W)
    (r : ProcessingResult) (s' : State) (w' : W) (calls : list Answered) :
  isProcessing s = false ->
  complete h (processLatestNote s) w = (r, s', w', calls) ->
  processed r = length (filter wrote calls)
  /\ processed r <= 1
  /\ length (filter wrote calls) <= 1
  /\ length (flat_map contentSent calls) <= 1
  /\ (processed r = 1 -> success r = true /\ errors r = [])
  /\ (processed r = 0 ->
      length (errors r) = 1 /\ lastProcessingTime s' = lastProcessingTime s)
  /\ (forall a e, In a calls -> thrownBy a = Some e ->
        success r = false /\ processed r = 0
        /\ errors r = [latestFailure e]).
Proof.
  intros Hs H. rewrite (@processLatestNote_accepted s Hs) in H.
  cbn [complete] in H. destruct (h Z DateNow w) as [t0 w0].
  unfold processLatestNoteTry, processLatestNoteFinally, bind, call, get, ret,
    modify in H.
  cbn [bindRun complete] in H.
  destruct (h _ FindMostRecentDailyNote w0) as [[error|[note|]] w1].
  - cbn [bindRun complete] in H. destruct (h Z DateNow w1) as [now w2].
    cbn in H. injection H as <- <- <- <-.
    split; [|split; [|split; [|split; [|split; [|split]]]]]; cbn; try lia; try discriminate; auto.
    intros z e [<-|[<-|[<-|[]]]]; cbn; try discriminate. intros E; injection E as <-; auto.
  - cbn [bindRun complete settings setProcessing] in H.
    destruct (h _ (CreateService _) w1) as [[error|u] w2].
    + cbn [bindRun complete] in H. destruct (h Z DateNow w2) as [now w3].
      cbn in H. injection H as <- <- <- <-.
      split; [|split; [|split; [|split; [|split; [|split]]]]]; cbn; try lia; try discriminate; auto.
      intros z e [<-|[<-|[<-|[<-|[]]]]]; cbn; try discriminate. intros E; injection E as <-; auto.
    + cbn [bindRun complete] in H.
      destruct (blank (prepareContentForAI note)).
      * cbn [bindRun complete] in H. destruct (h Z DateNow w2) as [now w3].
        cbn in H. injection H as <- <- <- <-.
        split; [|split; [|split; [|split; [|split; [|split]]]]]; cbn; try lia; try discriminate;
          auto.
        intros z e [<-|[<-|[<-|[<-|[]]]]]; cbn; discriminate.
      * cbn [bindRun complete settings setProcessing] in H.
        destruct (h _ (ProcessContent _ _ _) w2) as [[error|aiResponse] w3].
        -- cbn [bindRun complete] in H. destruct (h Z DateNow w3) as [now w4].
           cbn in H. injection H as <- <- <- <-.
           split; [|split; [|split; [|split; [|split; [|split]]]]]; cbn; try lia; try discriminate;
             auto.
           intros z e [<-|[<-|[<-|[<-|[<-|[]]]]]]; cbn; try discriminate.
           intros E; injection E as <-; auto.
        -- cbn [bindRun complete] in H.
           destruct (h _ (CreateJournalEntry _ _ _) w3) as [[error|v] w4].
           ++ cbn [bindRun complete] in H.
              destruct (h Z DateNow w4) as [now w5].
              cbn in H. injection H as <- <- <- <-.
              split; [|split; [|split; [|split; [|split; [|split]]]]]; cbn; try lia;
                try discriminate; auto.
              intros z e [<-|[<-|[<-|[<-|[<-|[<-|[]]]]]]]; cbn;
                try discriminate.
              intros E; injection E as <-; auto.
           ++ cbn [bindRun complete] in H.
              destruct (h Z DateNow w4) as [today w5].
              cbn [bindRun complete] in H.
              destruct (h Z DateNow w5) as [now w6].
              cbn in H. injection H as <- <- <- <-.
              split; [|split; [|split; [|split; [|split; [|split]]]]]; cbn; try lia;
                try discriminate; auto.
              intros z e [<-|[<-|[<-|[<-|[<-|[<-|[<-|[]]]]]]]]; cbn;
                discriminate.
  - cbn [bindRun complete] in H. destruct (h Z DateNow w1) as [now w2].
    cbn in H. injection H as <- <- <- <-.
    split; [|split; [|split; [|split; [|split; [|split]]]]]; cbn; try lia; try discriminate; auto.
    intros z e [<-|[<-|[<-|[]]]]; cbn; discriminate.
Qed.

Lemma processLatestNote_report_witness :
  length (errors (fst (fst (fst (complete rejectsFirst
                                   (processLatestNote idle) 0))))) = 1.
Proof.
  set (out := complete rejectsFirst (processLatestNote idle) 0).
  assert (E : complete rejectsFirst (processLatestNote idle) 0
              = (fst (fst (fst out)), snd (fst (fst out)), snd (fst out),
                 snd out))
    by (vm_compute; reflexivity).
  refine (proj1 (proj1 (proj2 (proj2 (proj2 (proj2 (proj2
           (@processLatestNote_report nat rejectsFirst idle 0 _ _ _ _ eq_refl E)))))) _)).
  reflexivity.
Defined.

Lemma inLoop_facts (a : Answered) :
  inLoop a = true -> foundNothing a = false /\ serviceCreated a = false.
Proof. destruct a as [A c x]. destruct c; cbn; auto; discriminate. Qed.

Lemma loop_facts (calls : list Answered) :
  Forall (fun a => inLoop a = true) calls ->
  (forall a, In a calls -> inLoop a = false -> False)
  /\ (forall a, In a calls -> foundNothing a = true -> False).
Proof.
  intros F. rewrite Forall_forall in F. split; intros a Hin H.
  - rewrite (F a Hin) in H. discriminate.
  - destruct (inLoop_facts a (F a Hin)) as [E _]. congruence.
Qed.

Lemma wrote_inLoop (a : Answered) : wrote a = true -> inLoop a = true.
Proof. destruct a as [A c x]. destruct c; cbn; auto. Qed.

(** X13.  What [processNotes] reports outside the loop over the notes,
    when it is accepted.  It counts as processed exactly the journal
    entries written.  When the search for notes or the creation of the AI
    service throws, the result is a failure with no note processed and the
    one message [Processing cycle failed: ] followed by the text of what
    was thrown; when the search finds no note, the result is a success
    with no error; in both cases nothing is sent to the AI service and
    [lastProcessingTime] is left as it was.  Once the AI service was
    created, whatever happens to the notes, the calls of the run are the
    reading of the start time, the search, the creation of the service,
    then the calls of the loop, then two readings of the clock and
    nothing more; [lastProcessingTime] is set to the first of these two
    readings, the time read after the loop, and the duration of the
    result is the second of them minus the start time. *)
Theorem processNotes_outcomes W (h : Handler W) (s : State) (w : W)
    (r : ProcessingResult) (s' : State) (w' : W) (calls : list Answered) :
  isProcessing s = false ->
  complete h (processNotes s) w = (r, s', w', calls) ->
  processed r = length (filter wrote calls)
  /\ (forall a e, In a calls -> inLoop a = false -> thrownBy a = Some e ->
        success r = false /\ processed r = 0 /\ errors r = [cycleFailure e]
        /\ flat_map contentSent calls = []
        /\ lastProcessingTime s' = lastProcessingTime s)
  /\ ((exists a, In a calls /\ foundNothing a = true) ->
        success r = true /\ processed r = 0 /\ errors r = []
        /\ flat_map contentSent calls = []
        /\ lastProcessingTime s' = lastProcessingTime s)
  /\ ((exists a, In a calls /\ serviceCreated a = true) ->
        exists t0 notes u loopCalls today now,
          calls
          = [answered DateNow t0;
             answered FindUnprocessedDailyNotes (inr notes);
             answered (CreateService (aiProvider (settings s))) (inr u)]
            ++ loopCalls ++ [answered DateNow today; answered DateNow now]
          /\ Forall (fun a => inLoop a = true) loopCalls
          /\ lastProcessingTime s' = Some today
          /\ duration r = (now - t0)%Z).
Proof.
  intros Hs H. rewrite (@processNotes_accepted s Hs) in H.
  cbn [complete] in H. destruct (h Z DateNow w) as [t0 w0].
  unfold processNotesTry, processNotesFinally, bind, call, get, ret,
    modify in H.
  cbn [bindRun complete] in H.
  destruct (h _ FindUnprocessedDailyNotes w0) as [[error|[|n notes]] w1].
  - cbn [bindRun complete] in H. destruct (h Z DateNow w1) as [now w2].
    cbn in H. injection H as <- <- <- <-.
    split; [|split; [|split]]; cbn.
    + reflexivity.
    + intros z e [<-|[<-|[<-|[]]]] _; cbn; try discriminate.
      intros E; injection E as <-; auto.
    + intros (z & [<-|[<-|[<-|[]]]] & E); discriminate.
    + intros (z & [<-|[<-|[<-|[]]]] & E); discriminate.
  - cbn [bindRun complete] in H. destruct (h Z DateNow w1) as [now w2].
    cbn in H. injection H as <- <- <- <-.
    split; [|split; [|split]]; cbn.
    + reflexivity.
    + intros z e [<-|[<-|[<-|[]]]] _; cbn; discriminate.
    + auto.
    + intros (z & [<-|[<-|[<-|[]]]] & E); discriminate.
  - cbn [bindRun complete settings setProcessing] in H.
    destruct (h _ (CreateService _) w1) as [[error|u] w2].
    + cbn [bindRun complete] in H. destruct (h Z DateNow w2) as [now w3].
      cbn in H. injection H as <- <- <- <-.
      split; [|split; [|split]]; cbn.
      * reflexivity.
      * intros z e [<-|[<-|[<-|[<-|[]]]]] _; cbn; try discriminate.
        intros E; injection E as <-; auto.
      * intros (z & [<-|[<-|[<-|[<-|[]]]]] & E); discriminate.
      * intros (z & [<-|[<-|[<-|[<-|[]]]]] & E); discriminate.
    + rewrite !complete_bind in H.
      destruct (complete h (processEach (n :: notes) 0 []
                              (setProcessing true s)) w2)
        as [[[[pc errs] s1] w3] loopCalls] eqn:E.
      pose proof E as L. apply processEach_inLoop in L.
      pose proof L as Loop.
      pose proof (proj1 (Forall_forall _ _) L) as L0.
      apply loop_facts in L as [L1 L2].
      apply processEach_report in E as [[Hsent _ Hcount] ->].
      cbn [bindRun complete] in H.
      destruct (h Z DateNow w3) as [today w4]. cbn [bindRun complete] in H.
      destruct (h Z DateNow w4) as [now w5].
      cbn in H. injection H as <- <- <- <-.
      rewrite app_nil_r.
      assert (Others : forall a,
                In a (answered DateNow t0
                      :: answered FindUnprocessedDailyNotes (inr (n :: notes))
                      :: answered (CreateService (aiProvider (settings s)))
                           (inr u)
                      :: loopCalls
                         ++ [answered DateNow today; answered DateNow now]) ->
                In a loopCalls
                \/ (thrownBy a = None /\ foundNothing a = false)).
      { intros a [<-|[<-|[<-|Hin]]]; [right; auto.. |].
        apply in_app_or in Hin as [Hin|[<-|[<-|[]]]]; [left; exact Hin|..];
          right; auto. }
      split; [|split; [|split]].
      * cbn [processed filter wrote]. rewrite filter_app, length_app. cbn.
        lia.
      * intros a e Hin Hl He. exfalso.
        destruct (Others a Hin) as [Hin'|[Hn _]];
          [apply (L1 a Hin' Hl) | congruence].
      * intros (a & Hin & Hf). exfalso.
        destruct (Others a Hin) as [Hin'|[_ Hn]];
          [apply (L2 a Hin' Hf) | congruence].
      * intros _. exists t0, (n :: notes), u, loopCalls, today, now.
        split; [reflexivity|]. split; [exact Loop|].
        split; reflexivity.
Qed.

Lemma processNotes_outcomes_witness :
  let out := complete ticking (processNotes idle) 10%Z in
  let r := fst (fst (fst out)) in
  let s' := snd (fst (fst out)) in
  (lastProcessingTime s' = Some 11%Z /\ duration r = 2%Z)
  /\ exists t0 notes u loopCalls today now,
       snd out
       = [answered DateNow t0;
          answered FindUnprocessedDailyNotes (inr notes);
          answered (CreateService (lit "openai")) (inr u)]
         ++ loopCalls ++ [answered DateNow today; answered DateNow now]
       /\ Forall (fun a => inLoop a = true) loopCalls
       /\ lastProcessingTime s' = Some today
       /\ duration r = (now - t0)%Z.
Proof.
  intros out r s'.
  assert (E : complete ticking (processNotes idle) 10%Z
              = (r, s', snd (fst out), snd out))
    by (vm_compute; reflexivity).
  split; [split; vm_compute; reflexivity|].
  apply (proj2 (proj2 (proj2
           (@processNotes_outcomes Z ticking idle 10%Z _ _ _ _ eq_refl E)))).
  exists (answered (CreateService (lit "openai")) (inr tt)).
  split; [vm_compute; tauto | reflexivity].
Defined.

End RunFacts.

(** ** More on the note processor *)

Module EntryFacts.

Import CoordinateParser NoteProcessor DateUtils RegExpFacts SpaceFacts
  ExtractionFacts NoteFacts.

Lemma trim_nil_spaces (s : str) :
  trim s = [] -> Forall (fun c => isSpace c = true) s.
Proof.
  intros H. unfold trim in H.
  destruct (trimStart_suffix s) as (u & E & Hu).
  destruct (trimEnd_prefix (trimStart s)) as (v & E' & Hv).
  rewrite H in E'. cbn [app] in E'. rewrite E, E'.
  apply Forall_app. split; assumption.
Qed.

Lemma singleSpaced_trim (s : str) : singleSpaced s -> singleSpaced (trim s).
Proof. intros (W & A & T). rewrite T. repeat split; assumption. Qed.

(** What the loop body pushes for a line. *)
Lemma parseLine_content line e :
  parseLine line = Some e ->
  NoteProcessor.content e <> [] /\ singleSpaced (NoteProcessor.content e).
Proof.
  unfold parseLine. destruct (skipLine (trim line)); [discriminate|].
  destruct (length (cleanLine (trim line)) <? 5); [discriminate|].
  destruct (0 <? length (trim (removeCoordinatesFromContent
                                 (cleanLine (trim line))))) eqn:L;
    [|discriminate].
  intros H. injection H as <-. cbn [NoteProcessor.content]. split.
  - apply Nat.ltb_lt in L. intros E. rewrite E in L. cbn in L. lia.
  - apply singleSpaced_trim, removeCoordinates_spaced.
Qed.

Lemma parseLogEntries_count (lines : list str) : forall acc,
  length (fold_left
            (fun entries line =>
               match parseLine line with
               | Some e => entries ++ [e]
               | None => entries
               end) lines acc)
  <= length acc + length lines.
Proof.
  induction lines as [|l lines IH]; intros acc; cbn [fold_left length]; [lia|].
  specialize (IH (match parseLine l with
                  | Some e => acc ++ [e]
                  | None => acc
                  end)).
  destruct (parseLine l); [rewrite length_app in IH; cbn in IH|]; lia.
Qed.

Lemma join_head (sep first : str) (fields : list str) x :
  In x first -> In x (join sep (first :: fields)).
Proof.
  intros H. destruct fields as [|f fs]; cbn [join]; [exact H|].
  apply in_or_app. left. exact H.
Qed.

Lemma parseLogEntries_contents (content : str) :
  Forall
    (fun e =>
       NoteProcessor.content e <> [] /\ singleSpaced (NoteProcessor.content e))
    (parseLogEntries content).
Proof.
  apply Forall_forall. intros e H. unfold parseLogEntries in H.
  apply parseLogEntries_lines in H as [[]|(line & _ & Hp)].
  apply (parseLine_content _ Hp).
Qed.

(** A parsed note with an entry has content for the AI service. *)
Lemma parsed_hasContent (path content formattedDate : str) :
  entries (parseDailyNote path content formattedDate) <> [] ->
  Scheduler.hasContent (parseDailyNote path content formattedDate) = true.
Proof.
  pose proof (parseLogEntries_contents content) as F.
  cbn [entries parseDailyNote]. intros Hne.
  unfold Scheduler.hasContent, Scheduler.blank, Scheduler.prepareContentForAI.
  cbn [entries parseDailyNote].
  destruct (parseLogEntries content) as [|e es]; [congruence|].
  inversion F as [|? ? [Hc (_ & _ & Ht)] _]; subst.
  rewrite trim_trim.
  destruct (trim (join Scheduler.newline
                    (map NoteProcessor.content (e :: es)))) eqn:E;
    [|reflexivity].
  exfalso. apply trim_nil_spaces in E. rewrite Forall_forall in E.
  destruct (NoteProcessor.content e) as [|x t] eqn:Ec; [congruence|].
  destruct (trim_shape (x :: t)) as [T|[Hs _]]; rewrite Ht in *;
    [discriminate|].
  cbn in Hs. rewrite (E x) in Hs; [discriminate|].
  cbn [map]. apply join_head. rewrite Ec. left. reflexivity.
Qed.

(** X14.  Every entry that [parseLogEntries] makes has a content that is
    not empty, on one line and single-spaced, and there are at most as
    many entries as the body has lines.  Hence a parsed daily note with at
    least one entry always has content for the AI service: the scheduler's
    check for empty content never skips it. *)
Theorem parseDailyNote_entries (path content formattedDate : str) :
  let note := parseDailyNote path content formattedDate in
  Forall
    (fun e =>
       NoteProcessor.content e <> [] /\ singleSpaced (NoteProcessor.content e))
    (entries note)
  /\ length (entries note)
     <= length (split "010" (FileUtils.parseFrontmatterBody content))
  /\ (entries note <> [] -> Scheduler.hasContent note = true).
Proof.
  cbn zeta. split; [apply parseLogEntries_contents|]. split.
  - cbn [entries parseDailyNote]. unfold parseLogEntries.
    apply (parseLogEntries_count _ []).
  - apply parsed_hasContent.
Qed.

End EntryFacts.

(** ** Markers at the start of a line *)

Module MarkerFacts.

Import CoordinateParser NoteProcessor DateUtils RegExpFacts SpaceFacts
  ExtractionFacts NoteFacts.

Section Greedy.
Variable M : Type.

Lemma starGreedy_total p (k : str -> option M) : forall s : str,
  (forall t, k t <> None) ->
  exists run rest, s = run ++ rest /\ Forall (fun c => p c = true) run
    /\ stopsAt p rest /\ starGreedy p s k = k rest.
Proof.
  intros s Hk. destruct (DateFacts.span p s) as (run & rest & -> & Hrun & Hrest).
  exists run, rest. repeat split; auto.
  destruct (k rest) as [m|] eqn:E; [|destruct (Hk rest E)].
  apply starGreedy_run; assumption.
Qed.

Lemma starGreedy_commit p (k : str -> option M) : forall run rest : str,
  Forall (fun c => p c = true) run -> stopsAt p rest ->
  (forall c t, p c = true -> k (c :: t) = None) ->
  starGreedy p (run ++ rest) k = k rest.
Proof.
  intros run rest Hrun Hrest Hk.
  induction Hrun as [|c run Hc _ IH]; cbn [app].
  - apply starGreedy_stop, Hrest.
  - cbn [starGreedy]. rewrite Hc, IH.
    destruct (k rest); [reflexivity|]. apply Hk, Hc.
Qed.
End Greedy.

Lemma trimStart_run (run rest : str) :
  Forall (fun c => isSpace c = true) run -> stopsAt isSpace rest ->
  trimStart (run ++ rest) = rest.
Proof.
  intros Hrun Hrest. induction Hrun as [|c run Hc _ IH]; cbn [app trimStart].
  - apply trimStart_id, Hrest.
  - rewrite Hc. exact IH.
Qed.

Lemma stops_class ic (rest : str) :
  stopsAt isSpace rest -> stopsAt (clsMatch ic isSpace) rest.
Proof. destruct rest; [auto|]. cbn. rewrite clsMatch_isSpace. auto. Qed.

(** The end of a match that finishes with a run of white space. *)
Lemma spaces_then_done ic n (whole s : str) caps :
  exec ic n (Star isSpace) s caps
    (fun s' caps' =>
       Some (mkMatch (firstn (length whole - length s') whole) caps' s'))
  = Some (mkMatch (firstn (length whole - length (trimStart s)) whole) caps
            (trimStart s)).
Proof.
  rewrite exec_Star.
  destruct (DateFacts.span isSpace s) as (run & rest & -> & Hrun & Hrest).
  rewrite trimStart_run by assumption.
  apply starGreedy_run; [|apply stops_class; exact Hrest|reflexivity].
  revert Hrun. apply Forall_impl. intros c Hc. rewrite clsMatch_isSpace. exact Hc.
Qed.

Lemma replace_anchored rx (s : str) :
  replace (mkRegExp (Seq Bol rx) false false) [] s
  = match matchAt (mkRegExp (Seq Bol rx) false false) (length s) s with
    | Some m => after m
    | None => s
    end.
Proof.
  unfold replace. cbn [global]. rewrite SentimentFacts.search_anchored.
  destruct (matchAt _ _ _); reflexivity.
Qed.

Lemma matchAt_anchored rx (s : str) :
  matchAt (mkRegExp (Seq Bol rx) false false) (length s) s
  = exec false (length s) rx s []
      (fun s' caps =>
         Some (mkMatch (firstn (length s - length s') s) caps s')).
Proof.
  unfold matchAt. cbn [source ignoreCase]. rewrite exec_Seq. cbn [exec].
  rewrite Nat.eqb_refl. reflexivity.
Qed.

Ltac anchored_start :=
  rewrite replace_anchored, matchAt_anchored.

Lemma replace_bulletMarker (s : str) :
  replace bulletMarker [] s = dropBullet s.
Proof.
  unfold bulletMarker, anchored. cbn [seq]. anchored_start.
  destruct s as [|c r]; [reflexivity|].
  rewrite exec_Seq, exec_Cls. cbn [clsMatch dropBullet].
  destruct (oneOf "-*+" c); [|reflexivity].
  rewrite spaces_then_done. reflexivity.
Qed.

Lemma replace_checkedCheckbox (s : str) :
  replace checkedCheckbox [] s = dropCheckedCheckbox s.
Proof.
  unfold checkedCheckbox, anchored. cbn [seq]. anchored_start.
  destruct s as [|a [|b [|c r]]]; cbn [dropCheckedCheckbox];
    rewrite ?exec_Seq, ?exec_Chr, ?exec_nil_Chr; unfold chrMatch;
    cbn [canonicalize]; try reflexivity.
  - destruct (Ascii.eqb "[" a); [|reflexivity].
    rewrite exec_Seq, exec_nil_Chr. reflexivity.
  - destruct (Ascii.eqb "[" a); [|reflexivity].
    rewrite exec_Seq, exec_Chr. unfold chrMatch. cbn [canonicalize].
    destruct (Ascii.eqb "x" b); [|reflexivity].
    rewrite exec_Seq, exec_nil_Chr. reflexivity.
  - destruct (Ascii.eqb "[" a); [|reflexivity].
    rewrite exec_Seq, exec_Chr. unfold chrMatch. cbn [canonicalize].
    destruct (Ascii.eqb "x" b); [|reflexivity].
    rewrite exec_Seq, exec_Chr. unfold chrMatch. cbn [canonicalize].
    destruct (Ascii.eqb "]" c); [|reflexivity].
    rewrite spaces_then_done. reflexivity.
Qed.

Lemma space_not_bracket c : isSpace c = true -> chrMatch false "]" c = false.
Proof. all_chars c. Qed.

Lemma digit_not_point c : isDigit c = true -> chrMatch false "." c = false.
Proof. all_chars c. Qed.

Lemma class_run ic p (run : str) :
  (forall c, clsMatch ic p c = p c) ->
  Forall (fun c => p c = true) run ->
  Forall (fun c => clsMatch ic p c = true) run.
Proof. intros H. apply Forall_impl. intros c Hc. rewrite H. exact Hc. Qed.

Lemma replace_emptyCheckbox (s : str) :
  replace emptyCheckbox [] s = dropEmptyCheckbox s.
Proof.
  unfold emptyCheckbox, anchored. cbn [seq]. anchored_start.
  destruct s as [|c r]; [reflexivity|].
  rewrite exec_Seq, exec_Chr. unfold chrMatch at 1. cbn [canonicalize].
  cbn [dropEmptyCheckbox]. destruct (Ascii.eqb "[" c); [|reflexivity].
  rewrite exec_Seq, exec_Star.
  destruct (DateFacts.span isSpace r) as (run & rest & -> & Hrun & Hrest).
  rewrite trimStart_run by assumption.
  rewrite starGreedy_commit;
    [ | apply class_run; [intros; apply clsMatch_isSpace | exact Hrun]
      | apply stops_class, Hrest
      | intros x t Hx; rewrite clsMatch_isSpace in Hx;
        rewrite exec_Seq, exec_Chr, (space_not_bracket _ Hx); reflexivity ].
  destruct rest as [|d r'].
  - rewrite exec_Seq, exec_nil_Chr. reflexivity.
  - rewrite exec_Seq, exec_Chr. unfold chrMatch. cbn [canonicalize].
    destruct (Ascii.eqb "]" d); [|reflexivity].
    rewrite spaces_then_done. reflexivity.
Qed.

Lemma takeDigits_span (run rest : str) :
  Forall (fun c => isDigit c = true) run -> stopsAt isDigit rest ->
  takeDigits (run ++ rest) = (run, rest).
Proof.
  intros Hrun Hrest. induction Hrun as [|c run Hc _ IH]; cbn [app].
  - destruct rest as [|x t]; [reflexivity|]. cbn in Hrest |- *.
    rewrite Hrest. reflexivity.
  - cbn [takeDigits]. rewrite Hc, IH. reflexivity.
Qed.

Lemma replace_numberMarker (s : str) :
  replace numberMarker [] s = dropNumber s.
Proof.
  unfold numberMarker, anchored. cbn [seq]. anchored_start.
  destruct s as [|c r]; [reflexivity|].
  rewrite exec_Seq, exec_Plus. rewrite clsMatch_isDigit.
  unfold dropNumber.
  destruct (isDigit c) eqn:Hc;
    [|cbn [takeDigits]; rewrite Hc; reflexivity].
  destruct (DateFacts.span isDigit r) as (run & rest & -> & Hrun & Hrest).
  assert (T : takeDigits ((c :: run) ++ rest) = (c :: run, rest))
    by (apply takeDigits_span; [constructor; assumption | assumption]).
  cbn [app] in T. rewrite T.
  rewrite starGreedy_commit;
    [ | apply class_run; [intros; apply clsMatch_isDigit | exact Hrun]
      | exact Hrest
      | intros x t Hx; rewrite clsMatch_isDigit in Hx;
        rewrite exec_Seq, exec_Chr, (digit_not_point _ Hx); reflexivity ].
  destruct rest as [|d r'].
  - rewrite exec_Seq, exec_nil_Chr. reflexivity.
  - rewrite exec_Seq, exec_Chr. unfold chrMatch. cbn [canonicalize].
    destruct (Ascii.eqb "." d); [|reflexivity].
    rewrite spaces_then_done. reflexivity.
Qed.

Lemma replace_dashCheckbox (s : str) :
  replace dashCheckbox [] s = dropDashCheckbox s.
Proof.
  unfold dashCheckbox, anchored. cbn [seq]. anchored_start.
  destruct s as [|a [|b [|c [|d [|e r]]]]]; cbn [dropDashCheckbox];
    repeat first
      [ rewrite exec_Seq
      | rewrite exec_nil_Chr
      | rewrite exec_Chr; unfold chrMatch; cbn [canonicalize];
        match goal with
        | |- context [if Ascii.eqb ?x ?y then _ else _] =>
            destruct (Ascii.eqb x y); cbn [andb]
        end
      | reflexivity ].
  - rewrite exec_Cls. cbn [clsMatch].
    destruct (Ascii.eqb d "x" || isSpace d); [|reflexivity].
    rewrite exec_Seq, exec_nil_Chr. reflexivity.
  - rewrite exec_Cls. cbn [clsMatch].
    destruct (Ascii.eqb d "x" || isSpace d); [|reflexivity]. cbn [andb].
    rewrite exec_Seq, exec_Chr. unfold chrMatch. cbn [canonicalize].
    destruct (Ascii.eqb "]" e); [|reflexivity].
    rewrite spaces_then_done. reflexivity.
Qed.

(** The chain of marker removals is a chain of plain functions. *)
Lemma cleanLine_steps (trimmedLine : str) :
  cleanLine trimmedLine
  = trim (dropCheckedCheckbox (dropEmptyCheckbox (dropDashCheckbox
      (dropNumber (dropBullet trimmedLine))))).
Proof.
  unfold cleanLine.
  rewrite replace_bulletMarker, replace_numberMarker, replace_dashCheckbox,
    replace_emptyCheckbox, replace_checkedCheckbox. reflexivity.
Qed.

Lemma space_is_space c :
  isSpace c = true -> otherSpace c = false -> c = " "%char.
Proof.
  unfold otherSpace. intros H1 H2. rewrite H1 in H2. cbn in H2.
  apply negb_false_iff, Ascii.eqb_eq in H2. exact H2.
Qed.

Lemma collapseFrom_spaced_id (t : str) : forall inRun,
  without otherSpace t -> adjacent isSpace isSpace t = false ->
  (inRun = true -> stopsAt isSpace t) ->
  collapseFrom inRun t = t.
Proof.
  induction t as [|c t IH]; intros inRun W A S; [reflexivity|].
  inversion W as [|? ? Wc Wt]; subst. rewrite adjacent_cons in A.
  apply orb_false_iff in A as [A1 A2]. cbn [collapseFrom].
  destruct (isSpace c) eqn:Hc.
  - destruct inRun; [specialize (S eq_refl); cbn in S; congruence|].
    rewrite (space_is_space c Hc Wc). f_equal.
    apply IH; [exact Wt | exact A2 |]. intros _.
    destruct t as [|y t']; [exact I|]. cbn in A1 |- *. exact A1.
  - f_equal. apply IH; [exact Wt | exact A2 | discriminate].
Qed.

Section Plain.

Variable t : str.
Hypothesis Ht : plainEntry t.

Lemma plain_head : exists x t', t = x :: t' /\ opensMarker x = false
  /\ isSpace x = false.
Proof.
  destruct Ht as (L & (_ & _ & T) & _ & O).
  destruct t as [|x t']; [cbn in L; lia|].
  exists x, t'. split; [reflexivity|]. split; [exact O|].
  destruct (trim_shape (x :: t')) as [E|[S _]]; rewrite T in *;
    [discriminate | exact S].
Qed.

Lemma plain_trimmed : trim t = t.
Proof. apply Ht. Qed.

Lemma plain_stops : stopsAt isSpace t.
Proof. destruct plain_head as (x & t' & -> & _ & S). exact S. Qed.

Lemma plain_endsWell : endsWell t.
Proof.
  destruct plain_head as (x & t' & E & _ & _).
  destruct (trim_shape t) as [N|[_ H]]; rewrite plain_trimmed in *;
    [congruence | exact H].
Qed.

Lemma plain_removed : removeCoordinatesFromContent t = t.
Proof.
  destruct Ht as (_ & (W & A & T) & D & _).
  rewrite (proj2 (digitless_content D)), T.
  apply collapseFrom_spaced_id; [exact W | exact A | discriminate].
Qed.

(** A line that cleaning turns into [t] gives the entry [t]. *)
Lemma parseLine_clean (line : str) :
  skipLine (trim line) = false -> cleanLine (trim line) = t ->
  parseLine line = Some (mkEntry t None).
Proof.
  intros Hskip Hclean. unfold parseLine. rewrite Hskip, Hclean.
  destruct Ht as (L & _ & D & _).
  replace (length t <? 5) with false by (symmetry; apply Nat.ltb_ge; exact L).
  rewrite plain_removed, plain_trimmed.
  replace (0 <? length t) with true by (symmetry; apply Nat.ltb_lt; lia).
  rewrite (proj1 (digitless_content D)). reflexivity.
Qed.

Lemma opens_cases x :
  opensMarker x = false ->
  isDigit x = false /\ oneOf "-*+" x = false /\ Ascii.eqb "-" x = false
  /\ Ascii.eqb "[" x = false /\ Ascii.eqb "#" x = false
  /\ Ascii.eqb "<" x = false.
Proof. all_chars x; repeat split; congruence. Qed.

(** None of the marker removals touches [t]. *)
Lemma plain_steps :
  dropBullet t = t /\ dropNumber t = t /\ dropDashCheckbox t = t
  /\ dropEmptyCheckbox t = t /\ dropCheckedCheckbox t = t.
Proof.
  destruct plain_head as (x & t' & -> & O & _).
  destruct (opens_cases x O) as (D & B & M & K & _).
  repeat split.
  - cbn [dropBullet]. rewrite B. reflexivity.
  - unfold dropNumber. cbn [takeDigits]. rewrite D. reflexivity.
  - destruct t' as [|b [|c [|d [|e r]]]]; cbn [dropDashCheckbox];
      rewrite ?M; reflexivity.
  - cbn [dropEmptyCheckbox]. rewrite K. reflexivity.
  - destruct t' as [|b [|c r]]; cbn [dropCheckedCheckbox];
      rewrite ?K; reflexivity.
Qed.

Lemma skipLine_false (line : str) :
  5 <= length line ->
  startsWith line (lit "#") = false -> startsWith line (lit "---") = false ->
  startsWith line (lit "<!--") = false ->
  skipLine line = false.
Proof.
  intros L H1 H2 H3. unfold skipLine. rewrite H1, H2, H3.
  replace (length line <? 5) with false by (symmetry; apply Nat.ltb_ge; exact L).
  destruct line; [cbn in L; lia | reflexivity].
Qed.

(** A marker in front of [t]: the line is trimmed as it stands. *)
Lemma marked_trimmed (marker : str) :
  marker <> [] -> stopsAt isSpace marker -> trim (marker ++ t) = marker ++ t.
Proof.
  intros Hne Hs. apply trim_id.
  - apply stopsAt_app; assumption.
  - apply endsWell_app, plain_endsWell.
Qed.

Lemma marked_entry (marker : str) :
  marker <> [] -> stopsAt isSpace marker ->
  startsWith (marker ++ t) (lit "#") = false ->
  startsWith (marker ++ t) (lit "---") = false ->
  startsWith (marker ++ t) (lit "<!--") = false ->
  dropCheckedCheckbox (dropEmptyCheckbox (dropDashCheckbox
    (dropNumber (dropBullet (marker ++ t))))) = t ->
  parseLine (marker ++ t) = Some (mkEntry t None).
Proof.
  intros Hne Hs H1 H2 H3 Hd. apply parseLine_clean.
  - rewrite marked_trimmed by assumption. apply skipLine_false; auto.
    rewrite length_app. destruct Ht as (L & _). lia.
  - rewrite marked_trimmed by assumption.
    rewrite cleanLine_steps, Hd. apply plain_trimmed.
Qed.

End Plain.

Lemma digit_head (d : digit) :
  let c := digitAscii d in
  isDigit c = true /\ isSpace c = false /\ oneOf "-*+" c = false
  /\ Ascii.eqb "#" c = false /\ Ascii.eqb "-" c = false
  /\ Ascii.eqb "<" c = false.
Proof. destruct d; cbn; repeat split; reflexivity. Qed.

Lemma startsWith_head (c x : ascii) (r t : str) :
  Ascii.eqb c x = false -> startsWith (x :: t) (c :: r) = false.
Proof. intros H. cbn [startsWith]. rewrite H. reflexivity. Qed.

Lemma digits_are_digits ds :
  Forall (fun c => isDigit c = true) (digits ds).
Proof.
  induction ds as [|d ds IH]; [constructor|].
  constructor; [destruct d; reflexivity | exact IH].
Qed.

(** X15.  A list marker in front of an entry does not change the entry.
    For a text [t] of at least five characters that is single-spaced, has
    no digit and does not itself start like a marker, a heading, a rule or
    a comment, the line [t] and the lines that put before it a bullet
    ([-], [*], [+]), a number and a point, or a checkbox (empty or
    checked, with or without a dash) all give the same entry: content [t],
    no coordinates. *)
Theorem parseLine_markers (t : str) (d : digit) (ds : list digit) :
  plainEntry t ->
  Forall (fun line => parseLine line = Some (mkEntry t None))
    [ t;
      lit "- " ++ t; lit "* " ++ t; lit "+ " ++ t;
      (digitAscii d :: digits ds) ++ lit ". " ++ t;
      lit "- [ ] " ++ t; lit "- [x] " ++ t;
      lit "[ ] " ++ t; lit "[x] " ++ t ].
Proof.
  intros Ht.
  destruct (plain_steps Ht) as (U1 & U2 & U3 & U4 & U5).
  pose proof (plain_stops Ht) as S.
  pose proof (trimStart_id _ S) as T.
  destruct (plain_head Ht) as (x & t' & E & O & Sx).
  destruct (opens_cases x O) as (Dx & Bx & Mx & Kx & Hx & Lx).
  repeat apply Forall_cons; try apply Forall_nil.
  - apply (parseLine_clean Ht).
    + rewrite (plain_trimmed Ht). apply skipLine_false; [apply Ht| | |];
        rewrite E; apply startsWith_head; assumption.
    + rewrite (plain_trimmed Ht), cleanLine_steps, U1, U2, U3, U4, U5.
      apply (plain_trimmed Ht).
  - apply (marked_entry Ht); try reflexivity; try discriminate.
    change (dropBullet (lit "- " ++ t)) with (trimStart t).
    rewrite T, U2, U3, U4, U5. reflexivity.
  - apply (marked_entry Ht); try reflexivity; try discriminate.
    change (dropBullet (lit "* " ++ t)) with (trimStart t).
    rewrite T, U2, U3, U4, U5. reflexivity.
  - apply (marked_entry Ht); try reflexivity; try discriminate.
    change (dropBullet (lit "+ " ++ t)) with (trimStart t).
    rewrite T, U2, U3, U4, U5. reflexivity.
  - destruct (digit_head d) as (D1 & D2 & D3 & D4 & D5 & D6).
    rewrite app_assoc.
    apply (marked_entry Ht); try discriminate;
      try (apply startsWith_head; assumption).
    + exact D2.
    + rewrite <- app_assoc.
      set (line := (digitAscii d :: digits ds) ++ lit ". " ++ t).
      assert (B : dropBullet line = line)
        by (unfold line; cbn [app dropBullet]; rewrite D3; reflexivity).
      assert (N : dropNumber line = t).
      { unfold line, dropNumber.
        rewrite (@takeDigits_span (digitAscii d :: digits ds) (lit ". " ++ t)).
        - cbn. exact T.
        - constructor; [exact D1 | apply digits_are_digits].
        - reflexivity. }
      rewrite B, N, U3, U4, U5. reflexivity.
  - apply (marked_entry Ht); try reflexivity; try discriminate.
    change (dropBullet (lit "- [ ] " ++ t)) with (trimStart (lit "[ ] " ++ t)).
    rewrite E in *.
    change (trimStart (lit "[ ] " ++ x :: t')) with (lit "[ ] " ++ x :: t').
    change (dropNumber (lit "[ ] " ++ x :: t')) with (lit "[ ] " ++ x :: t').
    change (dropDashCheckbox (lit "[ ] " ++ x :: t'))
      with (lit "[ ] " ++ x :: t').
    change (dropEmptyCheckbox (lit "[ ] " ++ x :: t'))
      with (trimStart (x :: t')).
    rewrite T, U5. reflexivity.
  - apply (marked_entry Ht); try reflexivity; try discriminate.
    rewrite E in *.
    change (dropBullet (lit "- [x] " ++ x :: t')) with (lit "[x] " ++ x :: t').
    change (dropNumber (lit "[x] " ++ x :: t')) with (lit "[x] " ++ x :: t').
    change (dropDashCheckbox (lit "[x] " ++ x :: t'))
      with (lit "[x] " ++ x :: t').
    change (dropEmptyCheckbox (lit "[x] " ++ x :: t'))
      with (lit "[x] " ++ x :: t').
    change (dropCheckedCheckbox (lit "[x] " ++ x :: t'))
      with (trimStart (x :: t')).
    rewrite T. reflexivity.
  - apply (marked_entry Ht); try reflexivity; try discriminate.
    rewrite E in *.
    change (dropBullet (lit "[ ] " ++ x :: t')) with (lit "[ ] " ++ x :: t').
    change (dropNumber (lit "[ ] " ++ x :: t')) with (lit "[ ] " ++ x :: t').
    change (dropDashCheckbox (lit "[ ] " ++ x :: t'))
      with (lit "[ ] " ++ x :: t').
    change (dropEmptyCheckbox (lit "[ ] " ++ x :: t'))
      with (trimStart (x :: t')).
    rewrite T, U5. reflexivity.
  - apply (marked_entry Ht); try reflexivity; try discriminate.
    rewrite E in *.
    change (dropBullet (lit "[x] " ++ x :: t')) with (lit "[x] " ++ x :: t').
    change (dropNumber (lit "[x] " ++ x :: t')) with (lit "[x] " ++ x :: t').
    change (dropDashCheckbox (lit "[x] " ++ x :: t'))
      with (lit "[x] " ++ x :: t').
    change (dropEmptyCheckbox (lit "[x] " ++ x :: t'))
      with (lit "[x] " ++ x :: t').
    change (dropCheckedCheckbox (lit "[x] " ++ x :: t'))
      with (trimStart (x :: t')).
    rewrite T. reflexivity.
Qed.

Lemma parseLine_markers_witness :
  Forall (fun line => parseLine line
                      = Some (mkEntry (lit "Went for a walk") None))
    [ lit "Went for a walk";
      lit "- Went for a walk"; lit "* Went for a walk";
      lit "+ Went for a walk"; lit "12. Went for a walk";
      lit "- [ ] Went for a walk"; lit "- [x] Went for a walk";
      lit "[ ] Went for a walk"; lit "[x] Went for a walk" ].
Proof.
  apply (@parseLine_markers (lit "Went for a walk") D1 [D2]).
  split; [cbn; lia|].
  split; [|split; [repeat constructor | reflexivity]].
  split; [repeat constructor | split; reflexivity].
Defined.

End MarkerFacts.

(** ** Frontmatter, in src/utils/fileUtils.ts *)

Module FrontmatterFacts.

Import FileUtils RegExpFacts SpaceFacts MarkerFacts.

Section Runs.
Variable M : Type.
Implicit Types (p : ascii -> bool) (k : str -> option M).

(** A continuation that needs a line feed fails all along a run without
    one. *)
Lemma starGreedy_blocked p (ws rest : str) k :
  (forall t, stopsAt isLineFeed t -> k t = None) ->
  without isLineFeed ws -> stopsAt p rest -> stopsAt isLineFeed rest ->
  starGreedy p (ws ++ rest) k = None.
Proof.
  intros Hk Hws Hp Hl. induction Hws as [|c ws Hc _ IH]; cbn [app].
  - rewrite starGreedy_stop by exact Hp. apply Hk, Hl.
  - cbn [starGreedy]. rewrite IH.
    destruct (p c); apply Hk; exact Hc.
Qed.

(** The lazy star stops at the first place where the continuation
    succeeds. *)
Lemma starLazy_first p (run rest : str) k res :
  Forall (fun c => p c = true) run ->
  (forall u c v, run = u ++ c :: v -> k (c :: v ++ rest) = None) ->
  k rest = Some res ->
  starLazy p (run ++ rest) k = Some res.
Proof.
  intros Hrun. revert k. induction Hrun as [|c run Hc _ IH]; intros k Hfail Hk.
  - cbn [app]. destruct rest; cbn [starLazy]; rewrite Hk; reflexivity.
  - cbn [app starLazy]. rewrite (Hfail [] c run eq_refl), Hc.
    apply IH; [|exact Hk].
    intros u d v E. apply (Hfail (c :: u) d v). rewrite E. reflexivity.
Qed.

End Runs.

Lemma adjacent_inside P Q (u v : str) x y :
  adjacent P Q (u ++ x :: y :: v) = false -> P x && Q y = false.
Proof.
  intros H. destruct (P x && Q y) eqn:E; [|reflexivity].
  rewrite adjacent_app_r in H; [discriminate|].
  cbn [adjacent]. rewrite E. reflexivity.
Qed.

Lemma space_not_linefeed c : isSpace c = false -> isLineFeed c = false.
Proof. all_chars c. Qed.

Lemma stops_linefeed (s : str) : stopsAt isSpace s -> stopsAt isLineFeed s.
Proof. destruct s as [|c s]; [trivial|]. apply space_not_linefeed. Qed.

Lemma chr_linefeed (M : Type) n (t : str) caps
    (k : str -> list str -> option M) :
  stopsAt isLineFeed t -> exec false n (Chr "010") t caps k = None.
Proof.
  destruct t as [|c t]; [reflexivity|]. cbn [stopsAt]. intros H.
  rewrite exec_Chr. unfold chrMatch, canonicalize.
  unfold isLineFeed in H. rewrite Ascii.eqb_sym, H. reflexivity.
Qed.

Ltac literal :=
  repeat (rewrite ?exec_Seq, ?exec_Chr;
          cbn [chrMatch canonicalize Ascii.eqb Bool.eqb]; cbn match).

Lemma exec_StarLazy (M : Type) ic n p (s : str) caps
    (k : str -> list str -> option M) :
  exec ic n (StarLazy p) s caps k
  = starLazy (clsMatch ic p) s (fun s' => k s' caps).
Proof. reflexivity. Qed.

Section Fence.
Variable M : Type.
Variable n : nat.

Lemma exec_rest (content : str) caps (k : str -> list str -> option M) res :
  k [] (caps ++ [content]) = Some res ->
  exec false n (Grp (Star isAny)) content caps
    (fun s1 caps1 => exec false n Eol s1 caps1 k) = Some res.
Proof.
  intros Hk. rewrite exec_Grp, exec_Star.
  rewrite <- (app_nil_r content) at 1.
  apply starGreedy_run; [apply Forall_forall; reflexivity | exact I |].
  cbn [exec length]. rewrite Nat.sub_0_r, firstn_all. exact Hk.
Qed.

Lemma exec_closing (content : str) caps (k : str -> list str -> option M) res :
  stopsAt isSpace content ->
  k [] (caps ++ [content]) = Some res ->
  exec false n closingFence
    (lineFeed ++ lit "---" ++ lineFeed ++ lineFeed ++ content) caps k
  = Some res.
Proof.
  intros Hc Hk. unfold closingFence, lineFeed.
  cbn [lit String.list_ascii_of_string app].
  literal. rewrite exec_Star. cbn [starGreedy].
  rewrite clsMatch_isSpace.
  replace (isSpace "010") with true by reflexivity.
  rewrite starGreedy_stop by (destruct content; [exact I|]; cbn [stopsAt];
    rewrite clsMatch_isSpace; exact Hc).
  rewrite (exec_Seq _ _ _ _ content), chr_linefeed
    by (apply stops_linefeed, Hc).
  literal. rewrite (exec_rest _ _ _ Hk). reflexivity.
Qed.

Lemma exec_closing_inside (u v rest : str) c caps
    (k : str -> list str -> option M) :
  adjacent isLineFeed isDash (u ++ c :: v) = false ->
  stopsAt isDash rest ->
  exec false n closingFence (c :: v ++ rest) caps k = None.
Proof.
  intros Hadj Hrest. unfold closingFence. rewrite exec_Seq, exec_Chr.
  unfold chrMatch, canonicalize.
  destruct (Ascii.eqb "010" c) eqn:Ec; [|reflexivity].
  rewrite !exec_Seq.
  assert (D : stopsAt isDash (v ++ rest)).
  { destruct v as [|y v]; [exact Hrest|]. cbn [app stopsAt].
    apply adjacent_inside in Hadj. unfold isLineFeed in Hadj.
    rewrite Ascii.eqb_sym, Ec in Hadj. exact Hadj. }
  destruct (v ++ rest) as [|y t]; [reflexivity|]. cbn [stopsAt] in D.
  rewrite exec_Chr. unfold chrMatch, canonicalize.
  unfold isDash in D. rewrite Ascii.eqb_sym, D. reflexivity.
Qed.

End Fence.

Lemma matchFirst_fenced (lead : str) (x : ascii) (more content : str) :
  without isLineFeed lead -> isSpace x = false ->
  adjacent isLineFeed isDash (lead ++ x :: more) = false ->
  stopsAt isSpace content ->
  matchFirst frontmatterRegex (fenced (lead ++ x :: more) content)
  = Some (mkMatch (fenced (lead ++ x :: more) content)
            [lead ++ x :: more; content] []).
Proof.
  intros Hlead Hx Hadj Hcontent.
  set (yaml := lead ++ x :: more) in *.
  set (F := lineFeed ++ lit "---" ++ lineFeed ++ lineFeed ++ content).
  assert (HT : fenced yaml content = lit "---" ++ lineFeed ++ yaml ++ F)
    by reflexivity.
  unfold matchFirst, frontmatterRegex.
  change (seq [Bol; word "---"; Star isSpace; Chr "010"; Grp (StarLazy isAny);
               Chr "010"; word "---"; Star isSpace; Chr "010";
               Grp (Star isAny); Eol])
    with (Seq Bol (Seq (Seq (Chr "-") (Seq (Chr "-") (Chr "-")))
            (Seq (Star isSpace) (Seq (Chr "010")
               (Seq (Grp (StarLazy isAny)) closingFence))))).
  rewrite SentimentFacts.search_anchored, matchAt_anchored.
  set (T := fenced yaml content) in *.
  set (K := fun (s' : str) (caps : list str) =>
              Some (mkMatch (firstn (length T - length s') T) caps s')).
  assert (E : exec false (length T)
                (Seq (Seq (Chr "-") (Seq (Chr "-") (Chr "-")))
                   (Seq (Star isSpace) (Seq (Chr "010")
                      (Seq (Grp (StarLazy isAny)) closingFence)))) T [] K
              = Some (mkMatch T [yaml; content] [])).
  { rewrite HT at 2. unfold lineFeed at 1.
    cbn [lit String.list_ascii_of_string app].
    literal. rewrite exec_Star. cbn [starGreedy]. rewrite clsMatch_isSpace.
    replace (isSpace "010") with true by reflexivity.
    unfold yaml at 1. rewrite <- app_assoc.
    rewrite starGreedy_blocked.
    - rewrite exec_Seq, exec_Chr.
      cbn [chrMatch canonicalize Ascii.eqb Bool.eqb]. cbn match.
      rewrite exec_Seq, exec_Grp, exec_StarLazy.
      apply starLazy_first.
      + apply Forall_forall. reflexivity.
      + intros u c v Ev. apply (@exec_closing_inside _ _ u v F c).
        * rewrite <- Ev. exact Hadj.
        * reflexivity.
      + apply exec_closing; [exact Hcontent|].
        unfold K. cbn [app length]. rewrite Nat.sub_0_r, firstn_all.
        rewrite firstn_prefix. reflexivity.
    - intros t Ht. rewrite exec_Seq. apply chr_linefeed, Ht.
    - exact Hlead.
    - cbn [app stopsAt]. rewrite clsMatch_isSpace. exact Hx.
    - cbn [app stopsAt]. apply space_not_linefeed, Hx. }
  rewrite E. reflexivity.
Qed.

Lemma adjacent_skip_l P Q (u v : str) :
  without P u -> adjacent P Q (u ++ v) = adjacent P Q v.
Proof.
  induction 1 as [|c u Hc _ IH]; [reflexivity|].
  cbn [app]. rewrite adjacent_cons, Hc, IH. reflexivity.
Qed.

Lemma join_cons (sep l : str) ls :
  join sep (l :: ls)
  = l ++ match ls with [] => [] | _ :: _ => sep ++ join sep ls end.
Proof. destruct ls; cbn [join]; [rewrite app_nil_r|]; reflexivity. Qed.

Lemma join_calm lines :
  Forall calmLine lines ->
  adjacent isLineFeed isDash (join lineFeed lines) = false
  /\ stopsAt isDash (join lineFeed lines).
Proof.
  induction 1 as [|l ls (Hl & Hd & Hne) _ (IHa & IHs)];
    [split; [reflexivity|exact I]|].
  rewrite join_cons. split.
  - rewrite adjacent_skip_l by exact Hl.
    destruct ls as [|l2 ls]; [reflexivity|].
    set (J := join lineFeed (l2 :: ls)) in *.
    unfold lineFeed at 1. cbn [app]. rewrite adjacent_cons, IHa, orb_false_r.
    destruct J as [|y J]; [reflexivity|]. cbn [stopsAt] in IHs.
    rewrite IHs. apply andb_false_r.
  - apply stopsAt_app; assumption.
Qed.

Lemma without_app Q (u v : str) :
  without Q u -> without Q v -> without Q (u ++ v).
Proof. intros Hu Hv. apply Forall_app. split; assumption. Qed.

Lemma quoted_without (s : str) :
  without isLineFeed s -> without isLineFeed (quoted s).
Proof.
  intros H. unfold quoted. constructor; [reflexivity|].
  apply without_app; [exact H | repeat constructor].
Qed.

Lemma keyed_calm (key tail : str) :
  without isLineFeed key -> stopsAt isDash key -> without isLineFeed tail ->
  calmLine (key ++ ":"%char :: tail).
Proof.
  intros Hk Hd Ht. split; [|split].
  - apply without_app; [exact Hk|]. constructor; [reflexivity | exact Ht].
  - destruct key; [reflexivity | exact Hd].
  - destruct key; discriminate.
Qed.

Lemma yamlItemLine_calm item :
  without isLineFeed
    match item with ItemString s => s | ItemOther shown => shown end ->
  calmLine (yamlItemLine item).
Proof.
  intros H. unfold yamlItemLine. split; [|split; [reflexivity|discriminate]].
  apply without_app; [repeat constructor|].
  destruct item; [apply quoted_without|]; exact H.
Qed.

Lemma yamlLines_calm entry :
  oneLineEntry entry -> Forall calmLine (yamlLines entry).
Proof.
  destruct entry as [key value]. intros (Hk & Hd & Hv). cbn [fst snd] in *.
  destruct value as [s|items|shown]; cbn [yamlLines yamlTexts] in *.
  - constructor; [|constructor]. inversion Hv; subst.
    apply (@keyed_calm key (" "%char :: quoted s)); auto.
    constructor; [reflexivity|]. apply quoted_without. assumption.
  - constructor.
    + apply (@keyed_calm key []); auto. constructor.
    + induction items as [|item items IH]; [constructor|].
      cbn [map] in *. inversion Hv; subst.
      constructor; [apply yamlItemLine_calm; assumption | apply IH; assumption].
  - constructor; [|constructor]. inversion Hv; subst.
    apply (@keyed_calm key (" "%char :: shown)); auto.
    constructor; [reflexivity | assumption].
Qed.

Lemma yamlLines_head key value :
  exists tail more, yamlLines (key, value) = (key ++ ":"%char :: tail) :: more.
Proof.
  destruct value as [s|items|shown]; cbn [yamlLines].
  - exists (" "%char :: quoted s), []. reflexivity.
  - exists [], (map yamlItemLine items). reflexivity.
  - exists (" "%char :: shown), []. reflexivity.
Qed.

Lemma stringifyYaml_calm fm :
  onOneLine fm ->
  adjacent isLineFeed isDash (stringifyYaml fm) = false.
Proof.
  intros H. apply join_calm.
  induction H as [|entry fm He _ IH]; [constructor|].
  cbn [flat_map]. apply Forall_app. split; [apply yamlLines_calm, He | exact IH].
Qed.

Lemma stringifyYaml_head key value fm :
  exists more, stringifyYaml ((key, value) :: fm) = key ++ ":"%char :: more.
Proof.
  unfold stringifyYaml. cbn [flat_map].
  destruct (yamlLines_head key value) as (tail & ls & ->).
  cbn [app]. rewrite join_cons, <- app_assoc. cbn [app]. eauto.
Qed.

(** The fence written by [addFrontmatter] is the one that is read. *)
Lemma parseFrontmatter_written (toNumber : str -> JsNumber.number)
    (content : str) (frontmatter : list (str * YamlValue)) :
  frontmatter <> [] -> onOneLine frontmatter -> stopsAt isSpace content ->
  parseFrontmatter toNumber (addFrontmatter content frontmatter)
  = (parseYaml toNumber (stringifyYaml frontmatter), content)
  /\ parseFrontmatterBody (addFrontmatter content frontmatter) = content.
Proof.
  intros Hne Hfm Hc.
  pose proof (stringifyYaml_calm Hfm) as Hadj.
  destruct frontmatter as [|[key value] fm]; [congruence|].
  destruct (stringifyYaml_head key value fm) as (more & E).
  assert (Hk : without isLineFeed key) by (inversion Hfm as [|? ? H]; apply H).
  unfold parseFrontmatter, parseFrontmatterBody.
  change (addFrontmatter content ((key, value) :: fm))
    with (fenced (stringifyYaml ((key, value) :: fm)) content).
  rewrite E in *.
  rewrite (@matchFirst_fenced key ":" more content Hk eq_refl Hadj Hc).
  split; reflexivity.
Qed.

(** X16.  What [addFrontmatter] writes, [parseFrontmatter] reads back.  For
    a record that is not empty, whose keys and texts are each on one line
    and whose keys do not start with a dash, and a content that does not
    start with white space, the text handed to [parseYaml] is the one
    [stringifyYaml] wrote and the body is the content, unchanged. *)
Theorem parseFrontmatter_addFrontmatter (toNumber : str -> JsNumber.number)
    (content : str) (frontmatter : list (str * YamlValue)) :
  frontmatter <> [] -> onOneLine frontmatter -> stopsAt isSpace content ->
  parseFrontmatter toNumber (addFrontmatter content frontmatter)
  = (parseYaml toNumber (stringifyYaml frontmatter), content)
  /\ parseFrontmatterBody (addFrontmatter content frontmatter) = content.
Proof. apply parseFrontmatter_written. Qed.

Lemma parseFrontmatter_addFrontmatter_witness :
  parseFrontmatterBody
    (addFrontmatter (lit "# Monday" ++ lineFeed ++ lineFeed ++ lit "Walked.")
       [ (lit "date", ValString (lit "2024-01-15"));
         (lit "locations", ValArray [ItemString (lit "[1, 2]"); ItemOther (lit "3")]);
         (lit "count", ValOther (lit "2")) ])
  = lit "# Monday" ++ lineFeed ++ lineFeed ++ lit "Walked.".
Proof.
  apply (@parseFrontmatter_addFrontmatter (fun _ => S754_nan)
           (lit "# Monday" ++ lineFeed ++ lineFeed ++ lit "Walked.")
           [ (lit "date", ValString (lit "2024-01-15"));
             (lit "locations",
              ValArray [ItemString (lit "[1, 2]"); ItemOther (lit "3")]);
             (lit "count", ValOther (lit "2")) ]).
  - discriminate.
  - repeat constructor.
  - reflexivity.
Defined.

Lemma chrMatch_exact c x : chrMatch false c x = true -> x = c.
Proof. unfold chrMatch, canonicalize. intros H. apply Ascii.eqb_eq in H. auto. Qed.

Lemma matchAt_frontmatter n (s : str) m :
  matchAt frontmatterRegex n s = Some m ->
  exists a b c, s = lit "---" ++ a ++ lineFeed ++ b ++ lineFeed ++ lit "---" ++ c.
Proof.
  intros H. apply matchAt_sound in H as [E L].
  cbn [frontmatterRegex source ignoreCase seq word lit
       String.list_ascii_of_string map Lang] in L.
  destruct L as (w0 & r0 & E0 & -> & dashes & r1 & -> & L1
                 & a & r2 & -> & _ & l1 & r3 & -> & (x3 & -> & H3)
                 & b & r4 & -> & _ & l2 & r5 & -> & (x5 & -> & H5)
                 & dashes2 & r6 & -> & L6 & _).
  destruct L1 as (a1 & t1 & -> & (y1 & -> & Y1) & a2 & a3 & ->
                  & (y2 & -> & Y2) & (y3 & -> & Y3)).
  destruct L6 as (b1 & u1 & -> & (z1 & -> & Z1) & b2 & b3 & ->
                  & (z2 & -> & Z2) & (z3 & -> & Z3)).
  apply chrMatch_exact in H3, H5, Y1, Y2, Y3, Z1, Z2, Z3. subst.
  exists a, b, (r6 ++ after m). rewrite E0. unfold lineFeed.
  cbn [app lit String.list_ascii_of_string].
  repeat (rewrite <- app_assoc; cbn [app]). reflexivity.
Qed.

(** X17.  A text without a fence has no frontmatter.  When the content
    does not start with three dashes, or when no line feed followed by
    three dashes occurs after its first four characters (as in a note whose
    two rules have nothing between them), [parseFrontmatter] returns the
    empty record and the whole content as body. *)
Theorem parseFrontmatter_no_fence (toNumber : str -> JsNumber.number)
    (content : str) :
  startsWith content (lit "---") = false
  \/ includes (skipn 4 content) (lineFeed ++ lit "---") = false ->
  parseFrontmatter toNumber content = ([], content)
  /\ parseFrontmatterBody content = content.
Proof.
  intros H.
  assert (N : matchFirst frontmatterRegex content = None).
  { unfold matchFirst, frontmatterRegex. cbn [seq].
    rewrite SentimentFacts.search_anchored.
    fold (seq [Bol; word "---"; Star isSpace; Chr "010"; Grp (StarLazy isAny);
               Chr "010"; word "---"; Star isSpace; Chr "010";
               Grp (Star isAny); Eol]).
    fold frontmatterRegex.
    destruct (matchAt frontmatterRegex (length content) content) as [m|] eqn:E;
      [exfalso | reflexivity].
    apply matchAt_frontmatter in E as (a & b & c & ->).
    destruct H as [H|H]; [discriminate H|].
    assert (S : exists pre,
               skipn 4 (lit "---" ++ a ++ lineFeed ++ b ++ lineFeed
                        ++ lit "---" ++ c)
               = pre ++ (lineFeed ++ lit "---") ++ c).
    { destruct a as [|x a].
      - exists b. reflexivity.
      - exists (a ++ lineFeed ++ b).
        cbn [lit String.list_ascii_of_string app skipn].
        rewrite <- !app_assoc. reflexivity. }
    destruct S as [pre S]. rewrite S, SchedulerFacts.includes_middle in H.
    discriminate. }
  unfold parseFrontmatter, parseFrontmatterBody. rewrite N. split; reflexivity.
Qed.

Lemma parseFrontmatter_no_fence_witness :
  parseFrontmatterBody
    (lit "---" ++ lineFeed ++ lit "---" ++ lineFeed ++ lineFeed
     ++ lit "Content here")
  = lit "---" ++ lineFeed ++ lit "---" ++ lineFeed ++ lineFeed
    ++ lit "Content here".
Proof.
  apply (@parseFrontmatter_no_fence (fun _ => S754_nan)
           (lit "---" ++ lineFeed ++ lit "---" ++ lineFeed ++ lineFeed
            ++ lit "Content here")).
  right. reflexivity.
Defined.

(** *** Reading back what was written *)

Lemma split_line (l : str) : without isLineFeed l -> split "010" l = [l].
Proof.
  induction 1 as [|c l Hc _ IH]; [reflexivity|].
  cbn [split]. unfold isLineFeed in Hc. rewrite Hc, IH. reflexivity.
Qed.

Lemma split_lines (l rest : str) :
  without isLineFeed l ->
  split "010" (l ++ lineFeed ++ rest) = l :: split "010" rest.
Proof.
  induction 1 as [|c l Hc _ IH]; [reflexivity|].
  cbn [app split]. unfold isLineFeed in Hc. rewrite Hc, IH. reflexivity.
Qed.

Lemma split_join lines :
  Forall (without isLineFeed) lines -> lines <> [] ->
  split "010" (join lineFeed lines) = lines.
Proof.
  induction 1 as [|l ls Hl Hls IH]; [congruence|]. intros _.
  rewrite join_cons. destruct ls as [|l2 ls].
  - rewrite app_nil_r. apply split_line, Hl.
  - rewrite split_lines by exact Hl. rewrite IH by discriminate. reflexivity.
Qed.

Lemma indexOf_found c (u t : str) :
  without (fun x => Ascii.eqb x c) u ->
  indexOf c (u ++ c :: t) = Some (length u).
Proof.
  induction 1 as [|x u Hx _ IH]; cbn [app indexOf length].
  - rewrite Ascii.eqb_refl. reflexivity.
  - rewrite Hx, IH. reflexivity.
Qed.

Lemma quoted_endsWell s : endsWell (quoted s).
Proof. exists (ascii_of_nat 34 :: s), (ascii_of_nat 34). split; reflexivity. Qed.

Lemma parseValue_quoted toNumber s :
  parseValue toNumber (quoted s) = ParsedString s.
Proof.
  unfold parseValue, endsWith, quoted, sliceInner, quoteMark.
  cbn [app rev startsWith tl]. rewrite rev_app_distr. cbn [rev app startsWith].
  rewrite Ascii.eqb_refl. cbn [andb]. rewrite removelast_last. reflexivity.
Qed.

(** The line written for a string entry is read as the assignment of the
    string to the key. *)
Lemma parseYamlLine_string toNumber result key s :
  trim key = key -> without isColon key -> stopsAt isHash key ->
  parseYamlLine toNumber result (key ++ lit ": " ++ quoted s)
  = assign key (ParsedString s) result.
Proof.
  intros Hk Hc Hh.
  set (line := key ++ lit ": " ++ quoted s).
  assert (Hs : stopsAt isSpace line).
  { unfold line. destruct key as [|x key]; [reflexivity|].
    destruct (trim_shape (x :: key)) as [E|[S _]]; rewrite Hk in *;
      [discriminate | exact S]. }
  assert (He : endsWell line)
    by (unfold line; rewrite app_assoc; apply endsWell_app, quoted_endsWell).
  unfold parseYamlLine. rewrite (trim_id Hs He).
  assert (Hne : exists y r, line = y :: r /\ isHash y = false).
  { unfold line. destruct key as [|x key]; cbn [app lit String.list_ascii_of_string];
      eauto. }
  destruct Hne as (y & r & Ey & Hy). rewrite Ey at 1 2.
  cbn [startsWith lit String.list_ascii_of_string orb].
  unfold isHash in Hy. rewrite Ascii.eqb_sym, Hy. cbn [andb].
  unfold line at 1. cbn [lit String.list_ascii_of_string app].
  rewrite indexOf_found by exact Hc.
  unfold line. rewrite firstn_app, Nat.sub_diag, firstn_all. cbn [firstn].
  rewrite app_nil_r, Hk.
  rewrite skipn_app, skipn_all2 by lia.
  replace (length key + 1 - length key) with 1 by lia.
  cbn [lit String.list_ascii_of_string app skipn].
  replace (trim (" "%char :: quoted s)) with (quoted s).
  - rewrite parseValue_quoted. reflexivity.
  - symmetry. unfold trim. cbn [trimStart isSpace].
    change (trimEnd (trimStart (quoted s))) with (trim (quoted s)).
    apply trim_id; [reflexivity | apply quoted_endsWell].
Qed.

Lemma getProperty_set_same key value record :
  getProperty key (setProperty key value record) = Some value.
Proof.
  induction record as [|[k v] r IH]; cbn [setProperty getProperty].
  - rewrite CoordinateFacts.eqb_refl. reflexivity.
  - destruct (eqb k key) eqn:E; cbn [getProperty]; rewrite E; auto.
Qed.

Lemma getProperty_set_other key k value record :
  eqb k key = false ->
  getProperty key (setProperty k value record) = getProperty key record.
Proof.
  intros N. induction record as [|[k' v] r IH]; cbn [setProperty getProperty].
  - rewrite N. reflexivity.
  - destruct (eqb k' k) eqn:E; cbn [getProperty].
    + apply SentimentFacts.eqb_true_iff in E as ->. rewrite N. reflexivity.
    + rewrite IH. reflexivity.
Qed.

Lemma lookupEntry_absent key fm :
  ~ In key (map fst fm) -> lookupEntry key fm = None.
Proof.
  induction fm as [|[k v] fm IH]; [reflexivity|]. cbn [map fst In lookupEntry].
  intros H. rewrite CoordinateFacts.eqb_neq by tauto. apply IH. tauto.
Qed.

(** The lines of string entries, read one after the other into [result]. *)
Lemma parseYaml_lines toNumber fm : forall result key,
  Forall stringEntry fm -> NoDup (map fst fm) ->
  getProperty key
    (fold_left (parseYamlLine toNumber) (flat_map yamlLines fm) result)
  = match lookupEntry key fm with
    | Some value => readBack value
    | None => getProperty key result
    end.
Proof.
  induction fm as [|[k v] fm IH]; intros result key Hfm Hnd; [reflexivity|].
  inversion Hfm as [|? ? (Hk & Hl & Hc & Hh & Hp & s & Es & Hs) Hfm']; subst.
  inversion Hnd as [|? ? Hin Hnd']; subst. cbn [fst snd] in *. subst v.
  cbn [flat_map yamlLines app fold_left lookupEntry].
  rewrite parseYamlLine_string by assumption.
  rewrite IH by assumption. unfold assign. rewrite Hp.
  destruct (eqb k key) eqn:E.
  - apply SentimentFacts.eqb_true_iff in E as <-.
    rewrite lookupEntry_absent by exact Hin.
    rewrite getProperty_set_same. reflexivity.
  - destruct (lookupEntry key fm); [reflexivity|].
    apply getProperty_set_other, E.
Qed.

Lemma yamlLines_oneLine fm :
  Forall stringEntry fm -> Forall (without isLineFeed) (flat_map yamlLines fm).
Proof.
  induction 1 as [|[k v] fm (_ & Hl & _ & _ & _ & s & Es & Hs) _ IH];
    [constructor|].
  cbn [fst snd] in *. subst v. cbn [flat_map yamlLines app]. constructor; [|exact IH].
  apply without_app; [exact Hl|]. apply without_app; [repeat constructor|].
  apply quoted_without, Hs.
Qed.

(** The record read back from the text written for a record of strings. *)
Lemma parseYaml_strings (toNumber : str -> JsNumber.number)
    (frontmatter : list (str * YamlValue)) (key : str) :
  Forall stringEntry frontmatter -> NoDup (map fst frontmatter) ->
  getProperty key (parseYaml toNumber (stringifyYaml frontmatter))
  = match lookupEntry key frontmatter with
    | Some value => readBack value
    | None => None
    end.
Proof.
  intros Hfm Hnd. unfold parseYaml, stringifyYaml.
  destruct frontmatter as [|entry fm]; [reflexivity|].
  rewrite split_join.
  - apply (parseYaml_lines toNumber [] key Hfm Hnd).
  - apply yamlLines_oneLine, Hfm.
  - destruct entry as [k [s|items|shown]]; discriminate.
Qed.

(** X18.  String values survive writing and reading.  For a record of
    strings with distinct keys, each key trimmed, on one line, without
    colon, not opened by [#] and not [__proto__], and each string on one
    line, [parseYaml] applied to what [stringifyYaml] wrote holds for every
    key the string the record held, whatever the string has inside (quotes,
    colons, spaces at its ends), and nothing for any other key. *)
Theorem parseYaml_stringifyYaml (toNumber : str -> JsNumber.number)
    (frontmatter : list (str * YamlValue)) (key : str) :
  Forall stringEntry frontmatter -> NoDup (map fst frontmatter) ->
  getProperty key (parseYaml toNumber (stringifyYaml frontmatter))
  = match lookupEntry key frontmatter with
    | Some value => readBack value
    | None => None
    end.
Proof. apply parseYaml_strings. Qed.

Ltac string_entry s :=
  split; [reflexivity|];
  split; [repeat constructor|];
  split; [repeat constructor|];
  split; [reflexivity|];
  split; [reflexivity|];
  exists s; split; [reflexivity | repeat constructor].

Lemma parseYaml_stringifyYaml_witness :
  getProperty (lit "source")
    (parseYaml (fun _ => S754_nan)
       (stringifyYaml
          [ (lit "date", ValString (lit "2024-01-15"));
            (lit "source", ValString (lit "Daily/2024-01-15: notes.md ")) ]))
  = Some (ParsedString (lit "Daily/2024-01-15: notes.md ")).
Proof.
  apply (@parseYaml_stringifyYaml (fun _ => S754_nan)
           [ (lit "date", ValString (lit "2024-01-15"));
             (lit "source", ValString (lit "Daily/2024-01-15: notes.md ")) ]
           (lit "source")).
  - constructor; [string_entry (lit "2024-01-15")|].
    constructor; [string_entry (lit "Daily/2024-01-15: notes.md ")|].
    constructor.
  - constructor; [cbn; intuition discriminate|].
    constructor; [cbn; tauto | constructor].
Defined.

(** *** The file-name pattern of [FileUtils] *)

(** X19.  [FileUtils.sanitizeFilename] puts an underscore in the place of
    each of the nine characters of its pattern and leaves every other
    character where it is: the result has the length of the name, holds
    none of the nine characters, and is left as it is by a second call. *)
Theorem sanitizeFilename_underscores (filename : str) :
  FileUtils.sanitizeFilename filename
  = map (fun c => if invalidFilenameChar c then "_"%char else c) filename
  /\ length (FileUtils.sanitizeFilename filename) = length filename
  /\ without invalidFilenameChar (FileUtils.sanitizeFilename filename)
  /\ FileUtils.sanitizeFilename (FileUtils.sanitizeFilename filename)
     = FileUtils.sanitizeFilename filename.
Proof.
  assert (E : forall s, FileUtils.sanitizeFilename s
              = map (fun c => if invalidFilenameChar c then "_"%char else c) s).
  { intros s. unfold FileUtils.sanitizeFilename, invalidFilenameChars.
    rewrite (@DateFacts.replace_single _ invalidFilenameChar);
      [ | reflexivity | intros; apply DateFacts.matchAt_class | reflexivity ].
    induction s as [|x s IH]; cbn [flat_map map]; [reflexivity|].
    rewrite IH. destruct (invalidFilenameChar x); reflexivity. }
  assert (W : forall s, without invalidFilenameChar
                (map (fun c => if invalidFilenameChar c then "_"%char else c) s)).
  { induction s as [|x s IH]; cbn [map]; constructor; [|exact IH].
    destruct (invalidFilenameChar x) eqn:Hx; [reflexivity | exact Hx]. }
  split; [apply E|]. split; [rewrite E; apply length_map|].
  split; [rewrite E; apply W|].
  rewrite (E (FileUtils.sanitizeFilename filename)), E.
  specialize (W filename).
  induction W as [|x s Hx _ IH]; cbn [map]; [reflexivity|].
  rewrite Hx, IH. reflexivity.
Qed.

End FrontmatterFacts.

(** ** Templates of file names, in src/utils/logger.ts *)

Module TemplateFacts.

Import DateUtils RegExpFacts SpaceFacts DateFacts.

(** *** Literal tokens *)

Lemma matchAt_token_nil c w n : matchAt (tokenRegExp (c :: w)) n [] = None.
Proof.
  unfold matchAt. cbn [tokenRegExp source ignoreCase map seq].
  destruct (map Chr w); [|rewrite exec_Seq]; reflexivity.
Qed.

Lemma scan_token_absent c w n (s : str) :
  without (Ascii.eqb c) s -> scan (tokenRegExp (c :: w)) n s 0 = map Keep s.
Proof.
  intros H. apply scan_no_match.
  apply (@CoordinateFacts.no_match_without _ _ (Ascii.eqb c));
    [| apply matchAt_token_nil | exact H].
  intros x t Hx. apply token_first, Hx.
Qed.

(** A text without the first letter of a token is left as it is. *)
Lemma replace_token_absent c w v (s : str) :
  without (Ascii.eqb c) s -> replace (tokenRegExp (c :: w)) v s = s.
Proof.
  intros H. apply replace_no_match.
  apply (@CoordinateFacts.no_match_without _ _ (Ascii.eqb c)); [| apply matchAt_token_nil | exact H].
  intros x t Hx. apply token_first, Hx.
Qed.

Lemma token_pair c w n (t : str) m :
  matchAt (tokenRegExp (c :: c :: w)) n t = Some m ->
  adjacent (Ascii.eqb c) (Ascii.eqb c) t = true.
Proof.
  unfold matchAt. cbn [tokenRegExp source ignoreCase map seq].
  intros H. destruct t as [|x [|y t]].
  - destruct (map Chr w); [|rewrite exec_Seq in H]; discriminate H.
  - rewrite exec_Seq, exec_Chr in H. destruct (chrMatch false c x); [|discriminate].
    destruct (map Chr w); [|rewrite exec_Seq in H]; discriminate H.
  - rewrite exec_Seq, exec_Chr in H. unfold chrMatch, canonicalize in H.
    destruct (Ascii.eqb c x) eqn:Ex; [|discriminate].
    assert (Ey : Ascii.eqb c y = true).
    { destruct (map Chr w); [|rewrite exec_Seq in H]; rewrite exec_Chr in H;
        unfold chrMatch, canonicalize in H;
        destruct (Ascii.eqb c y); [reflexivity | discriminate
                                  | reflexivity | discriminate]. }
    cbn [adjacent]. rewrite Ex, Ey. reflexivity.
Qed.

(** A text in which the letter of a token never stands twice in a row is
    left as it is by a token of two letters or more. *)
Lemma replace_token_no_pair c w v (s : str) :
  adjacent (Ascii.eqb c) (Ascii.eqb c) s = false ->
  replace (tokenRegExp (c :: c :: w)) v s = s.
Proof.
  intros H. apply replace_no_match.
  apply (@CoordinateFacts.no_match_adjacent _ _ (Ascii.eqb c) (Ascii.eqb c)); [|exact H].
  intros t m. apply token_pair.
Qed.

Lemma exec_token (M : Type) n tok (rest : str) caps
    (K : str -> list str -> option M) :
  tok <> [] ->
  exec false n (seq (map Chr tok)) (tok ++ rest) caps K = K rest caps.
Proof.
  induction tok as [|c tok IH]; [congruence|]. intros _.
  destruct tok as [|c2 tok].
  - cbn [map seq app]. rewrite exec_Chr, chrMatch_refl. reflexivity.
  - change (seq (map Chr (c :: c2 :: tok)))
      with (Seq (Chr c) (seq (map Chr (c2 :: tok)))).
    cbn [app]. rewrite exec_Seq, exec_Chr, chrMatch_refl.
    apply IH. discriminate.
Qed.

Lemma matchAt_token tok n (rest : str) :
  tok <> [] ->
  matchAt (tokenRegExp tok) n (tok ++ rest) = Some (mkMatch tok [] rest).
Proof.
  intros Hne. apply matchAt_intro. intros K HK.
  cbn [tokenRegExp source ignoreCase]. rewrite exec_token by exact Hne.
  exact HK.
Qed.

(** A token that stands once, between texts without its first letter. *)
Lemma replace_token_once c w v (pre post : str) :
  without (Ascii.eqb c) pre -> without (Ascii.eqb c) post ->
  replace (tokenRegExp (c :: w)) v (pre ++ (c :: w) ++ post)
  = pre ++ v ++ post.
Proof.
  intros Hpre Hpost. unfold replace. cbn [tokenRegExp global].
  rewrite (@scan_keep_prefix _ _ (Ascii.eqb c) pre)
    by first [ exact Hpre | intros; apply token_first; assumption ].
  rewrite (@scan_found _ _ (c :: w) post (mkMatch (c :: w) [] post))
    by first [ apply matchAt_token; discriminate | reflexivity | discriminate ].
  rewrite (scan_token_absent _ _ Hpost).
  rewrite flat_map_app, flat_map_Keep. cbn [flat_map].
  rewrite flat_map_Keep. reflexivity.
Qed.

(** Two letters in a row, between texts without the letter, are too short
    for a token of three letters or more. *)
Lemma replace_token_short c w v (pre post : str) :
  without (Ascii.eqb c) pre -> without (Ascii.eqb c) post ->
  replace (tokenRegExp (c :: c :: c :: w)) v (pre ++ [c; c] ++ post)
  = pre ++ [c; c] ++ post.
Proof.
  intros Hpre Hpost.
  assert (Hnone : forall n (t : str), stopsAt (Ascii.eqb c) t ->
            matchAt (tokenRegExp (c :: c :: c :: w)) n (c :: t) = None
            /\ matchAt (tokenRegExp (c :: c :: c :: w)) n (c :: c :: t) = None).
  { intros n t Ht. unfold matchAt.
    change (source (tokenRegExp (c :: c :: c :: w)))
      with (Seq (Chr c) (Seq (Chr c) (seq (map Chr (c :: w))))).
    cbn [ignoreCase tokenRegExp].
    assert (H3 : forall caps (K : str -> list str -> option MatchResult),
              exec false n (seq (map Chr (c :: w))) t caps K = None).
    { intros caps K. destruct t as [|x t]; cbn [map seq].
      - destruct (map Chr w); [|rewrite exec_Seq]; reflexivity.
      - cbn [stopsAt] in Ht.
        destruct (map Chr w); [|rewrite exec_Seq]; rewrite exec_Chr;
          unfold chrMatch, canonicalize; rewrite Ht; reflexivity. }
    split; rewrite exec_Seq, exec_Chr, chrMatch_refl.
    - destruct t as [|x t]; [reflexivity|]. cbn [stopsAt] in Ht.
      rewrite exec_Seq, exec_Chr. unfold chrMatch, canonicalize.
      rewrite Ht. reflexivity.
    - rewrite ?exec_Seq, ?exec_Chr, ?chrMatch_refl. apply H3. }
  assert (Hs : stopsAt (Ascii.eqb c) post)
    by (destruct Hpost; [exact I | assumption]).
  unfold replace. cbn [tokenRegExp global].
  rewrite (@scan_keep_prefix _ _ (Ascii.eqb c) pre)
    by first [ exact Hpre | intros; apply token_first; assumption ].
  cbn [app]. rewrite !scan_keep by (apply Hnone, Hs).
  rewrite (scan_token_absent _ _ Hpost).
  rewrite flat_map_app, flat_map_Keep. cbn [flat_map app].
  rewrite flat_map_Keep. reflexivity.
Qed.

(** *** The characters of the values and of the texts *)

Lemma intToString_numeric z :
  Forall (fun c => numeric c = true) (intToString z).
Proof.
  assert (D : forall n, Forall (fun c => numeric c = true) (natToString n)).
  { intros n. generalize (natToString_digits n). apply Forall_impl.
    intros c Hc. unfold numeric. rewrite Hc. reflexivity. }
  destruct z; cbn [intToString]; [apply D | apply D |].
  constructor; [reflexivity | apply D].
Qed.

Lemma pad2_digits n : Forall (fun c => isDigit c = true) (pad2 n).
Proof.
  unfold pad2, padStart. apply Forall_app. split; [|apply natToString_digits].
  induction (2 - length (natToString n)); cbn [repeat]; constructor; auto.
Qed.

Lemma pad2_numeric n : Forall (fun c => numeric c = true) (pad2 n).
Proof.
  generalize (pad2_digits n). apply Forall_impl.
  intros c Hc. unfold numeric. rewrite Hc. reflexivity.
Qed.

Lemma intToString_head z :
  exists x r, intToString z = x :: r /\ numeric x = true.
Proof.
  destruct z as [|p|p]; cbn [intToString].
  - destruct (natToString_head (Z.to_nat 0)) as (x & r & E & Hx).
    exists x, r. split; [exact E | unfold numeric; rewrite Hx; reflexivity].
  - destruct (natToString_head (Z.to_nat (Z.pos p))) as (x & r & E & Hx).
    exists x, r. split; [exact E | unfold numeric; rewrite Hx; reflexivity].
  - eexists _, _. split; reflexivity.
Qed.

Lemma pad2_head n : exists x r, pad2 n = x :: r /\ isDigit x = true.
Proof.
  pose proof (pad2_digits n) as H.
  destruct (pad2 n) as [|x r] eqn:E.
  - exfalso. unfold pad2, padStart in E.
    destruct (natToString_head n) as (d & ds & E' & _). rewrite E' in E.
    destruct (repeat "0"%char (2 - length (d :: ds))); discriminate.
  - inversion H; subst. eauto.
Qed.

(** A letter that no number holds. *)
Lemma numeric_lacks L (v : str) :
  numeric L = false -> Forall (fun c => numeric c = true) v ->
  without (Ascii.eqb L) v.
Proof.
  intros HL. apply Forall_impl. intros c Hc.
  destruct (Ascii.eqb L c) eqn:E; [|reflexivity].
  apply Ascii.eqb_eq in E. subst. congruence.
Qed.

Lemma numeric_without Q (v : str) :
  (forall c, numeric c = true -> Q c = false) ->
  Forall (fun c => numeric c = true) v -> without Q v.
Proof. intros HQ. apply Forall_impl. exact HQ. Qed.

(** A token letter that no quiet text holds. *)
Lemma quiet_lacks L (p : str) :
  oneOf "YMDHh" L = true -> quiet p -> without (Ascii.eqb L) p.
Proof.
  intros HL (H & _). revert H. apply Forall_impl. intros c Hc.
  destruct (Ascii.eqb L c) eqn:E; [|reflexivity].
  apply Ascii.eqb_eq in E. subst. congruence.
Qed.

Lemma adjacent_app_stop P Q (u v : str) :
  adjacent P Q u = false -> stopsAt Q v ->
  adjacent P Q (u ++ v) = adjacent P Q v.
Proof.
  induction u as [|x u IH]; intros Hu Hv; [reflexivity|].
  rewrite adjacent_cons in Hu. apply orb_false_iff in Hu as [H1 H2].
  cbn [app]. rewrite adjacent_cons, (IH H2 Hv).
  destruct u as [|y u]; cbn [app] in *.
  - destruct v as [|y v]; [rewrite andb_false_r; reflexivity|].
    cbn [stopsAt] in Hv. rewrite Hv, andb_false_r. reflexivity.
  - rewrite H1. reflexivity.
Qed.

(** A value, then the rest: no adjacency of the letter [L] is added. *)
Lemma adjacent_value L (x rest : str) :
  x <> [] -> without (Ascii.eqb L) x ->
  adjacent (Ascii.eqb L) (Ascii.eqb L) (x ++ rest)
  = adjacent (Ascii.eqb L) (Ascii.eqb L) rest
  /\ stopsAt (Ascii.eqb L) (x ++ rest).
Proof.
  intros Hne Hx. split.
  - apply FrontmatterFacts.adjacent_skip_l, Hx.
  - destruct Hx as [|y x Hy _]; [congruence | exact Hy].
Qed.

Lemma adjacent_dated L (a x1 b x2 c x3 e : str) :
  adjacent (Ascii.eqb L) (Ascii.eqb L) a = false ->
  adjacent (Ascii.eqb L) (Ascii.eqb L) b = false ->
  adjacent (Ascii.eqb L) (Ascii.eqb L) c = false ->
  adjacent (Ascii.eqb L) (Ascii.eqb L) e = false ->
  x1 <> [] -> without (Ascii.eqb L) x1 ->
  x2 <> [] -> without (Ascii.eqb L) x2 ->
  x3 <> [] -> without (Ascii.eqb L) x3 ->
  adjacent (Ascii.eqb L) (Ascii.eqb L)
    (a ++ x1 ++ b ++ x2 ++ c ++ x3 ++ e) = false.
Proof.
  intros Ha Hb Hc He N1 W1 N2 W2 N3 W3.
  destruct (@adjacent_value L x1 (b ++ x2 ++ c ++ x3 ++ e) N1 W1) as [E1 S1].
  destruct (@adjacent_value L x2 (c ++ x3 ++ e) N2 W2) as [E2 S2].
  destruct (@adjacent_value L x3 e N3 W3) as [E3 S3].
  rewrite (adjacent_app_stop _ _ _ _ Ha S1), E1.
  rewrite (adjacent_app_stop _ _ _ _ Hb S2), E2.
  rewrite (adjacent_app_stop _ _ _ _ Hc S3), E3. exact He.
Qed.

Ltac split_apps :=
  repeat match goal with
         | |- without _ (_ ++ _) => apply FrontmatterFacts.without_app
         end.

Ltac lack :=
  split_apps;
  first [ eapply quiet_lacks; [reflexivity | eassumption]
        | eapply numeric_lacks;
          [reflexivity
          | first [apply intToString_numeric | apply pad2_numeric]]
        | repeat constructor ].

(** The sixteen passes over a template made of quiet texts around [YYYY],
    [MM] and [DD]. *)
Lemma substituteTokens_dated (date : LocalDate) (a b c e : str) :
  quiet a -> quiet b -> quiet c -> quiet e ->
  substituteTokens (sortedTokens (replacements date))
    (a ++ lit "YYYY" ++ b ++ lit "MM" ++ c ++ lit "DD" ++ e)
  = dated date a b c e.
Proof.
  intros Ha Hb Hc He. rewrite sortedTokens_eq. cbv zeta.
  unfold substituteTokens, dated. cbn [fold_left fst snd].
  fold (pad2 (getMonth date + 1)). fold (pad2 (getDate date)).
  set (Y := intToString (getFullYear date)).
  set (Mo := pad2 (getMonth date + 1)).
  set (Da := pad2 (getDate date)).
  destruct (intToString_head (getFullYear date)) as (y0 & yr & EY & _).
  destruct (pad2_head (getMonth date + 1)) as (m0 & mr & EM & _).
  destruct (pad2_head (getDate date)) as (d0 & dr & ED & _).
  assert (NY : Y <> []) by (unfold Y; rewrite EY; discriminate).
  assert (NM : Mo <> []) by (unfold Mo; rewrite EM; discriminate).
  assert (ND : Da <> []) by (unfold Da; rewrite ED; discriminate).
  clear EY EM ED.
  set (s1 := a ++ Y ++ b ++ lit "MM" ++ c ++ lit "DD" ++ e).
  set (s2 := a ++ Y ++ b ++ Mo ++ c ++ lit "DD" ++ e).
  set (s3 := a ++ Y ++ b ++ Mo ++ c ++ Da ++ e).
  assert (E1 : replace (tokenRegExp (lit "YYYY")) Y
                 (a ++ lit "YYYY" ++ b ++ lit "MM" ++ c ++ lit "DD" ++ e) = s1).
  { apply (@replace_token_once "Y" (lit "YYY") Y a
             (b ++ lit "MM" ++ c ++ lit "DD" ++ e)); unfold Y; lack. }
  assert (R1 : s1 = (a ++ Y ++ b) ++ ["M"; "M"]%char ++ (c ++ lit "DD" ++ e))
    by (unfold s1; rewrite <- !app_assoc; reflexivity).
  assert (P1 : without (Ascii.eqb "M") (a ++ Y ++ b)) by (unfold Y; lack).
  assert (Q1 : without (Ascii.eqb "M") (c ++ lit "DD" ++ e)) by lack.
  assert (E2 : forall v, replace (tokenRegExp (lit "MMMM")) v s1 = s1).
  { intros v. rewrite R1.
    apply (@replace_token_short "M" (lit "M") v); assumption. }
  assert (E4 : forall v, replace (tokenRegExp (lit "MMM")) v s1 = s1).
  { intros v. rewrite R1.
    apply (@replace_token_short "M" [] v); assumption. }
  destruct Ha as (Wa & Ama & Asa & Ada). destruct Hb as (Wb & Amb & Asb & Adb).
  destruct Hc as (Wc & Amc & Asc & Adc). destruct He as (We & Ame & Ase & Ade).
  assert (Ha : quiet a) by (repeat split; assumption).
  assert (Hb : quiet b) by (repeat split; assumption).
  assert (Hc : quiet c) by (repeat split; assumption).
  assert (He : quiet e) by (repeat split; assumption).
  assert (D1 : adjacent (Ascii.eqb "d") (Ascii.eqb "d") s1 = false).
  { apply adjacent_dated; try assumption; try discriminate;
      try (repeat constructor).
    apply numeric_lacks; [reflexivity | apply intToString_numeric]. }
  assert (E3 : forall v, replace (tokenRegExp (lit "dddd")) v s1 = s1).
  { intros v. apply (@replace_token_no_pair "d" (lit "dd") v), D1. }
  assert (E5 : forall v, replace (tokenRegExp (lit "ddd")) v s1 = s1).
  { intros v. apply (@replace_token_no_pair "d" (lit "d") v), D1. }
  assert (E6 : forall v, replace (tokenRegExp (lit "YY")) v s1 = s1).
  { intros v. apply (@replace_token_absent "Y" (lit "Y") v).
    unfold s1, Y. lack. }
  assert (E7 : replace (tokenRegExp (lit "MM")) Mo s1 = s2).
  { rewrite R1.
    replace s2 with ((a ++ Y ++ b) ++ Mo ++ (c ++ lit "DD" ++ e))
      by (unfold s2; rewrite <- !app_assoc; reflexivity).
    apply (@replace_token_once "M" (lit "M") Mo); assumption. }
  assert (E8 : replace (tokenRegExp (lit "DD")) Da s2 = s3).
  { replace s2 with ((a ++ Y ++ b ++ Mo ++ c) ++ ("D"%char :: lit "D") ++ e)
      by (unfold s2; rewrite <- !app_assoc; reflexivity).
    replace s3 with ((a ++ Y ++ b ++ Mo ++ c) ++ Da ++ e)
      by (unfold s3; rewrite <- !app_assoc; reflexivity).
    apply (@replace_token_once "D" (lit "D") Da); unfold Y, Mo; lack. }
  assert (L3 : forall L, oneOf "YMDHh" L = true ->
                         without (Ascii.eqb L) s3).
  { intros L HL. unfold s3.
    assert (NL : numeric L = false).
    { revert HL. clear. destruct L as [[] [] [] [] [] [] [] []];
        vm_compute; congruence. }
    split_apps;
      first [ apply quiet_lacks; assumption
            | apply numeric_lacks;
              [exact NL
              | first [apply intToString_numeric | apply pad2_numeric]] ]. }
  assert (A3 : forall L, numeric L = false ->
                 adjacent (Ascii.eqb L) (Ascii.eqb L) a = false ->
                 adjacent (Ascii.eqb L) (Ascii.eqb L) b = false ->
                 adjacent (Ascii.eqb L) (Ascii.eqb L) c = false ->
                 adjacent (Ascii.eqb L) (Ascii.eqb L) e = false ->
                 adjacent (Ascii.eqb L) (Ascii.eqb L) s3 = false).
  { intros L NL La Lb Lc Le. apply adjacent_dated; try assumption;
      apply numeric_lacks;
      first [exact NL | apply intToString_numeric | apply pad2_numeric]. }
  rewrite E1, E2, E3, E4, E5, E6, E7, E8.
  rewrite (@replace_token_absent "H" (lit "H")) by (apply L3; reflexivity).
  rewrite (@replace_token_absent "h" (lit "h")) by (apply L3; reflexivity).
  rewrite (@replace_token_no_pair "m" []) by (apply A3; auto).
  rewrite (@replace_token_no_pair "s" []) by (apply A3; auto).
  rewrite (@replace_token_absent "M" []) by (apply L3; reflexivity).
  rewrite (@replace_token_absent "D" []) by (apply L3; reflexivity).
  rewrite (@replace_token_absent "H" []) by (apply L3; reflexivity).
  rewrite (@replace_token_absent "h" []) by (apply L3; reflexivity).
  reflexivity.
Qed.

(** *** When the sanitizing changes nothing *)

Lemma trim_without_space (s : str) : without isSpace s -> trim s = s.
Proof.
  intros H. destruct s as [|x s]; [reflexivity|].
  apply trim_id.
  - inversion H; subst. assumption.
  - destruct (exists_last (l := x :: s)) as (u & y & E); [discriminate|].
    exists u, y. split; [exact E|]. rewrite E in H.
    apply Forall_app in H as [_ H]. inversion H; subst. assumption.
Qed.

Lemma sanitizeFilename_id (s : str) :
  without invalidChar s -> without isSpace s -> stopsAt isDot s ->
  endsWithDot s = false ->
  sanitizeFilename s = s.
Proof.
  intros Hi Hs Hd He. unfold sanitizeFilename.
  rewrite replace_invalidChars, replace_whitespaceRuns,
    replace_leadingDots, replace_trailingDots.
  rewrite dashIllegal_id by exact Hi. unfold collapseWhitespace.
  rewrite collapseFrom_id by exact Hs.
  assert (E : stripLeadingDots s = s)
    by (destruct s as [|x s]; [reflexivity|]; cbn in Hd |- *;
        rewrite Hd; reflexivity).
  rewrite E. unfold dotsToMd. rewrite He. apply trim_without_space, Hs.
Qed.

Lemma endsWithDot_app (u e : str) :
  endsWithDot (u ++ e)
  = match e with [] => endsWithDot u | _ :: _ => endsWithDot e end.
Proof.
  destruct e as [|x e]; [rewrite app_nil_r; reflexivity|].
  unfold endsWithDot. rewrite rev_app_distr.
  destruct (rev (x :: e)) as [|y r] eqn:E; [|reflexivity].
  apply (f_equal (@length ascii)) in E. rewrite length_rev in E. discriminate.
Qed.

Lemma numeric_not_dot c : numeric c = true -> isDot c = false.
Proof. all_chars c. Qed.
Lemma numeric_not_space c : numeric c = true -> isSpace c = false.
Proof. all_chars c. Qed.
Lemma numeric_valid c : numeric c = true -> invalidChar c = false.
Proof. all_chars c. Qed.

Lemma endsWithDot_numeric (v : str) :
  Forall (fun c => numeric c = true) v -> endsWithDot v = false.
Proof.
  intros H. unfold endsWithDot. apply Forall_rev in H.
  destruct H as [|x r Hx _]; [reflexivity | apply numeric_not_dot, Hx].
Qed.

(** X20.  Templates of the usual kind give the expected name.  For a
    template made of [YYYY], [MM] and [DD] in this order with literal text
    before, between and after them, where each text has no [Y], [M], [D],
    [H] or [h] and no [m], [s] or [d] twice in a row (as in the default
    [Journal-YYYY-MM-DD.md]), [generateFilename] returns the sanitized form
    of the texts with the year, the two-digit month and the two-digit day
    in the place of the tokens, for every date.  When the texts also have
    no white space and none of the nine refused characters, the first does
    not start with a dot and the last does not end with one, the name is
    that text itself. *)
Theorem generateFilename_dated (date : LocalDate) (a b c e : str) :
  quiet a -> quiet b -> quiet c -> quiet e ->
  generateFilename date
    (a ++ lit "YYYY" ++ b ++ lit "MM" ++ c ++ lit "DD" ++ e)
  = sanitizeFilename (dated date a b c e)
  /\ (tidy a -> tidy b -> tidy c -> tidy e ->
      stopsAt isDot a -> endsWithDot e = false ->
      generateFilename date
        (a ++ lit "YYYY" ++ b ++ lit "MM" ++ c ++ lit "DD" ++ e)
      = dated date a b c e).
Proof.
  intros Ha Hb Hc He.
  assert (E : generateFilename date
                (a ++ lit "YYYY" ++ b ++ lit "MM" ++ c ++ lit "DD" ++ e)
              = sanitizeFilename (dated date a b c e)).
  { unfold generateFilename. rewrite substituteTokens_dated by assumption.
    reflexivity. }
  split; [exact E|].
  intros (Ia & Sa) (Ib & Sb) (Ic & Sc) (Ie & Se) Da De. rewrite E.
  pose proof (intToString_numeric (getFullYear date)) as NY.
  pose proof (pad2_numeric (getMonth date + 1)) as NM.
  pose proof (pad2_numeric (getDate date)) as ND.
  apply sanitizeFilename_id; unfold dated.
  - split_apps; try assumption;
      apply (numeric_without _ numeric_valid); assumption.
  - split_apps; try assumption;
      apply (numeric_without _ numeric_not_space); assumption.
  - destruct a as [|x a]; [|exact Da]. cbn [app].
    destruct (intToString_head (getFullYear date)) as (y0 & yr & -> & Hy).
    cbn [app stopsAt]. apply numeric_not_dot, Hy.
  - rewrite !app_assoc, endsWithDot_app. destruct e as [|x e]; [|exact De].
    rewrite endsWithDot_app.
    destruct (pad2_head (getDate date)) as (d0 & dr & Ed & _).
    rewrite Ed. rewrite <- Ed. apply endsWithDot_numeric, ND.
Qed.

Lemma generateFilename_dated_witness :
  generateFilename september2 (lit "Journal-YYYY-MM-DD.md")
  = lit "Journal-2025-09-02.md".
Proof.
  apply (proj2 (@generateFilename_dated september2
                  (lit "Journal-") (lit "-") (lit "-") (lit ".md")
                  ltac:(repeat split; repeat constructor)
                  ltac:(repeat split; repeat constructor)
                  ltac:(repeat split; repeat constructor)
                  ltac:(repeat split; repeat constructor)));
    try (split; repeat constructor); reflexivity.
Defined.

(** X21.  A template without date tokens does not depend on the date: a
    template with no [Y], [M], [D], [H] or [h] and no [m], [s] or [d] twice
    in a row is only sanitized. *)
Theorem generateFilename_literal (date : LocalDate) (template : str) :
  quiet template ->
  generateFilename date template = sanitizeFilename template.
Proof.
  intros Hq. pose proof Hq as (W & Am & As & Ad).
  unfold generateFilename. rewrite sortedTokens_eq. cbv zeta.
  unfold substituteTokens. cbn [fold_left fst snd].
  assert (L : forall L, oneOf "YMDHh" L = true ->
                        without (Ascii.eqb L) template)
    by (intros L HL; apply quiet_lacks; assumption).
  rewrite (@replace_token_absent "Y" (lit "YYY")) by (apply L; reflexivity).
  rewrite (@replace_token_absent "M" (lit "MMM")) by (apply L; reflexivity).
  rewrite (@replace_token_no_pair "d" (lit "dd")) by exact Ad.
  rewrite (@replace_token_absent "M" (lit "MM")) by (apply L; reflexivity).
  rewrite (@replace_token_no_pair "d" (lit "d")) by exact Ad.
  rewrite (@replace_token_absent "Y" (lit "Y")) by (apply L; reflexivity).
  rewrite (@replace_token_absent "M" (lit "M")) by (apply L; reflexivity).
  rewrite (@replace_token_absent "D" (lit "D")) by (apply L; reflexivity).
  rewrite (@replace_token_absent "H" (lit "H")) by (apply L; reflexivity).
  rewrite (@replace_token_absent "h" (lit "h")) by (apply L; reflexivity).
  rewrite (@replace_token_no_pair "m" []) by exact Am.
  rewrite (@replace_token_no_pair "s" []) by exact As.
  rewrite (@replace_token_absent "M" []) by (apply L; reflexivity).
  rewrite (@replace_token_absent "D" []) by (apply L; reflexivity).
  rewrite (@replace_token_absent "H" []) by (apply L; reflexivity).
  rewrite (@replace_token_absent "h" []) by (apply L; reflexivity).
  reflexivity.
Qed.

Lemma generateFilename_literal_witness :
  generateFilename september2 (lit "notes.md")
  = sanitizeFilename (lit "notes.md").
Proof.
  apply (@generateFilename_literal september2 (lit "notes.md")).
  repeat split; repeat constructor.
Defined.

End TemplateFacts.

(** ** The journal file, in src/services/journalManager.ts *)

Module JournalFacts.

Import CoordinateParser FileUtils AIService JournalManager.
Import RegExpFacts SpaceFacts DateFacts FrontmatterFacts.

(** *** Paragraph spacing *)

Lemma matchAt_breaks n (run rest : str) :
  Forall (fun x => isLineFeed x = true) run -> stopsAt isLineFeed rest ->
  2 <= length run ->
  matchAt paragraphBreaks n ("010"%char :: run ++ rest)
  = Some (mkMatch ("010"%char :: run) [] rest).
Proof.
  intros Hrun Hrest Hlen.
  destruct run as [|x [|y run]]; cbn [length] in Hlen; try lia.
  inversion Hrun as [|? ? Hx Hrun']; subst.
  inversion Hrun' as [|? ? Hy Hrun'']; subst.
  unfold isLineFeed in Hx, Hy. apply Ascii.eqb_eq in Hx, Hy. subst.
  unfold matchAt. cbn [paragraphBreaks source ignoreCase seq app].
  literal. rewrite exec_Plus. cbn [clsMatch].
  replace (isLineFeed "010") with true by reflexivity.
  apply starGreedy_run; [exact Hrun'' | exact Hrest |].
  pose proof (@firstn_prefix ("010"%char :: "010"%char :: "010"%char :: run)
                rest) as F.
  cbn [app] in F. rewrite F. reflexivity.
Qed.

Lemma matchAt_breaks_short n (run rest : str) :
  stopsAt isLineFeed rest -> length run < 3 ->
  matchAt paragraphBreaks n (run ++ rest) = None.
Proof.
  intros Hrest Hlen. unfold matchAt.
  cbn [paragraphBreaks source ignoreCase seq].
  assert (Hstop : forall (K : str -> list str -> option MatchResult) caps,
            exec false n (Chr "010") rest caps K = None)
    by (intros; apply chr_linefeed, Hrest).
  assert (Hplus : forall (K : str -> list str -> option MatchResult) caps,
            exec false n (Plus isLineFeed) rest caps K = None).
  { intros K caps. destruct rest as [|c rest]; [reflexivity|].
    rewrite exec_Plus. cbn [clsMatch]. cbn [stopsAt] in Hrest.
    rewrite Hrest. reflexivity. }
  destruct run as [|x [|y [|z run]]]; cbn [length app] in *; try lia.
  - rewrite exec_Seq. apply Hstop.
  - rewrite exec_Seq, exec_Chr. destruct (chrMatch false "010" x); [|reflexivity].
    rewrite exec_Seq. apply Hstop.
  - rewrite exec_Seq, exec_Chr. destruct (chrMatch false "010" x); [|reflexivity].
    rewrite exec_Seq, exec_Chr. destruct (chrMatch false "010" y); [|reflexivity].
    apply Hplus.
Qed.

Lemma squeezeFrom_stop k (rest : str) :
  stopsAt isLineFeed rest -> squeezeFrom k rest = squeezeFrom 0 rest.
Proof.
  destruct rest as [|c rest]; [reflexivity|]. cbn [stopsAt squeezeFrom].
  intros ->. reflexivity.
Qed.

Lemma squeezeFrom_run k (run rest : str) :
  Forall (fun x => isLineFeed x = true) run -> stopsAt isLineFeed rest ->
  2 <= k ->
  squeezeFrom k (run ++ rest) = squeezeFrom 0 rest.
Proof.
  intros Hrun Hrest. revert k.
  induction Hrun as [|x run Hx _ IH]; intros k Hk; cbn [app].
  - apply squeezeFrom_stop, Hrest.
  - cbn [squeezeFrom]. rewrite Hx.
    replace (k <? 2) with false by (symmetry; apply Nat.ltb_ge; lia).
    apply IH. lia.
Qed.

Lemma replace_paragraphBreaks (s : str) :
  paragraphSpacing s = squeezeFrom 0 s.
Proof.
  unfold paragraphSpacing, replace. cbn [paragraphBreaks global].
  generalize (length s) at 1. intros n.
  remember (length s) as bound eqn:Hb.
  assert (Hle : length s <= bound) by lia. clear Hb. revert s Hle.
  induction bound as [|bound IH]; intros s Hle.
  - destruct s; [reflexivity | cbn in Hle; lia].
  - destruct s as [|c s]; [reflexivity|].
    destruct (isLineFeed c) eqn:Hc.
    + unfold isLineFeed in Hc. apply Ascii.eqb_eq in Hc. subst c.
      destruct (span isLineFeed s) as (run & rest & -> & Hrun & Hrest).
      destruct run as [|x [|y run]].
      * cbn [app].
        rewrite scan_keep
          by (apply (@matchAt_breaks_short n ["010"%char] rest Hrest);
              cbn; lia).
        cbn [flat_map app squeezeFrom]. 
        replace (isLineFeed "010") with true by reflexivity. cbn [Nat.ltb Nat.leb].
        rewrite (squeezeFrom_stop 1 _ Hrest).
        rewrite IH; [reflexivity | cbn in Hle; lia].
      * inversion Hrun as [|? ? Hx _]; subst.
        unfold isLineFeed in Hx. apply Ascii.eqb_eq in Hx. subst x.
        cbn [app].
        rewrite scan_keep
          by (apply (@matchAt_breaks_short n ["010"; "010"]%char rest Hrest);
              cbn; lia).
        rewrite scan_keep
          by (apply (@matchAt_breaks_short n ["010"%char] rest Hrest);
              cbn; lia).
        cbn [flat_map app squeezeFrom].
        replace (isLineFeed "010") with true by reflexivity. cbn [Nat.ltb Nat.leb].
        rewrite (squeezeFrom_stop 2 _ Hrest).
        rewrite IH; [reflexivity | cbn in Hle; lia].
      * change ("010"%char :: (x :: y :: run) ++ rest)
          with (("010"%char :: x :: y :: run) ++ rest).
        rewrite (@scan_found paragraphBreaks n ("010"%char :: x :: y :: run) rest
                   (mkMatch ("010"%char :: x :: y :: run) [] rest))
          by first [ apply matchAt_breaks; [assumption | assumption | cbn; lia]
                   | reflexivity | discriminate ].
        cbn [flat_map]. rewrite IH
          by (cbn in Hle; rewrite length_app in Hle; cbn in Hle; lia).
        inversion Hrun as [|? ? Hx Hrun']; subst.
        inversion Hrun' as [|? ? Hy Hrun'']; subst.
        unfold isLineFeed in Hx. apply Ascii.eqb_eq in Hx. subst x.
        cbn [app squeezeFrom].
        replace (isLineFeed "010") with true by reflexivity.
        rewrite Hy. cbn [Nat.ltb Nat.leb].
        rewrite (@squeezeFrom_run 3 run rest) by (assumption || lia).
        reflexivity.
    + assert (N : matchAt paragraphBreaks n (c :: s) = None).
      { unfold matchAt. cbn [paragraphBreaks source ignoreCase seq].
        rewrite exec_Seq. apply chr_linefeed. exact Hc. }
      rewrite scan_keep by exact N.
      cbn [flat_map app squeezeFrom]. rewrite Hc.
      rewrite IH; [reflexivity | cbn in Hle; lia].
Qed.

Lemma squeezeFrom_text k (s : str) :
  filter notLineFeed (squeezeFrom k s) = filter notLineFeed s.
Proof.
  revert k. induction s as [|c s IH]; intros k; [reflexivity|].
  cbn [squeezeFrom filter]. unfold notLineFeed at 2.
  destruct (isLineFeed c) eqn:Hc; cbn [negb].
  - destruct (k <? 2); [cbn [filter]; unfold notLineFeed at 1; rewrite Hc|];
      apply IH.
  - cbn [filter]. unfold notLineFeed at 1. rewrite Hc. cbn [negb].
    f_equal. apply IH.
Qed.

Lemma includes_feeds_char k c :
  isLineFeed c = false -> includes (feeds k ++ [c]) threeLineFeeds = false.
Proof.
  intros Hc. unfold isLineFeed in Hc. rewrite Ascii.eqb_sym in Hc.
  unfold feeds, threeLineFeeds, lineFeed.
  destruct k as [|[|k]];
    cbn [Nat.min repeat app includes startsWith];
    rewrite ?Nat.min_0_r; cbn [repeat app includes startsWith];
    rewrite ?Ascii.eqb_refl, ?Hc; reflexivity.
Qed.

Lemma not_in_three c : isLineFeed c = false -> ~ In c threeLineFeeds.
Proof.
  intros Hc [E|[E|[E|[]]]]; subst; discriminate.
Qed.

Lemma feeds_step k :
  k < 2 -> feeds k ++ ["010"%char] = feeds (S k).
Proof. destruct k as [|[|k]]; [reflexivity | reflexivity | lia]. Qed.


Lemma squeezeFrom_spaced (s : str) : forall k,
  includes (feeds k ++ squeezeFrom k s) threeLineFeeds = false.
Proof.
  induction s as [|c s IH]; intros k.
  - cbn [squeezeFrom]. rewrite app_nil_r. unfold feeds.
    destruct k as [|[|k]]; cbn [Nat.min]; rewrite ?Nat.min_0_r; reflexivity.
  - cbn [squeezeFrom]. destruct (isLineFeed c) eqn:Hc.
    + pose proof Hc as Ec. unfold isLineFeed in Ec.
      apply Ascii.eqb_eq in Ec. subst c.
      destruct (k <? 2) eqn:Hk.
      * apply Nat.ltb_lt in Hk.
        change (feeds k ++ "010"%char :: squeezeFrom (S k) s)
          with (feeds k ++ ["010"%char] ++ squeezeFrom (S k) s).
        rewrite app_assoc, feeds_step by exact Hk. apply IH.
      * apply Nat.ltb_ge in Hk.
        replace (feeds k) with (feeds (S k))
          by (unfold feeds; f_equal; lia).
        apply IH.
    + rewrite ServiceFacts.includes_barrier
        by (apply not_in_three, Hc || discriminate).
      rewrite includes_feeds_char by exact Hc.
      apply (IH 0).
Qed.

Lemma includes_suffix (u v p : str) :
  includes (u ++ v) p = false -> includes v p = false.
Proof.
  intros H. destruct (includes v p) eqn:E; [|reflexivity].
  apply includes_sound in E as (pre & post & ->).
  rewrite app_assoc, SchedulerFacts.includes_middle in H. discriminate.
Qed.

Lemma squeezeFrom_id (s : str) : forall k,
  includes (feeds k ++ s) threeLineFeeds = false -> squeezeFrom k s = s.
Proof.
  induction s as [|c s IH]; intros k H; [reflexivity|].
  cbn [squeezeFrom]. destruct (isLineFeed c) eqn:Hc.
  - pose proof Hc as Ec. unfold isLineFeed in Ec.
    apply Ascii.eqb_eq in Ec. subst c.
    destruct (k <? 2) eqn:Hk.
    + apply Nat.ltb_lt in Hk. f_equal. apply IH.
      rewrite <- feeds_step by exact Hk. rewrite <- app_assoc. exact H.
    + apply Nat.ltb_ge in Hk. exfalso.
      assert (F : feeds k = ["010"; "010"]%char)
        by (unfold feeds; replace (Nat.min k 2) with 2 by lia; reflexivity).
      rewrite F in H.
      change (["010"; "010"]%char ++ "010"%char :: s)
        with ([] ++ threeLineFeeds ++ s) in H.
      rewrite SchedulerFacts.includes_middle in H. discriminate.
  - f_equal. apply (IH 0). apply (includes_suffix (feeds k ++ [c])).
    rewrite <- app_assoc. exact H.
Qed.

(** X22.  The paragraph spacing of [formatJournalContent].  After the
    replacement no three line feeds stand in a row, so at most one blank
    line separates two paragraphs; a content without three line feeds in a
    row is left as it is; only line feeds are removed, every other
    character stays in its order; and a second replacement changes
    nothing. *)
Theorem paragraphSpacing_spaced (content : str) :
  includes (paragraphSpacing content) threeLineFeeds = false
  /\ (includes content threeLineFeeds = false ->
      paragraphSpacing content = content)
  /\ filter notLineFeed (paragraphSpacing content)
     = filter notLineFeed content
  /\ paragraphSpacing (paragraphSpacing content) = paragraphSpacing content.
Proof.
  rewrite !replace_paragraphBreaks.
  assert (A : includes (squeezeFrom 0 content) threeLineFeeds = false)
    by apply (squeezeFrom_spaced content 0).
  split; [exact A|]. split; [|split].
  - intros H. apply (squeezeFrom_id content 0 H).
  - apply squeezeFrom_text.
  - apply (squeezeFrom_id _ 0 A).
Qed.

Lemma paragraphSpacing_spaced_witness :
  paragraphSpacing (lit "Walked the dog.") = lit "Walked the dog.".
Proof.
  apply (proj1 (proj2 (paragraphSpacing_spaced (lit "Walked the dog.")))).
  reflexivity.
Defined.

(** *** The journal file *)

Lemma frontmatterOf_eq show created (e : JournalEntry) :
  frontmatterOf show created e
  = [ (lit "date", ValString (date e));
      (lit "source", ValString (sourceFile e));
      (lit "created", ValString created) ]
    ++ match sentiment e with
       | Some s => [(lit "sentiment", ValString (label s))]
       | None => []
       end
    ++ match coordinates e with
       | [] => []
       | [coord] => [(lit "location", ValString (bracketPair show coord))]
       | coords =>
           [(lit "locations",
             ValArray (map (fun coord => ItemString (bracketPair show coord))
                         coords))]
       end.
Proof.
  unfold frontmatterOf. destruct (coordinates e) as [|c1 [|c2 cs]]; reflexivity.
Qed.

Lemma bracketPair_oneLine show coord :
  (forall x, without isLineFeed (show x)) ->
  without isLineFeed (bracketPair show coord).
Proof.
  intros H. unfold bracketPair.
  repeat match goal with
         | |- without _ (_ ++ _) => apply without_app
         end; first [apply H | repeat constructor].
Qed.

Lemma label_oneLine s : without isLineFeed (label s).
Proof. destruct s; repeat constructor. Qed.

Lemma frontmatterOf_onOneLine show created (e : JournalEntry) :
  without isLineFeed (date e) -> without isLineFeed (sourceFile e) ->
  without isLineFeed created -> (forall x, without isLineFeed (show x)) ->
  onOneLine (frontmatterOf show created e).
Proof.
  intros Hd Hs Hc Hshow. rewrite frontmatterOf_eq. unfold onOneLine.
  apply Forall_app. split; [|apply Forall_app; split].
  - constructor; [|constructor; [|constructor; [|constructor]]];
      (split; [repeat constructor|]; split; [reflexivity|]);
      constructor; [assumption | constructor | assumption | constructor
                   | assumption | constructor].
  - destruct (sentiment e); constructor; [|constructor].
    split; [repeat constructor|]. split; [reflexivity|].
    constructor; [apply label_oneLine | constructor].
  - destruct (coordinates e) as [|c1 [|c2 cs]]; [constructor| |].
    + constructor; [|constructor]. split; [repeat constructor|].
      split; [reflexivity|].
      constructor; [apply bracketPair_oneLine, Hshow | constructor].
    + constructor; [|constructor]. split; [repeat constructor|].
      split; [reflexivity|]. cbn [snd yamlTexts].
      rewrite map_map. apply Forall_map, Forall_forall.
      intros coord _. apply bracketPair_oneLine, Hshow.
Qed.

Lemma finalContent_stops (e : JournalEntry) :
  title e <> [] \/ stopsAt isSpace (content e) ->
  stopsAt isSpace (finalContent e).
Proof.
  intros H. unfold finalContent.
  destruct (title e) as [|t ts]; [|reflexivity].
  destruct H as [H|H]; [congruence|].
  rewrite replace_paragraphBreaks.
  destruct (content e) as [|c s]; [exact I|]. cbn [stopsAt] in H.
  cbn [squeezeFrom]. rewrite (space_not_linefeed _ H). exact H.
Qed.

Lemma frontmatterOf_strings show created (e : JournalEntry) :
  without isLineFeed (date e) -> without isLineFeed (sourceFile e) ->
  without isLineFeed created -> (forall x, without isLineFeed (show x)) ->
  length (coordinates e) <= 1 ->
  Forall stringEntry (frontmatterOf show created e)
  /\ NoDup (map fst (frontmatterOf show created e)).
Proof.
  intros Hd Hs Hc Hshow Hlen. rewrite frontmatterOf_eq.
  assert (K : forall key s, 
            trim key = key -> without isLineFeed key -> without isColon key ->
            stopsAt isHash key -> eqb key (lit "__proto__") = false ->
            without isLineFeed s -> stringEntry (key, ValString s)).
  { intros key s H1 H2 H3 H4 H5 H6. unfold stringEntry. cbn [fst snd].
    split; [exact H1|]. split; [exact H2|]. split; [exact H3|].
    split; [exact H4|]. split; [exact H5|].
    exists s. split; [reflexivity | exact H6]. }
  assert (Kl : forall key s, In key [lit "date"; lit "source"; lit "created";
                                     lit "sentiment"; lit "location"] ->
                 without isLineFeed s -> stringEntry (key, ValString s)).
  { intros key s Hin Hs'. cbn [In] in Hin.
    destruct Hin as [<-|[<-|[<-|[<-|[<-|[]]]]]]; apply K;
      first [exact Hs' | reflexivity | repeat constructor]. }
  destruct (coordinates e) as [|c1 [|c2 cs]]; cbn [length] in Hlen; try lia;
    destruct (sentiment e) as [s|]; cbn [app map fst]; split;
    repeat first
      [ apply Forall_nil
      | apply Forall_cons;
        [apply Kl;
         [cbn [In]; tauto
         | first [assumption | apply label_oneLine
                 | apply bracketPair_oneLine, Hshow]]|]
      | apply NoDup_nil
      | apply NoDup_cons; [cbn [In]; intuition discriminate|] ].
Qed.

Lemma frontmatterOf_nonempty show created (e : JournalEntry) :
  frontmatterOf show created e <> [].
Proof. rewrite frontmatterOf_eq. discriminate. Qed.

(** X23.  The journal file that [formatJournalContent] writes is read back
    by [parseFrontmatter].  When the date, the source path and the creation
    time are each on one line, numbers are written on one line, and the
    entry has a title or a content that does not start with white space,
    the body read back is the title line, a blank line and the content with
    its paragraphs spaced, and the text handed to [parseYaml] is the one
    written for the record.  With at most one coordinate, the record read
    back holds the date, the source, the creation time and the sentiment
    label as they were written. *)
Theorem formatJournalContent_read (show : JsNumber.number -> str)
    (toNumber : str -> JsNumber.number) (created : str) (e : JournalEntry) :
  without isLineFeed (date e) -> without isLineFeed (sourceFile e) ->
  without isLineFeed created -> (forall x, without isLineFeed (show x)) ->
  title e <> [] \/ stopsAt isSpace (content e) ->
  let written := formatJournalContent show created e in
  parseFrontmatter toNumber written
  = (parseYaml toNumber (stringifyYaml (frontmatterOf show created e)),
     finalContent e)
  /\ (length (coordinates e) <= 1 ->
      let record := fst (parseFrontmatter toNumber written) in
      getProperty (lit "date") record = Some (ParsedString (date e))
      /\ getProperty (lit "source") record
         = Some (ParsedString (sourceFile e))
      /\ getProperty (lit "created") record = Some (ParsedString created)
      /\ getProperty (lit "sentiment") record
         = option_map (fun s => ParsedString (label s)) (sentiment e)).
Proof.
  intros Hd Hs Hc Hshow Ht written.
  assert (E : parseFrontmatter toNumber written
              = (parseYaml toNumber
                   (stringifyYaml (frontmatterOf show created e)),
                 finalContent e)).
  { apply parseFrontmatter_written.
    - apply frontmatterOf_nonempty.
    - apply frontmatterOf_onOneLine; assumption.
    - apply finalContent_stops, Ht. }
  split; [exact E|]. intros Hlen record. unfold record. rewrite E. cbn [fst].
  destruct (@frontmatterOf_strings show created e Hd Hs Hc Hshow Hlen)
    as [F N].
  rewrite !(@parseYaml_strings toNumber _ _ F N).
  rewrite frontmatterOf_eq.
  repeat split; try reflexivity.
  destruct (sentiment e) as [s|]; [reflexivity|].
  destruct (coordinates e) as [|c1 [|c2 cs]]; reflexivity.
Qed.

Lemma formatJournalContent_read_witness :
  parseFrontmatterBody
    (formatJournalContent (fun _ => lit "0") (lit "2025-09-03T06:00:00.000Z")
       walk)
  = lit "# September 2nd, 2025" ++ lineFeed ++ lineFeed
    ++ lit "Walked the dog." ++ lineFeed ++ lineFeed ++ lit "Slept well.".
Proof.
  pose proof (@formatJournalContent_read (fun _ => lit "0")
                (fun _ => S754_nan) (lit "2025-09-03T06:00:00.000Z") walk
                ltac:(repeat constructor) ltac:(repeat constructor)
                ltac:(repeat constructor)
                ltac:(intros; repeat constructor)
                ltac:(left; discriminate)) as [E _].
  apply (f_equal snd) in E. exact E.
Defined.

End JournalFacts.

(** ** The search for notes, in src/services/noteProcessor.ts *)

Module SearchFacts.

Import CoordinateParser NoteProcessor DateUtils AIService NoteSearch.
Import RegExpFacts SpaceFacts EntryFacts.

(** *** The notes still to process *)

(** What one file adds to the list. *)
Lemma scanFile_cases v acc file :
  scanFile v acc file = acc
  \/ exists date note,
       parseDateFromFilename v (fileName file) = Some date
       /\ isBeforeToday v date = true
       /\ journalEntryExists v date = false
       /\ parsedFrom v file date note
       /\ entries note <> []
       /\ scanFile v acc file = acc ++ [note].
Proof.
  unfold scanFile, parseDailyNoteFile.
  destruct (parseDateFromFilename v (fileName file)) as [date|] eqn:Ed;
    [|left; reflexivity].
  destruct (isBeforeToday v date) eqn:Eb; [|left; reflexivity].
  destruct (journalEntryExists v date) eqn:Ej; [left; reflexivity|].
  cbn [negb]. destruct (readFile v file) as [e|content] eqn:Er;
    [left; reflexivity|].
  destruct (entries (parseDailyNote (filePath file) content
                       (formatDate v date))) as [|x xs] eqn:Ee;
    [left; reflexivity|].
  right. exists date, (parseDailyNote (filePath file) content
                         (formatDate v date)).
  split; [reflexivity|]. split; [exact Eb|]. split; [exact Ej|].
  split; [exists content; split; [exact Er | reflexivity]|].
  split; [rewrite Ee; discriminate | reflexivity].
Qed.

Lemma scanFile_found v acc file date note :
  parseDateFromFilename v (fileName file) = Some date ->
  isBeforeToday v date = true -> journalEntryExists v date = false ->
  parsedFrom v file date note -> entries note <> [] ->
  scanFile v acc file = acc ++ [note].
Proof.
  intros Ed Eb Ej (content & Er & ->) Hne.
  unfold scanFile, parseDailyNoteFile. rewrite Ed, Eb, Ej, Er. cbn [negb].
  destruct (entries (parseDailyNote (filePath file) content
                       (formatDate v date))); [congruence | reflexivity].
Qed.


Lemma scan_unprocessed v : forall fs pre acc,
  Forall (unprocessed v pre) acc ->
  Forall (unprocessed v (pre ++ fs)) (fold_left (scanFile v) fs acc).
Proof.
  induction fs as [|file fs IH]; intros pre acc H.
  - rewrite app_nil_r. exact H.
  - cbn [fold_left].
    replace (pre ++ file :: fs) with ((pre ++ [file]) ++ fs)
      by (rewrite <- app_assoc; reflexivity).
    apply IH.
    assert (W : Forall (unprocessed v (pre ++ [file])) acc).
    { revert H. apply Forall_impl.
      intros note (H1 & H2 & f & d & (Hin & Hd & Hb) & Hrest).
      split; [exact H1|]. split; [exact H2|]. exists f, d.
      split; [|exact Hrest].
      split; [apply in_or_app; left; exact Hin | auto]. }
    destruct (scanFile_cases v acc file)
      as [->|(date & note & Ed & Eb & Ej & Hp & Hne & ->)]; [exact W|].
    apply Forall_app. split; [exact W|]. constructor; [|constructor].
    split; [exact Hne|]. split.
    + destruct Hp as (content & _ & ->). apply parsed_hasContent, Hne.
    + exists file, date. split; [|auto].
      split; [apply in_or_app; right; left; reflexivity | auto].
Qed.

Lemma scan_length v : forall fs acc,
  length (fold_left (scanFile v) fs acc) <= length acc + length fs.
Proof.
  induction fs as [|file fs IH]; intros acc; cbn [fold_left length]; [lia|].
  specialize (IH (scanFile v acc file)).
  destruct (scanFile_cases v acc file) as [E|(d & n & _ & _ & _ & _ & _ & E)];
    rewrite E in *; [|rewrite length_app in IH; cbn [length] in IH]; lia.
Qed.

Lemma scan_keeps v note : forall fs acc,
  In note acc -> In note (fold_left (scanFile v) fs acc).
Proof.
  induction fs as [|file fs IH]; intros acc H; [exact H|].
  cbn [fold_left]. apply IH.
  destruct (scanFile_cases v acc file) as [->|(d & n & _ & _ & _ & _ & _ & ->)];
    [exact H | apply in_or_app; left; exact H].
Qed.

Lemma scan_complete v file date note : forall fs acc,
  In file fs ->
  parseDateFromFilename v (fileName file) = Some date ->
  isBeforeToday v date = true -> journalEntryExists v date = false ->
  parsedFrom v file date note -> entries note <> [] ->
  In note (fold_left (scanFile v) fs acc).
Proof.
  induction fs as [|x fs IH]; intros acc Hin Ed Eb Ej Hp Hne; [destruct Hin|].
  cbn [fold_left]. destruct Hin as [->|Hin].
  - apply scan_keeps. rewrite (@scanFile_found v acc _ _ _ Ed Eb Ej Hp Hne).
    apply in_or_app. right. left. reflexivity.
  - apply IH; assumption.
Qed.

(** X24.  What [findUnprocessedDailyNotes] returns.  Every note returned
    comes from a file of the source folder whose name gives a date before
    today, for which no journal file exists and that could be read; it has
    at least one entry, and so content for the AI service: the scheduler's
    check for empty content skips none of them.  There are at most as many
    notes as files, and every file that meets these conditions has its
    note in the list; a file that cannot be read is skipped without
    stopping the search. *)
Theorem findUnprocessedDailyNotes_sound (v : Vault) :
  Forall (unprocessed v (files v)) (findUnprocessedDailyNotes v)
  /\ length (findUnprocessedDailyNotes v) <= length (files v)
  /\ (forall file date note,
        pastNote v file date -> journalEntryExists v date = false ->
        parsedFrom v file date note -> entries note <> [] ->
        In note (findUnprocessedDailyNotes v)).
Proof.
  unfold findUnprocessedDailyNotes. split; [|split].
  - apply (@scan_unprocessed v (files v) [] []). constructor.
  - apply (@scan_length v (files v) []).
  - intros file date note (Hin & Ed & Eb) Ej Hp Hne.
    apply (@scan_complete v file date note (files v) [] Hin Ed Eb Ej Hp Hne).
Qed.

Lemma findUnprocessedDailyNotes_sound_witness :
  In (parseDailyNote (lit "Daily/2025-09-02.md") (lit "- Walked the dog")
        (lit "2025-09-02"))
     (findUnprocessedDailyNotes sampleVault).
Proof.
  apply (proj2 (proj2 (findUnprocessedDailyNotes_sound sampleVault))
           (mkTFile (lit "2025-09-02.md") (lit "Daily/2025-09-02.md"))
           (day 2)).
  - split; [right; left; reflexivity | split; reflexivity].
  - reflexivity.
  - exists (lit "- Walked the dog"). split; reflexivity.
  - vm_compute. discriminate.
Defined.

(** *** The latest note *)

Lemma pastIn_snoc v pre x file date :
  pastIn v (pre ++ [x]) file date ->
  pastIn v pre file date
  \/ (file = x /\ parseDateFromFilename v (fileName x) = Some date
      /\ isBeforeToday v date = true).
Proof.
  intros (Hin & Hd & Hb). apply in_app_or in Hin as [Hin|[<-|[]]].
  - left. split; [exact Hin | auto].
  - right. auto.
Qed.

Lemma pastIn_more v pre fs file date :
  pastIn v pre file date -> pastIn v (pre ++ fs) file date.
Proof.
  intros (Hin & H). split; [apply in_or_app; left; exact Hin | exact H].
Qed.

Lemma keepMostRecent_step v pre acc x :
  latestIn v pre acc -> latestIn v (pre ++ [x]) (keepMostRecent v acc x).
Proof.
  intros H. unfold keepMostRecent.
  destruct (parseDateFromFilename v (fileName x)) as [date|] eqn:Ed.
  - destruct (isBeforeToday v date) eqn:Eb; cbn [negb].
    + assert (Px : pastIn v (pre ++ [x]) x date).
      { split; [apply in_or_app; right; left; reflexivity | auto]. }
      destruct acc as [[f recent]|]; cbn [latestIn] in *.
      * destruct H as (Hf & Hmax).
        destruct (getTime recent <? getTime date)%Z eqn:El; cbn [latestIn].
        -- apply Z.ltb_lt in El. split; [exact Px|].
           intros f' d' Hp. apply pastIn_snoc in Hp as [Hp|(-> & Hd' & _)].
           ++ specialize (Hmax _ _ Hp). lia.
           ++ rewrite Ed in Hd'. injection Hd' as <-. lia.
        -- apply Z.ltb_ge in El. split; [apply pastIn_more, Hf|].
           intros f' d' Hp. apply pastIn_snoc in Hp as [Hp|(-> & Hd' & _)].
           ++ apply (Hmax _ _ Hp).
           ++ rewrite Ed in Hd'. injection Hd' as <-. exact El.
      * split; [exact Px|].
        intros f' d' Hp. apply pastIn_snoc in Hp as [Hp|(-> & Hd' & _)].
        -- destruct (H _ _ Hp).
        -- rewrite Ed in Hd'. injection Hd' as <-. lia.
    + destruct acc as [[f recent]|]; cbn [latestIn] in *.
      * destruct H as (Hf & Hmax). split; [apply pastIn_more, Hf|].
        intros f' d' Hp. apply pastIn_snoc in Hp as [Hp|(-> & Hd' & Hb')].
        -- apply (Hmax _ _ Hp).
        -- rewrite Ed in Hd'. injection Hd' as <-. congruence.
      * intros f' d' Hp. apply pastIn_snoc in Hp as [Hp|(-> & Hd' & Hb')].
        -- apply (H _ _ Hp).
        -- rewrite Ed in Hd'. injection Hd' as <-. congruence.
  - destruct acc as [[f recent]|]; cbn [latestIn] in *.
    + destruct H as (Hf & Hmax). split; [apply pastIn_more, Hf|].
      intros f' d' Hp. apply pastIn_snoc in Hp as [Hp|(-> & Hd' & _)].
      * apply (Hmax _ _ Hp).
      * congruence.
    + intros f' d' Hp. apply pastIn_snoc in Hp as [Hp|(-> & Hd' & _)].
      * apply (H _ _ Hp).
      * congruence.
Qed.

Lemma keepMostRecent_fold v : forall fs pre acc,
  latestIn v pre acc ->
  latestIn v (pre ++ fs) (fold_left (keepMostRecent v) fs acc).
Proof.
  induction fs as [|x fs IH]; intros pre acc H.
  - rewrite app_nil_r. exact H.
  - cbn [fold_left].
    replace (pre ++ x :: fs) with ((pre ++ [x]) ++ fs)
      by (rewrite <- app_assoc; reflexivity).
    apply IH, keepMostRecent_step, H.
Qed.

Lemma mostRecent_latest v :
  latestIn v (files v) (fold_left (keepMostRecent v) (files v) None).
Proof.
  apply (@keepMostRecent_fold v (files v) [] None).
  intros file date (Hin & _). destruct Hin.
Qed.

(** X25.  What [findMostRecentDailyNote] returns.  A note that is returned
    comes from the file with the latest date among the files dated before
    today, no journal file exists for that date, and the note has an entry
    and content for the AI service.  Without any such file the result is
    [null]; and what is thrown is always an [Error] whose message starts
    with [Failed to find recent daily note: ]. *)
Theorem findMostRecentDailyNote_latest (v : Vault) :
  (forall note,
     findMostRecentDailyNote v = inr (Some note) ->
     exists file date,
       pastNote v file date
       /\ (forall file' date',
             pastNote v file' date' -> (getTime date' <= getTime date)%Z)
       /\ journalEntryExists v date = false
       /\ parsedFrom v file date note
       /\ entries note <> []
       /\ Scheduler.hasContent note = true)
  /\ ((forall file date, ~ pastNote v file date) ->
      findMostRecentDailyNote v = inr None)
  /\ (forall error,
        findMostRecentDailyNote v = inl error ->
        exists cause,
          error = newError (lit "Failed to find recent daily note: " ++ cause)).
Proof.
  pose proof (mostRecent_latest v) as L. unfold findMostRecentDailyNote.
  destruct (fold_left (keepMostRecent v) (files v) None) as [[file date]|];
    cbn [latestIn] in L;
    [|split; [discriminate | split; [reflexivity | discriminate]]].
  destruct L as (Hp & Hmax).
  unfold parseDailyNoteFile.
  destruct (journalEntryExists v date) eqn:Ej;
    [split; [discriminate | split; [reflexivity | discriminate]]|].
  destruct (readFile v file) as [e|content] eqn:Er.
  { split; [discriminate|]. split; [intros H; destruct (H _ _ Hp)|].
    intros error E. injection E as <-. exists (message e). reflexivity. }
  destruct (entries (parseDailyNote (filePath file) content
                       (formatDate v date))) as [|x xs] eqn:Ee;
    [split; [discriminate | split; [reflexivity | discriminate]]|].
  split; [|split; [intros H; destruct (H _ _ Hp) | discriminate]].
  intros note E. injection E as <-. exists file, date.
  split; [exact Hp|]. split; [exact Hmax|]. split; [exact Ej|].
  split; [exists content; auto|].
  assert (Hne : entries (parseDailyNote (filePath file) content
                           (formatDate v date)) <> [])
    by (rewrite Ee; discriminate).
  split; [exact Hne | apply parsed_hasContent, Hne].
Qed.

Lemma findMostRecentDailyNote_latest_witness :
  exists file date,
    pastNote sampleVault file date
    /\ (forall file' date',
          pastNote sampleVault file' date' ->
          (getTime date' <= getTime date)%Z)
    /\ journalEntryExists sampleVault date = false
    /\ parsedFrom sampleVault file date
         (parseDailyNote (lit "Daily/2025-09-02.md") (lit "- Walked the dog")
            (lit "2025-09-02"))
    /\ entries (parseDailyNote (lit "Daily/2025-09-02.md")
                  (lit "- Walked the dog") (lit "2025-09-02")) <> []
    /\ Scheduler.hasContent
         (parseDailyNote (lit "Daily/2025-09-02.md") (lit "- Walked the dog")
            (lit "2025-09-02")) = true.
Proof.
  apply (proj1 (findMostRecentDailyNote_latest sampleVault)).
  vm_compute. reflexivity.
Defined.

End SearchFacts.
